(* ===== verification/_CoqProject ===== *)
-Q . S2P
Prelude.v
Interfaces.v
Reference.v
Convert.v
FetchStage.v
Ofac.v
OfacTests.v
InterestFilter.v
Schedule.v
Health.v
Relayer.v
RelayerForward.v
RelayerLoop.v
RelayerReport.v
AuthInterceptor.v
AuthChallenges.v
AuthService.v
AuthSystem.v
AuthProofs.v
AuthConcurrency.v
BlockEngineStats.v
BlockEngine.v
BlockEngineProofs.v
LoadBalancer.v
Forwarder.v
Startup.v
Web.v
StakedNodes.v
PacketBlaster.v
Pipeline.v
EnginePath.v
Accounts.v
Tpu.v
Shutdown.v
Main.v
