(* ===== verification/Prelude.v ===== *)
(** * Verification of the transaction relayer

    ** The program

    The relayer stands between the transaction ports (TPU) of a cluster and two
    kinds of clients.  Packets arrive over QUIC, are verified, and reach the
    forward-and-delay thread ([src/transaction-relayer/src/forwarder.rs]): it
    offers each batch to the block engine at once and holds it back for the
    validators until the packet delay has passed.  The block engine thread
    ([src/block_engine/src/block_engine.rs]) authenticates with the block
    engine, is told which accounts and programs are of interest, and streams
    the matching packets.  The relayer service ([src/relayer/src/relayer.rs])
    serves validators over gRPC: they authenticate by a signed challenge
    ([auth_service.rs], [auth_challenges.rs], [auth_interceptor.rs]),
    subscribe, and receive packets when they lead a slot of the near future.
    Slots come from the RPC servers through the load balancer
    ([src/rpc/src/load_balancer.rs]) and the health manager
    ([health_manager.rs]), leaders from the schedule cache
    ([schedule_cache.rs]).  Transactions that mention an address of the OFAC
    list go nowhere ([src/core/src/ofac.rs]).

    ** Files

    - [Prelude]: results with panics, record updates, machine integers, the
      tactics and hint database, lemmas on lists, options, maps and integers.
    - [Interfaces]: the crates outside the repository as classes of operations,
      each with a class of laws stating the documented behaviour relied on
      (bounded channels, the timed cache, the keyed priority queue, the
      iteration order of hash maps, packets, JWT, Ed25519, dates, text forms).
      [Reference]: a concrete instance of each, with its laws proved, on which
      the witnesses evaluate.
    - [Convert] ([src/jito-protos/src/convert.rs]), [FetchStage]
      ([src/core/src/fetch_stage.rs]), [Ofac] and [OfacTests]
      ([src/core/src/ofac.rs] and its unit tests), [Tpu]
      ([src/core/src/tpu.rs]).
    - [InterestFilter]: the packet filter and the interest updates of
      [block_engine.rs].  [BlockEngineStats], [BlockEngine],
      [BlockEngineProofs]: its counters, its authentication, connection, token
      refresh and event loop, and their properties.
    - [Schedule], [Health], [Relayer]: the files of [src/relayer/src] of these
      names; [RelayerForward] and [RelayerLoop] hold the properties of the
      forwarding and of the event loop with its gRPC handlers, [RelayerReport]
      the data points it writes.
    - [AuthInterceptor], [AuthChallenges], [AuthService]: likewise.
      [AuthSystem] runs the handlers, alone and interleaved; [AuthProofs] and
      [AuthConcurrency] hold what is true alone and under every interleaving.
    - [LoadBalancer] ([src/rpc/src/load_balancer.rs]), [Forwarder]
      ([src/transaction-relayer/src/forwarder.rs]), [Startup]
      ([src/transaction-relayer/src/main.rs]), [Web] ([src/web/src/lib.rs]),
      [StakedNodes] ([src/core/src/staked_nodes_updater_service.rs]),
      [PacketBlaster] ([src/packet_blaster/src/main.rs]).
    - [Pipeline], [EnginePath], [Accounts]: the components in sequence, joined
      by first-in first-out channels: the way of packets and slots to the
      validators, the way of packets to the block engine, and the agreement of
      the reports with what was sent.
    - [Shutdown]: the threads of the process, the exit flag, the panic hook of
      [src/core/src/lib.rs] and the joins, as a step relation.  [Main]: the
      whole of [main] up to the start of the gRPC server, which hands every
      component its configuration.

    ** How code becomes definitions

    A function returning [Result] is a function into [result]: a value, an
    error or a panic.  A thread around [select!] is a transition function on a
    record of the variables it owns: one event per arm ([health_arm],
    [loop_arm], [be_arm], [lb_step], [fwd_iteration]), an iteration that adds
    what the loop does around the arms, and a run over a list of events.  What
    the code reads from elsewhere while it runs (clocks, shared state written
    by other threads, answers of servers, what a receiver does to a channel
    between two sends) is an argument of the step, universally quantified in
    the theorems.  The handlers of the authentication service touch shared
    state under short locks, so they are programs of atomic operations
    ([prog]), and an inductive step relation interleaves any number of them
    with the expiration task and the passing of time ([sys_step]); the threads
    of the process and their waits are likewise a step relation ([step] of
    [Shutdown]).  Integers
    are [Z] with wrapping or saturating operations at the width of the code,
    instants are nanoseconds, hash maps are [gmap]s whose iteration order is an
    arbitrary permutation.

    ** What the theorems show

    - End to end ([Pipeline]): a validator that keeps up and stays a target has
      been sent exactly the admitted packets, in order and each once, of the
      first batches that were received, none before its delay; the slots the
      event loop handles were reported by a server, each is handled once, and
      the last one determines the leaders.  Towards the block engine
      ([EnginePath]) every batch that leaves is exactly the filtered form of a
      received one, for the interests its link has been told, none leaves twice,
      and they keep their order across reconnections.  At the ports ([Tpu]) what
      reaches signature verification is what the servers let in, what was
      forwarded with its flag set, and only peers with a listed stake may
      forward.
    - Process ([Shutdown], [Main]): once the exit flag is raised every schedule
      ends, and none gets stuck provided clients hang up and servers answer
      (without that it can, [shutdown_blocked]); the exit code is zero only when
      every thread but the detached ones has returned; the ports a started
      relayer advertises are ports it has bound.
    - Reports ([RelayerReport], [Accounts]): the data points are a faithful log
      of the connections, and the reported counts of packets are those of the
      channels.
    - Validators: in every reachable state the queues of the validators hold
      only heartbeats and well-formed batches of admitted packets; a target
      that keeps up receives all admitted packets in order; a subscriber that
      is not a target is untouched; every packet is counted; closed channels
      are disconnected; slots select the scheduled leaders; subscribing and the
      heartbeat behave as intended.
    - Authentication: a request let through on an issued token belongs to a
      key that the validator set approved and whose holder signed a challenge,
      under every interleaving; each handler on every branch; the bound of the
      challenge queue; the exactness of the sweep; both legs of the handshake
      the block engine client makes, refused under its own role by this
      repository's service and accepted under the validator role.
    - Block engine: the filter and the OFAC check are exact; the stream of
      messages refines a specification on the history of the connection
      ([stream]), numbered heartbeats and the exact filtered form of every
      batch; silence is detected; token refresh and the only panic; sticky
      wildcard; counters.
    - Slots, delay and start-up: slots are sent once and reach the relayer
      unchanged; the published health is that of the last check; the schedule
      is the server's; the delay line is first-in first-out and releases no
      batch early; forwarded packets are marked and otherwise unchanged; the
      sockets are those configured; a refresh replaces the lookup tables.
    - Packet blaster: a stream carries a prefix of its transaction, all of it
      exactly on success; the amounts of a thread are different.

    Some theorems state what the code does where that is not what one would
    expect: a closed channel is counted once per batch
    ([forward_disconnects_closed]), expired tokens pass the interceptor
    ([interceptor_accepts_issued]), an expired challenge can be exchanged until
    the sweep ([expired_challenge_exchanged]), a refreshed token without expiry
    stops the thread ([event_loop_panics]), a relayer without block engine
    address panics on its first packets ([no_engine_address_panics]), a
    shutdown without forwarded traffic ends in a panic
    ([quiet_shutdown_fails]), a connected validator or a silent server keeps it
    from ending well ([shutdown_blocked]), two concurrent requests exchange one challenge
    twice ([challenge_exchanged_twice]), the packet blaster repeats its amounts
    in one mode ([quic_amounts_overlap]) and its airdrop helper answers the
    opposite of what happened ([airdrop_inverted]).

    ** Fuel and bounds

    Three functions recurse on fuel.  [chunks] takes the length of the list:
    each chunk removes at least one element, the size being positive (zero
    panics, as in the code).  [remove_loop] takes the length of the queue, as
    each turn pops one entry.  The splitting of a header takes its length, as
    each match consumes the pattern.  Lemmas show that the fuel is not
    exhausted ([chunks_fuel_enough], [remove_loop_spec],
    [split_fuel_enough]).  Runs of threads are over arbitrary finite lists of
    events, so their theorems cover every moment of a thread that never stops.

    Termination of the shutdown is by two measures, the threads that wait in a
    receive and the work left ([waits], [work]), under the lexicographic order.

    ** Assumptions

    The laws of [Interfaces] are the documented behaviour of the crates, two of
    them idealised: a verified token was made with the signing key (the usual
    reading of unforgeability, with a header that is its algorithm), and the
    timed cache leaves open what a lookup answers exactly at the end of the
    lifespan, a second of its clock.  [filter_packets] reads that clock once per
    batch, where the code reads it at each lookup, and the highest slot of the
    load balancer is read from one state of its table, where the code iterates
    over a concurrent map.  What the process waits for outside of it (clients
    that hang up, servers that answer) is a hypothesis where a theorem needs it.

    ** Not modelled

    Log lines (data points are, where a theorem reads them), the QUIC streamer
    and signature verification of the Solana crates behind their channels, the
    gRPC and web frameworks around the handlers, the parsing of the command
    line and of key files (their results are inputs of [relayer_main]), the
    generated protocol code, and the certificate verifier of the packet
    blaster, which accepts every certificate.

    ** Plan

    The data model, the core loops, the authentication service, the paths of
    packets and slots, the reports, the start and the end of the process and
    the packet blaster are done.  To follow: the start of the process joined to
    the invariants of the loops it starts, the refreshes (schedule, stakes,
    lookup tables) as they share the load balancer, and the waits of [Shutdown]
    derived from the loops of the components. *)

From Stdlib Require Import ZArith Lia String Ascii.
From stdpp Require Import base gmap strings list fin_maps numbers relations.

(** ** Scope of the development's notations *)

Declare Scope relayer_scope.
Delimit Scope relayer_scope with relayer.
Open Scope relayer_scope.
Open Scope Z_scope.

(** ** Fallible code

    [result E A] is what a Rust function returning [Result<A, E>] does: it
    returns a value, returns an error, or panics ([unwrap] on a [None], an
    [assert!], an index out of bounds, a division by zero). *)

Inductive result (E A : Type) : Type :=
| Ok (a : A)
| Err (e : E)
| Panic.
Arguments Ok {E A} a.
Arguments Err {E A} e.
Arguments Panic {E A}.

#[global] Instance result_ret {E} : MRet (result E) := fun A a => Ok a.
#[global] Instance result_bind {E} : MBind (result E) := fun A B f m =>
  match m with
  | Ok a => f a
  | Err e => Err e
  | Panic => Panic
  end.
#[global] Instance result_fmap {E} : FMap (result E) := fun A B f m =>
  match m with
  | Ok a => Ok (f a)
  | Err e => Err e
  | Panic => Panic
  end.

(** [opt.ok_or_else(|| e)?], [opt.unwrap()], [res.map_err(f)?] and [assert!]. *)

Definition ok_or {E A} (o : option A) (e : E) : result E A :=
  match o with Some a => Ok a | None => Err e end.
Definition unwrap {E A} (o : option A) : result E A :=
  match o with Some a => Ok a | None => Panic end.
Definition map_err {E F A} (f : E -> F) (r : result E A) : result F A :=
  match r with Ok a => Ok a | Err e => Err (f e) | Panic => Panic end.
Definition assert_that {E} (b : bool) : result E () :=
  if b then Ok () else Panic.
Definition ensure {E} (b : bool) (e : E) : result E () :=
  if b then Ok () else Err e.

(** ** Record update

    [r <| f := v |>] replaces the field [f]; [r <| f ::= g |>] applies [g] to
    it.  A record type opts in with an [Eta] instance, the record rebuilt from
    its projections; the setter of a field is found by replacing that one
    projection in the eta-expanded record. *)

Class Eta (R : Type) := eta : R -> R.
#[global] Hint Mode Eta ! : typeclass_instances.
Class Setter {R T : Type} (proj : R -> T) := update_field : (T -> T) -> R -> R.
Arguments update_field {R T} proj {_} _ _ /.

Ltac build_setter :=
  match goal with
  | |- @Setter ?R ?T ?proj =>
      let g := constr:(fun (h : T -> T) (r : R) =>
        ltac:(let e := eval hnf in (@eta R _ r) in
              match e with
              | context C [proj r] =>
                  let body := context C [h (proj r)] in exact body
              end)) in
      let g := eval cbv beta in g in
      exact g
  end.
#[global] Hint Extern 0 (Setter _) => build_setter : typeclass_instances.

Notation "r <| f ::= g |>" := (update_field f g r)
  (at level 1, left associativity, f at level 0, format "r <| f ::= g |>") : relayer_scope.
Notation "r <| f := v |>" := (update_field f (fun _ => v) r)
  (at level 1, left associativity, f at level 0, format "r <| f := v |>") : relayer_scope.

(** ** Machine integers

    Integers are [Z]; the operations wrap or saturate at the width the source
    uses.  The release profile of [Cargo.toml] does not enable
    [overflow-checks], so [+], [-] and [+=] wrap. *)

Definition wrap (w z : Z) : Z := z mod 2 ^ w.
Notation "'u16' z" := (wrap 16 z) (at level 9, z at level 9) : relayer_scope.
Notation "'u32' z" := (wrap 32 z) (at level 9, z at level 9) : relayer_scope.
Notation "'u64' z" := (wrap 64 z) (at level 9, z at level 9) : relayer_scope.
Definition u64_max : Z := 2 ^ 64 - 1.
Definition u16_max : Z := 2 ^ 16 - 1.
Definition u64_add (a b : Z) : Z := u64 (a + b).
Definition u64_sub (a b : Z) : Z := u64 (a - b).
Definition u64_saturating_add (a b : Z) : Z := Z.min (a + b) u64_max.
Definition u16_checked_add (a b : Z) : option Z :=
  if a + b <=? u16_max then Some (a + b) else None.
Definition is_u64 (z : Z) : Prop := 0 <= z <= u64_max.
Definition is_u16 (z : Z) : Prop := 0 <= z <= u16_max.

(** [x as i64] reinterprets the 64 bits as a signed number. *)
Definition as_i64 (z : Z) : Z :=
  let w := u64 z in if w <? 2 ^ 63 then w else w - 2 ^ 64.

(** ** Lists

    [chunks n l] is Rust's [slice::chunks]: consecutive blocks of [n] elements,
    the last one possibly shorter.  The fuel is the length of the list, which
    is enough as soon as [n] is positive (lemma [chunks_unfold]). *)

Fixpoint chunks_fuel {A} (fuel n : nat) (l : list A) : list (list A) :=
  match fuel, l with
  | O, _ => []
  | _, [] => []
  | S fuel, _ => take n l :: chunks_fuel fuel n (drop n l)
  end.
Definition chunks {A} (n : nat) (l : list A) : list (list A) :=
  chunks_fuel (length l) n l.

(** [iter.filter(f).count()] *)
Definition count_if {A} (f : A -> bool) (l : list A) : nat := length (List.filter f l).

Definition sumZ (l : list Z) : Z := foldr Z.add 0 l.

(** [iter.map(|b| b.len() as u64).sum::<u64>()]. *)
Definition u64_sum (l : list Z) : Z := foldl u64_add 0 l.
Definition total_len {A} (ls : list (list A)) : Z :=
  u64_sum ((fun l => u64 (Z.of_nat (length l))) <$> ls).

(** [iter.any(p)] short-circuits over a stateful predicate: the state is
    threaded through the elements up to and including the first hit. *)
Fixpoint any_st {S A} (p : A -> S -> bool * S) (l : list A) (s : S) : bool * S :=
  match l with
  | [] => (false, s)
  | a :: l => match p a s with
              | (true, s) => (true, s)
              | (false, s) => any_st p l s
              end
  end.

(** ** Automation *)

Create HintDb relayer.

(** Split every [match] and [if] of the goal on which the proof is stuck. *)
Ltac split_matches :=
  repeat (case_match; simplify_eq/=; try done).

(** Unfold a monadic hypothesis [H : (x <- m ;; k) = Ok y] step by step. *)
Ltac unbind H :=
  repeat (cbv [mbind mret fmap result_bind result_ret result_fmap
               ok_or unwrap map_err assert_that ensure] in H;
          match type of H with
          | context [match ?m with _ => _ end] =>
              let E := fresh "E" in destruct m eqn:E
          end; simplify_eq/=; try done).

(** ** Lemmas on the error monad *)

Lemma bind_Ok_inv {E A B} (m : result E A) (f : A -> result E B) b :
  m ≫= f = Ok b -> exists a, m = Ok a /\ f a = Ok b.
Proof. destruct m; cbn; intros; try discriminate; eauto. Qed.

Lemma ensure_Ok {E} b (e : E) u : ensure b e = Ok u <-> b = true.
Proof. destruct b, u; cbn; split; congruence. Qed.

Lemma assert_that_Ok {E} b u : assert_that (E := E) b = Ok u <-> b = true.
Proof. destruct b, u; cbn; split; congruence. Qed.

Lemma ok_or_Ok {E A} (o : option A) (e : E) a : ok_or o e = Ok a <-> o = Some a.
Proof. destruct o; cbn; split; congruence. Qed.

(** ** Lemmas on machine integers *)

Lemma wrap_small w z : 0 <= z < 2 ^ w -> wrap w z = z.
Proof. apply Z.mod_small. Qed.

Lemma wrap_bounds w z : 0 <= w -> 0 <= wrap w z < 2 ^ w.
Proof. intros. apply Z.mod_pos_bound. lia. Qed.

Lemma wrap_wrap w z : 0 <= w -> wrap w (wrap w z) = wrap w z.
Proof. intros. unfold wrap. apply Z.mod_mod. lia. Qed.

Lemma wrap_add_l w a b : 0 <= w -> wrap w (wrap w a + b) = wrap w (a + b).
Proof. intros. unfold wrap. apply Zplus_mod_idemp_l. Qed.

Lemma wrap_add_r w a b : 0 <= w -> wrap w (a + wrap w b) = wrap w (a + b).
Proof. intros. unfold wrap. apply Zplus_mod_idemp_r. Qed.

Lemma u64_add_small a b : 0 <= a -> 0 <= b -> a + b <= u64_max -> u64_add a b = a + b.
Proof. intros. apply wrap_small. unfold u64_max in *. lia. Qed.

Lemma u64_add_is_u64 a b : is_u64 (u64_add a b).
Proof.
  unfold is_u64, u64_add, u64_max. pose proof (wrap_bounds 64 (a + b)). lia.
Qed.

Lemma u64_is_u64 z : is_u64 (u64 z).
Proof. unfold is_u64, u64_max. pose proof (wrap_bounds 64 z). lia. Qed.

Lemma u64_saturating_add_is_u64 a b :
  is_u64 a -> is_u64 b -> is_u64 (u64_saturating_add a b).
Proof. unfold is_u64, u64_saturating_add, u64_max. lia. Qed.

Lemma u64_sum_acc l acc : foldl u64_add (u64 acc) l = u64 (acc + sumZ l).
Proof.
  revert acc. induction l as [|x l IH]; intros acc; cbn -[wrap sumZ].
  - cbn [sumZ foldr]. by rewrite Z.add_0_r.
  - unfold u64_add at 2. rewrite wrap_add_l by lia. rewrite IH. f_equal.
    change (sumZ (x :: l)) with (x + sumZ l). lia.
Qed.

Lemma u64_sum_spec l : u64_sum l = u64 (sumZ l).
Proof. unfold u64_sum. apply (u64_sum_acc l 0). Qed.

Lemma u64_sum_is_u64 l : is_u64 (u64_sum l).
Proof. rewrite u64_sum_spec. apply u64_is_u64. Qed.

Lemma sumZ_cons x l : sumZ (x :: l) = x + sumZ l.
Proof. done. Qed.

Lemma sumZ_nonneg l : Forall (Z.le 0) l -> 0 <= sumZ l.
Proof. induction 1 as [|x l Hx _ IH]; [done|]. rewrite sumZ_cons. lia. Qed.

Lemma sumZ_app l k : sumZ (l ++ k) = sumZ l + sumZ k.
Proof.
  induction l as [|x l IH]; [done|]. cbn [app sumZ foldr] in *.
  fold (sumZ (l ++ k)). fold (sumZ l). lia.
Qed.

(** ** Lemmas on lists *)

Lemma chunks_fuel_enough {A} n (l : list A) f g :
  (0 < n)%nat -> (length l <= f)%nat -> (length l <= g)%nat ->
  chunks_fuel f n l = chunks_fuel g n l.
Proof.
  intros Hn. revert l g. induction f as [|f IH]; intros [|x l] [|g] Hf Hg;
    cbn in *; try lia; try done.
  f_equal. apply IH; rewrite length_drop; cbn; lia.
Qed.

Lemma chunks_unfold {A} n (l : list A) :
  (0 < n)%nat -> l <> [] -> chunks n l = take n l :: chunks n (drop n l).
Proof.
  intros Hn Hl. unfold chunks. destruct l as [|x l]; [done|].
  cbn [length chunks_fuel]. f_equal.
  apply chunks_fuel_enough; [done|rewrite length_drop; cbn; lia|done].
Qed.

Lemma chunks_ind {A} n (P : list A -> list (list A) -> Prop) :
  (0 < n)%nat -> P [] [] ->
  (forall l, l <> [] -> P (drop n l) (chunks n (drop n l)) ->
             P l (take n l :: chunks n (drop n l))) ->
  forall l, P l (chunks n l).
Proof.
  intros Hn H0 HS l. remember (length l) as k eqn:Hk.
  revert l Hk. induction k as [k IH] using lt_wf_ind; intros l Hk.
  destruct (decide (l = [])) as [->|Hl]; [done|].
  rewrite chunks_unfold by done. apply HS; [done|].
  eapply IH; [|reflexivity]. rewrite length_drop.
  destruct l; [done|]. cbn in *. lia.
Qed.

Lemma chunks_concat {A} n (l : list A) : (0 < n)%nat -> concat (chunks n l) = l.
Proof.
  intros Hn. apply (chunks_ind n (fun l c => concat c = l)); [done|done|].
  intros k _ IH. cbn. rewrite IH. apply take_drop.
Qed.

Lemma chunks_bounds {A} n (l : list A) :
  (0 < n)%nat -> Forall (fun c => (0 < length c <= n)%nat) (chunks n l).
Proof.
  intros Hn. apply (chunks_ind n (fun _ c => Forall _ c)); [done|constructor|].
  intros k Hk IH. constructor; [|done]. rewrite length_take.
  destruct k; [done|]. cbn. lia.
Qed.

Lemma any_st_spec {S A} (I : S -> Prop) (p : A -> S -> bool * S) (q : A -> bool) l s :
  I s -> (forall a s, a ∈ l -> I s -> (p a s).1 = q a /\ I (p a s).2) ->
  (any_st p l s).1 = existsb q l /\ I (any_st p l s).2.
Proof.
  revert s. induction l as [|a l IH]; intros s Hs Hp; cbn; [done|].
  destruct (Hp a s) as [H1 H2]; [apply list_elem_of_here|done|].
  destruct (p a s) as [[] s']; cbn in *; rewrite <- H1; cbn; [done|].
  apply IH; [done|]. intros b t Hb. apply Hp. by apply list_elem_of_further.
Qed.

Lemma existsb_elem {A} (q : A -> bool) l :
  existsb q l = true <-> exists x, x ∈ l /\ q x = true.
Proof.
  rewrite existsb_exists. split; intros (x & H & ?); exists x; split; try done;
    by apply list_elem_of_In.
Qed.

(** Invariants of the loops written as folds. *)
Lemma foldl_inv {A B} (P : A -> Prop) (f : A -> B -> A) l a :
  P a -> (forall a x, x ∈ l -> P a -> P (f a x)) -> P (foldl f a l).
Proof.
  revert a. induction l as [|x l IH]; intros a Ha Hf; cbn; [done|].
  apply IH; [apply Hf; [apply list_elem_of_here|done]|].
  intros b y Hy. apply Hf. by apply list_elem_of_further.
Qed.

(** A fold whose steps act on [view k] only at [k], over distinct keys, acts on
    it at most once. *)
Lemma foldl_view {S K V} `{EqDecision K} (view : S -> V) (step : S -> K -> S) (one : V -> V) (k : K) l s :
  NoDup l ->
  (forall s k', view (step s k') = if decide (k' = k) then one (view s) else view s) ->
  view (foldl step s l) = if decide (k ∈ l) then one (view s) else view s.
Proof.
  intros Hnd Hstep. revert s. induction l as [|x l IH]; intros s; cbn [foldl].
  { rewrite decide_False; [done|apply not_elem_of_nil]. }
  inversion Hnd as [|? ? Hx Hnd']; subst. rewrite IH, Hstep by done.
  destruct (decide (x = k)) as [->|Hne].
  - rewrite decide_False by done. rewrite decide_True; [done|apply list_elem_of_here].
  - destruct (decide (k ∈ l)); [rewrite decide_True|rewrite decide_False]; try done;
      rewrite elem_of_cons; naive_solver.
Qed.

Lemma count_if_app {A} (f : A -> bool) l k : count_if f (l ++ k) = (count_if f l + count_if f k)%nat.
Proof. unfold count_if. by rewrite List.filter_app, length_app. Qed.

Lemma count_if_le {A} (f g : A -> bool) l :
  (forall x, f x = true -> g x = true) -> (count_if f l <= count_if g l)%nat.
Proof.
  intros H. unfold count_if. induction l as [|x l IH]; cbn; [done|]. specialize (H x).
  destruct (f x); [rewrite H by done|destruct (g x)]; cbn; lia.
Qed.

Lemma count_if_insert {A} (f : A -> bool) l i x y :
  l !! i = Some x ->
  (count_if f (<[i := y]> l) + (if f x then 1 else 0) = count_if f l + (if f y then 1 else 0))%nat.
Proof.
  unfold count_if. revert i. induction l as [|z l IH]; intros [|i]; cbn; try done.
  - intros [= ->]. destruct (f x), (f y); cbn; lia.
  - intros Hi. specialize (IH i Hi). destruct (f z), (f x), (f y); cbn in *; unfold insert in *; lia.
Qed.

Lemma elem_of_list_insert_inv {A} (l : list A) i x y : x ∈ <[i := y]> l -> x = y \/ x ∈ l.
Proof.
  revert i. induction l as [|z l IH]; intros [|i]; cbn; rewrite ?elem_of_cons; [naive_solver..|].
  intros [->|H%IH]; naive_solver.
Qed.

Lemma count_occ_notin {A} `{EqDecision A} (l : list A) x :
  count_occ (fun a b => decide (a = b)) l x = 0%nat <-> x ∉ l.
Proof. rewrite <- (count_occ_not_In (fun a b => decide (a = b))). by rewrite list_elem_of_In. Qed.

#[export] Hint Resolve u64_is_u64 u64_add_is_u64 u64_saturating_add_is_u64 : relayer.

(** ** Lemmas on finite maps and relations *)

Lemma map_find {K A} `{Countable K} (f : K -> A -> bool) (m : gmap K A) :
  (exists k a, m !! k = Some a /\ f k a = true) \/ (forall k a, m !! k = Some a -> f k a = false).
Proof.
  induction m as [|k a m Hk IH] using map_ind; [right; intros k a; by rewrite lookup_empty|].
  destruct (f k a) eqn:E; [left; exists k, a; by rewrite lookup_insert_eq|].
  destruct IH as [(k' & a' & Hl & Hf)|IH].
  - left. exists k', a'. rewrite lookup_insert_ne; [done|]. intros ->. congruence.
  - right. intros k' a'. destruct (decide (k = k')) as [<-|Hne].
    + rewrite lookup_insert_eq. by intros [= <-].
    + rewrite lookup_insert_ne by done. apply IH.
Qed.

(** The sum of a weight over the entries of a map. *)
Definition map_total {K A} `{Countable K} (w : A -> nat) (m : gmap K A) : nat :=
  map_fold (fun _ a n => (w a + n)%nat) 0%nat m.

Lemma map_total_delete {K A} `{Countable K} (w : A -> nat) (m : gmap K A) k a :
  m !! k = Some a -> map_total w m = (w a + map_total w (delete k m))%nat.
Proof. intros Hk. unfold map_total. rewrite (map_fold_delete_L _ _ k a m); [done|lia|done]. Qed.

Lemma map_total_insert {K A} `{Countable K} (w : A -> nat) (m : gmap K A) k a b :
  m !! k = Some a -> (map_total w (<[k := b]> m) + w a = map_total w m + w b)%nat.
Proof.
  intros Hk. rewrite (map_total_delete w m k a Hk).
  rewrite (map_total_delete w (<[k := b]> m) k b) by apply lookup_insert_eq.
  rewrite delete_insert_eq. lia.
Qed.

(** Strong normalisation by two measures, the first one more significant. *)
Lemma sn_lex {A} (R : relation A) (P : A -> Prop) (f g : A -> nat) a :
  (forall a b, P a -> R a b -> P b /\ ((f b < f a)%nat \/ (f b = f a /\ (g b < g a)%nat))) ->
  P a -> sn R a.
Proof.
  intros Hdec. remember (f a) as n eqn:Hn. remember (g a) as m eqn:Hm. revert m a Hn Hm.
  induction (lt_wf n) as [n _ IHn]. intros m. induction (lt_wf m) as [m _ IHm]. intros a -> -> Ha.
  constructor. intros b Hab. destruct (Hdec a b Ha Hab) as [Hb [Hlt|[Heq Hlt]]].
  - exact (IHn _ Hlt _ b eq_refl eq_refl Hb).
  - exact (IHm _ Hlt b (eq_sym Heq) eq_refl Hb).
Qed.
