(* ===== verification/Interfaces.v ===== *)
(** * Interfaces to code outside the repository

    The relayer is glue between third-party crates.  Their types appear here
    as the data the repository reads from them, and their operations as
    classes; a companion class states the documented behaviour the repository
    relies on.  The components are verified against these classes, and
    [Reference] gives concrete instances of each, so no law is vacuous. *)

From Stdlib Require Import ZArith Lia String Ascii.
From stdpp Require Import base gmap strings list countable.
From S2P Require Import Prelude.

(** ** Keys and addresses *)

(** [solana_sdk::pubkey::Pubkey], an array of 32 bytes. *)
Definition Pubkey : Type := list Z.
#[global] Instance Pubkey_eq_dec : EqDecision Pubkey := _.
#[global] Instance Pubkey_countable : Countable Pubkey := _.
Definition PUBKEY_BYTES : nat := 32.
Definition SIGNATURE_BYTES : nat := 64.

(** [std::net::IpAddr]: four octets or eight 16-bit segments. *)
Inductive IpAddr : Type :=
| V4 (a b c d : Z)
| V6 (segments : list Z).
#[global] Instance IpAddr_eq_dec : EqDecision IpAddr.
Proof. solve_decision. Defined.
#[global] Program Instance IpAddr_countable : Countable IpAddr :=
  inj_countable
    (fun ip => match ip with V4 a b c d => inl (a, b, c, d) | V6 s => inr s end)
    (fun x => match x with inl (a, b, c, d) => Some (V4 a b c d) | inr s => Some (V6 s) end) _.
Next Obligation. by intros []. Qed.

Definition is_ipv4 (ip : IpAddr) : bool :=
  match ip with V4 _ _ _ _ => true | V6 _ => false end.
Definition is_loopback (ip : IpAddr) : bool :=
  match ip with
  | V4 a _ _ _ => a =? 127
  | V6 s => bool_decide (s = [0; 0; 0; 0; 0; 0; 0; 1])
  end.

(** [Display] and [FromStr] of the two, used in JWT claims, challenges and RPC
    answers. *)
Class Text (A : Type) := {
  to_string : A -> string;
  from_str : string -> option A;
}.
Class TextLaws (A : Type) `{Text A} (wf : A -> Prop) := {
  from_to_string : forall a, wf a -> from_str (to_string a) = Some a;
}.
Definition pubkey_wf (k : Pubkey) : Prop := length k = PUBKEY_BYTES.

(** ** Hash map iteration

    [std::collections::HashMap], [HashSet] and [dashmap::DashMap] iterate in an
    arbitrary order; the models take that order as a parameter. *)
Class HashIter (K : Type) `{Countable K} := {
  map_iter : forall {A}, gmap K A -> list (K * A);
  set_iter : gset K -> list K;
}.
Class HashIterLaws (K : Type) `{HashIter K} := {
  map_iter_perm : forall {A} (m : gmap K A), map_iter m ≡ₚ map_to_list m;
  set_iter_perm : forall s : gset K, set_iter s ≡ₚ elements s;
}.

(** ** Bounded channels ([tokio::sync::mpsc])

    [C M] is the state of a channel of messages [M], seen from its senders. *)
Inductive try_send_outcome := Sent | Full | Closed.
Class Mpsc (C : Type -> Type) := {
  channel : forall {M}, nat -> C M;
  try_send : forall {M}, M -> C M -> C M * try_send_outcome;
  queued : forall {M}, C M -> list M;
  max_capacity : forall {M}, C M -> nat;
  rx_closed : forall {M}, C M -> bool;
}.
(** [Sender::capacity], the number of messages that can still be queued. *)
Definition capacity {C M} `{Mpsc C} (c : C M) : nat :=
  (max_capacity c - length (queued c))%nat.
Definition chan_wf {C M} `{Mpsc C} (c : C M) : Prop :=
  (length (queued c) <= max_capacity c)%nat.
Class MpscLaws (C : Type -> Type) `{Mpsc C} := {
  channel_spec : forall {M} n, (0 < n)%nat ->
    queued (channel (M := M) n) = [] /\ max_capacity (channel (M := M) n) = n /\
    rx_closed (channel (M := M) n) = false;
  try_send_spec : forall {M} (m : M) c,
    match try_send m c with
    | (c', Sent) => rx_closed c = false /\ (length (queued c) < max_capacity c)%nat /\
                    queued c' = queued c ++ [m] /\ max_capacity c' = max_capacity c /\
                    rx_closed c' = false
    | (c', Full) => c' = c /\ (max_capacity c <= length (queued c))%nat
    | (c', Closed) => c' = c /\ rx_closed c = true
    end;
}.

(** ** Time-limited cache ([cached::TimedCache])

    [live c t k] tells whether a lookup of [k] at time [t] (in seconds) hits.
    A lookup may drop an entry it finds expired, so it returns a new cache. *)
Class TimedCache (T K : Type) := {
  with_lifespan : Z -> T;
  cache_set : Z -> K -> T -> T;
  cache_get : Z -> K -> T -> bool * T;
  flush : Z -> T -> T;
  cache_size : T -> nat;
  live : T -> Z -> K -> bool;
}.
Class TimedCacheLaws (T K : Type) `{TimedCache T K} (lifespan : T -> Z) := {
  new_live : forall ttl t k, live (with_lifespan ttl) t k = false;
  new_lifespan : forall ttl, lifespan (with_lifespan ttl) = ttl;
  set_live_fresh : forall c t t' k, t <= t' -> t' - t < lifespan c ->
    live (cache_set t k c) t' k = true;
  set_live_expired : forall c t t' k, lifespan c < t' - t ->
    live (cache_set t k c) t' k = false;
  set_live_ne : forall c t t' k k', t <= t' -> k <> k' ->
    live (cache_set t k c) t' k' = live c t' k';
  set_lifespan : forall c t k, lifespan (cache_set t k c) = lifespan c;
  get_hit : forall c t k, (cache_get t k c).1 = live c t k;
  get_live : forall c t t' k k', t <= t' ->
    live (cache_get t k c).2 t' k' = live c t' k';
  get_lifespan : forall c t k, lifespan (cache_get t k c).2 = lifespan c;
  flush_live : forall c t t' k, t <= t' -> live (flush t c) t' k = live c t' k;
  flush_lifespan : forall c t, lifespan (flush t c) = lifespan c;
}.

(** ** Keyed priority queue ([keyed_priority_queue::KeyedPriorityQueue])

    [peek] and [pop] see the entry of greatest priority, [leb] being the order
    of the priorities; [push] inserts or replaces the entry of a key. *)
Class KeyedPQ (Q K P : Type) := {
  pq_empty : Q;
  pq_push : K -> P -> Q -> Q;
  pq_peek : Q -> option (K * P);
  pq_pop : Q -> Q;
  pq_len : Q -> nat;
  pq_get_priority : K -> Q -> option P;
  pq_remove : K -> Q -> Q;
}.
Class KeyedPQLaws (Q K P : Type) `{KeyedPQ Q K P} `{Countable K} (leb : P -> P -> bool)
    (contents : Q -> gmap K P) := {
  pq_empty_spec : contents pq_empty = ∅;
  pq_push_spec : forall k p q, contents (pq_push k p q) = <[k := p]> (contents q);
  pq_len_spec : forall q, pq_len q = size (contents q);
  pq_get_priority_spec : forall k q, pq_get_priority k q = contents q !! k;
  pq_remove_spec : forall k q, contents (pq_remove k q) = delete k (contents q);
  pq_peek_None : forall q, pq_peek q = None -> contents q = ∅;
  pq_peek_Some : forall q k p, pq_peek q = Some (k, p) ->
    contents q !! k = Some p /\
    (forall k' p', contents q !! k' = Some p' -> leb p' p = true);
  pq_pop_spec : forall q k p, pq_peek q = Some (k, p) ->
    contents (pq_pop q) = delete k (contents q);
}.

(** ** Solana transactions and packets *)

(** [MessageAddressTableLookup] and the accessors of [VersionedMessage] the
    filters use; a legacy message has no [address_table_lookups]. *)
Record MessageAddressTableLookup := {
  account_key : Pubkey;
  writable_indexes : list nat;
  readonly_indexes : list nat;
}.
Record VersionedMessage := {
  static_account_keys : list Pubkey;
  address_table_lookups : option (list MessageAddressTableLookup);
  is_maybe_writable : nat -> bool;
}.
Record VersionedTransaction := { message : VersionedMessage }.
Record AddressLookupTableAccount := {
  alt_key : Pubkey;
  addresses : list Pubkey;
}.

(** [solana_perf::packet::Packet]: the bytes and their metadata; the flags are
    a [bitflags] set whose bit positions are a parameter. *)
Record Meta := {
  meta_size : Z;
  meta_addr : IpAddr;
  meta_port : Z;
  meta_flags : Z;
}.
#[global] Instance Meta_eta : Eta Meta := fun m =>
  {| meta_size := meta_size m; meta_addr := meta_addr m; meta_port := meta_port m;
     meta_flags := meta_flags m |}.
Record Packet := {
  buffer : list Z;
  meta : Meta;
}.
#[global] Instance Packet_eta : Eta Packet := fun p =>
  {| buffer := buffer p; meta := meta p |}.
Definition PacketBatch : Type := list Packet.
Definition BankingPacketBatch : Type := list PacketBatch.

Class PacketApi := {
  DISCARD : Z;
  FORWARDED : Z;
  REPAIR : Z;
  SIMPLE_VOTE_TX : Z;
  PERF_TRACK_PACKET : Z;
  FROM_STAKED_NODE : Z;
  (** [Packet::data(..)] *)
  packet_data : Packet -> option (list Z);
  (** [Packet::deserialize_slice::<VersionedTransaction, _>(..).ok()] *)
  deserialize_tx : Packet -> option VersionedTransaction;
}.
Definition has_flag (bit : Z) (p : Packet) : bool := Z.testbit (meta_flags (meta p)) bit.
Definition discard `{PacketApi} : Packet -> bool := has_flag DISCARD.
Class PacketApiLaws `{PacketApi} := {
  flag_bits_distinct :
    NoDup [DISCARD; FORWARDED; REPAIR; SIMPLE_VOTE_TX; PERF_TRACK_PACKET; FROM_STAKED_NODE];
  flag_bits_nonneg :
    Forall (Z.le 0) [DISCARD; FORWARDED; REPAIR; SIMPLE_VOTE_TX; PERF_TRACK_PACKET; FROM_STAKED_NODE];
  (** the accessible bytes are a function of the buffer, the size and the
      discard flag *)
  packet_data_ext : forall p q,
    buffer p = buffer q -> meta_size (meta p) = meta_size (meta q) ->
    discard p = discard q -> packet_data p = packet_data q;
}.

(** ** Histograms ([histogram::Histogram])

    [increment] may fail; the callers ignore its result.  [minimum], [maximum]
    and [percentile] fail on an empty histogram; a percentile is named by its
    whole number. *)
Class Histogram (H : Type) := {
  hist_default : H;
  hist_increment : Z -> H -> H;
  hist_minimum : H -> option Z;
  hist_maximum : H -> option Z;
  hist_percentile : Z -> H -> option Z;
}.

(** ** Data points ([solana_metrics::datapoint_info!])

    A name, tags, and fields of one of the types the macro knows; the macro
    casts the value of an [i64] field with [as]. *)
Inductive FieldValue := I64 (z : Z) | Str (s : string) | Boolean (b : bool).
Record Datapoint := {
  dp_name : string;
  dp_tags : list (string * string);
  dp_fields : list (string * FieldValue);
}.
Definition i64_field (name : string) (v : Z) : string * FieldValue := (name, I64 (as_i64 v)).

(** ** Dates ([chrono])

    A [NaiveDateTime] or [DateTime<Utc>] is a count of nanoseconds since the
    Unix epoch, a [Duration] a count of nanoseconds.  Dates outside
    [MIN_UTC .. MAX_UTC] do not exist: adding past the end panics, and
    [DateTime::from_timestamp] answers [None]. *)
Definition NANOS : Z := 1000000000.
Class Chrono := {
  MIN_UTC : Z;
  MAX_UTC : Z;
  (** [Duration::from_std] *)
  duration_from_std : Z -> option Z;
}.
Definition date_ok `{Chrono} (t : Z) : bool := (MIN_UTC <=? t) && (t <=? MAX_UTC).
Definition date_add `{Chrono} {E} (t d : Z) : result E Z :=
  if date_ok (t + d) then Ok (t + d) else Panic.
(** [t.and_utc().timestamp()] *)
Definition timestamp (t : Z) : Z := t / NANOS.
(** [DateTime::from_timestamp(secs, 0)] *)
Definition from_timestamp `{Chrono} (secs : Z) : option Z :=
  if date_ok (secs * NANOS) then Some (secs * NANOS) else None.
Class ChronoLaws `{Chrono} := {
  (** the first date is the beginning of a second, before the epoch *)
  min_utc_whole : MIN_UTC mod NANOS = 0;
  min_utc_neg : MIN_UTC < 0;
  duration_from_std_id : forall d x, duration_from_std d = Some x -> x = d;
}.

(** ** JSON web tokens ([jwt] with OpenSSL keys) *)
Inductive AlgorithmType :=
| Hs256 | Hs384 | Hs512 | Rs256 | Rs384 | Rs512 | Es256 | Es384 | Es512
| Ps256 | Ps384 | Ps512 | NoAlgorithm.
#[global] Instance AlgorithmType_eq_dec : EqDecision AlgorithmType.
Proof. solve_decision. Defined.
Definition algorithms : list AlgorithmType :=
  [Hs256; Hs384; Hs512; Rs256; Rs384; Rs512; Es256; Es384; Es512; Ps256; Ps384; Ps512; NoAlgorithm].
#[global] Program Instance AlgorithmType_countable : Countable AlgorithmType :=
  inj_countable (fun a => fst <$> list_find (fun b => b = a) algorithms)
    (fun n => n ≫= (algorithms !!.)) _.
Next Obligation. by intros []. Qed.
(** [jwt::Header]; the other fields keep their defaults. *)
Record JwtHeader := { algorithm : AlgorithmType }.

(** [sign_with_key] may fail; [verify_with_key] answers the header and the
    claims of a token whose signature is right. *)
Class Jwt (SK VK Cl : Type) := {
  sign_with_key : SK -> JwtHeader -> Cl -> option string;
  verify_with_key : VK -> string -> option (JwtHeader * Cl);
}.
(** [sk] and [vk] are the two halves of a key pair: what one signs the other
    accepts, and nothing else: an idealised unforgeability, by which a token
    that verifies is the one the signing key makes for its header (its algorithm
    only) and claims.  A token is
    three base64url strings joined by dots, so it holds no space. *)
Class JwtKeyPair (SK VK Cl : Type) `{Jwt SK VK Cl} (sk : SK) (vk : VK) := {
  verify_signed : forall h c t, sign_with_key sk h c = Some t -> verify_with_key vk t = Some (h, c);
  verify_unforged : forall h c t, verify_with_key vk t = Some (h, c) -> sign_with_key sk h c = Some t;
  token_no_space : forall h c t, sign_with_key sk h c = Some t ->
    Forall (fun a => a <> " "%char) (String.list_ascii_of_string t);
}.

(** ** Signatures ([ed25519_dalek]) *)
Class Ed25519 (PK Sg : Type) := {
  pk_from_bytes : list Z -> option PK;
  pk_to_bytes : PK -> list Z;
  sig_from_bytes : list Z -> option Sg;
  ed_verify : PK -> string -> Sg -> bool;
}.
Class Ed25519Laws (PK Sg : Type) `{Ed25519 PK Sg} := {
  pk_bytes : forall b pk, pk_from_bytes b = Some pk ->
    pk_to_bytes pk = b /\ length b = PUBKEY_BYTES;
}.

(** ** The gRPC definitions of the auth service

    [Role::Validator] and [Role::Relayer] as [i32], from the protobuf files. *)
Class AuthProto := { ROLE_VALIDATOR : Z; ROLE_RELAYER : Z }.

(** ** Client side of gRPC ([tonic::transport::Endpoint])

    Parsing a URL and adding a TLS configuration may fail. *)
Class EndpointApi (EP : Type) := {
  endpoint_from_str : string -> option EP;
  tls_config : EP -> option EP;
}.

(** ** Keys of the relayer ([solana_sdk::signer::Signer]) *)
Class Signer (KP : Type) := {
  signer_pubkey : KP -> Pubkey;
  sign_message : KP -> string -> list Z;
}.

(** Its public key is valid and verifies its signatures. *)
Class SignerLaws (KP PK Sg : Type) `{Signer KP} `{Ed25519 PK Sg} := {
  signer_verifies : forall kp, exists k, pk_from_bytes (signer_pubkey kp) = Some k /\
    forall m, length (sign_message kp m) = SIGNATURE_BYTES /\
      exists sg, sig_from_bytes (sign_message kp m) = Some sg /\ ed_verify k m sg = true;
}.

(** ** Timestamps ([prost_types::Timestamp])

    The conversion to a [SystemTime] (nanoseconds here) fails out of range. *)
Record Timestamp := { ts_seconds : Z; ts_nanos : Z }.
Class TimestampApi := { system_time_of : Timestamp -> option Z }.

(** ** gRPC metadata ([tonic::metadata::MetadataMap])

    A value is a byte string; [to_str] refuses one that is not visible ASCII,
    and [parse_value] ([str::parse]) a text that cannot be a value. *)
Definition MetadataMap : Type := gmap string (list Z).
Class MetadataApi := {
  to_str : list Z -> option string;
  parse_value : string -> option (list Z);
}.

(** ** gRPC statuses ([tonic::Status]) *)
Inductive Code := Internal | InvalidArgument | PermissionDenied | ResourceExhausted.
Record Status := { st_code : Code; st_message : string }.
Definition status_internal (m : string) : Status := {| st_code := Internal; st_message := m |}.
Definition status_invalid_argument (m : string) : Status :=
  {| st_code := InvalidArgument; st_message := m |}.
Definition status_permission_denied (m : string) : Status :=
  {| st_code := PermissionDenied; st_message := m |}.
Definition status_resource_exhausted (m : string) : Status :=
  {| st_code := ResourceExhausted; st_message := m |}.
