(* ===== verification/Reference.v ===== *)
(** * Reference instances of the interfaces

    A concrete instance of every class of [Interfaces], with the proof of its
    laws.  They make the laws satisfiable and let the theorems be evaluated on
    concrete inputs; the components never depend on them. *)

From Stdlib Require Import ZArith Lia String Ascii.
From stdpp Require Import base gmap strings list countable fin_maps sorting.
From S2P Require Import Prelude Interfaces.

(** ** Text: the binary code of a countable value, one character per bit *)

Fixpoint pos_to_string (p : positive) : string :=
  match p with
  | xH => EmptyString
  | xO p => String "0"%char (pos_to_string p)
  | xI p => String "1"%char (pos_to_string p)
  end.
Fixpoint pos_of_string (s : string) : option positive :=
  match s with
  | EmptyString => Some xH
  | String c s =>
      if Ascii.eqb c "0"%char then xO <$> pos_of_string s
      else if Ascii.eqb c "1"%char then xI <$> pos_of_string s else None
  end.

Lemma pos_of_to_string p : pos_of_string (pos_to_string p) = Some p.
Proof. induction p as [p IH|p IH|]; cbn; [by rewrite IH|by rewrite IH|done]. Qed.

#[export] Instance countable_text {A} `{Countable A} : Text A := {|
  to_string a := pos_to_string (encode a);
  from_str s := pos_of_string s ≫= decode;
|}.
#[export] Instance countable_text_laws {A} `{Countable A} (P : A -> Prop) : TextLaws A P.
Proof. split. intros a _. cbn. rewrite pos_of_to_string. cbn. apply decode_encode. Qed.

(** ** Hash map iteration: the order of [map_to_list] *)

#[export] Instance ref_iter {K} `{Countable K} : HashIter K := {|
  map_iter A m := map_to_list m;
  set_iter s := elements s;
|}.
#[export] Instance ref_iter_laws {K} `{Countable K} : HashIterLaws K.
Proof. split; reflexivity. Qed.

(** ** Channels: a list of messages with a bound *)

Record queue (M : Type) := mk_queue { q_items : list M; q_cap : nat; q_closed : bool }.
Arguments mk_queue {M} _ _ _.
Arguments q_items {M} _.
Arguments q_cap {M} _.
Arguments q_closed {M} _.
#[export] Instance queue_mpsc : Mpsc queue := {|
  channel M n := mk_queue [] n false;
  try_send M m c :=
    if q_closed c then (c, Closed)
    else if (length (q_items c) <? q_cap c)%nat
         then (mk_queue (q_items c ++ [m]) (q_cap c) false, Sent)
         else (c, Full);
  queued M c := q_items c;
  max_capacity M c := q_cap c;
  rx_closed M c := q_closed c;
|}.
#[export] Instance queue_mpsc_laws : MpscLaws queue.
Proof.
  split; [done|]. intros M m [items cap closed]. cbn -[Nat.ltb].
  destruct closed; cbn -[Nat.ltb]; [done|]. destruct (Nat.ltb_spec (length items) cap); cbn; split_and?; try done; lia.
Qed.

(** ** Timed cache: the insertion time of every key *)

Record timed (K : Type) `{Countable K} := mk_timed { tc_ttl : Z; tc_at : gmap K Z }.
Arguments mk_timed {K _ _} _ _.
Arguments tc_ttl {K _ _} _.
Arguments tc_at {K _ _} _.
Definition timed_live {K} `{Countable K} (c : timed K) (t : Z) (k : K) : bool :=
  match tc_at c !! k with Some t0 => t - t0 <? tc_ttl c | None => false end.
#[export] Instance timed_cache {K} `{Countable K} : TimedCache (timed K) K := {|
  with_lifespan ttl := mk_timed ttl ∅;
  cache_set t k c := mk_timed (tc_ttl c) (<[k := t]> (tc_at c));
  cache_get t k c :=
    if timed_live c t k then (true, c) else (false, mk_timed (tc_ttl c) (delete k (tc_at c)));
  flush t c := mk_timed (tc_ttl c) (filter (fun '(_, t0) => t - t0 < tc_ttl c) (tc_at c));
  cache_size c := size (tc_at c);
  live := timed_live;
|}.

Lemma timed_live_delete {K} `{Countable K} (c : timed K) t t' k k' :
  t <= t' -> timed_live c t k = false ->
  timed_live (mk_timed (tc_ttl c) (delete k (tc_at c))) t' k' = timed_live c t' k'.
Proof.
  unfold timed_live. cbn. intros Ht Hk. rewrite lookup_delete. case_decide as E; [|done].
  subst k'. destruct (tc_at c !! k); [|done]. symmetry. apply Z.ltb_ge.
  apply Z.ltb_ge in Hk. lia.
Qed.

Lemma timed_live_flush {K} `{Countable K} (c : timed K) t t' k :
  t <= t' -> timed_live (flush t c) t' k = timed_live c t' k.
Proof.
  intros Ht. unfold timed_live. cbn. rewrite map_lookup_filter.
  destruct (tc_at c !! k) as [t0|]; cbn; [|done].
  case_guard; cbn; [done|]. symmetry. apply Z.ltb_ge. lia.
Qed.

#[export] Instance timed_cache_laws {K} `{Countable K} :
  TimedCacheLaws (timed K) K tc_ttl.
Proof.
  split; try done.
  - intros c t t' k Ht Hl. cbn. unfold timed_live. cbn. rewrite lookup_insert_eq.
    apply Z.ltb_lt. lia.
  - intros c t t' k Hl. cbn. unfold timed_live. cbn. rewrite lookup_insert_eq.
    apply Z.ltb_ge. lia.
  - intros c t t' k k' Ht Hne. cbn. unfold timed_live. cbn. by rewrite lookup_insert_ne.
  - intros c t k. cbn. by destruct (timed_live c t k).
  - intros c t t' k k' Ht. cbn. destruct (timed_live c t k) eqn:E; [done|].
    by apply timed_live_delete with (t := t).
  - intros c t k. cbn. by destruct (timed_live c t k).
  - intros. by apply timed_live_flush.
Qed.

(** ** Keyed priority queue: a finite map searched for its greatest priority *)

Section keyed_pq.
Context {K P : Type} `{Countable K} (leb : P -> P -> bool).

Definition best (l : list (K * P)) : option (K * P) :=
  foldr (fun x acc => match acc with
                      | Some y => if leb (snd x) (snd y) then Some y else Some x
                      | None => Some x
                      end) None l.
Definition map_pq : KeyedPQ (gmap K P) K P := {|
  pq_empty := ∅;
  pq_push k p q := <[k := p]> q;
  pq_peek q := best (map_to_list q);
  pq_pop q := match best (map_to_list q) with Some (k, _) => delete k q | None => q end;
  pq_len q := size q;
  pq_get_priority k q := q !! k;
  pq_remove k q := delete k q;
|}.

Lemma best_spec l :
  (forall a b, leb a b = true \/ leb b a = true) ->
  (forall a b c, leb a b = true -> leb b c = true -> leb a c = true) ->
  match best l with
  | Some x => x ∈ l /\ (forall y, y ∈ l -> leb (snd y) (snd x) = true)
  | None => l = []
  end.
Proof.
  intros Htot Htrans. induction l as [|x l IH]; [done|]. cbn [best foldr].
  fold (best l). assert (Hrefl : forall a, leb a a = true) by (intros a; by destruct (Htot a a)).
  destruct (best l) as [y|] eqn:E; cbn in IH |- *.
  - destruct IH as [Hin Hmax]. destruct (leb (snd x) (snd y)) eqn:L.
    + split; [by apply list_elem_of_further|]. intros z [->|Hz]%elem_of_cons; auto.
    + split; [apply list_elem_of_here|]. intros z [->|Hz]%elem_of_cons; [done|].
      eapply Htrans; [by apply Hmax|]. destruct (Htot (snd x) (snd y)); congruence.
  - subst l. split; [apply list_elem_of_here|].
    intros z [->|Hz]%elem_of_cons; [done|]. by apply elem_of_nil in Hz.
Qed.

Lemma map_pq_laws :
  (forall a b, leb a b = true \/ leb b a = true) ->
  (forall a b c, leb a b = true -> leb b c = true -> leb a c = true) ->
  @KeyedPQLaws (gmap K P) K P map_pq _ _ leb id.
Proof.
  intros Htot Htrans. split; try done; cbn; unfold id.
  - intros q Hq. pose proof (best_spec (map_to_list q) Htot Htrans) as Hs. rewrite Hq in Hs.
    by apply map_to_list_empty_iff.
  - intros q k p Hq. pose proof (best_spec (map_to_list q) Htot Htrans) as Hs. rewrite Hq in Hs.
    destruct Hs as [Hin Hmax]. apply elem_of_map_to_list in Hin. split; [done|].
    intros k' p' Hk'. apply (Hmax (k', p')). by apply elem_of_map_to_list.
  - intros q k p Hq. by rewrite Hq.
Qed.

End keyed_pq.

(** ** Packets: one static key per byte, no lookup table *)

#[export] Instance ref_packet_api : PacketApi := {|
  DISCARD := 0; FORWARDED := 1; REPAIR := 2; SIMPLE_VOTE_TX := 3;
  PERF_TRACK_PACKET := 4; FROM_STAKED_NODE := 5;
  packet_data p := Some (buffer p);
  deserialize_tx p :=
    match buffer p with
    | [] => None
    | bytes => Some {| message := {| static_account_keys := (fun b => [b]) <$> bytes;
                                     address_table_lookups := None;
                                     is_maybe_writable := fun _ => true |} |}
    end;
|}.
#[export] Instance ref_packet_api_laws : PacketApiLaws.
Proof.
  split; [|repeat constructor; done|].
  - apply (bool_decide_unpack _). vm_compute. exact I.
  - intros p q Hp _ _. cbn. by rewrite Hp.
Qed.

#[export] Instance ref_histogram : Histogram (list Z) := {|
  hist_default := [];
  hist_increment x h := x :: h;
  hist_minimum h := match h with [] => None | x :: h => Some (foldr Z.min x h) end;
  hist_maximum h := match h with [] => None | x :: h => Some (foldr Z.max x h) end;
  hist_percentile p h :=
    let sorted := merge_sort Z.le h in
    sorted !! Z.to_nat (Z.max 0 ((Z.of_nat (length h) * p + 99) / 100 - 1));
|}.

(** A packet with the given bytes and flags. *)
Definition ref_packet (bytes : list Z) (fl : Z) : Packet := {|
  buffer := bytes;
  meta := {| meta_size := Z.of_nat (length bytes); meta_addr := V4 10 0 0 1;
             meta_port := 8001; meta_flags := fl |};
|}.

(** ** Dates: the range of chrono's [DateTime<Utc>] *)

#[export] Instance ref_chrono : Chrono := {|
  MIN_UTC := -8334601228800 * NANOS;
  MAX_UTC := 8210266876799 * NANOS + 999999999;
  duration_from_std d := if d <=? (2 ^ 63 - 1) * 1000000 then Some d else None;
|}.
#[export] Instance ref_chrono_laws : ChronoLaws.
Proof. split; [done|done|]. cbn. intros d x. destruct (d <=? _); [by intros [= ->]|done]. Qed.

(** ** Tokens: the code of key, header and claims *)

Section ref_jwt.
Context {Cl : Type} `{Countable Cl}.

Definition ref_token (k : Z) (h : JwtHeader) (c : Cl) : string := to_string (k, algorithm h, c).

#[export] Instance ref_jwt : Jwt Z Z Cl := {|
  sign_with_key k h c := Some (ref_token k h c);
  verify_with_key k t :=
    match from_str (A := Z * AlgorithmType * Cl) t with
    | Some (k', a, c) =>
        if decide (k' = k /\ ref_token k {| algorithm := a |} c = t)
        then Some ({| algorithm := a |}, c) else None
    | None => None
    end;
|}.

Lemma pos_to_string_no_space p :
  Forall (fun a => a <> " "%char) (String.list_ascii_of_string (pos_to_string p)).
Proof. induction p; cbn; constructor; done. Qed.

#[export] Instance ref_jwt_pair k : JwtKeyPair Z Z Cl k k.
Proof.
  split; cbn.
  - intros [a] c t [= <-]. unfold ref_token. cbn.
    rewrite pos_of_to_string. cbn. rewrite decode_encode. by rewrite decide_True.
  - intros h c t. destruct (_ ≫= decode) as [[[k' a] c']|]; [|done].
    case_decide as Hd; [|done]. intros [= <- <-]. f_equal. by apply Hd.
  - intros h c t [= <-]. apply pos_to_string_no_space.
Qed.
End ref_jwt.

(** ** Signatures: 64 copies of a checksum of key and message *)

Definition ref_checksum (k : list Z) (m : string) : Z :=
  (sumZ k + Z.of_nat (String.length m)) mod 256.
Definition ref_sign (k : list Z) (m : string) : list Z := replicate SIGNATURE_BYTES (ref_checksum k m).
#[export] Instance ref_ed25519 : Ed25519 (list Z) (list Z) := {|
  pk_from_bytes b := if decide (length b = PUBKEY_BYTES) then Some b else None;
  pk_to_bytes b := b;
  sig_from_bytes b := Some b;
  ed_verify k m s := bool_decide (s = ref_sign k m);
|}.
#[export] Instance ref_ed25519_laws : Ed25519Laws (list Z) (list Z).
Proof. split. cbn. intros b pk. case_decide; [by intros [= <-]|done]. Qed.

(** ** Metadata: bytes in the visible range *)

Definition ref_bytes (s : string) : list Z :=
  Z.of_N ∘ Ascii.N_of_ascii <$> String.list_ascii_of_string s.
#[export] Instance ref_metadata : MetadataApi := {|
  to_str b := if forallb (fun z => (32 <=? z) && (z <? 127)) b
              then Some (String.string_of_list_ascii (Ascii.ascii_of_N ∘ Z.to_N <$> b)) else None;
  parse_value s := let b := ref_bytes s in
                   if forallb (fun z => (32 <=? z) && (z <? 127)) b then Some b else None;
|}.

#[export] Instance ref_auth_proto : AuthProto := {| ROLE_VALIDATOR := 1; ROLE_RELAYER := 0 |}.

#[export] Instance ref_endpoint : EndpointApi string := {|
  endpoint_from_str s := if decide (s = EmptyString) then None else Some s;
  tls_config := Some;
|}.
#[export] Instance ref_signer : Signer (list Z) := {|
  signer_pubkey k := resize PUBKEY_BYTES 0 k;
  sign_message k := ref_sign (resize PUBKEY_BYTES 0 k);
|}.
#[export] Instance ref_signer_laws : SignerLaws (list Z) (list Z) (list Z).
Proof.
  split. intros kp. exists (resize PUBKEY_BYTES 0 kp). cbn -[resize PUBKEY_BYTES].
  rewrite decide_True by apply length_resize. split; [done|]. intros m.
  split; [done|]. eexists. split; [done|]. by apply bool_decide_eq_true.
Qed.
#[export] Instance ref_timestamp : TimestampApi := {|
  system_time_of t :=
    if (0 <=? ts_seconds t) && (ts_seconds t <? 2 ^ 63) then Some (ts_seconds t * NANOS + ts_nanos t) else None;
|}.
