(* ===== verification/Convert.v ===== *)
(** * Conversion of packets to protocol buffers
    ([src/jito-protos/src/convert.rs])

    The messages of the generated [packet] and [shared] modules, as the code
    builds them, and [packet_to_proto_packet]. *)

From Stdlib Require Import ZArith Lia String.
From stdpp Require Import base gmap strings list.
From S2P Require Import Prelude Interfaces.

Record ProtoPacketFlags := {
  pf_discard : bool;
  pf_forwarded : bool;
  pf_repair : bool;
  pf_simple_vote_tx : bool;
  pf_tracer_packet : bool;
  pf_from_staked_node : bool;
}.
Record ProtoMeta := {
  pm_size : Z;
  pm_addr : string;
  pm_port : Z;
  pm_flags : option ProtoPacketFlags;
  pm_sender_stake : Z;
}.
Record ProtoPacket := {
  pp_data : list Z;
  pp_meta : option ProtoMeta;
}.
(** [packet::PacketBatch] of the protocol, renamed as in the source. *)
Record ProtoPacketBatch := { packets : list ProtoPacket }.
Record Heartbeat := { count : Z }.
(** The timestamp of a header is an instant of [SystemTime], in nanoseconds. *)
Record Header := { ts : option Z }.

Section convert.
Context `{PacketApi} `{Text IpAddr}.

Definition packet_to_proto_packet (p : Packet) : option ProtoPacket :=
  data ← packet_data p;
  Some {|
    pp_data := data;
    pp_meta := Some {|
      pm_size := u64 (meta_size (meta p));
      pm_addr := to_string (meta_addr (meta p));
      pm_port := u32 (meta_port (meta p));
      pm_flags := Some {|
        pf_discard := has_flag DISCARD p;
        pf_forwarded := has_flag FORWARDED p;
        pf_repair := has_flag REPAIR p;
        pf_simple_vote_tx := has_flag SIMPLE_VOTE_TX p;
        pf_tracer_packet := has_flag PERF_TRACK_PACKET p;
        pf_from_staked_node := has_flag FROM_STAKED_NODE p;
      |};
      pm_sender_stake := 0;
    |};
  |}.

(** The flag of a converted packet, when it has one. *)
Definition proto_flag (f : ProtoPacketFlags -> bool) (pp : ProtoPacket) : option bool :=
  m ← pp_meta pp; fl ← pm_flags m; Some (f fl).

Lemma packet_to_proto_packet_Some p :
  is_Some (packet_to_proto_packet p) <-> is_Some (packet_data p).
Proof.
  unfold packet_to_proto_packet. destruct (packet_data p); cbn.
  - split; eauto.
  - split; intros [? ?]; discriminate.
Qed.

End convert.
