(* ===== verification/FetchStage.v ===== *)
(** * The fetch stage ([src/core/src/fetch_stage.rs])

    One thread copies the batches of the TPU-forward port to the TPU channel,
    marking every packet as forwarded: an iteration as a function
    ([fetch_iteration]), and step by step as other threads may see it
    ([fetch_step]). *)

From Stdlib Require Import ZArith Lia String.
From stdpp Require Import base gmap strings list.
From S2P Require Import Prelude Interfaces Convert Reference.

(** [FetchStageError]; a [SendError] carries the batch that was not sent. *)
Inductive RecvTimeoutError := Timeout | Disconnected.
Inductive FetchStageError :=
| SendErr (b : PacketBatch)
| RecvTimeoutErr (e : RecvTimeoutError)
| RecvErr.

Section fetch_stage.
Context `{PacketApi}.

(** [packet.meta_mut().flags |= PacketFlags::FORWARDED] *)
Definition mark_forwarded (p : Packet) : Packet :=
  p <| meta ::= fun m => m <| meta_flags ::= fun f => Z.lor f (2 ^ FORWARDED) |> |>.

(** [packet_batch.iter_mut().for_each(mark_forwarded)] *)
Definition mark_batch (b : PacketBatch) : PacketBatch := map mark_forwarded b.

(** The [while let Ok(..) = tpu_forwards_receiver.try_recv()] loop: [avail] is
    the sequence of batches the successive [try_recv] return before one fails;
    what is left of it stays in the channel. *)
Fixpoint drain_forwards (avail : list PacketBatch) (num_packets : Z)
    (packet_batches : list PacketBatch) : list PacketBatch * list PacketBatch :=
  match avail with
  | [] => (packet_batches, [])
  | packet_batch :: avail =>
      let num_packets := num_packets + Z.of_nat (length packet_batch) in
      let packet_batches := packet_batches ++ [mark_batch packet_batch] in
      if 1024 <? num_packets then (packet_batches, avail)
      else drain_forwards avail num_packets packet_batches
  end.

(** The sending loop.  [send] blocks until there is room and fails only when
    the receiver is gone: [room] sends succeed before that, all of them when it
    is [None]. *)
Fixpoint send_batches (room : option nat) (packet_batches sent : list PacketBatch)
    : list PacketBatch * result FetchStageError () :=
  match packet_batches with
  | [] => (sent, Ok ())
  | b :: packet_batches =>
      match room with
      | Some O => (sent, Err (SendErr b))
      | Some (S n) => send_batches (Some n) packet_batches (sent ++ [b])
      | None => send_batches None packet_batches (sent ++ [b])
      end
  end.

Record forwards_run := {
  fw_sent : list PacketBatch;      (** handed to the TPU channel, in order *)
  fw_left : list PacketBatch;      (** still in the forwards channel *)
  fw_result : result FetchStageError ();
}.

(** [handle_forwarded_packets]: [first] is what the blocking [recv] returns,
    [None] when the channel is disconnected. *)
Definition handle_forwarded_packets (first : option PacketBatch)
    (avail : list PacketBatch) (room : option nat) : forwards_run :=
  match first with
  | None => {| fw_sent := []; fw_left := avail; fw_result := Err RecvErr |}
  | Some packet_batch =>
      let num_packets := Z.of_nat (length packet_batch) in
      let '(packet_batches, rest) :=
        drain_forwards avail num_packets [mark_batch packet_batch] in
      let '(sent, r) := send_batches room packet_batches [] in
      {| fw_sent := sent; fw_left := rest; fw_result := r |}
  end.

(** ** The thread started by [FetchStage::new] *)
Record fetch_state := {
  metrics_start : Z;
  tpu_forwards_receiver_max_len : Z;
  tpu_sender_max_len : Z;
  tpu_out : list PacketBatch;
}.
#[global] Instance fetch_state_eta : Eta fetch_state := fun s =>
  {| metrics_start := metrics_start s;
     tpu_forwards_receiver_max_len := tpu_forwards_receiver_max_len s;
     tpu_sender_max_len := tpu_sender_max_len s; tpu_out := tpu_out s |}.

(** What one iteration observes of its environment. *)
Record fetch_input := {
  fi_first : option PacketBatch;
  fi_avail : list PacketBatch;
  fi_room : option nat;
  fi_now : Z;                     (** after the packets were handled, in ms *)
  fi_forwards_len : Z;
  fi_sender_len : Z;
}.

(** The end of an iteration: the report once a second, and the high-water marks. *)
Definition fetch_report (now forwards_len sender_len : Z) (s : fetch_state) : fetch_state :=
  let s := if 1000 <=? now - metrics_start s
           then s <| metrics_start := now |>
                  <| tpu_forwards_receiver_max_len := 0 |> <| tpu_sender_max_len := 0 |>
           else s in
  s <| tpu_forwards_receiver_max_len ::= Z.max forwards_len |> <| tpu_sender_max_len ::= Z.max sender_len |>.

Definition fetch_iteration (s : fetch_state) (i : fetch_input) : result Empty_set fetch_state :=
  let run := handle_forwarded_packets (fi_first i) (fi_avail i) (fi_room i) in
  let s := s <| tpu_out ::= fun o => o ++ fw_sent run |> in
  match fw_result run with
  | Ok _ | Err (RecvTimeoutErr Timeout) =>
      Ok (fetch_report (fi_now i) (fi_forwards_len i) (fi_sender_len i) s)
  | _ => Panic
  end.

(** ** The thread step by step

    Between two of its channel operations other threads may run: [Draining]
    holds the batches received so far and their number of packets, [Sending]
    those not sent yet.  A step is one [recv], [try_recv] or [send], or the
    report at the end of an iteration; a step of [Receiving] on an empty channel
    is the blocked [recv].  [open] tells whether the TPU channel has a receiver. *)
Inductive fetch_pc :=
| Receiving
| Draining (num_packets : Z) (packet_batches : list PacketBatch)
| Sending (packet_batches : list PacketBatch).
Record fetch_thread := {
  pc : fetch_pc;
  fetch : fetch_state;
  forwards_chan : list PacketBatch;
  tpu_chan : list PacketBatch;
}.
#[global] Instance fetch_thread_eta : Eta fetch_thread := fun t =>
  {| pc := pc t; fetch := fetch t; forwards_chan := forwards_chan t; tpu_chan := tpu_chan t |}.

Definition fetch_step (open : bool) (now forwards_len sender_len : Z) (t : fetch_thread)
    : result Empty_set fetch_thread :=
  match pc t, forwards_chan t with
  | Receiving, [] => Ok t
  | Receiving, packet_batch :: l =>
      Ok (t <| pc := Draining (Z.of_nat (length packet_batch)) [mark_batch packet_batch] |> <| forwards_chan := l |>)
  | Draining _ packet_batches, [] => Ok (t <| pc := Sending packet_batches |>)
  | Draining num_packets packet_batches, packet_batch :: l =>
      let num_packets := num_packets + Z.of_nat (length packet_batch) in
      let packet_batches := packet_batches ++ [mark_batch packet_batch] in
      Ok (t <| pc := if 1024 <? num_packets then Sending packet_batches else Draining num_packets packet_batches |>
            <| forwards_chan := l |>)
  | Sending (b :: packet_batches), _ =>
      if open then Ok (t <| pc := Sending packet_batches |> <| tpu_chan ::= fun l => l ++ [b] |>
                         <| fetch ::= fun f => f <| tpu_out ::= fun o => o ++ [b] |> |>)
      else Panic
  | Sending [], _ => Ok (t <| pc := Receiving |> <| fetch ::= fetch_report now forwards_len sender_len |>)
  end.

(** ** Specification *)

(** [q] is [p] marked as forwarded: that flag is set, and every other flag, the
    bytes, the size and the sender are those of [p]. *)
Definition forwarded_copy (p q : Packet) : Prop :=
  has_flag FORWARDED q = true /\ (forall bit, bit <> FORWARDED -> has_flag bit q = has_flag bit p) /\
  buffer q = buffer p /\ meta_size (meta q) = meta_size (meta p) /\
  meta_addr (meta q) = meta_addr (meta p) /\ meta_port (meta q) = meta_port (meta p).
Definition forwarded_batch : PacketBatch -> PacketBatch -> Prop := Forall2 forwarded_copy.

(** ** Lemmas *)

Lemma mark_forwarded_flag `{!PacketApiLaws} bit p :
  0 <= bit ->
  has_flag bit (mark_forwarded p) = (has_flag bit p || (bit =? FORWARDED)).
Proof.
  intros Hb. unfold has_flag, mark_forwarded. cbn. rewrite Z.lor_spec. f_equal.
  pose proof flag_bits_nonneg as Hn. rewrite !Forall_cons in Hn.
  rewrite Z.pow2_bits_eqb by lia. apply Z.eqb_sym.
Qed.

Lemma mark_forwarded_other `{!PacketApiLaws} bit p :
  bit ∈ [DISCARD; REPAIR; SIMPLE_VOTE_TX; PERF_TRACK_PACKET; FROM_STAKED_NODE] ->
  has_flag bit (mark_forwarded p) = has_flag bit p.
Proof.
  intros Hbit. pose proof flag_bits_nonneg as Hn. pose proof flag_bits_distinct as Hne.
  rewrite !Forall_cons in Hn. rewrite !NoDup_cons, !elem_of_cons, elem_of_nil in Hne.
  rewrite !elem_of_cons, elem_of_nil in Hbit.
  rewrite mark_forwarded_flag by (destruct_or? Hbit; subst; tauto).
  rewrite (proj2 (Z.eqb_neq _ _)); [apply orb_false_r|].
  destruct_or? Hbit; subst; intuition congruence.
Qed.

Lemma mark_forwarded_sets `{!PacketApiLaws} p : has_flag FORWARDED (mark_forwarded p) = true.
Proof.
  pose proof flag_bits_nonneg as Hn. rewrite !Forall_cons in Hn.
  rewrite mark_forwarded_flag by tauto. rewrite Z.eqb_refl. apply orb_true_r.
Qed.

Lemma mark_forwarded_payload p :
  buffer (mark_forwarded p) = buffer p /\ meta_size (meta (mark_forwarded p)) = meta_size (meta p) /\
  meta_addr (meta (mark_forwarded p)) = meta_addr (meta p) /\
  meta_port (meta (mark_forwarded p)) = meta_port (meta p).
Proof. done. Qed.

Lemma mark_batch_forwarded `{!PacketApiLaws} b : forwarded_batch b (mark_batch b).
Proof.
  apply Forall2_fmap_r, Forall_Forall2_diag, Forall_forall. intros p _. split; [apply mark_forwarded_sets|].
  split; [|apply mark_forwarded_payload]. intros bit Hne. destruct (Z.leb_spec 0 bit) as [Hb|Hb].
  - rewrite mark_forwarded_flag, (proj2 (Z.eqb_neq _ _) Hne) by done. apply orb_false_r.
  - unfold has_flag. by rewrite !Z.testbit_neg_r by done.
Qed.
Lemma mark_batches_forwarded `{!PacketApiLaws} l : Forall2 forwarded_batch l (mark_batch <$> l).
Proof. apply Forall2_fmap_r, Forall_Forall2_diag, Forall_forall. intros b _. apply mark_batch_forwarded. Qed.

Lemma length_mark_batch b : length (mark_batch b) = length b.
Proof. apply length_map. Qed.

Lemma drain_forwards_split avail num acc :
  exists taken rest, avail = taken ++ rest /\
    drain_forwards avail num acc = (acc ++ (mark_batch <$> taken), rest).
Proof.
  revert num acc. induction avail as [|b avail IH]; intros num acc; cbn.
  - exists [], []. cbn. by rewrite app_nil_r.
  - case_match.
    + exists [b], avail. done.
    + destruct (IH (num + Z.of_nat (length b)) (acc ++ [mark_batch b]))
        as (taken & rest & -> & ->).
      exists (b :: taken), rest. split; [done|]. by rewrite <- app_assoc.
Qed.

Lemma send_batches_all bs sent : send_batches None bs sent = (sent ++ bs, Ok ()).
Proof.
  revert sent. induction bs as [|b bs IH]; intros sent; cbn; [by rewrite app_nil_r|].
  rewrite IH. by rewrite <- app_assoc.
Qed.

(** [room] sends succeed, and the next one fails. *)
Definition sends (room : option nat) (n : nat) : nat :=
  match room with Some r => Nat.min r n | None => n end.
Lemma send_batches_prefix room bs sent :
  (send_batches room bs sent).1 = sent ++ take (sends room (length bs)) bs /\
  ((send_batches room bs sent).2 = Ok () <-> sends room (length bs) = length bs).
Proof.
  revert room sent. induction bs as [|b bs IH]; intros room sent; cbn.
  - destruct room; cbn; by rewrite ?Nat.min_0_r, app_nil_r.
  - destruct room as [[|n]|]; cbn.
    + by rewrite app_nil_r.
    + destruct (IH (Some n) (sent ++ [b])) as [-> ->]. cbn. rewrite <- app_assoc. split; [done|lia].
    + destruct (IH None (sent ++ [b])) as [-> ->]. cbn. by rewrite <- app_assoc.
Qed.

(** The packet budget: the loop takes one more batch only while the running
    total is at most 1024. *)
Lemma drain_forwards_budget avail num acc pre b post :
  (drain_forwards avail num acc).1 = acc ++ pre ++ b :: post -> post <> [] ->
  num + sumZ ((fun l : PacketBatch => Z.of_nat (length l)) <$> pre ++ [b]) <= 1024.
Proof.
  intros Hd Hp. revert num acc pre Hd.
  induction avail as [|x avail IH]; intros num acc pre; cbn [drain_forwards].
  - intros Hd%(f_equal length). cbn in Hd. rewrite !length_app in Hd. cbn in Hd. lia.
  - destruct (1024 <? _) eqn:E.
    + intros Hd. cbn in Hd. apply app_inv_head in Hd. exfalso.
      apply (f_equal length) in Hd. rewrite length_app in Hd. destruct post; [done|]. cbn in Hd. lia.
    + intros Hd. apply Z.ltb_ge in E.
      destruct (drain_forwards_split avail (num + Z.of_nat (length x))
        (acc ++ [mark_batch x])) as (taken & rest & _ & Heq).
      specialize (IH (num + Z.of_nat (length x)) (acc ++ [mark_batch x])).
      rewrite Heq in Hd, IH. cbn [fst] in Hd, IH. rewrite <- !app_assoc in *.
      apply app_inv_head in Hd. destruct pre as [|y pre]; cbn in Hd; simplify_eq.
      * cbn. rewrite length_mark_batch. lia.
      * specialize (IH pre). rewrite <- !app_assoc, H1 in IH. specialize (IH eq_refl).
        cbn. rewrite length_mark_batch. unfold sumZ in IH. lia.
Qed.

(** C39: the forwards port.  The batches taken from the channel are a prefix of
    what was queued and the rest stays queued; the batches handed to the TPU
    channel are copies of the taken ones, in order, each packet with its
    forwarded flag set and otherwise as it came.  [room] is the number of sends
    that succeed before the TPU channel loses its receiver: that many copies are
    sent, and the handler succeeds exactly when it has sent all of them, so
    nothing taken is lost while the channel stays open. *)
Theorem forwarded_packets_fifo `{!PacketApiLaws} (b : PacketBatch) avail room :
  let run := handle_forwarded_packets (Some b) avail room in
  exists taken,
    avail = taken ++ fw_left run /\
    Forall2 forwarded_batch (take (sends room (length (b :: taken))) (b :: taken)) (fw_sent run) /\
    (fw_result run = Ok () <-> length (fw_sent run) = length (b :: taken)) /\
    (room = None -> fw_result run = Ok () /\ Forall2 forwarded_batch (b :: taken) (fw_sent run)).
Proof.
  cbv zeta. unfold handle_forwarded_packets.
  destruct (drain_forwards_split avail (Z.of_nat (length b)) [mark_batch b])
    as (taken & rest & -> & ->). change ([mark_batch b] ++ (mark_batch <$> taken)) with (mark_batch <$> b :: taken).
  destruct (send_batches_prefix room (mark_batch <$> b :: taken) []) as [Hs Hr].
  exists taken. destruct (send_batches _ _ _) as [sent r]. cbn [fw_left fw_sent fw_result fst snd] in *.
  rewrite length_fmap, app_nil_l, <- fmap_take in *. subst sent.
  split; [done|]. split; [apply mark_batches_forwarded|]. split.
  - rewrite Hr, length_fmap, length_take. unfold sends. destruct room; lia.
  - intros ->. split; [by apply Hr|]. cbn [sends]. rewrite firstn_all. apply mark_batches_forwarded.
Qed.

(** ** The steps of an iteration, undisturbed, are the iteration *)

Section steps.
Context (now forwards_len sender_len : Z).
Definition steps : fetch_thread -> fetch_thread -> Prop :=
  rtc (fun t t' => fetch_step true now forwards_len sender_len t = Ok t').

Lemma drain_steps f num l out avail :
  steps {| pc := Draining num l; fetch := f; forwards_chan := avail; tpu_chan := out |}
        {| pc := Sending (drain_forwards avail num l).1; fetch := f;
           forwards_chan := (drain_forwards avail num l).2; tpu_chan := out |}.
Proof.
  revert num l. induction avail as [|b avail IH]; intros num l.
  - by apply rtc_once.
  - eapply rtc_l; [reflexivity|]. cbn. destruct (1024 <? _); [reflexivity|apply IH].
Qed.

Lemma send_steps f avail l out :
  steps {| pc := Sending l; fetch := f; forwards_chan := avail; tpu_chan := out |}
        {| pc := Sending []; fetch := f <| tpu_out ::= fun o => o ++ l |>; forwards_chan := avail; tpu_chan := out ++ l |}.
Proof.
  revert f out. induction l as [|b l IH]; intros [st fm sm o] out.
  - cbn. by rewrite !app_nil_r.
  - eapply rtc_l; [reflexivity|]. cbn. rewrite (cons_middle b o l), (cons_middle b out l), !app_assoc. apply IH.
Qed.

Theorem fetch_steps_iteration f f' b avail out :
  let i := {| fi_first := Some b; fi_avail := avail; fi_room := None; fi_now := now;
              fi_forwards_len := forwards_len; fi_sender_len := sender_len |} in
  let run := handle_forwarded_packets (Some b) avail None in
  fetch_iteration f i = Ok f' ->
  steps {| pc := Receiving; fetch := f; forwards_chan := b :: avail; tpu_chan := out |}
        {| pc := Receiving; fetch := f'; forwards_chan := fw_left run; tpu_chan := out ++ fw_sent run |}.
Proof.
  cbv zeta. unfold fetch_iteration. cbn [fi_first fi_avail fi_room fi_now fi_forwards_len fi_sender_len].
  unfold handle_forwarded_packets.
  pose proof (drain_steps f (Z.of_nat (length b)) [mark_batch b] out avail) as Hd.
  destruct (drain_forwards _ _ _) as [l rest]. rewrite send_batches_all. cbn -[fetch_report] in *. intros [= <-].
  eapply rtc_l; [reflexivity|]. etrans; [exact Hd|]. etrans; [apply send_steps|]. by apply rtc_once.
Qed.
End steps.

(** The loop reads a further batch only while it holds at most 1024
    packets: when at least two batches follow the first one, everything but the
    last batch amounts to at most 1024 packets. *)
Theorem forwarded_packets_budget (b : PacketBatch) pre y z rest room :
  let run := handle_forwarded_packets (Some b) (pre ++ y :: z :: rest) room in
  fw_left run = rest ->
  Z.of_nat (length b) + sumZ ((fun l : PacketBatch => Z.of_nat (length l)) <$> pre ++ [y]) <= 1024.
Proof.
  cbv zeta. unfold handle_forwarded_packets.
  destruct (drain_forwards_split (pre ++ y :: z :: rest) (Z.of_nat (length b)) [mark_batch b])
    as (taken & rest' & Hsplit & Hd).
  pose proof (drain_forwards_budget (pre ++ y :: z :: rest) (Z.of_nat (length b)) [mark_batch b]
    (mark_batch <$> pre) (mark_batch y) [mark_batch z]) as Hb.
  rewrite Hd in *. destruct (send_batches _ _ _) as [sent r]. cbn in *. intros ->.
  assert (taken = pre ++ [y; z]) as ->.
  { apply (app_inv_tail rest). rewrite <- Hsplit. by rewrite <- app_assoc. }
  specialize (Hb ltac:(by rewrite fmap_app) ltac:(done)).
  rewrite !fmap_app in Hb |- *. cbn in *.
  rewrite <- list_fmap_compose in Hb. unfold compose in Hb.
  rewrite length_mark_batch in Hb.
  erewrite (list_fmap_ext _ (fun l : PacketBatch => Z.of_nat (length l))) in Hb; [exact Hb|].
  intros i l _. cbn. by rewrite length_mark_batch.
Qed.

(** A packet that went through the forwards port reaches the wire format
    with the [forwarded] flag set, and with its bytes, sender and every other
    flag as they were received. *)
Theorem forwarded_packet_wire_format `{!PacketApiLaws} `{Text IpAddr} p pp pp' :
  packet_to_proto_packet p = Some pp ->
  packet_to_proto_packet (mark_forwarded p) = Some pp' ->
  pp_data pp' = pp_data pp /\
  proto_flag pf_forwarded pp' = Some true /\
  proto_flag pf_discard pp' = proto_flag pf_discard pp /\
  proto_flag pf_repair pp' = proto_flag pf_repair pp /\
  proto_flag pf_simple_vote_tx pp' = proto_flag pf_simple_vote_tx pp /\
  proto_flag pf_tracer_packet pp' = proto_flag pf_tracer_packet pp /\
  proto_flag pf_from_staked_node pp' = proto_flag pf_from_staked_node pp /\
  (pm_addr <$> pp_meta pp') = (pm_addr <$> pp_meta pp).
Proof.
  unfold packet_to_proto_packet.
  rewrite (packet_data_ext (mark_forwarded p) p) by (try done; apply mark_forwarded_other; set_solver).
  destruct (packet_data p) as [d|]; cbn; [|done]. intros Hp Hp'. simplify_eq/=.
  unfold proto_flag. cbn. rewrite mark_forwarded_sets.
  by rewrite !mark_forwarded_other by set_solver.
Qed.

End fetch_stage.

(** ** Witnesses *)

(** The TPU channel loses its receiver after one send: the second batch, taken
    too, is lost. *)
Lemma forwarded_packets_fifo_witness :
  let run := handle_forwarded_packets (Some [ref_packet [1] 0]) [[ref_packet [2] 0]] (Some 1%nat) in
  fw_left run = [] /\ length (fw_sent run) = 1%nat /\ fw_result run <> Ok () /\
  exists taken, [[ref_packet [2] 0]] = taken ++ fw_left run /\
    Forall2 forwarded_batch (take 1 ([ref_packet [1] 0] :: taken)) (fw_sent run).
Proof.
  destruct (forwarded_packets_fifo [ref_packet [1] 0] [[ref_packet [2] 0]] (Some 1%nat))
    as (taken & Hl & Hs & _). cbv zeta.
  split; [reflexivity|]. split; [reflexivity|]. split; [discriminate|].
  exists taken. split; [exact Hl|exact Hs].
Defined.

Lemma forwarded_packets_budget_witness :
  Z.of_nat (length (replicate 3 (ref_packet [1] 0))) +
  sumZ ((fun l : PacketBatch => Z.of_nat (length l)) <$> [] ++ [replicate 5 (ref_packet [2] 0)]) <= 1024.
Proof.
  exact (forwarded_packets_budget (replicate 3 (ref_packet [1] 0)) []
    (replicate 5 (ref_packet [2] 0)) (replicate 2000 (ref_packet [3] 0))
    [replicate 1 (ref_packet [4] 0)] None eq_refl).
Defined.

Lemma forwarded_packet_wire_format_witness :
  proto_flag pf_forwarded
    (default (Build_ProtoPacket [] None) (packet_to_proto_packet (mark_forwarded (ref_packet [7; 7] 8))))
  = Some true.
Proof.
  refine (proj1 (proj2 (forwarded_packet_wire_format (ref_packet [7; 7] 8)
    (default (Build_ProtoPacket [] None) (packet_to_proto_packet (ref_packet [7; 7] 8)))
    _ eq_refl eq_refl))).
Defined.
