(* ===== verification/Ofac.v ===== *)
(** * The OFAC filter ([src/core/src/ofac.rs])

    A transaction is dropped when one of the accounts it mentions is on the
    list: a static key of the message, or a key it loads through an address
    lookup table that the relayer knows. *)

From Stdlib Require Import ZArith Lia String.
From stdpp Require Import base gmap strings list.
From S2P Require Import Prelude Interfaces.

(** [address_lookup_table_cache] *)
Abbreviation AltCache := (gmap Pubkey AddressLookupTableAccount).

(** [ofac_addresses.contains(acc)] *)
Definition contains (ofac_addresses : gset Pubkey) (acc : Pubkey) : bool :=
  bool_decide (acc ∈ ofac_addresses).

Definition is_ofac_address_in_static_keys (tx : VersionedTransaction)
    (ofac_addresses : gset Pubkey) : bool :=
  existsb (contains ofac_addresses) (static_account_keys (message tx)).

(** The nested loops return [true] at the first hit. *)
Definition is_ofac_address_in_lookup_table (tx : VersionedTransaction)
    (ofac_addresses : gset Pubkey) (address_lookup_table_cache : AltCache) : bool :=
  match address_table_lookups (message tx) with
  | Some lookup_tables =>
      existsb (fun table =>
        match address_lookup_table_cache !! account_key table with
        | Some lookup_info =>
            existsb (fun idx =>
              match addresses lookup_info !! idx with
              | Some account => contains ofac_addresses account
              | None => false
              end) (writable_indexes table ++ readonly_indexes table)
        | None => false
        end) lookup_tables
  | None => false
  end.

Definition is_tx_ofac_related (tx : VersionedTransaction) (ofac_addresses : gset Pubkey)
    (address_lookup_table_cache : AltCache) : bool :=
  is_ofac_address_in_static_keys tx ofac_addresses
  || is_ofac_address_in_lookup_table tx ofac_addresses address_lookup_table_cache.

(** ** Specification: the accounts a transaction mentions *)

(** The account at index [idx] of the table [table], when the relayer knows
    the table and the index is in range. *)
Definition resolve (alt : AltCache) (table : MessageAddressTableLookup) (idx : nat)
    : option Pubkey :=
  alt !! account_key table ≫= fun info => addresses info !! idx.

Inductive mentions (alt : AltCache) (tx : VersionedTransaction) (k : Pubkey) : Prop :=
| mentions_static :
    k ∈ static_account_keys (message tx) -> mentions alt tx k
| mentions_loaded tables table idx :
    address_table_lookups (message tx) = Some tables -> table ∈ tables ->
    idx ∈ writable_indexes table ++ readonly_indexes table ->
    resolve alt table idx = Some k -> mentions alt tx k.

(** ** Lemmas *)

Lemma contains_true s k : contains s k = true <-> k ∈ s.
Proof. apply bool_decide_eq_true. Qed.

Lemma static_keys_spec tx ofac :
  is_ofac_address_in_static_keys tx ofac = true <->
  exists k, k ∈ ofac /\ k ∈ static_account_keys (message tx).
Proof.
  unfold is_ofac_address_in_static_keys. rewrite existsb_elem.
  setoid_rewrite contains_true. naive_solver.
Qed.

Lemma lookup_table_spec tx ofac alt :
  is_ofac_address_in_lookup_table tx ofac alt = true <->
  exists k tables table idx, k ∈ ofac /\
    address_table_lookups (message tx) = Some tables /\ table ∈ tables /\
    idx ∈ writable_indexes table ++ readonly_indexes table /\ resolve alt table idx = Some k.
Proof.
  unfold is_ofac_address_in_lookup_table, resolve.
  destruct (address_table_lookups (message tx)) as [tables|]; [|naive_solver].
  rewrite existsb_elem. split.
  - intros (table & Ht & H). destruct (alt !! account_key table) as [info|] eqn:E; [|done].
    apply existsb_elem in H as (idx & Hi & H).
    destruct (addresses info !! idx) as [k|] eqn:Ek; [|done].
    exists k, tables, table, idx. rewrite E. cbn. rewrite contains_true in H. eauto.
  - intros (k & tables' & table & idx & Hk & Heq & Ht & Hi & H). simplify_eq.
    exists table. split; [done|]. destruct (alt !! account_key table) as [info|]; [|done].
    apply existsb_elem. exists idx. split; [done|]. cbn in H. rewrite H.
    by apply contains_true.
Qed.

Lemma ofac_related_iff tx ofac alt :
  is_tx_ofac_related tx ofac alt = true <-> exists k, k ∈ ofac /\ mentions alt tx k.
Proof.
  unfold is_tx_ofac_related. rewrite orb_true_iff, static_keys_spec, lookup_table_spec. split.
  - intros [(k & ? & ?)|(k & tables & table & idx & ? & ? & ? & ? & ?)]; exists k.
    + split; [done|]. by apply mentions_static.
    + split; [done|]. by apply (mentions_loaded _ _ _ tables table idx).
  - intros (k & Hk & [Hs|tables table idx ? ? ? ?]); [left|right]; naive_solver.
Qed.

(** Only the listed addresses matter: an entry of a lookup table that the
    transaction does not reference cannot flag it. *)
Lemma mentions_empty tx alt : is_tx_ofac_related tx ∅ alt = false.
Proof.
  apply not_true_iff_false. unfold is_tx_ofac_related.
  rewrite orb_true_iff, static_keys_spec, lookup_table_spec. set_solver.
Qed.

(** C12: the OFAC check is exact: it flags a transaction if and only if some
    listed address is one of the accounts the transaction mentions, statically
    or through a known lookup table (writable and read-only entries alike). *)
Theorem is_tx_ofac_related_spec tx ofac alt :
  is_tx_ofac_related tx ofac alt = true <-> exists k, k ∈ ofac /\ mentions alt tx k.
Proof. apply ofac_related_iff. Qed.
