(* ===== verification/OfacTests.v ===== *)
(** * The unit tests of the OFAC filter ([src/core/src/ofac.rs], module [tests])

    The tests of the repository, on arbitrary keys instead of fresh random ones:
    each is the conjunction of its assertions, and it holds whenever the keys it
    draws are different. *)

From Stdlib Require Import ZArith Lia String.
From stdpp Require Import base gmap strings list.
From S2P Require Import Prelude Interfaces Ofac.

Record AccountMeta := { am_pubkey : Pubkey; is_signer : bool; is_writable : bool }.
Record Instruction := { program_id : Pubkey; ix_data : list Z; ix_accounts : list AccountMeta }.

(** [Transaction::new_signed_with_payer] as a [VersionedTransaction], and its
    packet: a legacy message lists its payer and the programs and accounts of its
    instructions, and a packet deserializes to the transaction it was made from. *)
Class TxBuilder := {
  new_signed_with_payer : list Instruction -> Pubkey -> VersionedTransaction;
  packet_from_data : VersionedTransaction -> Packet;
}.
Class TxBuilderLaws `{TxBuilder} `{PacketApi} := {
  legacy_keys : forall ixs payer k,
    k ∈ static_account_keys (message (new_signed_with_payer ixs payer)) <->
    k = payer \/ exists ix, ix ∈ ixs /\ (k = program_id ix \/ k ∈ am_pubkey <$> ix_accounts ix);
  legacy_tables : forall ixs payer, address_table_lookups (message (new_signed_with_payer ixs payer)) = None;
  packet_deserializes : forall ixs payer,
    deserialize_tx (packet_from_data (new_signed_with_payer ixs payer)) = Some (new_signed_with_payer ixs payer);
}.

Section tests.
Context `{TB : TxBuilder} `{PA : PacketApi}.

(** One instruction of a program on one account. *)
Definition one_account (program account : Pubkey) (writable : bool) (payer : Pubkey) : VersionedTransaction :=
  new_signed_with_payer
    [{| program_id := program; ix_data := [0];
        ix_accounts := [{| am_pubkey := account; is_signer := false; is_writable := writable |}] |}] payer.

Definition test_is_ofac_address_in_static_keys (ofac_pubkey payer program account : Pubkey) : bool :=
  let ofac_addresses : gset Pubkey := {[ofac_pubkey]} in
  (* random address passes *)
  negb (is_ofac_address_in_static_keys (one_account program account false payer) ofac_addresses) &&
  (* transaction with ofac account as writable *)
  is_ofac_address_in_static_keys (one_account program ofac_pubkey true payer) ofac_addresses &&
  (* transaction with ofac account as readonly *)
  is_ofac_address_in_static_keys (one_account program ofac_pubkey false payer) ofac_addresses &&
  (* transaction with ofac account as signer *)
  is_ofac_address_in_static_keys (one_account program account true ofac_pubkey) ofac_addresses.

(** A version 0 message with one table lookup. *)
Definition one_lookup (payer program table : Pubkey) (writable readonly : list nat) : VersionedTransaction :=
  {| message := {|
       static_account_keys := [payer; program];
       address_table_lookups := Some [{| account_key := table; writable_indexes := writable; readonly_indexes := readonly |}];
       is_maybe_writable := fun _ => true |} |}.

Definition test_is_ofac_address_in_lookup_table (ofac_pubkey payer program table other : Pubkey) : bool :=
  let ofac_addresses : gset Pubkey := {[ofac_pubkey]} in
  let lookup_table := {| alt_key := table; addresses := [ofac_pubkey; other] |} in
  let address_lookup_table_cache : AltCache := {[table := lookup_table]} in
  (* test read-only ofac address *)
  is_ofac_address_in_lookup_table (one_lookup payer program table [] [0%nat]) ofac_addresses address_lookup_table_cache &&
  (* test writeable ofac *)
  is_ofac_address_in_lookup_table (one_lookup payer program table [0%nat] []) ofac_addresses address_lookup_table_cache &&
  (* test proximate ofac (in same lookup table, but not referenced) *)
  negb (is_ofac_address_in_lookup_table (one_lookup payer program table [1%nat] []) ofac_addresses
          address_lookup_table_cache).

(** [packet.deserialize_slice(..).unwrap()] *)
Definition related (p : Packet) (ofac_addresses : gset Pubkey) : option bool :=
  tx ← deserialize_tx p; Some (is_tx_ofac_related tx ofac_addresses ∅).
Definition test_discard_ofac_packets (ofac_pubkey payer program account : Pubkey) : bool :=
  let ofac_addresses : gset Pubkey := {[ofac_pubkey]} in
  let random_packet := packet_from_data (one_account program account false payer) in
  let ofac_packet := packet_from_data (one_account program ofac_pubkey true payer) in
  bool_decide (related random_packet ofac_addresses = Some false) &&
  bool_decide (related ofac_packet ofac_addresses = Some true).

(** ** They pass *)

Context {TBL : TxBuilderLaws}.

Lemma one_account_hit ofac program account writable payer :
  is_ofac_address_in_static_keys (one_account program account writable payer) {[ofac]} =
  bool_decide (ofac = payer \/ ofac = program \/ ofac = account).
Proof.
  unfold is_ofac_address_in_static_keys, one_account. apply eq_true_iff_eq. rewrite existsb_elem, bool_decide_eq_true.
  split.
  - intros (k & Hk & Hc). unfold contains in Hc. apply bool_decide_eq_true, elem_of_singleton in Hc as ->.
    apply legacy_keys in Hk as [->|(ix & Hix & Hk)]; [by left|].
    apply list_elem_of_singleton in Hix as ->. cbn in Hk. set_solver.
  - intros Hk. exists ofac. split; [|apply bool_decide_eq_true, elem_of_singleton; done].
    apply legacy_keys. destruct Hk as [->|Hk]; [by left|right].
    eexists. split; [by apply list_elem_of_singleton|]. cbn. set_solver.
Qed.

Lemma one_account_related ofac program account writable payer :
  related (packet_from_data (one_account program account writable payer)) {[ofac]} =
  Some (bool_decide (ofac = payer \/ ofac = program \/ ofac = account)).
Proof.
  unfold related, one_account at 1. rewrite packet_deserializes. cbn. fold (one_account program account writable payer). unfold is_tx_ofac_related. rewrite one_account_hit.
  unfold is_ofac_address_in_lookup_table, one_account. rewrite legacy_tables. by rewrite orb_false_r.
Qed.

Lemma ofac_tests_pass ofac payer program account table :
  NoDup [ofac; payer; program; account; table] ->
  test_is_ofac_address_in_static_keys ofac payer program account = true /\
  test_is_ofac_address_in_lookup_table ofac payer program table account = true /\
  test_discard_ofac_packets ofac payer program account = true.
Proof.
  rewrite !NoDup_cons. intros (Hn & _). split_and!.
  - unfold test_is_ofac_address_in_static_keys. rewrite !one_account_hit.
    rewrite (bool_decide_eq_false_2 (ofac = payer \/ ofac = program \/ ofac = account)) by set_solver.
    rewrite !bool_decide_eq_true_2 by auto. done.
  - unfold test_is_ofac_address_in_lookup_table, is_ofac_address_in_lookup_table. cbn.
    rewrite lookup_singleton_eq. cbn. unfold contains. rewrite (bool_decide_eq_true_2 (ofac ∈ _)) by set_solver.
    rewrite bool_decide_eq_false_2; [done|]. set_solver.
  - unfold test_discard_ofac_packets. rewrite !one_account_related.
    rewrite (bool_decide_eq_false_2 (ofac = payer \/ _)) by set_solver.
    rewrite (bool_decide_eq_true_2 (ofac = payer \/ _ \/ ofac = ofac)) by auto. done.
Qed.
End tests.

(** ** A builder: the packet of a transaction holds the code of its keys *)

Definition toy_tx (keys : list Pubkey) : VersionedTransaction :=
  {| message := {| static_account_keys := keys; address_table_lookups := None; is_maybe_writable := fun _ => false |} |}.
#[local] Instance toy_packet_api : PacketApi := {|
  DISCARD := 0; FORWARDED := 1; REPAIR := 2; SIMPLE_VOTE_TX := 3; PERF_TRACK_PACKET := 4; FROM_STAKED_NODE := 5;
  packet_data p := Some (buffer p);
  deserialize_tx p := match buffer p with [Zpos c] => toy_tx <$> decode c | _ => None end |}.
#[local] Instance toy_builder : TxBuilder := {|
  new_signed_with_payer ixs payer :=
    toy_tx (payer :: flat_map (fun ix => program_id ix :: (am_pubkey <$> ix_accounts ix)) ixs);
  packet_from_data tx :=
    {| buffer := [Zpos (encode (static_account_keys (message tx)))];
       meta := {| meta_size := 1; meta_addr := V4 0 0 0 0; meta_port := 0; meta_flags := 0 |} |} |}.
#[local] Instance toy_builder_laws : TxBuilderLaws.
Proof.
  split; [|done|].
  - intros ixs payer k. cbn. rewrite elem_of_cons. f_equiv.
    induction ixs as [|ix ixs IH]; cbn; [split; [intros H; by apply not_elem_of_nil in H|by intros (? & ?%not_elem_of_nil & _)]|].
    rewrite elem_of_cons, elem_of_app, IH. setoid_rewrite elem_of_cons. naive_solver.
  - intros ixs payer. cbn -[encode decode]. by rewrite decode_encode.
Qed.

Example ofac_tests_demo : test_discard_ofac_packets [1] [2] [3] [4] = true.
Proof.
  apply (ofac_tests_pass [1] [2] [3] [4] [5]). apply (bool_decide_unpack _). vm_compute. exact I.
Qed.
