(* ===== verification/InterestFilter.v ===== *)
(** * Filtering packets for the block engine
    ([is_aoi_in_static_keys], [is_aoi_in_lookup_table], [filter_packets],
    [handle_aoi] and [handle_poi] of [src/block_engine/src/block_engine.rs])

    The block engine tells the relayer which accounts and programs it is
    interested in; they live in two time-limited caches.  A lookup may drop
    an expired entry, so the filters thread the caches; the specification is
    in terms of what is live at the time of the call ([now], one reading of the
    cache clock per batch). *)

From Stdlib Require Import ZArith Lia String.
From stdpp Require Import base gmap strings list.
From S2P Require Import Prelude Interfaces Convert Ofac Reference.

(** [BlockEnginePackets]; [stamp] is a [SystemTime] in nanoseconds. *)
Record BlockEnginePackets := {
  banking_packet_batch : BankingPacketBatch;
  stamp : Z;
  expiration : Z;
}.
Record ExpiringPacketBatch := {
  epb_header : option Header;
  epb_batch : option ProtoPacketBatch;
  epb_expiry_ms : Z;
}.
Record AccountsOfInterestUpdate := { accounts : list string }.
Record ProgramsOfInterestUpdate := { programs : list string }.

Inductive BlockEngineError :=
| AuthServiceFailure (msg : string)
| BlockEngineFailure (msg : string).

(** A gRPC stream read: a message, the end of the stream, or a status whose
    text is what [to_string] prints. *)
Abbreviation stream_read A := (string + option A)%type.

Section filters.
Context {T : Type} `{TC : TimedCache T Pubkey} `{PA : PacketApi} `{TP : Text Pubkey} `{TI : Text IpAddr}.

(** The two caches, accounts first. *)
Definition caches : Type := T * T.

(** [accounts_of_interest.cache_get(k).is_some()], and the same for programs. *)
Definition aoi_hit (now : Z) (k : Pubkey) (c : caches) : bool * caches :=
  let '(b, aoi) := cache_get now k c.1 in (b, (aoi, c.2)).
Definition poi_hit (now : Z) (k : Pubkey) (c : caches) : bool * caches :=
  let '(b, poi) := cache_get now k c.2 in (b, (c.1, poi)).

(** [p || q] with state. *)
Definition or_else (p q : caches -> bool * caches) (c : caches) : bool * caches :=
  match p c with
  | (true, c) => (true, c)
  | (false, c) => q c
  end.

Definition is_aoi_in_static_keys (now : Z) (tx : VersionedTransaction) (c : caches)
    : bool * caches :=
  any_st (fun '(idx, acc) =>
            or_else (fun c => if is_maybe_writable (message tx) idx
                              then aoi_hit now acc c else (false, c))
                    (poi_hit now acc))
         (imap pair (static_account_keys (message tx))) c.

Definition is_aoi_in_lookup_table (now : Z) (tx : VersionedTransaction)
    (address_lookup_table_cache : AltCache) (c : caches) : bool * caches :=
  match address_table_lookups (message tx) with
  | Some lookup_tables =>
      any_st (fun table c =>
        match address_lookup_table_cache !! account_key table with
        | Some lookup_info =>
            or_else
              (any_st (fun idx c =>
                 match addresses lookup_info !! idx with
                 | Some writable_account =>
                     or_else (aoi_hit now writable_account) (poi_hit now writable_account) c
                 | None => (false, c)
                 end) (writable_indexes table))
              (any_st (fun idx c =>
                 match addresses lookup_info !! idx with
                 | Some readonly_account => poi_hit now readonly_account c
                 | None => (false, c)
                 end) (readonly_indexes table)) c
        | None => (false, c)
        end) lookup_tables c
  | None => (false, c)
  end.

(** The [is_forwardable] expression of [filter_packets]. *)
Definition is_forwardable (now : Z) (address_lookup_table_cache : AltCache)
    (ofac_addresses : gset Pubkey) (forward_all : bool) (tx : VersionedTransaction)
    (c : caches) : bool * caches :=
  let interest := or_else (fun c => (forward_all, c))
                    (or_else (is_aoi_in_static_keys now tx)
                             (is_aoi_in_lookup_table now tx address_lookup_table_cache)) in
  if bool_decide (ofac_addresses = ∅) then interest c
  else if is_tx_ofac_related tx ofac_addresses address_lookup_table_cache
       then (false, c) else interest c.

(** One turn of the inner loop over the packets. *)
Definition filter_packet (now : Z) (alt : AltCache) (ofac : gset Pubkey) (forward_all : bool)
    (acc : list ProtoPacket * caches) (packet : Packet) : list ProtoPacket * caches :=
  let '(filtered_packets, c) := acc in
  if discard packet then (filtered_packets, c)
  else match deserialize_tx packet with
       | Some tx =>
           match is_forwardable now alt ofac forward_all tx c with
           | (true, c) =>
               match packet_to_proto_packet packet with
               | Some pp => (filtered_packets ++ [pp], c)
               | None => (filtered_packets, c)
               end
           | (false, c) => (filtered_packets, c)
           end
       | None => (filtered_packets, c)
       end.

Definition filter_packets (now : Z) (block_engine_batches : BlockEnginePackets)
    (address_lookup_table_cache : AltCache) (ofac_addresses : gset Pubkey)
    (forward_all : bool) (c : caches) : option ExpiringPacketBatch * caches :=
  let '(filtered_packets, c) :=
    foldl (foldl (filter_packet now address_lookup_table_cache ofac_addresses forward_all))
          ([], c) (banking_packet_batch block_engine_batches) in
  match filtered_packets with
  | [] => (None, c)
  | _ => (Some {| epb_header := Some {| ts := Some (stamp block_engine_batches) |};
                  epb_batch := Some {| packets := filtered_packets |};
                  epb_expiry_ms := expiration block_engine_batches |}, c)
  end.

(** [handle_aoi] and [handle_poi] are the same function on the two updates;
    [closed] is the message of the [Ok(None)] arm. *)
Definition handle_interest (closed : string) (now : Z)
    (maybe_msg : stream_read (list string)) (cache : T) (forward_all : bool)
    : result BlockEngineError (nat * T * bool) :=
  match maybe_msg with
  | inr (Some names) =>
      let forward_all := if existsb (String.eqb "*") names then true else forward_all in
      let pubkeys : list Pubkey := omap from_str names in
      Ok (length pubkeys, foldl (fun c k => cache_set now k c) cache pubkeys, forward_all)
  | inr None => Err (BlockEngineFailure closed)
  | inl e => Err (BlockEngineFailure e)
  end.
Definition map_read {A B} (f : A -> B) (r : stream_read A) : stream_read B :=
  match r with inl e => inl e | inr o => inr (option_map f o) end.
Definition handle_aoi (now : Z) (maybe_msg : stream_read AccountsOfInterestUpdate) (cache : T)
    (forward_all : bool) : result BlockEngineError (nat * T * bool) :=
  handle_interest "aoi updates disconnected" now (map_read accounts maybe_msg) cache forward_all.
Definition handle_poi (now : Z) (maybe_msg : stream_read ProgramsOfInterestUpdate) (cache : T)
    (forward_all : bool) : result BlockEngineError (nat * T * bool) :=
  handle_interest "poi disconnected" now (map_read programs maybe_msg) cache forward_all.

(** ** Specification *)

(** Interest of the block engine in a transaction, given the live entries. *)
Definition wants_static (aoi poi : Pubkey -> bool) (tx : VersionedTransaction) : Prop :=
  exists idx k, static_account_keys (message tx) !! idx = Some k /\
    ((is_maybe_writable (message tx) idx = true /\ aoi k = true) \/ poi k = true).
Definition wants_loaded (aoi poi : Pubkey -> bool) (alt : AltCache) (tx : VersionedTransaction)
    : Prop :=
  exists tables table, address_table_lookups (message tx) = Some tables /\ table ∈ tables /\
    ((exists idx k, idx ∈ writable_indexes table /\ resolve alt table idx = Some k /\
                    (aoi k = true \/ poi k = true)) \/
     (exists idx k, idx ∈ readonly_indexes table /\ resolve alt table idx = Some k /\
                    poi k = true)).
Definition wanted (aoi poi : Pubkey -> bool) (alt : AltCache) (ofac : gset Pubkey)
    (forward_all : bool) (tx : VersionedTransaction) : Prop :=
  ~ (exists k, k ∈ ofac /\ mentions alt tx k) /\
  (forward_all = true \/ wants_static aoi poi tx \/ wants_loaded aoi poi alt tx).

(** The cache lookups of a call change no answer from its time on. *)
Definition same_answers (now : Z) (c c' : caches) : Prop :=
  forall t k, now <= t -> live c.1 t k = live c'.1 t k /\ live c.2 t k = live c'.2 t k.

#[global] Instance same_answers_equivalence now : Equivalence (same_answers now).
Proof.
  split.
  - by intros c t k _.
  - intros c c' Hc t k Ht. destruct (Hc t k Ht). by split.
  - intros c1 c2 c3 H12 H23 t k Ht. destruct (H12 t k Ht), (H23 t k Ht). split; congruence.
Qed.

(** ** The threaded caches compute the live answers *)

Section laws.
Context {lifespan : T -> Z} `{!TimedCacheLaws T Pubkey lifespan}.

(** The lookups of a call change no answer, and no lifespan either. *)
Definition keeps (now : Z) (c c' : caches) : Prop :=
  same_answers now c c' /\ lifespan c.1 = lifespan c'.1 /\ lifespan c.2 = lifespan c'.2.
#[local] Instance keeps_equivalence now : Equivalence (keeps now).
Proof.
  split.
  - by intros c.
  - intros c c' (H & H1 & H2). split_and!; by symmetry.
  - intros c1 c2 c3 (H & H1 & H2) (H' & H1' & H2'). split_and!; by etransitivity.
Qed.

(** Started from caches that answer like [c0], [p] returns [b] and leaves
    caches that still answer like [c0]. *)
Definition computes (now : Z) (c0 : caches) (p : caches -> bool * caches) (b : bool) : Prop :=
  forall c, keeps now c0 c -> (p c).1 = b /\ keeps now c0 (p c).2.

Lemma computes_ret now c0 b : computes now c0 (fun c => (b, c)) b.
Proof. by intros c Hc. Qed.

Lemma computes_aoi now c0 k : computes now c0 (aoi_hit now k) (live c0.1 now k).
Proof.
  intros [a p] Hc. unfold aoi_hit. cbn. destruct (cache_get now k a) as [b a'] eqn:E. cbn.
  pose proof (get_hit a now k) as Hh. pose proof (get_lifespan a now k) as Hlife. pose proof (fun t' k' => get_live a now t' k k') as Hl.
  rewrite E in *. cbn in *. split.
  - rewrite Hh. symmetry. by apply Hc.
  - destruct Hc as (Hc & H1 & H2). split_and!; [|cbn in *; congruence..].
    intros t k' Ht. cbn. rewrite Hl by done. by apply Hc.
Qed.

Lemma computes_poi now c0 k : computes now c0 (poi_hit now k) (live c0.2 now k).
Proof.
  intros [a p] Hc. unfold poi_hit. cbn. destruct (cache_get now k p) as [b p'] eqn:E. cbn.
  pose proof (get_hit p now k) as Hh. pose proof (get_lifespan p now k) as Hlife. pose proof (fun t' k' => get_live p now t' k k') as Hl.
  rewrite E in *. cbn in *. split.
  - rewrite Hh. symmetry. by apply Hc.
  - destruct Hc as (Hc & H1 & H2). split_and!; [|cbn in *; congruence..].
    intros t k' Ht. cbn. rewrite Hl by done. by apply Hc.
Qed.

Lemma computes_or now c0 p q a b :
  computes now c0 p a -> computes now c0 q b -> computes now c0 (or_else p q) (a || b).
Proof.
  intros Hp Hq c Hc. unfold or_else. destruct (Hp c Hc) as [<- Hc'].
  destruct (p c) as [[] c']; cbn in *; [done|]. by apply Hq.
Qed.

Lemma computes_any {A} now c0 (p : A -> caches -> bool * caches) q l :
  (forall a, a ∈ l -> computes now c0 (p a) (q a)) ->
  computes now c0 (any_st p l) (existsb q l).
Proof.
  intros Hp c Hc. apply (any_st_spec (keeps now c0)); [done|].
  intros a s Ha Hs. by apply Hp.
Qed.

Definition static_answer (aoi poi : Pubkey -> bool) (tx : VersionedTransaction) : bool :=
  existsb (fun '(idx, acc) => (is_maybe_writable (message tx) idx && aoi acc) || poi acc)
          (imap pair (static_account_keys (message tx))).
Definition loaded_answer (aoi poi : Pubkey -> bool) (alt : AltCache) (tx : VersionedTransaction)
    : bool :=
  match address_table_lookups (message tx) with
  | Some tables =>
      existsb (fun table =>
        existsb (fun idx => match resolve alt table idx with
                            | Some k => aoi k || poi k | None => false end)
                (writable_indexes table)
        || existsb (fun idx => match resolve alt table idx with
                               | Some k => poi k | None => false end)
                   (readonly_indexes table)) tables
  | None => false
  end.

Lemma computes_static now c0 tx :
  computes now c0 (is_aoi_in_static_keys now tx)
    (static_answer (live c0.1 now) (live c0.2 now) tx).
Proof.
  apply computes_any. intros [idx acc] _. apply computes_or, computes_poi.
  destruct (is_maybe_writable _ _); [apply computes_aoi|apply computes_ret].
Qed.

Lemma existsb_const_false {A} (l : list A) : existsb (fun _ => false) l = false.
Proof. by induction l. Qed.

Lemma computes_loaded now c0 alt tx :
  computes now c0 (is_aoi_in_lookup_table now tx alt)
    (loaded_answer (live c0.1 now) (live c0.2 now) alt tx).
Proof.
  unfold is_aoi_in_lookup_table, loaded_answer, resolve.
  destruct (address_table_lookups (message tx)) as [tables|]; [|apply computes_ret].
  apply computes_any. intros table _.
  destruct (alt !! account_key table) as [info|]; cbn.
  - apply computes_or; apply computes_any; intros idx _;
      destruct (addresses info !! idx); cbn;
      eauto using computes_ret, computes_or, computes_aoi, computes_poi.
  - rewrite !existsb_const_false. apply computes_ret.
Qed.

Lemma static_answer_spec aoi poi tx :
  static_answer aoi poi tx = true <-> wants_static aoi poi tx.
Proof.
  unfold static_answer, wants_static. rewrite existsb_elem. split.
  - intros ([idx k] & Hin & Hk). exists idx, k.
    apply elem_of_lookup_imap in Hin as (i & x & Heq & Hx). simplify_eq.
    rewrite orb_true_iff, andb_true_iff in Hk. done.
  - intros (idx & k & Hk & Hor). exists (idx, k). split.
    + apply elem_of_lookup_imap. eauto.
    + by rewrite orb_true_iff, andb_true_iff.
Qed.

Lemma existsb_resolve alt table (f : Pubkey -> bool) l :
  existsb (fun idx => match resolve alt table idx with Some k => f k | None => false end) l = true
  <-> exists idx k, idx ∈ l /\ resolve alt table idx = Some k /\ f k = true.
Proof.
  rewrite existsb_elem. split.
  - intros (idx & ? & ?). destruct (resolve alt table idx) as [k|] eqn:E; [|done]. eauto.
  - intros (idx & k & ? & E & ?). exists idx. by rewrite E.
Qed.

Lemma loaded_answer_spec aoi poi alt tx :
  loaded_answer aoi poi alt tx = true <-> wants_loaded aoi poi alt tx.
Proof.
  unfold loaded_answer, wants_loaded.
  destruct (address_table_lookups (message tx)) as [tables|]; [|naive_solver].
  rewrite existsb_elem. setoid_rewrite orb_true_iff.
  setoid_rewrite existsb_resolve. setoid_rewrite orb_true_iff. naive_solver.
Qed.

(** The decision of [is_forwardable], as a boolean of the live answers. *)
Definition wanted_answer (aoi poi : Pubkey -> bool) (alt : AltCache) (ofac : gset Pubkey)
    (forward_all : bool) (tx : VersionedTransaction) : bool :=
  negb (is_tx_ofac_related tx ofac alt)
  && (forward_all || (static_answer aoi poi tx || loaded_answer aoi poi alt tx)).

Lemma computes_forwardable now c0 alt ofac forward_all tx :
  computes now c0 (is_forwardable now alt ofac forward_all tx)
    (wanted_answer (live c0.1 now) (live c0.2 now) alt ofac forward_all tx).
Proof.
  unfold is_forwardable, wanted_answer.
  case_bool_decide as Ho; [subst ofac; rewrite mentions_empty|destruct (is_tx_ofac_related _ _ _)];
    cbn [negb andb]; eauto using computes_ret, computes_or, computes_static, computes_loaded.
Qed.

Lemma wanted_answer_spec aoi poi alt ofac forward_all tx :
  wanted_answer aoi poi alt ofac forward_all tx = true <-> wanted aoi poi alt ofac forward_all tx.
Proof.
  unfold wanted_answer, wanted.
  rewrite andb_true_iff, negb_true_iff, !orb_true_iff, static_answer_spec, loaded_answer_spec.
  by rewrite <- not_true_iff_false, ofac_related_iff.
Qed.

(** What [filter_packets] keeps of one packet. *)
Definition kept (aoi poi : Pubkey -> bool) (alt : AltCache) (ofac : gset Pubkey)
    (forward_all : bool) (packet : Packet) : option ProtoPacket :=
  if discard packet then None
  else tx ← deserialize_tx packet;
       if wanted_answer aoi poi alt ofac forward_all tx
       then packet_to_proto_packet packet else None.

Lemma filter_packet_spec now c0 alt ofac forward_all acc c packet :
  keeps now c0 c ->
  let r := filter_packet now alt ofac forward_all (acc, c) packet in
  r.1 = acc ++ option_list (kept (live c0.1 now) (live c0.2 now) alt ofac forward_all packet) /\
  keeps now c0 r.2.
Proof.
  intros Hc. cbn. unfold kept. destruct (discard packet); cbn; [by rewrite app_nil_r|].
  destruct (deserialize_tx packet) as [tx|]; cbn; [|by rewrite app_nil_r].
  destruct (computes_forwardable now c0 alt ofac forward_all tx c Hc) as [<- Hc'].
  destruct (is_forwardable _ _ _ _ _ _) as [[] c']; cbn in *; [|by rewrite app_nil_r].
  destruct (packet_to_proto_packet packet); cbn; by rewrite ?app_nil_r.
Qed.

Lemma filter_batch_spec now c0 alt ofac forward_all batch acc c :
  keeps now c0 c ->
  let r := foldl (filter_packet now alt ofac forward_all) (acc, c) batch in
  r.1 = acc ++ omap (kept (live c0.1 now) (live c0.2 now) alt ofac forward_all) batch /\
  keeps now c0 r.2.
Proof.
  cbn. revert acc c. induction batch as [|p batch IH]; intros acc c Hc; cbn [foldl].
  - cbn. by rewrite app_nil_r.
  - destruct (filter_packet_spec now c0 alt ofac forward_all acc c p Hc) as [H1 H2].
    destruct (filter_packet now alt ofac forward_all (acc, c) p) as [acc' c']. cbn [fst snd] in *.
    subst acc'. destruct (IH (acc ++ option_list (kept (live c0.1 now) (live c0.2 now) alt ofac
      forward_all p)) c' H2) as [-> ?]. split; [|done].
    rewrite <- app_assoc. f_equal. cbn. by destruct (kept _ _ _ _ _ _).
Qed.

Lemma filter_batches_spec now c0 alt ofac forward_all batches acc c :
  keeps now c0 c ->
  let r := foldl (foldl (filter_packet now alt ofac forward_all)) (acc, c) batches in
  r.1 = acc ++ omap (kept (live c0.1 now) (live c0.2 now) alt ofac forward_all) (concat batches) /\
  keeps now c0 r.2.
Proof.
  cbn. revert acc c. induction batches as [|b batches IH]; intros acc c Hc; cbn [foldl concat].
  - cbn. by rewrite app_nil_r.
  - destruct (filter_batch_spec now c0 alt ofac forward_all b acc c Hc) as [H1 H2].
    destruct (foldl _ (acc, c) b) as [acc' c']. cbn [fst snd] in *. subst acc'.
    destruct (IH (acc ++ omap (kept (live c0.1 now) (live c0.2 now) alt ofac forward_all) b)
      c' H2) as [-> ?]. split; [|done].
    by rewrite omap_app, <- app_assoc.
Qed.

(** The packets of interest among [batches], in order. *)
Definition selected (sel : Packet -> bool) (batches : BankingPacketBatch) : list ProtoPacket :=
  omap packet_to_proto_packet (List.filter sel (concat batches)).

Definition forwardable_packet (aoi poi : Pubkey -> bool) (alt : AltCache) (ofac : gset Pubkey)
    (forward_all : bool) (p : Packet) : bool :=
  negb (discard p) &&
  match deserialize_tx p with
  | Some tx => wanted_answer aoi poi alt ofac forward_all tx
  | None => false
  end.

Lemma forwardable_packet_spec aoi poi alt ofac forward_all (p : Packet) :
  forwardable_packet aoi poi alt ofac forward_all p = true <->
  discard p = false /\
  exists tx, deserialize_tx p = Some tx /\ wanted aoi poi alt ofac forward_all tx.
Proof.
  unfold forwardable_packet. rewrite andb_true_iff, negb_true_iff. f_equiv.
  destruct (deserialize_tx p) as [tx|]; [|by split; [|intros (? & ? & _)]].
  rewrite wanted_answer_spec. split; [eauto|]. intros (tx' & Heq & ?). by simplify_eq.
Qed.

Lemma omap_kept aoi poi alt ofac forward_all (l : list Packet) :
  omap (kept aoi poi alt ofac forward_all) l =
  omap packet_to_proto_packet (List.filter (forwardable_packet aoi poi alt ofac forward_all) l).
Proof.
  induction l as [|p l IH]; [done|]. cbn. rewrite IH. unfold kept, forwardable_packet.
  destruct (discard p); cbn; [done|]. destruct (deserialize_tx p) as [tx|]; cbn; [|done].
  by destruct (wanted_answer _ _ _ _ _ tx).
Qed.

Lemma filter_packets_kept now bep alt ofac forward_all (c : caches) :
  (filter_packets now bep alt ofac forward_all c).1 =
    match omap (kept (live c.1 now) (live c.2 now) alt ofac forward_all) (concat (banking_packet_batch bep)) with
    | [] => None
    | l => Some {| epb_header := Some {| ts := Some (stamp bep) |};
                   epb_batch := Some {| packets := l |};
                   epb_expiry_ms := expiration bep |}
    end /\
  keeps now c (filter_packets now bep alt ofac forward_all c).2.
Proof.
  destruct (filter_batches_spec now c alt ofac forward_all (banking_packet_batch bep) [] c)
    as [Hl Hs]; [reflexivity|]. cbn [app] in Hl.
  unfold filter_packets. destruct (foldl _ _ _) as [l c']. cbn [fst snd] in *.
  subst l. split; by case_match.
Qed.

(** C8: [filter_packets] is exact.  The batch sent to the block engine holds,
    in the order they were received, precisely the packets that are not
    discarded, deserialize to a transaction mentioning no OFAC address, and
    are of interest (the wildcard is set, a writable static or loaded account
    is a live account of interest, or any mentioned account is a live program
    of interest); no batch is sent when there is none, and the lookups change
    no later answer of the caches. *)
Theorem filter_packets_exact now bep alt ofac forward_all (c : caches) :
  exists sel : Packet -> bool,
    (forall p, sel p = true <->
       discard p = false /\
       exists tx, deserialize_tx p = Some tx /\
                  wanted (live c.1 now) (live c.2 now) alt ofac forward_all tx) /\
    (filter_packets now bep alt ofac forward_all c).1 =
      match selected sel (banking_packet_batch bep) with
      | [] => None
      | l => Some {| epb_header := Some {| ts := Some (stamp bep) |};
                     epb_batch := Some {| packets := l |};
                     epb_expiry_ms := expiration bep |}
      end /\
    same_answers now c (filter_packets now bep alt ofac forward_all c).2.
Proof.
  exists (forwardable_packet (live c.1 now) (live c.2 now) alt ofac forward_all).
  destruct (filter_packets_kept now bep alt ofac forward_all c) as [-> [Hs _]]. rewrite omap_kept.
  split_and!; [apply forwardable_packet_spec|done|done].
Qed.

Lemma foldl_cache_set now ks (cache : T) t :
  now <= t ->
  lifespan (foldl (fun c k => cache_set now k c) cache ks) = lifespan cache /\
  (forall k, k ∈ ks -> t - now < lifespan cache ->
     live (foldl (fun c k => cache_set now k c) cache ks) t k = true) /\
  (forall k, k ∈ ks -> lifespan cache < t - now ->
     live (foldl (fun c k => cache_set now k c) cache ks) t k = false) /\
  (forall k, k ∉ ks ->
     live (foldl (fun c k => cache_set now k c) cache ks) t k = live cache t k).
Proof.
  intros Ht. induction ks as [|x ks IH] using rev_ind; cbn.
  { split_and!; [done|set_solver|set_solver|done]. }
  rewrite foldl_app. cbn. destruct IH as (IHl & IHin & IHexp & IHout). split_and!.
  - by rewrite set_lifespan.
  - intros k Hk Hlt. destruct (decide (x = k)) as [<-|Hne].
    + apply set_live_fresh; [done|]. by rewrite IHl.
    + rewrite set_live_ne by done. apply IHin; [|done]. set_solver.
  - intros k Hk Hlt. destruct (decide (x = k)) as [<-|Hne].
    + apply set_live_expired. by rewrite IHl.
    + rewrite set_live_ne by done. apply IHexp; [|done]. set_solver.
  - intros k Hk. rewrite set_live_ne by (try done; set_solver). apply IHout. set_solver.
Qed.

Lemma handle_interest_spec closed now names cache forward_all t k :
  now <= t ->
  exists cache',
    handle_interest closed now (inr (Some names)) cache forward_all =
      Ok (length (omap (from_str (A := Pubkey)) names), cache',
          forward_all || existsb (String.eqb "*") names) /\
    (k ∈ omap from_str names -> t - now < lifespan cache -> live cache' t k = true) /\
    (k ∉ omap from_str names -> live cache' t k = live cache t k).
Proof.
  intros Ht. eexists. split.
  { unfold handle_interest. rewrite orb_comm. by destruct (existsb _ _). }
  destruct (foldl_cache_set now (omap from_str names) cache t Ht) as (_ & Hin & _ & Hout).
  split; [apply Hin|apply Hout].
Qed.

(** An update of the accounts of interest makes every listed key that
    parses live for the lifespan of the cache, leaves every other key as it
    was, returns the number of keys, and turns the wildcard on exactly when it
    was on or the update lists the star; the end of the stream and a failed
    read are errors. *)
Theorem handle_aoi_spec now update cache forward_all t k :
  now <= t ->
  (exists cache',
    handle_aoi now (inr (Some update)) cache forward_all =
      Ok (length (omap (from_str (A := Pubkey)) (accounts update)), cache',
          forward_all || existsb (String.eqb "*") (accounts update)) /\
    (k ∈ omap from_str (accounts update) -> t - now < lifespan cache -> live cache' t k = true) /\
    (k ∉ omap from_str (accounts update) -> live cache' t k = live cache t k)) /\
  handle_aoi now (inr None) cache forward_all =
    Err (BlockEngineFailure "aoi updates disconnected") /\
  (forall e, handle_aoi now (inl e) cache forward_all = Err (BlockEngineFailure e)).
Proof. intros Ht. split; [by apply handle_interest_spec|done]. Qed.

End laws.
End filters.

(** ** Witnesses *)

Definition demo_key (n : Z) : Pubkey := [n].
Definition demo_caches : timed Pubkey * timed Pubkey :=
  (cache_set 0 (demo_key 5) (with_lifespan 300), with_lifespan 300).
Definition demo_batches : BlockEnginePackets :=
  {| banking_packet_batch := [[ref_packet [5; 6] 0; ref_packet [5] 1];
                              [ref_packet [6] 0; ref_packet [5; 9] 0; ref_packet [5; 7] 0]];
     stamp := 1234; expiration := 50 |}.

(** Of five packets, one is discarded, one is not of interest and one mentions
    the OFAC address [9]. *)
Example filter_packets_demo :
  option_map (fun b => option_map (fun l => map pp_data (packets l)) (epb_batch b))
    (filter_packets 10 demo_batches ∅ {[demo_key 9]} false demo_caches).1
  = Some (Some [[5; 6]; [5; 7]]).
Proof. vm_compute. reflexivity. Qed.

Lemma filter_packets_exact_witness :
  exists sel : Packet -> bool,
    (forall p, sel p = true <->
       discard p = false /\
       exists tx, deserialize_tx p = Some tx /\
         wanted (live demo_caches.1 10) (live demo_caches.2 10) ∅ {[demo_key 9]} false tx) /\
    (filter_packets 10 demo_batches ∅ {[demo_key 9]} false demo_caches).1 =
      match selected sel (banking_packet_batch demo_batches) with
      | [] => None
      | l => Some {| epb_header := Some {| ts := Some (stamp demo_batches) |};
                     epb_batch := Some {| packets := l |};
                     epb_expiry_ms := expiration demo_batches |}
      end /\
    same_answers 10 demo_caches (filter_packets 10 demo_batches ∅ {[demo_key 9]} false demo_caches).2.
Proof.
  exact (filter_packets_exact (lifespan := tc_ttl) 10 demo_batches ∅ {[demo_key 9]} false demo_caches).
Defined.

Lemma handle_aoi_witness :
  exists cache', live cache' 200 (demo_key 5) = true.
Proof.
  destruct (handle_aoi_spec (lifespan := tc_ttl) 10
    {| accounts := ["*"; to_string (demo_key 5)] |} demo_caches.1 false 200 (demo_key 5)
    ltac:(lia)) as [(cache' & _ & Hlive & _) _].
  exists cache'. apply Hlive; [|done].
  apply (bool_decide_unpack _). vm_compute. exact I.
Defined.
