(* ===== verification/Schedule.v ===== *)
(** * The leader schedule cache ([src/relayer/src/schedule_cache.rs])

    A thread replaces the schedule, a map from slots to leaders, with the
    answer of the RPC server every ten seconds; handles read it. *)

From Stdlib Require Import ZArith Lia String.
From stdpp Require Import base gmap strings list.
From S2P Require Import Prelude Interfaces Reference.

Abbreviation LeaderSchedule := (gmap Z Pubkey).

(** The part of [RpcClient::get_epoch_info] that is read. *)
Record EpochInfo := { absolute_slot : Z; slot_index : Z }.

Section schedule.
Context `{TP : Text Pubkey} `{IZ : !HashIter Z} `{IS : !HashIter string}.

(** ** [LeaderScheduleUpdatingHandle] *)
Definition leader_for_slot (schedule : LeaderSchedule) (slot : Z) : option Pubkey :=
  schedule !! slot.
Definition leaders_for_slots (schedule : LeaderSchedule) (slots : list Z) : gset Pubkey :=
  list_to_set (omap (fun s => schedule !! s) slots).
Definition is_scheduled_validator (schedule : LeaderSchedule) (pubkey : Pubkey) : bool :=
  existsb (fun '(_, scheduled_pubkey) => bool_decide (scheduled_pubkey = pubkey))
          (map_iter schedule).

(** ** [LeaderScheduleCacheUpdater] *)

(** The two nested loops of [update_leader_cache]: the server lists, per
    validator, the indices of its slots in the epoch. *)
Definition insert_slots (epoch_offset : Z) (new_schedule : LeaderSchedule)
    (entry : string * list Z) : LeaderSchedule :=
  let '(pk_str, slots) := entry in
  foldl (fun m slot =>
           match from_str pk_str with
           | Some pubkey => <[u64_add slot epoch_offset := pubkey]> m
           | None => m
           end) new_schedule slots.

(** [epoch_info] and [leader_schedule] are the answers to the two RPC calls,
    [None] for an error; the second may also be [Some None]. *)
Definition update_leader_cache (epoch_info : option EpochInfo)
    (leader_schedule : option (option (gmap string (list Z)))) (schedule : LeaderSchedule)
    : bool * LeaderSchedule :=
  match epoch_info with
  | Some epoch_info =>
      match leader_schedule with
      | Some (Some leader_schedule) =>
          let epoch_offset := u64_sub (absolute_slot epoch_info) (slot_index epoch_info) in
          (true, foldl (insert_slots epoch_offset) ∅ (map_iter leader_schedule))
      | _ => (false, schedule)
      end
  | None => (false, schedule)
  end.

(** One turn of [refresh_thread]: what is reported, and the new schedule. *)
Record schedule_report := { update_ok_count : Z; update_fail_count : Z; slots_in_schedule : Z }.
Definition refresh_iteration (epoch_info : option EpochInfo)
    (leader_schedule : option (option (gmap string (list Z)))) (schedule : LeaderSchedule)
    : schedule_report * LeaderSchedule :=
  let '(ok, schedule) := update_leader_cache epoch_info leader_schedule schedule in
  ({| update_ok_count := if ok then 1 else 0;
      update_fail_count := if ok then 0 else 1;
      slots_in_schedule := Z.of_nat (size schedule) |}, schedule).

(** ** Specification: who leads which slot according to the server *)
Definition leads (offset : Z) (leader_schedule : gmap string (list Z)) (pk : Pubkey) (s : Z) : Prop :=
  exists name slots idx, leader_schedule !! name = Some slots /\ idx ∈ slots /\
    from_str name = Some pk /\ s = u64_add idx offset.

(** ** Lemmas *)

Lemma elem_of_leaders schedule slots pk :
  pk ∈ leaders_for_slots schedule slots <-> exists s, s ∈ slots /\ schedule !! s = Some pk.
Proof.
  unfold leaders_for_slots. rewrite elem_of_list_to_set, list_elem_of_omap. done.
Qed.

Lemma is_scheduled_iff `{!HashIterLaws Z} schedule pk :
  is_scheduled_validator schedule pk = true <-> exists s, schedule !! s = Some pk.
Proof.
  unfold is_scheduled_validator. rewrite existsb_elem. split.
  - intros ([s k] & Hin & ->%bool_decide_eq_true). exists s.
    rewrite map_iter_perm in Hin. by apply elem_of_map_to_list.
  - intros [s Hs]. exists (s, pk). split; [|by apply bool_decide_eq_true].
    rewrite map_iter_perm. by apply elem_of_map_to_list.
Qed.

Lemma insert_slots_lookup offset m name slots s :
  insert_slots offset m (name, slots) !! s =
  match from_str name with
  | Some pk => if bool_decide (s ∈ (fun idx => u64_add idx offset) <$> slots)
               then Some pk else m !! s
  | None => m !! s
  end.
Proof.
  cbn. revert m. induction slots as [|i slots IH]; intros m; cbn.
  { by destruct (from_str name). }
  rewrite IH. destruct (from_str name) as [pk|]; [|done].
  case_bool_decide as Hin; case_bool_decide as Hin'.
  - done.
  - by destruct Hin'; apply list_elem_of_further.
  - apply elem_of_cons in Hin' as [->|]; [by rewrite lookup_insert_eq|done].
  - rewrite lookup_insert_ne; [done|]. intros <-. apply Hin', list_elem_of_here.
Qed.

Lemma fold_insert_slots_inv offset l m s pk :
  foldl (insert_slots offset) m l !! s = Some pk ->
  m !! s = Some pk \/
  exists name slots idx, (name, slots) ∈ l /\ idx ∈ slots /\
    from_str name = Some pk /\ s = u64_add idx offset.
Proof.
  revert m. induction l as [|[name slots] l IH]; intros m; cbn [foldl]; [by left|].
  intros [Hm|(n & sl & i & Hin & ?)]%IH; [|right; exists n, sl, i; set_solver].
  rewrite insert_slots_lookup in Hm.
  destruct (from_str name) as [pk'|] eqn:E; [|by left].
  case_bool_decide as Hs; [|by left]. simplify_eq. right.
  apply list_elem_of_fmap in Hs as (i & -> & Hi). exists name, slots, i. set_solver.
Qed.

Lemma fold_insert_slots_hit offset l m s pk :
  (forall pk', (exists name slots idx, (name, slots) ∈ l /\ idx ∈ slots /\
     from_str name = Some pk' /\ s = u64_add idx offset) -> pk' = pk) ->
  (m !! s = Some pk \/ exists name slots idx, (name, slots) ∈ l /\ idx ∈ slots /\
    from_str name = Some pk /\ s = u64_add idx offset) ->
  foldl (insert_slots offset) m l !! s = Some pk.
Proof.
  revert m. induction l as [|[name slots] l IH]; intros m Huniq Hor; cbn [foldl].
  { destruct Hor as [|(? & ? & ? & Hin & _)]; [done|]. by apply elem_of_nil in Hin. }
  apply IH.
  { intros pk' (n & sl & i & Hin & ?). apply Huniq. exists n, sl, i. set_solver. }
  rewrite insert_slots_lookup.
  destruct (from_str name) as [pk'|] eqn:E.
  - case_bool_decide as Hs.
    + left. f_equal. apply Huniq. apply list_elem_of_fmap in Hs as (i & -> & Hi).
      exists name, slots, i. set_solver.
    + destruct Hor as [|(n & sl & i & [Heq|Hin]%elem_of_cons & Hi & Hn & ->)]; [by left| |].
      * simplify_eq. destruct Hs. apply list_elem_of_fmap. eauto.
      * right. eauto 10.
  - destruct Hor as [|(n & sl & i & [Heq|Hin]%elem_of_cons & Hi & Hn & ->)]; [by left| |].
    + simplify_eq.
    + right. eauto 10.
Qed.

(** C37: when both RPC calls succeed the cached schedule becomes exactly the
    server's one: a slot is led by a validator if and only if the server lists
    it for that validator, provided it gives no slot to two validators;
    nothing of the previous schedule survives, and the order in which the
    answer is read does not matter.  When a call fails the schedule is kept. *)
Theorem update_leader_cache_spec `{!HashIterLaws string} (ei : EpochInfo)
    (ls : gmap string (list Z)) (old : LeaderSchedule) :
  let offset := u64_sub (absolute_slot ei) (slot_index ei) in
  (forall s pk pk', leads offset ls pk s -> leads offset ls pk' s -> pk = pk') ->
  (exists new, update_leader_cache (Some ei) (Some (Some ls)) old = (true, new) /\
     forall s pk, new !! s = Some pk <-> leads offset ls pk s) /\
  update_leader_cache None (Some (Some ls)) old = (false, old) /\
  update_leader_cache (Some ei) (Some None) old = (false, old) /\
  update_leader_cache (Some ei) None old = (false, old).
Proof.
  intros offset Huniq. split; [|done]. eexists. split; [reflexivity|].
  assert (Hiff : forall s pk, leads offset ls pk s <->
    exists name slots idx, (name, slots) ∈ map_iter ls /\ idx ∈ slots /\
      from_str name = Some pk /\ s = u64_add idx offset).
  { intros s pk. unfold leads. setoid_rewrite map_iter_perm.
    setoid_rewrite elem_of_map_to_list. done. }
  intros s pk. rewrite Hiff. split.
  - intros [Hm|Hx]%fold_insert_slots_inv; [|done]. by rewrite lookup_empty in Hm.
  - intros Hx. apply fold_insert_slots_hit; [|by right].
    intros pk' Hx'. apply (Huniq s); by apply Hiff.
Qed.

End schedule.

(** ** Witness *)

Definition demo_leader_schedule : gmap string (list Z) :=
  {[ to_string ([7] : Pubkey) := [0; 2] ]}.

Lemma update_leader_cache_witness :
  exists new : LeaderSchedule,
    update_leader_cache (Some {| absolute_slot := 1010; slot_index := 10 |})
      (Some (Some demo_leader_schedule)) {[ 5 := [1] ]} = (true, new) /\
    forall s pk, new !! s = Some pk <-> leads 1000 demo_leader_schedule pk s.
Proof.
  refine (proj1 (update_leader_cache_spec {| absolute_slot := 1010; slot_index := 10 |}
    demo_leader_schedule {[ 5 := [1] ]} _)).
  intros s pk pk' (n & sl & i & Hn & _ & Hpk & _) (n' & sl' & i' & Hn' & _ & Hpk' & _).
  unfold demo_leader_schedule in *.
  apply lookup_singleton_Some in Hn as [<- _]. apply lookup_singleton_Some in Hn' as [<- _].
  congruence.
Defined.
