(* ===== verification/Health.v ===== *)
(** * The health manager ([src/relayer/src/health_manager.rs])

    A thread forwards slot updates downstream and, on a timer, marks the
    relayer unhealthy when no slot arrived for too long. *)

From Stdlib Require Import ZArith Lia String.
From stdpp Require Import base gmap strings list.
From S2P Require Import Prelude Interfaces.

Inductive HealthState := Unhealthy | Healthy.
#[global] Instance HealthState_eq_dec : EqDecision HealthState.
Proof. solve_decision. Defined.

Record health_manager := {
  hm_state : HealthState;
  last_update : Z;
  slot_sender_max_len : Z;
  slots_forwarded : list Z;      (** sent to the downstream channel, in order *)
}.
#[global] Instance health_manager_eta : Eta health_manager := fun m =>
  {| hm_state := hm_state m; last_update := last_update m;
     slot_sender_max_len := slot_sender_max_len m; slots_forwarded := slots_forwarded m |}.

(** The arms of the [select!], each with the [Instant::now()] it reads. *)
Inductive health_event :=
| CheckAndMetricsTick (now : Z)
| SlotReceived (maybe_slot : option Z) (send_ok : bool) (now : Z)
| ChannelLenTick.

Definition health_init (start : Z) : health_manager :=
  {| hm_state := Unhealthy; last_update := start; slot_sender_max_len := 0; slots_forwarded := [] |}.

Section health.
Variable missing_slot_unhealthy_threshold : Z.

Definition health_arm (e : health_event) (m : health_manager) : result Empty_set health_manager :=
  match e with
  | CheckAndMetricsTick now =>
      let new_health_state :=
        if now - last_update m <=? missing_slot_unhealthy_threshold then Healthy else Unhealthy in
      Ok (m <| hm_state := new_health_state |>)
  | SlotReceived maybe_slot send_ok now =>
      slot ← unwrap maybe_slot;
      _ ← assert_that send_ok;
      Ok (m <| slots_forwarded ::= fun l => l ++ [slot] |> <| last_update := now |>)
  | ChannelLenTick => Ok (m <| slot_sender_max_len := 0 |>)
  end.

(** One turn of the loop; [len] is [slot_sender.len()] at its end. *)
Definition health_iteration (m : health_manager) (ev : health_event * Z)
    : result Empty_set health_manager :=
  m ← health_arm ev.1 m;
  Ok (m <| slot_sender_max_len ::= Z.max ev.2 |>).

Fixpoint health_run (m : health_manager) (evs : list (health_event * Z))
    : result Empty_set health_manager :=
  match evs with
  | [] => Ok m
  | ev :: evs => m ← health_iteration m ev; health_run m evs
  end.

(** ** Specification on traces *)

(** The time of the last slot, [start] when there is none. *)
Definition last_slot_time (start : Z) (evs : list (health_event * Z)) : Z :=
  foldl (fun t ev => match ev.1 with SlotReceived _ _ now => now | _ => t end) start evs.

(** The health decided by the last check of the trace. *)
Fixpoint decided_health (last : Z) (h : HealthState) (evs : list (health_event * Z)) : HealthState :=
  match evs with
  | [] => h
  | (CheckAndMetricsTick now, _) :: evs =>
      decided_health last
        (if now - last <=? missing_slot_unhealthy_threshold then Healthy else Unhealthy) evs
  | (SlotReceived _ _ now, _) :: evs => decided_health now h evs
  | (ChannelLenTick, _) :: evs => decided_health last h evs
  end.
Definition received_slots (evs : list (health_event * Z)) : list Z :=
  omap (fun ev => match ev.1 with SlotReceived s _ _ => s | _ => None end) evs.

(** ** Lemmas *)

Lemma health_run_spec evs m m' :
  health_run m evs = Ok m' ->
  hm_state m' = decided_health (last_update m) (hm_state m) evs /\
  last_update m' = last_slot_time (last_update m) evs /\
  slots_forwarded m' = slots_forwarded m ++ received_slots evs.
Proof.
  revert m. induction evs as [|[ev len] evs IH]; intros m; cbn -[last_slot_time received_slots].
  - intros [= <-]. cbn. by rewrite app_nil_r.
  - destruct ev as [now|[slot|] [] now|]; cbn -[last_slot_time received_slots]; intros Hr;
      try done; apply IH in Hr as (-> & -> & ->); cbn; rewrite ?app_nil_r, <- ?app_assoc; done.
Qed.

Lemma decided_health_app last h evs now len :
  decided_health last h (evs ++ [(CheckAndMetricsTick now, len)]) =
  if now - last_slot_time last evs <=? missing_slot_unhealthy_threshold then Healthy else Unhealthy.
Proof. revert last h. induction evs as [|[[] ?] evs IH]; intros last h; cbn; done. Qed.

Lemma decided_health_slots last h evs evs' :
  Forall (fun ev => forall now, ev.1 <> CheckAndMetricsTick now) evs' ->
  decided_health last h (evs ++ evs') = decided_health last h evs.
Proof.
  intros Hf. revert last h. induction evs as [|[[] ?] evs IH]; intros last h; cbn; try apply IH.
  revert last. induction Hf as [|[[] ?] evs' Hev _ IH]; intros last; cbn; try done; try apply IH.
  by edestruct Hev.
Qed.

(** C38: the published health is exactly what the last check decided: after a
    check followed by any events other than checks, the relayer is healthy if
    and only if the last slot before that check (the start of the manager when
    there was none) was at most the threshold old. *)
Theorem health_is_last_check start evs now len evs' m :
  Forall (fun ev => forall now, ev.1 <> CheckAndMetricsTick now) evs' ->
  health_run (health_init start) (evs ++ (CheckAndMetricsTick now, len) :: evs') = Ok m ->
  hm_state m = Healthy <-> now - last_slot_time start evs <= missing_slot_unhealthy_threshold.
Proof.
  intros Hf (Hs & _ & _)%health_run_spec. cbn in Hs.
  change ((CheckAndMetricsTick now, len) :: evs') with ([(CheckAndMetricsTick now, len)] ++ evs') in Hs.
  rewrite app_assoc, decided_health_slots, decided_health_app in Hs by done. rewrite Hs.
  destruct (Z.leb_spec (now - last_slot_time start evs) missing_slot_unhealthy_threshold);
    split; (done || lia).
Qed.

(** Slot updates go downstream unchanged: as long as the manager runs, the
    slots it sent are the slots it received, in order, and it stops (panics)
    as soon as a receive or a send fails. *)
Theorem health_forwards_slots start evs :
  match health_run (health_init start) evs with
  | Ok m => slots_forwarded m = received_slots evs
  | Err e => False
  | Panic => exists evs1 s b now len evs2,
      evs = evs1 ++ (SlotReceived s b now, len) :: evs2 /\ (s = None \/ b = false)
  end.
Proof.
  destruct (health_run (health_init start) evs) as [m|[]|] eqn:E.
  - apply health_run_spec in E as (_ & _ & ->). done.
  - revert E. generalize (health_init start).
    induction evs as [|[ev len] evs IH]; intros m; cbn; [done|].
    destruct ev as [now|slot b now|]; cbn.
    + intros (evs1 & s & b & t & l & evs2 & -> & ?)%IH. by exists ((CheckAndMetricsTick now, len) :: evs1), s, b, t, l, evs2.
    + destruct slot as [slot|], b; cbn; intros H.
      * apply IH in H as (evs1 & s & b & t & l & evs2 & -> & ?).
        by exists ((SlotReceived (Some slot) true now, len) :: evs1), s, b, t, l, evs2.
      * exists [], (Some slot), false, now, len, evs. eauto.
      * exists [], None, true, now, len, evs. eauto.
      * exists [], None, false, now, len, evs. eauto.
    + intros (evs1 & s & b & t & l & evs2 & -> & ?)%IH. by exists ((ChannelLenTick, len) :: evs1), s, b, t, l, evs2.
Qed.

End health.

(** ** Witness: slots at 3 and 9, threshold 10, a check at 18 *)

Lemma health_is_last_check_witness :
  exists m, health_run 10 (health_init 0)
    ([(SlotReceived (Some 100) true 3, 1); (SlotReceived (Some 101) true 9, 1)]
     ++ (CheckAndMetricsTick 18, 0) :: [(ChannelLenTick, 0)]) = Ok m /\
    (hm_state m = Healthy <->
     18 - last_slot_time 0 [(SlotReceived (Some 100) true 3, 1); (SlotReceived (Some 101) true 9, 1)] <= 10).
Proof.
  eexists. split; [reflexivity|].
  eapply (health_is_last_check 10 0 _ 18 0 [(ChannelLenTick, 0)]); [|reflexivity].
  by repeat constructor.
Defined.
