(* ===== verification/Relayer.v ===== *)
(** * The relayer service ([src/relayer/src/relayer.rs])

    One thread owns the connected validators and reacts to slots, packets,
    subscriptions and two timers; gRPC handlers subscribe validators and answer
    the address of the TPU.

    The map of subscriptions holds the sending half of one channel per
    validator.  Between two sends the validator may read from its channel or
    close it; the models take that interference as a function. *)

From Stdlib Require Import ZArith Lia String.
From stdpp Require Import base gmap strings list.
From S2P Require Import Prelude Interfaces Convert Ofac Schedule Health Reference.

(** ** Messages and data *)

Inductive Msg :=
| HeartbeatMsg (h : Heartbeat)
| BatchMsg (b : ProtoPacketBatch).
Record SubscribePacketsResponse := {
  header : option Header;
  msg : option Msg;
}.
Abbreviation response := (result Status SubscribePacketsResponse).

Record PacketForwardStats := {
  num_packets_forwarded : Z;
  num_packets_dropped : Z;
}.
#[global] Instance PacketForwardStats_eta : Eta PacketForwardStats := fun s =>
  {| num_packets_forwarded := num_packets_forwarded s;
     num_packets_dropped := num_packets_dropped s |}.

(** [stamp] is only used to measure the latency, which the step reads from its
    environment. *)
Record RelayerPacketBatches := {
  rpb_stamp : Z;
  rpb_batch : BankingPacketBatch;
}.
Inductive RelayerError := Shutdown.

Section relayer.
Context {C : Type -> Type} `{MP : Mpsc C}.
Context {Hist : Type} `{HI : Histogram Hist}.
Context `{IT : !HashIter Pubkey}.
Context `{PA : PacketApi} `{TI : Text IpAddr}.

Abbreviation PacketSubscriptions := (gmap Pubkey (C response)).

Inductive Subscription :=
| ValidatorPacketSubscription (pubkey : Pubkey) (sender : C response).

Record RelayerMetrics := {
  m_highest_slot : Z;
  num_added_connections : Z;
  num_removed_connections : Z;
  num_current_connections : Z;
  num_heartbeats : Z;
  max_heartbeat_tick_latency_us : Z;
  metrics_latency_us : Z;
  num_try_send_channel_full : Z;
  packet_latencies_us : Hist;
  crossbeam_slot_receiver_processing_us : Hist;
  crossbeam_delay_packet_receiver_processing_us : Hist;
  crossbeam_subscription_receiver_processing_us : Hist;
  crossbeam_heartbeat_tick_processing_us : Hist;
  crossbeam_metrics_tick_processing_us : Hist;
  slot_receiver_max_len : Z;
  slot_receiver_capacity : Z;
  subscription_receiver_max_len : Z;
  subscription_receiver_capacity : Z;
  delay_packet_receiver_max_len : Z;
  delay_packet_receiver_capacity : Z;
  packet_subscriptions_total_queued : Z;
  packet_stats_per_validator : gmap Pubkey PacketForwardStats;
}.
#[global] Instance RelayerMetrics_eta : Eta RelayerMetrics := fun m => {|
  m_highest_slot := m_highest_slot m;
  num_added_connections := num_added_connections m;
  num_removed_connections := num_removed_connections m;
  num_current_connections := num_current_connections m;
  num_heartbeats := num_heartbeats m;
  max_heartbeat_tick_latency_us := max_heartbeat_tick_latency_us m;
  metrics_latency_us := metrics_latency_us m;
  num_try_send_channel_full := num_try_send_channel_full m;
  packet_latencies_us := packet_latencies_us m;
  crossbeam_slot_receiver_processing_us := crossbeam_slot_receiver_processing_us m;
  crossbeam_delay_packet_receiver_processing_us := crossbeam_delay_packet_receiver_processing_us m;
  crossbeam_subscription_receiver_processing_us := crossbeam_subscription_receiver_processing_us m;
  crossbeam_heartbeat_tick_processing_us := crossbeam_heartbeat_tick_processing_us m;
  crossbeam_metrics_tick_processing_us := crossbeam_metrics_tick_processing_us m;
  slot_receiver_max_len := slot_receiver_max_len m;
  slot_receiver_capacity := slot_receiver_capacity m;
  subscription_receiver_max_len := subscription_receiver_max_len m;
  subscription_receiver_capacity := subscription_receiver_capacity m;
  delay_packet_receiver_max_len := delay_packet_receiver_max_len m;
  delay_packet_receiver_capacity := delay_packet_receiver_capacity m;
  packet_subscriptions_total_queued := packet_subscriptions_total_queued m;
  packet_stats_per_validator := packet_stats_per_validator m;
|}.

(** ** [impl RelayerMetrics] *)

Definition metrics_new (slot_cap subscription_cap delay_cap : Z) : RelayerMetrics := {|
  m_highest_slot := 0; num_added_connections := 0; num_removed_connections := 0;
  num_current_connections := 0; num_heartbeats := 0; max_heartbeat_tick_latency_us := 0;
  metrics_latency_us := 0; num_try_send_channel_full := 0;
  packet_latencies_us := hist_default;
  crossbeam_slot_receiver_processing_us := hist_default;
  crossbeam_delay_packet_receiver_processing_us := hist_default;
  crossbeam_subscription_receiver_processing_us := hist_default;
  crossbeam_heartbeat_tick_processing_us := hist_default;
  crossbeam_metrics_tick_processing_us := hist_default;
  slot_receiver_max_len := 0; slot_receiver_capacity := slot_cap;
  subscription_receiver_max_len := 0; subscription_receiver_capacity := subscription_cap;
  delay_packet_receiver_max_len := 0; delay_packet_receiver_capacity := delay_cap;
  packet_subscriptions_total_queued := 0; packet_stats_per_validator := ∅;
|}.

Definition update_max_len (slot_len subscription_len delay_len : Z) (m : RelayerMetrics)
    : RelayerMetrics :=
  m <| slot_receiver_max_len ::= fun x => Z.max x slot_len |>
    <| subscription_receiver_max_len ::= fun x => Z.max x subscription_len |>
    <| delay_packet_receiver_max_len ::= fun x => Z.max x delay_len |>.

Definition SUBSCRIBER_QUEUE_CAPACITY : nat := Z.to_nat 50000.

Definition update_packet_subscription_total_capacity (subs : PacketSubscriptions)
    (m : RelayerMetrics) : RelayerMetrics :=
  let total := u64_sum ((fun kv : Pubkey * C response =>
    u64_sub (Z.of_nat SUBSCRIBER_QUEUE_CAPACITY) (Z.of_nat (capacity kv.2))) <$> map_iter subs) in
  m <| packet_subscriptions_total_queued := total |>.

(** [entry(..).and_modify(..).or_insert(..)] on the statistics of a validator. *)
Definition add_forwarded (n : Z) (s : option PacketForwardStats) : PacketForwardStats :=
  match s with
  | Some s => s <| num_packets_forwarded ::= fun x => u64_saturating_add x n |>
  | None => {| num_packets_forwarded := n; num_packets_dropped := 0 |}
  end.
Definition add_dropped (n : Z) (s : option PacketForwardStats) : PacketForwardStats :=
  match s with
  | Some s => s <| num_packets_dropped ::= fun x => u64_saturating_add x n |>
  | None => {| num_packets_forwarded := 0; num_packets_dropped := n |}
  end.
Definition increment_packets_forwarded (k : Pubkey) (n : Z) (m : RelayerMetrics) : RelayerMetrics :=
  m <| packet_stats_per_validator ::= fun st => <[k := add_forwarded n (st !! k)]> st |>.
Definition increment_packets_dropped (k : Pubkey) (n : Z) (m : RelayerMetrics) : RelayerMetrics :=
  m <| packet_stats_per_validator ::= fun st => <[k := add_dropped n (st !! k)]> st |>.

(** ** Handlers of the event loop *)

(** [RelayerHandle::connected_validators] *)
Definition connected_validators (subs : PacketSubscriptions) : list Pubkey :=
  (map_iter subs).*1.

Definition drop_connections (disconnected_pubkeys : list Pubkey) (subs : PacketSubscriptions)
    (m : RelayerMetrics) : PacketSubscriptions * RelayerMetrics :=
  (foldl (fun s k => delete k s) subs disconnected_pubkeys,
   m <| num_removed_connections ::= fun n => u64_add n (Z.of_nat (length disconnected_pubkeys)) |>).

(** The state of an iteration over subscribers: the channels, the metrics and
    the subscribers whose channel was found closed. *)
Record sweep := {
  sw_subs : PacketSubscriptions;
  sw_metrics : RelayerMetrics;
  sw_failed : list Pubkey;
}.

(** One turn of the [filter_map] of [handle_heartbeat]; [recv] is what the
    validator did to its channel before the send. *)
Definition heartbeat_one (count : Z) (recv : Pubkey -> C response -> C response)
    (sw : sweep) (pubkey : Pubkey) : sweep :=
  match sw_subs sw !! pubkey with
  | None => sw
  | Some sender =>
      let hb := Ok {| header := None; msg := Some (HeartbeatMsg {| count := count |}) |} in
      let '(sender, outcome) := try_send hb (recv pubkey sender) in
      let subs := <[pubkey := sender]> (sw_subs sw) in
      match outcome with
      | Sent => {| sw_subs := subs; sw_metrics := sw_metrics sw; sw_failed := sw_failed sw |}
      | Closed => {| sw_subs := subs; sw_metrics := sw_metrics sw;
                     sw_failed := sw_failed sw ++ [pubkey] |}
      | Full => {| sw_subs := subs;
                   sw_metrics := (sw_metrics sw) <| num_try_send_channel_full ::= fun n => u64_add n 1 |>;
                   sw_failed := sw_failed sw |}
      end
  end.
Definition handle_heartbeat (recv : Pubkey -> C response -> C response)
    (subs : PacketSubscriptions) (m : RelayerMetrics) : sweep :=
  let sw := foldl (heartbeat_one (num_heartbeats m) recv)
                  {| sw_subs := subs; sw_metrics := m; sw_failed := [] |} (map_iter subs).*1 in
  {| sw_subs := sw_subs sw;
     sw_metrics := (sw_metrics sw) <| num_heartbeats ::= fun n => u64_add n 1 |>;
     sw_failed := sw_failed sw |}.

(** The packets that may leave: not discarded and, when there is an OFAC list,
    deserializable and not related to it. *)
Definition admit_packet (ofac_addresses : gset Pubkey) (alt : AltCache) (packet : Packet)
    : option Packet :=
  if bool_decide (ofac_addresses = ∅) then Some packet
  else tx ← deserialize_tx packet;
       if is_tx_ofac_related tx ofac_addresses alt then None else Some packet.
Definition admitted_packets (ofac_addresses : gset Pubkey) (alt : AltCache)
    (batches : BankingPacketBatch) : list ProtoPacket :=
  flat_map (fun batch : PacketBatch =>
    omap packet_to_proto_packet
      (omap (admit_packet ofac_addresses alt) (List.filter (fun p => negb (discard p)) batch)))
    batches.

(** One [try_send] of the [i]-th batch to [pubkey]: [now i pubkey] is the
    [SystemTime] written in the header, [recv i pubkey] what the validator did
    to its channel before it. *)
Definition send_one (now : nat -> Pubkey -> Z) (recv : nat -> Pubkey -> C response -> C response)
    (i : nat) (batch : ProtoPacketBatch) (sw : sweep) (pubkey : Pubkey) : sweep :=
  match sw_subs sw !! pubkey with
  | None => sw
  | Some sender =>
      let m := Ok {| header := Some {| ts := Some (now i pubkey) |}; msg := Some (BatchMsg batch) |} in
      let '(sender, outcome) := try_send m (recv i pubkey sender) in
      let subs := <[pubkey := sender]> (sw_subs sw) in
      let n := Z.of_nat (length (packets batch)) in
      match outcome with
      | Sent => {| sw_subs := subs;
                   sw_metrics := increment_packets_forwarded pubkey n (sw_metrics sw);
                   sw_failed := sw_failed sw |}
      | Full => {| sw_subs := subs;
                   sw_metrics := increment_packets_dropped pubkey n (sw_metrics sw);
                   sw_failed := sw_failed sw |}
      | Closed => {| sw_subs := subs; sw_metrics := sw_metrics sw;
                     sw_failed := sw_failed sw ++ [pubkey] |}
      end
  end.
Definition send_batch (now : nat -> Pubkey -> Z) (recv : nat -> Pubkey -> C response -> C response)
    (senders : list Pubkey) (sw : sweep) (ib : nat * ProtoPacketBatch) : sweep :=
  let '(i, batch) := ib in
  match packets batch with
  | [] => sw
  | _ => foldl (send_one now recv i batch) sw senders
  end.

(** The subscribers packets go to. *)
Definition packet_targets (forward_all : bool) (slot_leaders : gset Pubkey)
    (subs : PacketSubscriptions) : list Pubkey :=
  if forward_all then (map_iter subs).*1
  else List.filter (fun k => bool_decide (is_Some (subs !! k))) (set_iter slot_leaders).

(** [forward_packets]; [None] stands for a [RecvError].  A batch size of zero
    makes the division (and then [chunks]) panic. *)
Definition forward_packets (maybe_packet_batches : option RelayerPacketBatches)
    (latency_us : Z) (now : nat -> Pubkey -> Z) (recv : nat -> Pubkey -> C response -> C response)
    (subs : PacketSubscriptions) (slot_leaders : gset Pubkey) (m : RelayerMetrics)
    (ofac_addresses : gset Pubkey) (alt : AltCache)
    (validator_packet_batch_size : nat) (forward_all : bool) : result RelayerError sweep :=
  packet_batches ← ok_or maybe_packet_batches Shutdown;
  let m := m <| packet_latencies_us ::= hist_increment latency_us |> in
  let pkts := admitted_packets ofac_addresses alt (rpb_batch packet_batches) in
  _ ← assert_that (negb (validator_packet_batch_size =? 0)%nat);
  let proto_packet_batches :=
    Build_ProtoPacketBatch <$> chunks validator_packet_batch_size pkts in
  let senders := packet_targets forward_all slot_leaders subs in
  Ok (foldl (send_batch now recv senders) {| sw_subs := subs; sw_metrics := m; sw_failed := [] |}
            (imap pair proto_packet_batches)).

Definition handle_subscription (maybe_subscription : option Subscription)
    (subs : PacketSubscriptions) (m : RelayerMetrics)
    : result RelayerError (PacketSubscriptions * RelayerMetrics) :=
  subscription ← ok_or maybe_subscription Shutdown;
  match subscription with
  | ValidatorPacketSubscription pubkey sender =>
      Ok (<[pubkey := sender]> subs,
          match subs !! pubkey with
          | None => m <| num_added_connections ::= fun n => u64_add n 1 |>
          | Some _ => m
          end)
  end.

Definition update_highest_slot (maybe_slot : option Z) (m : RelayerMetrics)
    : result RelayerError (Z * RelayerMetrics) :=
  slot ← ok_or maybe_slot Shutdown;
  Ok (slot, m <| m_highest_slot := slot |>).

(** ** The event loop *)

Record loop_config := {
  slot_lookahead : Z;
  ofac_addresses : gset Pubkey;
  validator_packet_batch_size : nat;
  cfg_forward_all : bool;
  slot_capacity : Z;
  subscription_capacity : Z;
  delay_packet_capacity : Z;
}.
Record loop_state := {
  packet_subscriptions : PacketSubscriptions;
  relayer_metrics : RelayerMetrics;
  highest_slot : Z;
  slot_leaders : gset Pubkey;
}.
#[global] Instance loop_state_eta : Eta loop_state := fun s => {|
  packet_subscriptions := packet_subscriptions s; relayer_metrics := relayer_metrics s;
  highest_slot := highest_slot s; slot_leaders := slot_leaders s |}.

(** The arms of the [select!]: a receive, [None] for a [RecvError], or a timer
    with the delay of its tick. *)
Inductive loop_event :=
| SlotEvent (maybe_slot : option Z)
| PacketEvent (maybe_packet_batches : option RelayerPacketBatches)
| SubscriptionEvent (maybe_subscription : option Subscription)
| HeartbeatTick (latency_us : option Z)
| MetricsTick (latency_us : option Z).

(** What an iteration reads from the rest of the system. *)
Record readings := {
  rd_schedule : LeaderSchedule;
  rd_alt : AltCache;
  rd_health : HealthState;
  rd_now : nat -> Pubkey -> Z;
  rd_recv : nat -> Pubkey -> C response -> C response;
  rd_packet_latency_us : Z;
  rd_elapsed_us : Z;
  rd_slot_len : Z;
  rd_subscription_len : Z;
  rd_delay_len : Z;
}.

Definition loop_init (cfg : loop_config) : loop_state := {|
  packet_subscriptions := ∅;
  relayer_metrics := metrics_new (slot_capacity cfg) (subscription_capacity cfg)
                                 (delay_packet_capacity cfg);
  highest_slot := 0; slot_leaders := ∅ |}.

(** [(highest_slot..highest_slot + slot_lookahead).collect()] *)
Definition slot_window (highest lookahead : Z) : list Z :=
  seqZ highest (u64_add highest lookahead - highest).

Definition loop_arm (cfg : loop_config) (rd : readings) (ev : loop_event) (s : loop_state)
    : result RelayerError loop_state :=
  match ev with
  | SlotEvent maybe_slot =>
      '(slot, m) ← update_highest_slot maybe_slot (relayer_metrics s);
      let leaders := leaders_for_slots (rd_schedule rd) (slot_window slot (slot_lookahead cfg)) in
      let m := m <| crossbeam_slot_receiver_processing_us ::= hist_increment (rd_elapsed_us rd) |> in
      Ok (s <| highest_slot := slot |> <| slot_leaders := leaders |> <| relayer_metrics := m |>)
  | PacketEvent maybe_packet_batches =>
      sw ← forward_packets maybe_packet_batches (rd_packet_latency_us rd) (rd_now rd) (rd_recv rd)
             (packet_subscriptions s) (slot_leaders s) (relayer_metrics s) (ofac_addresses cfg)
             (rd_alt rd) (validator_packet_batch_size cfg) (cfg_forward_all cfg);
      let '(subs, m) := drop_connections (sw_failed sw) (sw_subs sw) (sw_metrics sw) in
      let m := m <| crossbeam_delay_packet_receiver_processing_us ::= hist_increment (rd_elapsed_us rd) |> in
      Ok (s <| packet_subscriptions := subs |> <| relayer_metrics := m |>)
  | SubscriptionEvent maybe_subscription =>
      '(subs, m) ← handle_subscription maybe_subscription (packet_subscriptions s) (relayer_metrics s);
      let m := m <| crossbeam_subscription_receiver_processing_us ::= hist_increment (rd_elapsed_us rd) |> in
      Ok (s <| packet_subscriptions := subs |> <| relayer_metrics := m |>)
  | HeartbeatTick latency_us =>
      let m := match latency_us with
               | Some l => (relayer_metrics s) <| max_heartbeat_tick_latency_us ::= fun x => Z.max x l |>
               | None => relayer_metrics s
               end in
      let sw := match rd_health rd with
                | Healthy => handle_heartbeat (rd_recv rd 0%nat) (packet_subscriptions s) m
                | Unhealthy => {| sw_subs := packet_subscriptions s; sw_metrics := m;
                                  sw_failed := (map_iter (packet_subscriptions s)).*1 |}
                end in
      let '(subs, m) := drop_connections (sw_failed sw) (sw_subs sw) (sw_metrics sw) in
      let m := m <| crossbeam_heartbeat_tick_processing_us ::= hist_increment (rd_elapsed_us rd) |> in
      Ok (s <| packet_subscriptions := subs |> <| relayer_metrics := m |>)
  | MetricsTick _ =>
      (* the metrics are completed, reported and replaced by fresh ones *)
      Ok (s <| relayer_metrics := metrics_new (slot_capacity cfg) (subscription_capacity cfg)
                                              (delay_packet_capacity cfg) |>)
  end.

(** What is reported by the metrics arm. *)
Definition reported_metrics (rd : readings) (latency_us : option Z) (s : loop_state)
    : RelayerMetrics :=
  let m := (relayer_metrics s)
    <| num_current_connections := Z.of_nat (size (packet_subscriptions s)) |> in
  let m := update_packet_subscription_total_capacity (packet_subscriptions s) m in
  let m := match latency_us with
           | Some l => m <| metrics_latency_us := l |>
           | None => m
           end in
  m <| crossbeam_metrics_tick_processing_us ::= hist_increment (rd_elapsed_us rd) |>.

Definition loop_iteration (cfg : loop_config) (rd : readings) (ev : loop_event) (s : loop_state)
    : result RelayerError loop_state :=
  s ← loop_arm cfg rd ev s;
  Ok (s <| relayer_metrics ::= update_max_len (rd_slot_len rd) (rd_subscription_len rd)
                                              (rd_delay_len rd) |>).

(** [run_event_loop] over the events of a run: each input is the value of the
    exit flag at the head of the loop, what the iteration reads and the event
    it selects. *)
Fixpoint run_event_loop (cfg : loop_config) (inputs : list (bool * readings * loop_event))
    (s : loop_state) : result RelayerError loop_state :=
  match inputs with
  | [] => Ok s
  | (exit, rd, ev) :: inputs =>
      if exit : bool then Ok s
      else s ← loop_iteration cfg rd ev s; run_event_loop cfg inputs s
  end.

(** ** gRPC handlers *)

Record RelayerImpl := {
  tpu_quic_ports : list Z;
  tpu_fwd_quic_ports : list Z;
  public_ip : IpAddr;
  seq : Z;
}.
#[global] Instance RelayerImpl_eta : Eta RelayerImpl := fun r => {|
  tpu_quic_ports := tpu_quic_ports r; tpu_fwd_quic_ports := tpu_fwd_quic_ports r;
  public_ip := public_ip r; seq := seq r |}.
Record Socket := { sock_ip : string; sock_port : Z }.
Record GetTpuConfigsResponse := { tpu : option Socket; tpu_forward : option Socket }.

(** [ports[seq as usize % ports.len()] - 6] on [u16]: the remainder by zero
    panics, the subtraction wraps. *)
Definition advertised_port (ports : list Z) (seq : Z) : result Status Z :=
  _ ← assert_that (negb (length ports =? 0)%nat);
  p ← unwrap (ports !! Z.to_nat (seq mod Z.of_nat (length ports)));
  Ok (u16 (p - 6)).

Definition get_tpu_configs (r : RelayerImpl)
    : result Status (GetTpuConfigsResponse * RelayerImpl) :=
  let seq0 := seq r in
  let r := r <| seq := u64_add seq0 1 |> in
  tpu_port ← advertised_port (tpu_quic_ports r) seq0;
  fwd_port ← advertised_port (tpu_fwd_quic_ports r) seq0;
  Ok ({| tpu := Some {| sock_ip := to_string (public_ip r); sock_port := tpu_port |};
         tpu_forward := Some {| sock_ip := to_string (public_ip r); sock_port := fwd_port |} |}, r).

Definition check_health (health_state : HealthState) : result Status () :=
  if bool_decide (health_state = Healthy) then Ok ()
  else Err (status_internal "relayer is unhealthy").

(** [subscribe_packets]: [extension] is the key the interceptor attached to the
    request, [send_ok] whether the subscription channel is still open.  The
    result is the subscription handed to the event loop; its channel is the one
    whose receiver is streamed to the validator. *)
Definition subscribe_packets (health_state : HealthState) (extension : option Pubkey)
    (send_ok : bool) : result Status Subscription :=
  _ ← check_health health_state;
  pubkey ← ok_or extension (status_internal "internal error fetching public key");
  let sender := channel SUBSCRIBER_QUEUE_CAPACITY in
  _ ← ensure send_ok (status_internal "internal error adding subscription");
  Ok (ValidatorPacketSubscription pubkey sender).

(** ** One subscriber at a time

    What a sweep does to one subscriber depends only on that subscriber. *)

Record peer := {
  p_chan : option (C response);
  p_stats : option PacketForwardStats;
  p_closed : nat;
}.
Definition peer_of (k : Pubkey) (sw : sweep) : peer := {|
  p_chan := sw_subs sw !! k;
  p_stats := packet_stats_per_validator (sw_metrics sw) !! k;
  p_closed := count_occ (fun a b => decide (a = b)) (sw_failed sw) k |}.

(** What the batch [b] does to a subscriber: the effect of [send_one]. *)
Definition batch_message (t : Z) (b : ProtoPacketBatch) : response :=
  Ok {| header := Some {| ts := Some t |}; msg := Some (BatchMsg b) |}.
Definition peer_send (t : Z) (recv : C response -> C response) (b : ProtoPacketBatch) (p : peer)
    : peer :=
  match p_chan p with
  | None => p
  | Some c =>
      let n := Z.of_nat (length (packets b)) in
      match try_send (batch_message t b) (recv c) with
      | (c, Sent) => {| p_chan := Some c; p_stats := Some (add_forwarded n (p_stats p));
                        p_closed := p_closed p |}
      | (c, Full) => {| p_chan := Some c; p_stats := Some (add_dropped n (p_stats p));
                        p_closed := p_closed p |}
      | (c, Closed) => {| p_chan := Some c; p_stats := p_stats p; p_closed := S (p_closed p) |}
      end
  end.

Lemma count_occ_snoc (l : list Pubkey) x k :
  count_occ (fun a b => decide (a = b)) (l ++ [x]) k =
  if decide (x = k) then S (count_occ (fun a b => decide (a = b)) l k)
  else count_occ (fun a b => decide (a = b)) l k.
Proof. rewrite count_occ_app. cbn. destruct (decide (x = k)); lia. Qed.

Lemma send_one_peer now recv i b k sw k' :
  peer_of k (send_one now recv i b sw k') =
  if decide (k' = k) then peer_send (now i k) (recv i k) b (peer_of k sw) else peer_of k sw.
Proof.
  unfold send_one, peer_send, peer_of, batch_message. cbn.
  destruct (decide (k' = k)) as [->|Hne].
  - destruct (sw_subs sw !! k) as [c|] eqn:E; cbn; [|by rewrite E].
    destruct (try_send _ _) as [c' []]; cbn; rewrite ?lookup_insert_eq; try done.
    rewrite count_occ_snoc. by rewrite decide_True.
  - destruct (sw_subs sw !! k') as [c|] eqn:E; [|done].
    destruct (try_send _ _) as [c' []]; cbn; rewrite ?lookup_insert_ne by done; try done.
    rewrite count_occ_snoc. by rewrite decide_False.
Qed.

Lemma send_batch_peer now recv senders sw i b k :
  NoDup senders -> packets b <> [] ->
  peer_of k (send_batch now recv senders sw (i, b)) =
  if decide (k ∈ senders) then peer_send (now i k) (recv i k) b (peer_of k sw) else peer_of k sw.
Proof.
  intros Hnd Hb. unfold send_batch. destruct (packets b) eqn:E; [done|].
  apply (foldl_view (peer_of k) _ _ k); [done|]. intros. apply send_one_peer.
Qed.

Lemma send_batches_peer now recv senders sw ibs k :
  NoDup senders -> Forall (fun ib : nat * ProtoPacketBatch => packets ib.2 <> []) ibs ->
  peer_of k (foldl (send_batch now recv senders) sw ibs) =
  if decide (k ∈ senders)
  then foldl (fun p ib => peer_send (now ib.1 k) (recv ib.1 k) ib.2 p) (peer_of k sw) ibs
  else peer_of k sw.
Proof.
  intros Hnd Hne. revert sw. induction Hne as [|[i b] ibs Hb _ IH]; intros sw; cbn [foldl].
  { by destruct (decide _). }
  rewrite IH, send_batch_peer by done. by destruct (decide (k ∈ senders)).
Qed.

Lemma drop_lookup_gen (ks : list Pubkey) (subs : PacketSubscriptions) k :
  foldl (fun s k => delete k s) subs ks !! k = if decide (k ∈ ks) then None else subs !! k.
Proof.
  revert subs. induction ks as [|x ks IH]; intros subs; cbn [foldl].
  { rewrite decide_False; [done|apply not_elem_of_nil]. }
  rewrite IH. destruct (decide (k ∈ ks)) as [Hk|Hk].
  - rewrite decide_True; [done|]. by apply list_elem_of_further.
  - rewrite lookup_delete. destruct (decide (x = k)) as [->|Hne].
    + rewrite decide_True; [done|apply list_elem_of_here].
    + rewrite decide_False; [done|]. rewrite elem_of_cons. naive_solver.
Qed.

Lemma drop_lookup ks (subs : PacketSubscriptions) k :
  k ∈ ks -> foldl (fun s k => delete k s) subs ks !! k = None.
Proof. intros Hk. rewrite drop_lookup_gen. by rewrite decide_True. Qed.

(** ** Facts about the batches and their targets *)

Section laws.
Context `{ML : !MpscLaws C} `{IL : !HashIterLaws Pubkey}.

Lemma NoDup_subscribers (subs : PacketSubscriptions) : NoDup (map_iter subs).*1.
Proof. rewrite map_iter_perm. apply NoDup_fst_map_to_list. Qed.

Lemma elem_of_subscribers (subs : PacketSubscriptions) k :
  k ∈ (map_iter subs).*1 <-> is_Some (subs !! k).
Proof.
  rewrite map_iter_perm, list_elem_of_fmap. split.
  - intros ([k' c] & -> & Hin%elem_of_map_to_list). eauto.
  - intros [c Hc]. exists (k, c). by rewrite elem_of_map_to_list.
Qed.

(** The effect of [heartbeat_one] on a subscriber. *)
Definition heartbeat_message (n : Z) : response :=
  Ok {| header := None; msg := Some (HeartbeatMsg {| count := n |}) |}.
Definition peer_heartbeat (n : Z) (recv : C response -> C response) (p : peer) : peer :=
  match p_chan p with
  | None => p
  | Some c =>
      match try_send (heartbeat_message n) (recv c) with
      | (c, Closed) => {| p_chan := Some c; p_stats := p_stats p; p_closed := S (p_closed p) |}
      | (c, _) => {| p_chan := Some c; p_stats := p_stats p; p_closed := p_closed p |}
      end
  end.

Lemma heartbeat_one_peer n recv k sw k' :
  peer_of k (heartbeat_one n recv sw k') =
  if decide (k' = k) then peer_heartbeat n (recv k) (peer_of k sw) else peer_of k sw.
Proof.
  unfold heartbeat_one, peer_heartbeat, peer_of, heartbeat_message. cbn.
  destruct (decide (k' = k)) as [->|Hne].
  - destruct (sw_subs sw !! k) as [c|] eqn:E; cbn; [|by rewrite E].
    destruct (try_send _ _) as [c' []]; cbn; rewrite ?lookup_insert_eq; try done.
    rewrite count_occ_snoc. by rewrite decide_True.
  - destruct (sw_subs sw !! k') as [c|] eqn:E; [|done].
    destruct (try_send _ _) as [c' []]; cbn; rewrite ?lookup_insert_ne by done; try done.
    rewrite count_occ_snoc. by rewrite decide_False.
Qed.

Lemma handle_heartbeat_peer recv (subs : PacketSubscriptions) m k :
  peer_of k (handle_heartbeat recv subs m) =
  peer_heartbeat (num_heartbeats m) (recv k)
    {| p_chan := subs !! k; p_stats := packet_stats_per_validator m !! k; p_closed := 0 |}.
Proof.
  pose proof (foldl_view (peer_of k) (heartbeat_one (num_heartbeats m) recv)
    (peer_heartbeat (num_heartbeats m) (recv k)) k (map_iter subs).*1
    {| sw_subs := subs; sw_metrics := m; sw_failed := [] |} (NoDup_subscribers subs)
    (heartbeat_one_peer _ recv k)) as Hv.
  unfold handle_heartbeat. unfold peer_of in *. cbn in *. rewrite Hv.
  destruct (decide (k ∈ (map_iter subs).*1)) as [|Hn]; [done|].
  rewrite elem_of_subscribers, <- eq_None_not_Some in Hn. unfold peer_heartbeat. cbn. by rewrite Hn.
Qed.

Lemma NoDup_targets forward_all leaders subs : NoDup (packet_targets forward_all leaders subs).
Proof.
  unfold packet_targets. destruct forward_all; [apply NoDup_subscribers|].
  apply NoDup_ListNoDup, List.NoDup_filter, NoDup_ListNoDup. rewrite set_iter_perm.
  apply NoDup_elements.
Qed.

Lemma elem_of_targets forward_all leaders subs k :
  k ∈ packet_targets forward_all leaders subs <->
  is_Some (subs !! k) /\ (forward_all = true \/ k ∈ leaders).
Proof.
  unfold packet_targets. destruct forward_all; [rewrite elem_of_subscribers; naive_solver|].
  rewrite list_elem_of_In, filter_In, <- list_elem_of_In, set_iter_perm, elem_of_elements.
  rewrite bool_decide_eq_true. naive_solver.
Qed.

Definition proto_batches (size : nat) (pkts : list ProtoPacket) : list ProtoPacketBatch :=
  Build_ProtoPacketBatch <$> chunks size pkts.

Lemma proto_batches_bounds size pkts :
  (0 < size)%nat -> Forall (fun b => (0 < length (packets b) <= size)%nat) (proto_batches size pkts).
Proof. intros. unfold proto_batches. rewrite Forall_fmap. by apply chunks_bounds. Qed.

Lemma proto_batches_concat size pkts :
  (0 < size)%nat -> concat (packets <$> proto_batches size pkts) = pkts.
Proof.
  intros. unfold proto_batches. rewrite <- list_fmap_compose.
  rewrite (list_fmap_ext _ id), list_fmap_id; [by apply chunks_concat|done].
Qed.

Lemma proto_batches_nonempty size pkts :
  (0 < size)%nat ->
  Forall (fun ib : nat * ProtoPacketBatch => packets ib.2 <> []) (imap pair (proto_batches size pkts)).
Proof.
  intros Hs. apply Forall_forall. intros [i b] Hin.
  apply elem_of_lookup_imap in Hin as (j & b' & Heq & Hb). simplify_eq.
  pose proof (proto_batches_bounds size pkts Hs) as Hbd. rewrite Forall_lookup in Hbd.
  specialize (Hbd _ _ Hb). cbn in *. intros E0. rewrite E0 in Hbd. cbn in Hbd. lia.
Qed.

(** The per-subscriber view of [forward_packets]. *)
Lemma forward_packets_peer rpb lat now recv subs leaders m ofac alt size fwd_all sw k :
  forward_packets (Some rpb) lat now recv subs leaders m ofac alt size fwd_all = Ok sw ->
  (0 < size)%nat /\
  peer_of k sw =
  let p0 := {| p_chan := subs !! k; p_stats := packet_stats_per_validator m !! k; p_closed := 0 |} in
  if decide (k ∈ packet_targets fwd_all leaders subs)
  then foldl (fun p ib => peer_send (now ib.1 k) (recv ib.1 k) ib.2 p) p0
         (imap pair (proto_batches size (admitted_packets ofac alt (rpb_batch rpb))))
  else p0.
Proof.
  unfold forward_packets. cbn. destruct (Nat.eqb_spec size 0); cbn; [done|]. intros [= <-].
  split; [lia|]. fold (proto_batches size (admitted_packets ofac alt (rpb_batch rpb))).
  rewrite send_batches_peer; [done|apply NoDup_targets|]. apply proto_batches_nonempty. lia.
Qed.

End laws.
End relayer.
