(* ===== verification/RelayerForward.v ===== *)
(** * Forwarding packets to validators

    What [forward_packets] of [Relayer] does to each subscriber: who receives,
    what is received, what is counted, and who is disconnected. *)

From Stdlib Require Import ZArith Lia String.
From stdpp Require Import base gmap strings list.
From S2P Require Import Prelude Interfaces Convert Ofac Schedule Health Relayer Reference.

Section forward.
Context {C : Type -> Type} `{MP : Mpsc C}.
Context {Hist : Type} `{HI : Histogram Hist}.
Context `{IT : !HashIter Pubkey}.
Context `{PA : PacketApi} `{TI : Text IpAddr}.
Context `{ML : !MpscLaws C} `{IL : !HashIterLaws Pubkey}.

(** Packets counted for a validator, forwarded or dropped. *)
Definition stat_total (s : option PacketForwardStats) : Z :=
  match s with
  | Some s => num_packets_forwarded s + num_packets_dropped s
  | None => 0
  end.
Definition stats_nonneg (s : option PacketForwardStats) : Prop :=
  match s with
  | Some s => 0 <= num_packets_forwarded s /\ 0 <= num_packets_dropped s
  | None => True
  end.

(** ** Delivery to one subscriber *)

(** The sends of [forward_packets] to [k], as a fold over numbered batches. *)
Definition deliver (now : nat -> Z) (recv : nat -> C response -> C response)
    (p : peer) (ibs : list (nat * ProtoPacketBatch)) : peer :=
  foldl (fun p ib => peer_send (now ib.1) (recv ib.1) ib.2 p) p ibs.

Lemma deliver_room now (g : nat -> nat) bs c st n :
  rx_closed c = false -> (length (queued c) + length bs <= max_capacity c)%nat ->
  exists c' st', deliver now (fun _ c => c) {| p_chan := Some c; p_stats := st; p_closed := n |}
              (imap (fun i b => (g i, b)) bs) =
            {| p_chan := Some c'; p_stats := st'; p_closed := n |} /\
            queued c' = queued c ++ imap (fun i b => batch_message (now (g i)) b) bs.
Proof.
  revert g c st. induction bs as [|b bs IH]; intros g c st Hcl Hcap; cbn in Hcap.
  { exists c, st. by rewrite app_nil_r. }
  rewrite !imap_cons. unfold deliver. cbn [foldl fst snd]. unfold peer_send at 2. cbn [p_chan].
  pose proof (try_send_spec (batch_message (now (g 0%nat)) b) c) as Hs.
  destruct (try_send _ c) as [c1 []]; [|destruct Hs; lia|destruct Hs; congruence].
  destruct Hs as (_ & _ & Hq & Hm & Hc1).
  destruct (IH (g ∘ S) c1 (Some (add_forwarded (Z.of_nat (length (packets b))) st))) as (c' & st' & Hd & Hq');
    [done|rewrite Hq, Hm, length_app; cbn; lia|].
  exists c', st'. split; [exact Hd|]. rewrite Hq', Hq. by rewrite <- app_assoc.
Qed.

Lemma peer_send_closed_mono t recv b p : (p_closed p <= p_closed (peer_send t recv b p))%nat.
Proof. unfold peer_send. destruct (p_chan p); [|done]. destruct (try_send _ _) as [? []]; cbn; lia. Qed.

Lemma deliver_closed_mono now recv p ibs : (p_closed p <= p_closed (deliver now recv p ibs))%nat.
Proof.
  revert p. induction ibs as [|ib ibs IH]; intros p; cbn; [done|].
  etrans; [apply (peer_send_closed_mono (now ib.1) (recv ib.1) ib.2)|apply IH].
Qed.

Definition batch_len (ib : nat * ProtoPacketBatch) : Z := Z.of_nat (length (packets ib.2)).

Lemma peer_send_total t recv b p :
  is_Some (p_chan p) -> stats_nonneg (p_stats p) -> p_closed (peer_send t recv b p) = p_closed p ->
  stat_total (p_stats p) + Z.of_nat (length (packets b)) <= u64_max ->
  stat_total (p_stats (peer_send t recv b p)) =
    stat_total (p_stats p) + Z.of_nat (length (packets b)) /\
  stats_nonneg (p_stats (peer_send t recv b p)) /\ is_Some (p_chan (peer_send t recv b p)).
Proof.
  unfold peer_send. intros [c Hc] Hnn. rewrite Hc.
  destruct (try_send _ _) as [c' []]; cbn; try lia; intros _ Hmax;
    destruct (p_stats p) as [s|]; cbn in *; unfold u64_saturating_add, u64_max in *;
    split_and!; eauto; lia.
Qed.

Lemma deliver_total now recv ibs p :
  is_Some (p_chan p) -> stats_nonneg (p_stats p) -> p_closed (deliver now recv p ibs) = p_closed p ->
  stat_total (p_stats p) + sumZ (batch_len <$> ibs) <= u64_max ->
  stat_total (p_stats (deliver now recv p ibs)) = stat_total (p_stats p) + sumZ (batch_len <$> ibs).
Proof.
  revert p. induction ibs as [|ib ibs IH]; intros p Hc Hnn Hcl Hmax; [cbn; lia|].
  rewrite fmap_cons, sumZ_cons in *.
  change (deliver now recv p (ib :: ibs)) with
    (deliver now recv (peer_send (now ib.1) (recv ib.1) ib.2 p) ibs) in *.
  pose proof (deliver_closed_mono now recv (peer_send (now ib.1) (recv ib.1) ib.2 p) ibs) as Hm1.
  pose proof (peer_send_closed_mono (now ib.1) (recv ib.1) ib.2 p) as Hm2.
  assert (0 <= sumZ (batch_len <$> ibs)).
  { apply sumZ_nonneg. rewrite Forall_fmap. apply Forall_true. intros x. unfold compose, batch_len. lia. }
  change (batch_len ib) with (Z.of_nat (length (packets ib.2))) in *.
  destruct (peer_send_total (now ib.1) (recv ib.1) ib.2 p) as (Ht & Hn1 & Hc1); try done; try lia.
  rewrite IH; try done; lia.
Qed.

Lemma deliver_closed now (g : nat -> nat) recv bs c st n :
  (forall i c, rx_closed c = true -> (length (queued c) < max_capacity c)%nat ->
     rx_closed (recv i c) = true /\ (length (queued (recv i c)) < max_capacity (recv i c))%nat) ->
  rx_closed c = true -> (length (queued c) < max_capacity c)%nat ->
  p_closed (deliver now recv {| p_chan := Some c; p_stats := st; p_closed := n |}
              (imap (fun i b => (g i, b)) bs)) = (n + length bs)%nat.
Proof.
  intros Hrecv. revert g c n. induction bs as [|b bs IH]; intros g c n Hcl Hcap; cbn [length].
  { cbn. lia. }
  rewrite imap_cons. unfold deliver. cbn [foldl fst snd]. unfold peer_send at 2. cbn [p_chan].
  destruct (Hrecv (g 0%nat) c Hcl Hcap) as [Hcl' Hcap'].
  pose proof (try_send_spec (batch_message (now (g 0%nat)) b) (recv (g 0%nat) c)) as Hs.
  destruct (try_send _ _) as [c1 []]; [destruct Hs; congruence|destruct Hs; lia|].
  destruct Hs as [-> _]. cbn [p_stats p_closed].
  etrans; [exact (IH (g ∘ S) (recv (g 0%nat) c) (S n) Hcl' Hcap')|lia].
Qed.

Lemma sum_batch_len (size : nat) pkts :
  (0 < size)%nat ->
  sumZ (batch_len <$> imap pair (proto_batches size pkts)) = Z.of_nat (length pkts).
Proof.
  intros Hs. rewrite <- (proto_batches_concat size pkts Hs) at 2.
  generalize (proto_batches size pkts). intros bs. revert bs.
  assert (Hg : forall (g : nat -> nat) bs, sumZ (batch_len <$> imap (fun i b => (g i, b)) bs) =
                      Z.of_nat (length (concat (packets <$> bs)))).
  { intros g bs. revert g. induction bs as [|b bs IH]; intros g; [done|].
    rewrite imap_cons, !fmap_cons. unfold sumZ. cbn [foldr concat].
    rewrite length_app, Nat2Z.inj_add, <- (IH (g ∘ S)). done. }
  intros bs. apply (Hg (fun i => i)).
Qed.

(** ** Theorems *)

(** C7: packets go to the right validators.  A subscriber is targeted exactly
    when it is connected and either every subscriber is ([forward_all]) or it
    leads one of the slots of the window; any other subscriber keeps its
    channel and its statistics, and is not disconnected. *)
Theorem forward_spares_others rpb lat now recv subs leaders (m : @RelayerMetrics Hist) ofac alt
    size fwd_all sw k :
  forward_packets (Some rpb) lat now recv subs leaders m ofac alt size fwd_all = Ok sw ->
  ~ (is_Some (subs !! k) /\ (fwd_all = true \/ k ∈ leaders)) ->
  sw_subs sw !! k = subs !! k /\
  packet_stats_per_validator (sw_metrics sw) !! k = packet_stats_per_validator m !! k /\
  k ∉ sw_failed sw.
Proof.
  intros [_ Hp]%(fun H => forward_packets_peer _ _ _ _ _ _ _ _ _ _ _ _ k H) Hnt. cbn in Hp.
  rewrite <- elem_of_targets in Hnt. rewrite decide_False in Hp by done.
  unfold peer_of in Hp. injection Hp as Hc Hs Hf. split_and!; [done|done|].
  by apply count_occ_notin.
Qed.

(** C6: a targeted validator that keeps up receives everything.  If its
    channel is open and has room for the batches, then after the call the
    channel holds, behind what was queued, one message per batch, in order;
    the batches are non-empty, no longer than the configured size, and
    together are exactly the admitted packets in the order received. *)
Theorem forward_delivers rpb lat now subs leaders (m : @RelayerMetrics Hist) ofac alt size fwd_all
    sw k c :
  let batches := proto_batches size (admitted_packets ofac alt (rpb_batch rpb)) in
  forward_packets (Some rpb) lat now (fun _ _ c => c) subs leaders m ofac alt size fwd_all = Ok sw ->
  subs !! k = Some c -> (fwd_all = true \/ k ∈ leaders) ->
  rx_closed c = false -> (length (queued c) + length batches <= max_capacity c)%nat ->
  (exists c', sw_subs sw !! k = Some c' /\
     queued c' = queued c ++ imap (fun i b => batch_message (now i k) b) batches) /\
  (k ∉ sw_failed sw) /\
  Forall (fun b => (0 < length (packets b) <= size)%nat) batches /\
  concat (packets <$> batches) = admitted_packets ofac alt (rpb_batch rpb).
Proof.
  intros batches Hf Hc Ht Hcl Hcap.
  destruct (forward_packets_peer _ _ _ _ _ _ _ _ _ _ _ _ k Hf) as [Hsize Hp]. cbn in Hp.
  rewrite decide_True in Hp by (apply elem_of_targets; eauto). rewrite Hc in Hp.
  destruct (deliver_room (fun i => now i k) (fun i => i) batches c
    (packet_stats_per_validator m !! k) 0 Hcl Hcap) as (c' & st' & Hd & Hq).
  unfold deliver in Hd. assert (Hp' := eq_trans Hp Hd). unfold peer_of in Hp'.
  injection Hp' as Hch _ Hfl. split_and!.
  - eauto.
  - by apply count_occ_notin.
  - by apply proto_batches_bounds.
  - by apply proto_batches_concat.
Qed.

(** Every packet is accounted for.  Whatever the validator does to its
    channel meanwhile, if the channel was never found closed then the packets
    counted as forwarded or dropped for it grow by exactly the number of
    admitted packets. *)
Theorem forward_accounts rpb lat now recv subs leaders (m : @RelayerMetrics Hist) ofac alt size
    fwd_all sw k :
  forward_packets (Some rpb) lat now recv subs leaders m ofac alt size fwd_all = Ok sw ->
  is_Some (subs !! k) -> (fwd_all = true \/ k ∈ leaders) -> k ∉ sw_failed sw ->
  stats_nonneg (packet_stats_per_validator m !! k) ->
  stat_total (packet_stats_per_validator m !! k) +
    Z.of_nat (length (admitted_packets ofac alt (rpb_batch rpb))) <= u64_max ->
  stat_total (packet_stats_per_validator (sw_metrics sw) !! k) =
  stat_total (packet_stats_per_validator m !! k) +
    Z.of_nat (length (admitted_packets ofac alt (rpb_batch rpb))).
Proof.
  intros Hf Hc Ht Hfl Hnn Hmax.
  destruct (forward_packets_peer _ _ _ _ _ _ _ _ _ _ _ _ k Hf) as [Hsize Hp]. cbn in Hp.
  rewrite decide_True in Hp by (apply elem_of_targets; eauto).
  apply count_occ_notin in Hfl. rewrite <- (sum_batch_len size) in * by done.
  pose proof (deliver_total (fun i => now i k) (fun i => recv i k)
    (imap pair (proto_batches size (admitted_packets ofac alt (rpb_batch rpb))))
    {| p_chan := subs !! k; p_stats := packet_stats_per_validator m !! k; p_closed := 0 |}) as Hd.
  unfold deliver in Hd. rewrite <- Hp in Hd. cbn in Hd. apply Hd; done.
Qed.

(** C23: a validator that hung up is disconnected, but counted once per batch.
    When the channel of a targeted validator is closed, its key is reported
    once for every batch of the call, so [drop_connections] removes one
    connection and adds the number of batches to [num_removed_connections]. *)
Theorem forward_disconnects_closed rpb lat now recv subs leaders (m : @RelayerMetrics Hist) ofac
    alt size fwd_all sw k c :
  forward_packets (Some rpb) lat now recv subs leaders m ofac alt size fwd_all = Ok sw ->
  subs !! k = Some c -> (fwd_all = true \/ k ∈ leaders) ->
  (forall i c, rx_closed c = true -> (length (queued c) < max_capacity c)%nat ->
     rx_closed (recv i k c) = true /\ (length (queued (recv i k c)) < max_capacity (recv i k c))%nat) ->
  rx_closed c = true -> (length (queued c) < max_capacity c)%nat ->
  admitted_packets ofac alt (rpb_batch rpb) <> [] ->
  count_occ (fun a b => decide (a = b)) (sw_failed sw) k =
    length (proto_batches size (admitted_packets ofac alt (rpb_batch rpb))) /\
  (drop_connections (sw_failed sw) (sw_subs sw) (sw_metrics sw)).1 !! k = None /\
  (length (proto_batches size (admitted_packets ofac alt (rpb_batch rpb))) <= length (sw_failed sw))%nat /\
  num_removed_connections (drop_connections (sw_failed sw) (sw_subs sw) (sw_metrics sw)).2 =
    u64_add (num_removed_connections (sw_metrics sw)) (Z.of_nat (length (sw_failed sw))).
Proof.
  intros Hf Hc Ht Hrecv Hcl Hcap Hne.
  destruct (forward_packets_peer _ _ _ _ _ _ _ _ _ _ _ _ k Hf) as [Hsize Hp]. cbn in Hp.
  rewrite decide_True in Hp by (apply elem_of_targets; eauto). rewrite Hc in Hp.
  apply (f_equal p_closed) in Hp. cbn in Hp.
  pose proof (deliver_closed (fun i => now i k) (fun i => i) (fun i => recv i k)
    (proto_batches size (admitted_packets ofac alt (rpb_batch rpb))) c
    (packet_stats_per_validator m !! k) 0 Hrecv Hcl Hcap) as Hd.
  unfold deliver in Hd. assert (Hcount := eq_trans Hp Hd). cbn in Hcount.
  split_and!; [exact Hcount| |by rewrite <- Hcount; apply count_occ_bound|done].
  cbn. apply drop_lookup.
  destruct (decide (k ∈ sw_failed sw)) as [|Hin%count_occ_notin]; [done|exfalso].
  rewrite Hcount in Hin. unfold proto_batches in Hin.
  rewrite length_fmap in Hin.
  rewrite chunks_unfold in Hin by done. done.
Qed.

End forward.

(** ** Witnesses: three validators, one of them gone, two batches *)

Definition demo_subs : gmap Pubkey (queue response) :=
  {[ [1] := mk_queue [] 10 false; [2] := mk_queue [] 10 true; [3] := mk_queue [] 10 false ]}.
Definition demo_metrics : @RelayerMetrics (list Z) := metrics_new 100 100 10000.
Definition demo_packets : RelayerPacketBatches :=
  {| rpb_stamp := 0;
     rpb_batch := [[ref_packet [5; 6] 0; ref_packet [5] 1]; [ref_packet [6] 0; ref_packet [9] 0;
                    ref_packet [7] 0]] |}.
Definition demo_now : nat -> Pubkey -> Z := fun i _ => 1000 + Z.of_nat i.
Definition demo_sweep : sweep :=
  match forward_packets (Some demo_packets) 7 demo_now (fun _ _ c => c) demo_subs {[ [1]; [2] ]}
          demo_metrics {[ [9] ]} ∅ 2 false with
  | Ok sw => sw
  | _ => {| sw_subs := ∅; sw_metrics := demo_metrics; sw_failed := [] |}
  end.

(** Of the five packets one is discarded and one is on the OFAC list. *)
Example demo_admitted : map pp_data (admitted_packets {[ [9] ]} ∅ (rpb_batch demo_packets)) = [[5; 6]; [6]; [7]].
Proof. vm_compute. reflexivity. Qed.

Example demo_failed : sw_failed demo_sweep = [ [2]; [2] ].
Proof. vm_compute. reflexivity. Qed.

Lemma demo_forward :
  forward_packets (Some demo_packets) 7 demo_now (fun _ _ c => c) demo_subs {[ [1]; [2] ]}
    demo_metrics {[ [9] ]} ∅ 2 false = Ok demo_sweep.
Proof. vm_compute. reflexivity. Qed.

Lemma forward_spares_others_witness :
  sw_subs demo_sweep !! [3] = demo_subs !! [3].
Proof.
  refine (proj1 (forward_spares_others demo_packets 7 demo_now (fun _ _ c => c) demo_subs
    {[ [1]; [2] ]} demo_metrics {[ [9] ]} ∅ 2 false demo_sweep [3] demo_forward _)).
  intros [_ [Hf|Hin]]; [done|]. revert Hin.
  apply (bool_decide_unpack _). vm_compute. exact I.
Defined.

Lemma forward_delivers_witness :
  concat (packets <$> proto_batches 2 (admitted_packets {[ [9] ]} ∅ (rpb_batch demo_packets))) =
  admitted_packets {[ [9] ]} ∅ (rpb_batch demo_packets).
Proof.
  refine (proj2 (proj2 (proj2 (forward_delivers demo_packets 7 demo_now demo_subs {[ [1]; [2] ]}
    demo_metrics {[ [9] ]} ∅ 2 false demo_sweep [1] (mk_queue [] 10 false) demo_forward _ _ _ _))));
    [vm_compute; reflexivity| |vm_compute; reflexivity|vm_compute; lia].
  right. apply (bool_decide_unpack _). vm_compute. exact I.
Defined.

Lemma forward_accounts_witness :
  stat_total (packet_stats_per_validator (sw_metrics demo_sweep) !! [1]) =
  stat_total (packet_stats_per_validator demo_metrics !! [1]) +
    Z.of_nat (length (admitted_packets {[ [9] ]} ∅ (rpb_batch demo_packets))).
Proof.
  refine (forward_accounts demo_packets 7 demo_now (fun _ _ c => c) demo_subs {[ [1]; [2] ]}
    demo_metrics {[ [9] ]} ∅ 2 false demo_sweep [1] demo_forward _ _ _ _ _).
  - by exists (mk_queue [] 10 false).
  - right. apply (bool_decide_unpack _). vm_compute. exact I.
  - apply (bool_decide_unpack _). vm_compute. exact I.
  - exact I.
  - vm_compute. discriminate.
Defined.

Lemma forward_disconnects_closed_witness :
  count_occ (fun a b => decide (a = b)) (sw_failed demo_sweep) [2] = 2%nat.
Proof.
  refine (proj1 (forward_disconnects_closed demo_packets 7 demo_now (fun _ _ c => c) demo_subs
    {[ [1]; [2] ]} demo_metrics {[ [9] ]} ∅ 2 false demo_sweep [2] (mk_queue [] 10 true)
    demo_forward _ _ _ _ _ _)).
  - vm_compute. reflexivity.
  - right. apply (bool_decide_unpack _). vm_compute. exact I.
  - intros i c Hc Hl. done.
  - reflexivity.
  - cbn. lia.
  - vm_compute. discriminate.
Defined.
