(* ===== verification/RelayerLoop.v ===== *)
(** * The event loop and the gRPC handlers of the relayer

    Invariants of every reachable state of the event loop of [Relayer], the
    behaviour of each arm, and the handlers validators call. *)

From Stdlib Require Import ZArith Lia String.
From stdpp Require Import base gmap strings list.
From S2P Require Import Prelude Interfaces Convert Ofac Schedule Health Relayer Reference.

Section loop.
Context {C : Type -> Type} `{MP : Mpsc C}.
Context {Hist : Type} `{HI : Histogram Hist}.
Context `{IT : !HashIter Pubkey}.
Context `{PA : PacketApi} `{TI : Text IpAddr}.
Context `{ML : !MpscLaws C} `{IL : !HashIterLaws Pubkey}.

(** ** Reachable states *)

(** What a validator can do to its channel: read from the front, and hang up. *)
Definition receiver_step (c c' : C response) : Prop :=
  (exists read, queued c = read ++ queued c') /\ max_capacity c' = max_capacity c /\
  (rx_closed c = true -> rx_closed c' = true).

Definition readings_ok (rd : readings) : Prop :=
  forall i k c, receiver_step c (rd_recv rd i k c).

(** Subscriptions come from [subscribe_packets], with an empty channel. *)
Definition event_ok (ev : loop_event) : Prop :=
  match ev with
  | SubscriptionEvent (Some (ValidatorPacketSubscription _ sender)) =>
      queued sender = [] /\ max_capacity sender = SUBSCRIBER_QUEUE_CAPACITY
  | _ => True
  end.

Inductive reachable (cfg : loop_config) : loop_state (C := C) (Hist := Hist) -> Prop :=
| reach_init : reachable cfg (loop_init cfg)
| reach_iteration rd ev s s' :
    reachable cfg s -> readings_ok rd -> event_ok ev ->
    loop_iteration cfg rd ev s = Ok s' -> reachable cfg s'
| reach_receiver (k : Pubkey) c c' s :
    reachable cfg s -> packet_subscriptions s !! k = Some c -> receiver_step c c' ->
    reachable cfg (s <| packet_subscriptions ::= insert k c' |>).

Lemma run_reachable cfg inputs s s' :
  reachable cfg s -> Forall (fun '(_, rd, ev) => readings_ok rd /\ event_ok ev) inputs ->
  run_event_loop cfg inputs s = Ok s' -> reachable cfg s'.
Proof.
  intros Hr Hok. revert s Hr. induction Hok as [|[[exit rd] ev] inputs [Hrd Hev] _ IH]; intros s Hr.
  { by intros [= <-]. }
  cbn. destruct exit; [by intros [= <-]|].
  intros (t & Ht & Hrun)%bind_Ok_inv. eapply IH; [|exact Hrun]. by eapply reach_iteration.
Qed.

(** ** What may be queued for a validator *)

(** A packet that is not discarded and, when there is an OFAC list, is a
    transaction whose static keys avoid it. *)
Definition packet_ok (ofac : gset Pubkey) (pp : ProtoPacket) : Prop :=
  exists p, packet_to_proto_packet p = Some pp /\ discard p = false /\
    (ofac <> ∅ -> exists tx, deserialize_tx p = Some tx /\
       forall k, k ∈ ofac -> k ∉ static_account_keys (message tx)).
Definition message_ok (cfg : loop_config) (r : response) : Prop :=
  (exists n, r = heartbeat_message n) \/
  (exists t b, r = batch_message t b /\
     (0 < length (packets b) <= validator_packet_batch_size cfg)%nat /\
     Forall (packet_ok (ofac_addresses cfg)) (packets b)).
Definition chan_ok (cfg : loop_config) (c : C response) : Prop :=
  Forall (message_ok cfg) (queued c) /\ (length (queued c) <= max_capacity c)%nat /\
  max_capacity c = SUBSCRIBER_QUEUE_CAPACITY.
Definition subs_ok (cfg : loop_config) (subs : gmap Pubkey (C response)) : Prop :=
  map_Forall (fun _ c => chan_ok cfg c) subs.

(** ** Preservation *)

Lemma receiver_step_ok cfg c c' : chan_ok cfg c -> receiver_step c c' -> chan_ok cfg c'.
Proof.
  intros (Hm & Hl & Hc) ((read & Hq) & Hcap & _). rewrite Hq in Hm, Hl.
  rewrite length_app in Hl. apply Forall_app in Hm as [_ Hm]. split_and!; [done|lia|congruence].
Qed.

Lemma try_send_ok cfg m c : message_ok cfg m -> chan_ok cfg c -> chan_ok cfg (try_send m c).1.
Proof.
  intros Hm (Hq & Hl & Hc). pose proof (try_send_spec m c) as Hs.
  destruct (try_send m c) as [c' []]; cbn.
  - destruct Hs as (_ & Hlt & Hq' & Hcap & _). unfold chan_ok. rewrite Hq', Hcap, length_app.
    cbn. split_and!; [|lia|done]. apply Forall_app. by split; [|constructor].
  - by destruct Hs as [-> _].
  - by destruct Hs as [-> _].
Qed.

Lemma send_one_ok cfg now recv i b (sw : sweep (C := C) (Hist := Hist)) k :
  (forall i k c, receiver_step c (recv i k c)) -> (forall t, message_ok cfg (batch_message t b)) ->
  subs_ok cfg (sw_subs sw) -> subs_ok cfg (sw_subs (send_one now recv i b sw k)).
Proof.
  intros Hr Hb Hs. unfold send_one. destruct (sw_subs sw !! k) as [c|] eqn:E; [|done].
  assert (Hc : chan_ok cfg (try_send (batch_message (now i k) b) (recv i k c)).1).
  { apply try_send_ok; [done|]. eapply receiver_step_ok; [|apply Hr]. by apply (Hs k). }
  unfold batch_message in Hc. destruct (try_send _ _) as [c' []]; cbn; by apply map_Forall_insert_2.
Qed.

Lemma heartbeat_one_ok cfg n recv (sw : sweep (C := C) (Hist := Hist)) k :
  (forall k c, receiver_step c (recv k c)) ->
  subs_ok cfg (sw_subs sw) -> subs_ok cfg (sw_subs (heartbeat_one n recv sw k)).
Proof.
  intros Hr Hs. unfold heartbeat_one. destruct (sw_subs sw !! k) as [c|] eqn:E; [|done].
  assert (Hc : chan_ok cfg (try_send (heartbeat_message n) (recv k c)).1).
  { apply try_send_ok; [by left; exists n|]. eapply receiver_step_ok; [|apply Hr]. by apply (Hs k). }
  unfold heartbeat_message in Hc. destruct (try_send _ _) as [c' []]; cbn; by apply map_Forall_insert_2.
Qed.

Lemma admitted_packets_ok ofac alt batches : Forall (packet_ok ofac) (admitted_packets ofac alt batches).
Proof.
  apply Forall_forall. intros pp Hpp. unfold admitted_packets in Hpp.
  rewrite list_elem_of_In, in_flat_map in Hpp. destruct Hpp as (batch & _ & Hpp).
  rewrite <- list_elem_of_In in Hpp. apply list_elem_of_omap in Hpp as (p & Hp & Hpp).
  apply list_elem_of_omap in Hp as (p' & Hp' & Hadm).
  rewrite list_elem_of_In, filter_In in Hp'. destruct Hp' as [_ Hd%negb_true_iff].
  unfold admit_packet in Hadm. case_bool_decide as Ho; simplify_eq/=.
  { exists p. split_and!; [done|done|done]. }
  destruct (deserialize_tx p') as [tx|] eqn:Htx; [|done]. cbn in Hadm.
  destruct (is_tx_ofac_related tx ofac alt) eqn:Hof; simplify_eq/=.
  exists p. split_and!; [done|done|]. intros _. exists tx. split; [done|]. intros k Hk Hs.
  apply not_true_iff_false in Hof. apply Hof, ofac_related_iff. exists k. split; [done|].
  by apply mentions_static.
Qed.

Lemma proto_batches_ok cfg alt batches i b :
  (0 < validator_packet_batch_size cfg)%nat ->
  (i, b) ∈ imap pair (proto_batches (validator_packet_batch_size cfg)
                        (admitted_packets (ofac_addresses cfg) alt batches)) ->
  forall t, message_ok cfg (batch_message t b).
Proof.
  intros Hs (j & b' & Heq & Hb)%elem_of_lookup_imap t. simplify_eq. right. exists t, b'.
  pose proof (proto_batches_bounds _ (admitted_packets (ofac_addresses cfg) alt batches) Hs) as Hbd.
  pose proof (proto_batches_concat _ (admitted_packets (ofac_addresses cfg) alt batches) Hs) as Hcc.
  pose proof (admitted_packets_ok (ofac_addresses cfg) alt batches) as Hok. rewrite <- Hcc in Hok.
  split_and!; [done|by rewrite Forall_lookup in Hbd; apply (Hbd j)|by rewrite Forall_lookup in Hbd; apply (Hbd j)|].
  apply Forall_forall. intros pp Hpp. rewrite Forall_forall in Hok. apply Hok.
  rewrite list_elem_of_In, in_concat. exists (packets b'). rewrite <- !list_elem_of_In.
  split; [|done]. apply list_elem_of_fmap. exists b'. split; [done|].
  by apply list_elem_of_lookup_2 with j.
Qed.

Lemma forward_packets_ok cfg rd mpb s sw :
  readings_ok rd -> subs_ok cfg (packet_subscriptions s) ->
  forward_packets mpb (rd_packet_latency_us rd) (rd_now rd) (rd_recv rd) (packet_subscriptions s)
    (slot_leaders s) (relayer_metrics (Hist := Hist) s) (ofac_addresses cfg) (rd_alt rd)
    (validator_packet_batch_size cfg) (cfg_forward_all cfg) = Ok sw ->
  subs_ok cfg (sw_subs sw).
Proof.
  intros Hrd Hs. unfold forward_packets. destruct mpb as [rpb|]; cbn; [|done].
  destruct (Nat.eqb_spec (validator_packet_batch_size cfg) 0) as [|Hne]; cbn; [done|].
  intros [= <-]. apply foldl_inv; [done|]. intros sw [i b] Hib Hsw. cbn.
  destruct (packets b) eqn:Eb; [done|]. apply foldl_inv; [done|]. intros sw' k _ Hsw'.
  apply send_one_ok; [done| |done]. by eapply proto_batches_ok; [lia|].
Qed.

Lemma drop_connections_ok cfg ks subs (m : @RelayerMetrics Hist) :
  subs_ok cfg subs -> subs_ok cfg (drop_connections ks subs m).1.
Proof.
  intros Hs. cbn. apply (foldl_inv (subs_ok cfg)); [done|]. intros s k _ Hs'.
  by apply map_Forall_delete.
Qed.

Lemma loop_arm_ok cfg rd ev s s' :
  readings_ok rd -> event_ok ev -> subs_ok cfg (packet_subscriptions s) ->
  loop_arm cfg rd ev s = Ok s' -> subs_ok cfg (packet_subscriptions s').
Proof.
  intros Hrd Hev Hs. destruct ev as [[slot|]|mpb|[[pk sender]|]|lat|lat]; cbn -[drop_connections]; try done.
  - by intros [= <-].
  - destruct (forward_packets _ _ _ _ _ _ _ _ _ _ _) as [sw|e|] eqn:E; cbn -[drop_connections]; try done.
    destruct (drop_connections _ _ _) as [subs m] eqn:Ed. intros [= <-]. cbn.
    replace subs with (drop_connections (sw_failed sw) (sw_subs sw) (sw_metrics sw)).1 by (by rewrite Ed).
    apply drop_connections_ok. by eapply forward_packets_ok.
  - intros [= <-]. cbn. apply map_Forall_insert_2; [|done]. destruct Hev as [Hq Hc].
    unfold chan_ok. rewrite Hq, Hc. split_and!; [constructor|cbn; lia|done].
  - destruct (drop_connections _ _ _) as [subs m] eqn:Ed. intros [= <-]. cbn.
    match type of Ed with drop_connections ?ks ?sb ?mm = _ =>
      replace subs with (drop_connections ks sb mm).1 by (by rewrite Ed) end.
    apply drop_connections_ok. destruct (rd_health rd); [done|].
    unfold handle_heartbeat. cbn. apply foldl_inv; [done|]. intros sw k _ Hsw.
    apply heartbeat_one_ok; [|done]. intros k' c. apply Hrd.
  - by intros [= <-].
Qed.

(** C1: in every reachable state of the event loop, whatever validators,
    timers and other threads do, each message queued for a validator is a
    heartbeat or a batch of at least one and at most the configured number of
    packets, every packet of it non-discarded and, when an OFAC list is
    configured, free of listed static keys; and no queue exceeds its capacity. *)
Theorem queued_messages_ok cfg s k c :
  reachable cfg s -> packet_subscriptions s !! k = Some c -> chan_ok cfg c.
Proof.
  intros Hr. revert k c. change (subs_ok cfg (packet_subscriptions s)).
  induction Hr as [|rd ev s s' _ IH Hrd Hev Hstep|k c c' s _ IH Hk Hstep].
  - apply map_Forall_empty.
  - apply bind_Ok_inv in Hstep as (s1 & Harm & [= <-]). cbn. by eapply loop_arm_ok.
  - cbn. apply map_Forall_insert_2; [|done]. eapply receiver_step_ok; [by apply (IH k)|done].
Qed.

(** What a heartbeat of a healthy relayer leaves of one subscriber. *)
Lemma heartbeat_view cfg rd lat (s s' : loop_state (C := C) (Hist := Hist)) k :
  rd_health rd = Healthy -> loop_arm cfg rd (HeartbeatTick lat) s = Ok s' ->
  packet_subscriptions s' !! k =
  c ← packet_subscriptions s !! k;
  match try_send (heartbeat_message (num_heartbeats (relayer_metrics s))) (rd_recv rd 0 k c) with
  | (_, Closed) => None
  | (c', _) => Some c'
  end.
Proof.
  intros Hh Harm. cbn -[drop_connections] in Harm. rewrite Hh in Harm. injection Harm as <-. cbn.
  rewrite drop_lookup_gen. set (m := match lat with Some l => _ | None => _ end).
  pose proof (handle_heartbeat_peer (rd_recv rd 0) (packet_subscriptions s) m k) as Hp.
  assert (Hn : num_heartbeats m = num_heartbeats (relayer_metrics s)) by (by destruct lat).
  rewrite Hn in Hp. unfold peer_heartbeat in Hp. cbn [p_chan p_stats p_closed] in Hp.
  pose proof (f_equal p_closed Hp) as Hcl. pose proof (f_equal p_chan Hp) as Hch.
  cbn [peer_of p_closed p_chan] in Hcl, Hch.
  destruct (packet_subscriptions s !! k) as [c|] eqn:E; cbn [mbind option_bind].
  - destruct (try_send _ _) as [c' []]; cbn in Hcl, Hch.
    + rewrite decide_False by (by apply count_occ_notin). done.
    + rewrite decide_False by (by apply count_occ_notin). done.
    + rewrite decide_True; [done|]. apply dec_stable. intros Hn'%count_occ_notin. congruence.
  - cbn in Hcl, Hch. rewrite decide_False by (by apply count_occ_notin). done.
Qed.


(** A new slot selects the right leaders: after it, the validators packets
    go to are exactly those the schedule gives one of the slots from the new
    slot on, for the configured lookahead (as long as the window stays below
    the largest slot number), and connections are untouched. *)
Theorem slot_event_leaders cfg rd slot (s s' : loop_state (C := C) (Hist := Hist)) k :
  0 <= slot -> 0 <= slot_lookahead cfg -> slot + slot_lookahead cfg <= u64_max ->
  loop_iteration cfg rd (SlotEvent (Some slot)) s = Ok s' ->
  (k ∈ slot_leaders s' <->
   exists x, slot <= x < slot + slot_lookahead cfg /\ rd_schedule rd !! x = Some k) /\
  packet_subscriptions s' = packet_subscriptions s /\ highest_slot s' = slot.
Proof.
  intros H0 Hl Hmax [= <-]. cbn. split; [|done]. rewrite elem_of_leaders.
  unfold slot_window. rewrite u64_add_small by lia.
  setoid_rewrite elem_of_seqZ. split; intros (x & Hx & ?); exists x; (split; [lia|done]).
Qed.

(** C26: subscribing.  A healthy relayer that finds the caller's key registers
    a fresh, empty channel of the fixed capacity for it; an unhealthy one, or a
    request without a key, is refused.  When the event loop handles the
    subscription it replaces any previous connection of that validator, touches
    no other one, and counts a new connection only when there was none. *)
Theorem subscribe_spec health ext send_ok sub cfg rd (s s' : loop_state (C := C) (Hist := Hist)) :
  subscribe_packets health ext send_ok = Ok sub ->
  loop_iteration cfg rd (SubscriptionEvent (Some sub)) s = Ok s' ->
  exists pk c, health = Healthy /\ ext = Some pk /\ sub = ValidatorPacketSubscription pk c /\
    event_ok (SubscriptionEvent (Some sub)) /\ rx_closed c = false /\
    packet_subscriptions s' = <[pk := c]> (packet_subscriptions s) /\
    num_added_connections (relayer_metrics s') =
      match packet_subscriptions s !! pk with
      | None => u64_add (num_added_connections (relayer_metrics s)) 1
      | Some _ => num_added_connections (relayer_metrics s)
      end.
Proof.
  unfold subscribe_packets, check_health. case_bool_decide as Hh; cbn; [|done].
  destruct ext as [pk|]; cbn; [|done]. destruct send_ok; cbn; [|done]. intros [= <-] [= <-].
  assert (Hcap : (0 < SUBSCRIBER_QUEUE_CAPACITY)%nat)
    by (unfold SUBSCRIBER_QUEUE_CAPACITY; apply Nat.ltb_lt; vm_compute; reflexivity).
  destruct (channel_spec (M := response) SUBSCRIBER_QUEUE_CAPACITY Hcap) as (Hq & Hm & Hc).
  exists pk, (channel SUBSCRIBER_QUEUE_CAPACITY). cbn. split_and!; try done.
  by destruct (packet_subscriptions s !! pk).
Qed.

End loop.

(** ** The TPU address handed to validators *)

Section tpu_configs.
Context `{TI : Text IpAddr}.

(** [n] successive calls of [get_tpu_configs]. *)
Fixpoint tpu_calls (n : nat) (r : RelayerImpl) : result Status (list GetTpuConfigsResponse) :=
  match n with
  | O => Ok []
  | S n => '(x, r) ← get_tpu_configs r; xs ← tpu_calls n r; Ok (x :: xs)
  end.
Definition tpu_port (x : GetTpuConfigsResponse) : option Z := sock_port <$> tpu x.

Lemma advertised_port_lookup ports n :
  ports <> [] -> 0 <= n ->
  exists p, ports !! Z.to_nat (n mod Z.of_nat (length ports)) = Some p /\
    advertised_port ports n = Ok (u16 (p - 6)).
Proof.
  intros Hne Hn. unfold advertised_port.
  assert (0 < Z.of_nat (length ports)) by (destruct ports; [done|cbn; lia]).
  pose proof (Z.mod_pos_bound n (Z.of_nat (length ports))) as Hb.
  destruct (lookup_lt_is_Some_2 ports (Z.to_nat (n mod Z.of_nat (length ports)))) as [p Hp]; [lia|].
  exists p. split; [done|]. destruct (Nat.eqb_spec (length ports) 0); [lia|]. cbn. by rewrite Hp.
Qed.

Lemma tpu_calls_ports n r :
  tpu_quic_ports r <> [] -> tpu_fwd_quic_ports r <> [] -> 0 <= seq r -> seq r + Z.of_nat n <= 2 ^ 64 ->
  exists xs, tpu_calls n r = Ok xs /\
    forall i, (i < n)%nat -> xs !! i ≫= tpu_port =
      (fun p => u16 (p - 6)) <$>
        tpu_quic_ports r !! Z.to_nat ((seq r + Z.of_nat i) mod Z.of_nat (length (tpu_quic_ports r))).
Proof.
  revert r. induction n as [|n IH]; intros r Hp Hf H0 Hw.
  { exists []. split; [done|]. intros i Hi. lia. }
  cbn [tpu_calls]. unfold get_tpu_configs. cbn -[advertised_port u64_add].
  destruct (advertised_port_lookup (tpu_quic_ports r) (seq r)) as (p & Hlp & ->); [done|done|].
  destruct (advertised_port_lookup (tpu_fwd_quic_ports r) (seq r)) as (q & _ & ->); [done|done|].
  cbn -[u64_add].
  destruct (decide (n = 0%nat)) as [->|Hn].
  { eexists. split; [reflexivity|]. intros [|i] Hi; [|lia]. cbn. rewrite Z.add_0_r, Hlp. done. }
  destruct (IH (r <| seq := u64_add (seq r) 1 |>)) as (xs & Hx & Hi);
    cbn -[u64_add] in *; rewrite ?u64_add_small in * by (unfold u64_max; lia); try done; try lia.
  rewrite Hx. eexists. split; [reflexivity|]. intros [|i] Hlt; cbn.
  - rewrite Z.add_0_r, Hlp. done.
  - rewrite Hi by lia. do 4 f_equal. lia.
Qed.

Lemma tpu_calls_length n r xs : tpu_calls n r = Ok xs -> length xs = n.
Proof.
  revert r xs. induction n as [|n IH]; intros r xs; cbn [tpu_calls]; [by intros [= <-]|].
  intros ([x r'] & _ & Hr)%bind_Ok_inv. apply bind_Ok_inv in Hr as (ys & Hy & [= <-]).
  cbn. f_equal. by eapply IH.
Qed.

(** The TPU ports are used in turn: any [n] successive requests, [n] being
    the number of TPU ports, are answered with each port exactly once, six
    below the port bound (on 16 bits); with no port at all a request panics. *)
Theorem tpu_configs_round_robin r :
  tpu_fwd_quic_ports r <> [] -> 0 <= seq r ->
  seq r + Z.of_nat (length (tpu_quic_ports r)) <= 2 ^ 64 ->
  match tpu_quic_ports r with
  | [] => get_tpu_configs r = Panic
  | ports => exists xs, tpu_calls (length ports) r = Ok xs /\
      omap tpu_port xs ≡ₚ (fun p => u16 (p - 6)) <$> ports
  end.
Proof.
  intros Hf H0 Hw. destruct (tpu_quic_ports r) as [|p ports] eqn:E.
  { unfold get_tpu_configs. cbn. by rewrite E. }
  destruct (tpu_calls_ports (length (p :: ports)) r) as (xs & Hx & Hi); try done; try congruence.
  exists xs. split; [done|]. rewrite E in Hi.
  set (ps := p :: ports) in *. set (adv := fun p => u16 (p - 6)) in *.
  assert (Hlen : length xs = length ps) by by eapply tpu_calls_length.
  assert (Hrot : tpu_port <$> xs = Some <$> (adv <$> rotate (Z.to_nat (seq r)) ps)).
  { apply list_eq. intros i. rewrite !list_lookup_fmap.
    destruct (decide (i < length ps)%nat) as [Hlt|Hge].
    - specialize (Hi i Hlt). rewrite lookup_rotate_r by done. unfold rotate_nat_add.
      rewrite Z2Nat.id by done.
      destruct (lookup_lt_is_Some_2 xs i) as [x Hxi]; [lia|]. rewrite Hxi in Hi |- *. cbn in Hi |- *.
      rewrite Hi. destruct (ps !! _) eqn:Ep; [done|]. exfalso.
      apply lookup_ge_None in Ep. revert Ep. apply Nat.lt_nge.
      pose proof (Z.mod_pos_bound (seq r + Z.of_nat i) (Z.of_nat (length ps)) ltac:(lia)).
      change (S (length ports)) with (length ps). lia.
    - rewrite (lookup_ge_None_2 xs) by lia. rewrite lookup_ge_None_2; [done|].
      rewrite length_rotate. lia. }
  assert (Hom : omap tpu_port xs = adv <$> rotate (Z.to_nat (seq r)) ps).
  { clear -Hrot. revert Hrot. generalize (adv <$> rotate (Z.to_nat (seq r)) ps).
    induction xs as [|x xs IH]; intros [|y l]; cbn; try done. intros [= -> Hl]. f_equal. by apply IH. }
  rewrite Hom. apply Permutation_map. unfold rotate. rewrite Permutation_app_comm. by rewrite take_drop.
Qed.

End tpu_configs.

(** ** Witnesses *)

Definition demo_cfg : loop_config := {|
  slot_lookahead := 5; ofac_addresses := {[ [9] ]}; validator_packet_batch_size := 2;
  cfg_forward_all := false; slot_capacity := 100; subscription_capacity := 100;
  delay_packet_capacity := 10000 |}.
Definition demo_rd (h : HealthState) : readings (C := queue) := {|
  rd_schedule := {[ 102 := [1]; 107 := [3] ]}; rd_alt := ∅; rd_health := h;
  rd_now := fun i _ => 1000 + Z.of_nat i; rd_recv := fun _ _ c => c; rd_packet_latency_us := 7;
  rd_elapsed_us := 3; rd_slot_len := 1; rd_subscription_len := 0; rd_delay_len := 2 |}.
Definition demo_sub (k : Pubkey) : loop_event (C := queue) :=
  SubscriptionEvent (Some (ValidatorPacketSubscription k (channel SUBSCRIBER_QUEUE_CAPACITY))).
Definition demo_pkts : loop_event (C := queue) :=
  PacketEvent (Some {| rpb_stamp := 0;
    rpb_batch := [[ref_packet [5; 6] 0; ref_packet [9] 0; ref_packet [7] 0; ref_packet [8] 0]] |}).
Definition demo_inputs : list (bool * readings * loop_event) :=
  (fun ev => (false, demo_rd Healthy, ev)) <$>
    [demo_sub [1]; demo_sub [3]; SlotEvent (Some 100); demo_pkts; HeartbeatTick (Some 4)].

(** Validator [1] leads slot 102 and gets the packets, [3] does not. *)
Definition demo_state : loop_state (C := queue) (Hist := list Z) :=
  match run_event_loop demo_cfg demo_inputs (loop_init demo_cfg) with
  | Ok s => s
  | _ => loop_init demo_cfg
  end.

Example demo_state_queues :
  (fun c => length (queued c)) <$> packet_subscriptions demo_state = {[ [1] := 3%nat; [3] := 1%nat ]}.
Proof. vm_compute. reflexivity. Qed.

Lemma demo_rd_ok h : readings_ok (demo_rd h).
Proof. intros i k c. cbn. split_and!; [by exists []|done|done]. Qed.

Lemma demo_reachable : reachable demo_cfg demo_state.
Proof.
  unfold demo_state.
  destruct (run_event_loop demo_cfg demo_inputs (loop_init demo_cfg)) as [s| |] eqn:E; try apply reach_init.
  eapply run_reachable; [apply reach_init| |exact E].
  repeat constructor; apply (demo_rd_ok Healthy).
Qed.

Definition demo_step (rd : readings) (ev : loop_event) : result RelayerError loop_state :=
  loop_iteration demo_cfg rd ev demo_state.
Definition is_ok {E A} (r : result E A) : bool := match r with Ok _ => true | _ => false end.

Lemma is_ok_inv {E A} (r : result E A) : is_ok r = true -> exists a, r = Ok a.
Proof. destruct r; try done. by eexists. Qed.

Lemma queued_messages_ok_witness :
  exists c, packet_subscriptions demo_state !! [1] = Some c /\ chan_ok demo_cfg c.
Proof.
  assert (Hs : bool_decide (is_Some (packet_subscriptions demo_state !! [1])) = true)
    by (vm_compute; reflexivity).
  apply bool_decide_eq_true in Hs as [c Hc]. exists c. split; [exact Hc|].
  exact (queued_messages_ok demo_cfg demo_state [1] c demo_reachable Hc).
Defined.


Lemma slot_event_leaders_witness :
  exists s', demo_step (demo_rd Healthy) (SlotEvent (Some 100)) = Ok s' /\ highest_slot s' = 100.
Proof.
  destruct (is_ok_inv (demo_step (demo_rd Healthy) (SlotEvent (Some 100)))) as [s' E];
    [vm_compute; reflexivity|].
  exists s'. split; [exact E|].
  refine (proj2 (proj2 (slot_event_leaders demo_cfg (demo_rd Healthy) 100 demo_state s' [1]
    _ _ _ E))); vm_compute; discriminate.
Defined.

Lemma subscribe_witness :
  exists s' c, demo_step (demo_rd Healthy) (demo_sub [4]) = Ok s' /\
    packet_subscriptions s' = <[[4] := c]> (packet_subscriptions demo_state).
Proof.
  destruct (is_ok_inv (demo_step (demo_rd Healthy) (demo_sub [4]))) as [s' E];
    [vm_compute; reflexivity|].
  exists s'. destruct (subscribe_spec Healthy (Some [4]) true _ demo_cfg (demo_rd Healthy) demo_state s'
    eq_refl E) as (pk & c & _ & [= <-] & _ & _ & _ & Hsubs & _). exists c. split; [exact E|exact Hsubs].
Defined.

Definition demo_impl : RelayerImpl := {|
  tpu_quic_ports := [11228; 11229; 11230]; tpu_fwd_quic_ports := [11300]; public_ip := V4 1 2 3 4;
  seq := 7 |}.

Lemma tpu_configs_round_robin_witness :
  exists xs, tpu_calls 3 demo_impl = Ok xs /\ omap tpu_port xs ≡ₚ [11222; 11223; 11224].
Proof.
  refine (tpu_configs_round_robin demo_impl _ _ _); [done|vm_compute; discriminate|vm_compute; discriminate].
Defined.
