(* ===== verification/RelayerReport.v ===== *)
(** * The data points of the relayer service

    What the event loop of [src/relayer/src/relayer.rs] writes to the metrics
    database: [RelayerMetrics::report], and the points of single events; the points
    of subscriptions and removals are a faithful log of the connections. *)

From Stdlib Require Import ZArith Lia String.
From stdpp Require Import base gmap strings list.
From S2P Require Import Prelude Interfaces Reference Convert Schedule Health Relayer RelayerForward RelayerLoop.

Section report.
Context {C : Type -> Type} `{MP : Mpsc C}.
Context {Hist : Type} `{HI : Histogram Hist}.
Context `{IT : !HashIter Pubkey}.
Context `{PA : PacketApi} `{TI : Text IpAddr}.

Abbreviation metrics := (RelayerMetrics (Hist := Hist)).
Abbreviation state := (loop_state (C := C) (Hist := Hist)).
Abbreviation PacketSubscriptions := (gmap Pubkey (C response)).

(** ** The data points *)

Inductive loop_point :=
| HighestSlot (slot : Z)
| NewSubscription (pubkey : Pubkey)
| DuplicateSubscription (pubkey : Pubkey)
| RemovedSubscription (pubkey : Pubkey)
| ValidatorMetrics (pubkey : Pubkey) (stats : PacketForwardStats)
| MetricsReport (m : metrics).

(** The fields of the ["relayer_metrics"] point, in its order. *)
Definition metric_fields (m : metrics) : list (string * FieldValue) := [
    i64_field "highest_slot" (m_highest_slot m);
    i64_field "num_added_connections" (num_added_connections m);
    i64_field "num_removed_connections" (num_removed_connections m);
    i64_field "num_current_connections" (num_current_connections m);
    i64_field "num_heartbeats" (num_heartbeats m);
    i64_field "num_try_send_channel_full" (num_try_send_channel_full m);
    i64_field "metrics_latency_us" (metrics_latency_us m);
    i64_field "max_heartbeat_tick_latency_us" (max_heartbeat_tick_latency_us m);
    i64_field "packet_latencies_us_min" (default 0 (hist_minimum (packet_latencies_us m)));
    i64_field "packet_latencies_us_max" (default 0 (hist_maximum (packet_latencies_us m)));
    i64_field "packet_latencies_us_p50" (default 0 (hist_percentile 50 (packet_latencies_us m)));
    i64_field "packet_latencies_us_p90" (default 0 (hist_percentile 90 (packet_latencies_us m)));
    i64_field "packet_latencies_us_p99" (default 0 (hist_percentile 99 (packet_latencies_us m)));
    i64_field "crossbeam_subscription_receiver_processing_us_p50" (default 0 (hist_percentile 50 (crossbeam_subscription_receiver_processing_us m)));
    i64_field "crossbeam_subscription_receiver_processing_us_p90" (default 0 (hist_percentile 90 (crossbeam_subscription_receiver_processing_us m)));
    i64_field "crossbeam_subscription_receiver_processing_us_p99" (default 0 (hist_percentile 99 (crossbeam_subscription_receiver_processing_us m)));
    i64_field "crossbeam_slot_receiver_processing_us_p50" (default 0 (hist_percentile 50 (crossbeam_slot_receiver_processing_us m)));
    i64_field "crossbeam_slot_receiver_processing_us_p90" (default 0 (hist_percentile 90 (crossbeam_slot_receiver_processing_us m)));
    i64_field "crossbeam_slot_receiver_processing_us_p99" (default 0 (hist_percentile 99 (crossbeam_slot_receiver_processing_us m)));
    i64_field "crossbeam_metrics_tick_processing_us_p50" (default 0 (hist_percentile 50 (crossbeam_metrics_tick_processing_us m)));
    i64_field "crossbeam_metrics_tick_processing_us_p90" (default 0 (hist_percentile 90 (crossbeam_metrics_tick_processing_us m)));
    i64_field "crossbeam_metrics_tick_processing_us_p99" (default 0 (hist_percentile 99 (crossbeam_metrics_tick_processing_us m)));
    i64_field "crossbeam_delay_packet_receiver_processing_us_p50" (default 0 (hist_percentile 50 (crossbeam_delay_packet_receiver_processing_us m)));
    i64_field "crossbeam_delay_packet_receiver_processing_us_p90" (default 0 (hist_percentile 90 (crossbeam_delay_packet_receiver_processing_us m)));
    i64_field "crossbeam_delay_packet_receiver_processing_us_p99" (default 0 (hist_percentile 99 (crossbeam_delay_packet_receiver_processing_us m)));
    i64_field "crossbeam_heartbeat_tick_processing_us_p50" (default 0 (hist_percentile 50 (crossbeam_heartbeat_tick_processing_us m)));
    i64_field "crossbeam_heartbeat_tick_processing_us_p90" (default 0 (hist_percentile 90 (crossbeam_heartbeat_tick_processing_us m)));
    i64_field "crossbeam_heartbeat_tick_processing_us_p99" (default 0 (hist_percentile 99 (crossbeam_heartbeat_tick_processing_us m)));
    i64_field "slot_receiver_len" (slot_receiver_max_len m);
    i64_field "slot_receiver_capacity" (slot_receiver_capacity m);
    i64_field "subscription_receiver_len" (subscription_receiver_max_len m);
    i64_field "subscription_receiver_capacity" (subscription_receiver_capacity m);
    i64_field "delay_packet_receiver_len" (delay_packet_receiver_max_len m);
    i64_field "delay_packet_receiver_capacity" (delay_packet_receiver_capacity m);
    i64_field "packet_subscriptions_total_queued" (packet_subscriptions_total_queued m)
  ]%string.

Definition render `{TP : Text Pubkey} (p : loop_point) : Datapoint :=
  match p with
  | HighestSlot slot => {| dp_name := "relayer-highest_slot"; dp_tags := []; dp_fields := [i64_field "slot" slot] |}
  | NewSubscription k => {| dp_name := "relayer_new_subscription"; dp_tags := [];
                            dp_fields := [("pubkey"%string, Str (to_string k))] |}
  | DuplicateSubscription k => {| dp_name := "relayer_duplicate_subscription"; dp_tags := [];
                                  dp_fields := [("pubkey"%string, Str (to_string k))] |}
  | RemovedSubscription k => {| dp_name := "relayer_removed_subscription"; dp_tags := [];
                                dp_fields := [("pubkey"%string, Str (to_string k))] |}
  | ValidatorMetrics k stats =>
      {| dp_name := "relayer_validator_metrics"; dp_tags := [("pubkey"%string, to_string k)];
         dp_fields := [i64_field "num_packets_forwarded" (num_packets_forwarded stats);
                       i64_field "num_packets_dropped" (num_packets_dropped stats)] |}
  | MetricsReport m => {| dp_name := "relayer_metrics"; dp_tags := []; dp_fields := metric_fields m |}
  end.

(** [RelayerMetrics::report] *)
Definition report (m : metrics) : list loop_point :=
  ((fun kv => ValidatorMetrics kv.1 kv.2) <$> map_iter (packet_stats_per_validator m)) ++ [MetricsReport m].

(** The points of [drop_connections]: one per key that is still connected when
    its turn comes. *)
Fixpoint drop_points (disconnected_pubkeys : list Pubkey) (subs : PacketSubscriptions) : list loop_point :=
  match disconnected_pubkeys with
  | [] => []
  | disconnected :: rest =>
      match subs !! disconnected with
      | Some _ => RemovedSubscription disconnected :: drop_points rest (delete disconnected subs)
      | None => drop_points rest subs
      end
  end.

(** The points of one iteration of the event loop. *)
Definition loop_points (cfg : loop_config) (rd : readings (C := C)) (ev : loop_event (C := C)) (s : state) : list loop_point :=
  match ev with
  | SlotEvent (Some slot) => [HighestSlot slot]
  | PacketEvent maybe_packet_batches =>
      match forward_packets maybe_packet_batches (rd_packet_latency_us rd) (rd_now rd) (rd_recv rd)
             (packet_subscriptions s) (slot_leaders s) (relayer_metrics s) (ofac_addresses cfg)
             (rd_alt rd) (validator_packet_batch_size cfg) (cfg_forward_all cfg) with
      | Ok sw => drop_points (sw_failed sw) (sw_subs sw)
      | _ => []
      end
  | SubscriptionEvent (Some (ValidatorPacketSubscription pubkey _)) =>
      match packet_subscriptions s !! pubkey with
      | None => [NewSubscription pubkey]
      | Some _ => [DuplicateSubscription pubkey]
      end
  | HeartbeatTick latency_us =>
      let m := match latency_us with
               | Some l => (relayer_metrics s) <| max_heartbeat_tick_latency_us ::= fun x => Z.max x l |>
               | None => relayer_metrics s
               end in
      match rd_health rd with
      | Healthy => let sw := handle_heartbeat (rd_recv rd 0%nat) (packet_subscriptions s) m in
                   drop_points (sw_failed sw) (sw_subs sw)
      | Unhealthy => drop_points (map_iter (packet_subscriptions s)).*1 (packet_subscriptions s)
      end
  | MetricsTick latency_us => report (reported_metrics rd latency_us s)
  | _ => []
  end.

(** The points of a run, up to its end or its first failure. *)
Fixpoint run_points (cfg : loop_config) (inputs : list (bool * readings (C := C) * loop_event (C := C))) (s : state)
    : list loop_point :=
  match inputs with
  | [] => []
  | (exit, rd, ev) :: inputs =>
      if exit : bool then []
      else match loop_iteration cfg rd ev s with
           | Ok s' => loop_points cfg rd ev s ++ run_points cfg inputs s'
           | _ => []
           end
  end.

(** ** The log of connections

    An observer of the points knows who is connected: [conn_step] is what a
    point says, with the conditions under which it may appear. *)

Inductive conn_step : gset Pubkey -> loop_point -> gset Pubkey -> Prop :=
| conn_new k s : k ∉ s -> conn_step s (NewSubscription k) ({[k]} ∪ s)
| conn_duplicate k s : k ∈ s -> conn_step s (DuplicateSubscription k) s
| conn_removed k s : k ∈ s -> conn_step s (RemovedSubscription k) (s ∖ {[k]})
| conn_slot slot s : conn_step s (HighestSlot slot) s
| conn_validator k st s : conn_step s (ValidatorMetrics k st) s
| conn_report m s : conn_step s (MetricsReport m) s.
Inductive conn_run : gset Pubkey -> list loop_point -> gset Pubkey -> Prop :=
| conn_run_nil s : conn_run s [] s
| conn_run_cons s p s1 ps s2 : conn_step s p s1 -> conn_run s1 ps s2 -> conn_run s (p :: ps) s2.
#[local] Hint Constructors conn_step conn_run : relayer.

Lemma conn_run_app s ps s1 qs s2 : conn_run s ps s1 -> conn_run s1 qs s2 -> conn_run s (ps ++ qs) s2.
Proof. induction 1; cbn; eauto with relayer. Qed.

Lemma drop_points_run ks subs :
  conn_run (dom subs) (drop_points ks subs) (dom (foldl (fun s k => delete k s) subs ks)).
Proof.
  revert subs. induction ks as [|k ks IH]; intros subs; cbn; [constructor|].
  destruct (subs !! k) as [c|] eqn:E.
  - econstructor; [constructor; by apply elem_of_dom_2 in E|]. specialize (IH (delete k subs)).
    by rewrite dom_delete_L in IH.
  - rewrite delete_id by done. apply IH.
Qed.

Lemma report_run s (m : metrics) : conn_run s (report m) s.
Proof.
  unfold report. apply conn_run_app with s; [|eauto with relayer].
  induction (map_iter _) as [|kv l IH]; cbn; eauto with relayer.
Qed.

(** Sends replace channels but neither add nor remove connections. *)
Lemma send_one_dom now recv i b (sw : sweep (C := C) (Hist := Hist)) k :
  dom (sw_subs (send_one now recv i b sw k)) = dom (sw_subs sw).
Proof.
  unfold send_one. destruct (sw_subs sw !! k) as [c|] eqn:E; [|done].
  destruct (try_send _ _) as [c' []]; cbn; rewrite dom_insert_L; apply elem_of_dom_2 in E; set_solver.
Qed.
Lemma heartbeat_one_dom n recv (sw : sweep (C := C) (Hist := Hist)) k :
  dom (sw_subs (heartbeat_one n recv sw k)) = dom (sw_subs sw).
Proof.
  unfold heartbeat_one. destruct (sw_subs sw !! k) as [c|] eqn:E; [|done].
  destruct (try_send _ _) as [c' []]; cbn; rewrite dom_insert_L; apply elem_of_dom_2 in E; set_solver.
Qed.
Lemma send_batch_dom now recv senders (sw : sweep (C := C) (Hist := Hist)) ib :
  dom (sw_subs (send_batch now recv senders sw ib)) = dom (sw_subs sw).
Proof.
  destruct ib as [i b]. cbn. destruct (packets b); [done|].
  apply (foldl_inv (fun t => dom (sw_subs t) = dom (sw_subs sw))); [done|].
  intros t k _ <-. apply send_one_dom.
Qed.
Lemma forward_packets_dom mpb lat now recv subs leaders (m : metrics) ofac alt size fwd_all sw :
  forward_packets mpb lat now recv subs leaders m ofac alt size fwd_all = Ok sw ->
  dom (sw_subs sw) = dom subs.
Proof.
  unfold forward_packets. destruct mpb; [|done]. cbn. destruct (size =? 0)%nat; [done|]. intros [= <-].
  apply (foldl_inv (fun t => dom (sw_subs t) = dom subs)); [done|].
  intros t ib _ <-. apply send_batch_dom.
Qed.
Lemma handle_heartbeat_dom recv subs (m : metrics) : dom (sw_subs (handle_heartbeat recv subs m)) = dom subs.
Proof.
  cbn. apply (foldl_inv (fun t => dom (sw_subs t) = dom subs)); [done|].
  intros t k _ <-. apply heartbeat_one_dom.
Qed.


Lemma iteration_points cfg rd ev (s s' : state) :
  loop_iteration cfg rd ev s = Ok s' ->
  conn_run (dom (packet_subscriptions s)) (loop_points cfg rd ev s) (dom (packet_subscriptions s')).
Proof.
  intros (s1 & Harm & [= <-])%bind_Ok_inv.
  change (conn_run (dom (packet_subscriptions s)) (loop_points cfg rd ev s) (dom (packet_subscriptions s1))).
  destruct ev as [[slot|]|mpb|[[pk sender]|]|lat|lat]; try done.
  - injection Harm as <-. cbn. eauto with relayer.
  - apply bind_Ok_inv in Harm as (sw & Hf & Harm). injection Harm as <-.
    cbn -[forward_packets]. rewrite Hf, <- (forward_packets_dom _ _ _ _ _ _ _ _ _ _ _ _ Hf).
    apply drop_points_run.
  - injection Harm as <-. cbn. rewrite dom_insert_L.
    destruct (packet_subscriptions s !! pk) as [c|] eqn:E.
    + apply elem_of_dom_2 in E. replace ({[pk]} ∪ dom (packet_subscriptions s)) with (dom (packet_subscriptions s)) by set_solver.
      eauto with relayer.
    + apply not_elem_of_dom in E. eauto with relayer.
  - cbn -[drop_connections handle_heartbeat] in *. destruct (rd_health rd); injection Harm as <-.
    + cbn. apply drop_points_run.
    + cbn -[handle_heartbeat]. set (sw := handle_heartbeat _ _ _).
      rewrite <- (handle_heartbeat_dom _ _ _ : dom (sw_subs sw) = _). apply drop_points_run.
  - injection Harm as <-. cbn -[report reported_metrics]. apply report_run.
Qed.

(** C19: the log of connections.  In every run the points written say who is
    connected: replayed from the start they are a valid log, in which a key is
    new only when it was not connected, and duplicated or removed only when it
    was, and they end in exactly the set of connected validators. *)
Theorem points_log_connections cfg inputs (s s' : state) :
  run_event_loop cfg inputs s = Ok s' ->
  conn_run (dom (packet_subscriptions s)) (run_points cfg inputs s) (dom (packet_subscriptions s')).
Proof.
  revert s. induction inputs as [|[[exit rd] ev] inputs IH]; intros s; cbn [run_event_loop run_points].
  { intros [= <-]. constructor. }
  destruct exit; [intros [= <-]; constructor|].
  intros (s1 & Hit & Hrun)%bind_Ok_inv. rewrite Hit.
  eapply conn_run_app; [by eapply iteration_points|by apply IH].
Qed.

End report.

(** ** Witnesses *)

(** A validator connects, connects again and is dropped when the relayer turns
    unhealthy. *)
Definition demo_life : list (bool * readings (C := queue) * loop_event) :=
  [(false, demo_rd Healthy, demo_sub [1]); (false, demo_rd Healthy, demo_sub [1]);
   (false, demo_rd Healthy, MetricsTick (Some 9)); (false, demo_rd Unhealthy, HeartbeatTick None)].
Definition demo_life_end : result RelayerError (loop_state (C := queue) (Hist := list Z)) :=
  run_event_loop demo_cfg demo_life (loop_init demo_cfg).

Example demo_life_points :
  match run_points demo_cfg demo_life (loop_init (C := queue) (Hist := list Z) demo_cfg) with
  | [NewSubscription k1; DuplicateSubscription k2; MetricsReport m; RemovedSubscription k3] =>
      k1 = [1] /\ k2 = [1] /\ k3 = [1] /\ length (metric_fields m) = 35%nat /\
      metric_fields m !! 3%nat = Some ("num_current_connections"%string, I64 1)
  | _ => False
  end.
Proof. vm_compute. by split_and!. Qed.

Lemma points_log_connections_witness :
  exists s, demo_life_end = Ok s /\
    conn_run (∅ : gset Pubkey) (run_points demo_cfg demo_life (loop_init (C := queue) (Hist := list Z) demo_cfg))
      (dom (packet_subscriptions s)).
Proof.
  destruct (is_ok_inv demo_life_end) as [s E]; [vm_compute; reflexivity|]. exists s. split; [exact E|].
  pose proof (points_log_connections demo_cfg demo_life (loop_init demo_cfg) s E) as H.
  cbn [packet_subscriptions loop_init] in H. rewrite dom_empty_L in H. exact H.
Defined.
