(* ===== verification/AuthInterceptor.v ===== *)
(** * Token authentication of gRPC requests

    [relayer/src/auth_interceptor.rs]: the claims of a token and their JSON
    form, the parsing of the [authorization] header, and the interceptor that
    puts the caller's public key into the extensions of a request. *)

From Stdlib Require Import ZArith Lia String Ascii.
From stdpp Require Import base gmap strings list.
From S2P Require Import Prelude Interfaces Reference.

(** ** Strings: [str::split] with a string pattern *)

Fixpoint strip_prefix (pat s : string) : option string :=
  match pat, s with
  | EmptyString, _ => Some s
  | String a pat, String b s => if Ascii.eqb a b then strip_prefix pat s else None
  | String _ _, EmptyString => None
  end.
Definition starts_with (pat s : string) : bool := bool_decide (is_Some (strip_prefix pat s)).

(** The pieces between the matches of [pat], taken from the left; the fuel is
    the length of the string, every step consuming a character or, the pattern
    being non-empty, a match. *)
Fixpoint split_fuel (fuel : nat) (pat s : string) : list string :=
  match fuel with
  | O => [s]
  | S fuel =>
      match strip_prefix pat s with
      | Some rest => EmptyString :: split_fuel fuel pat rest
      | None =>
          match s with
          | EmptyString => [EmptyString]
          | String c s =>
              match split_fuel fuel pat s with
              | [] => [String c EmptyString]
              | piece :: pieces => String c piece :: pieces
              end
          end
      end
  end.
Definition str_split (pat s : string) : list string := split_fuel (String.length s) pat s.

(** ** Claims *)

Record Claims := {
  client_ip : IpAddr;
  client_pubkey : Pubkey;
  claims_expires_at_utc : Z;
}.
Record DeSerClaims := {
  ser_client_ip : string;
  ser_client_pubkey : string;
  expires_at_unix_ts : Z;
}.
#[global] Instance DeSerClaims_eq_dec : EqDecision DeSerClaims.
Proof. solve_decision. Defined.

(** [Claims::is_expired], the clock showing [now]. *)
Definition claims_is_expired (now : Z) (c : Claims) : bool := claims_expires_at_utc c <=? now.

Section interceptor.
Context {VK SK : Type} `{Jw : Jwt SK VK DeSerClaims} `{Ch : Chrono} `{Md : MetadataApi}.
Context `{TI : !Text IpAddr} `{TP : !Text Pubkey}.

(** [impl From<&DeSerClaims> for Claims]: the three conversions are unwrapped. *)
Definition claims_of_ser {E} (d : DeSerClaims) : result E Claims :=
  ip ← unwrap (from_str (ser_client_ip d));
  pk ← unwrap (from_str (ser_client_pubkey d));
  t ← unwrap (from_timestamp (expires_at_unix_ts d));
  Ok {| client_ip := ip; client_pubkey := pk; claims_expires_at_utc := t |}.

(** [impl From<Claims> for DeSerClaims] *)
Definition ser_of_claims (c : Claims) : DeSerClaims := {|
  ser_client_ip := to_string (client_ip c);
  ser_client_pubkey := to_string (client_pubkey c);
  expires_at_unix_ts := timestamp (claims_expires_at_utc c) |}.

Record AuthInterceptor := {
  verifying_key : VK;
  expected_signing_algo : AlgorithmType;
}.

Definition AUTHORIZATION_HEADER : string := "authorization".
Definition BEARER : string := "Bearer ".

(** The part of a [tonic::Request] the interceptor sees: the metadata, and the
    [Pubkey] of the extensions. *)
Record Request := {
  metadata : MetadataMap;
  ext_pubkey : option Pubkey;
}.

Definition jwt_from_header (self : AuthInterceptor) (m : MetadataMap) :
    result Status (JwtHeader * DeSerClaims) :=
  match m !! AUTHORIZATION_HEADER with
  | Some auth_header =>
      auth_header ← ok_or (to_str auth_header)
        (status_invalid_argument "Failed to parse authorization header.");
      _ ← ensure (starts_with BEARER auth_header) (status_permission_denied
        "Invalid authorization header format. Must conform to `Authorization: Bearer ${token}`.");
      let split := str_split BEARER auth_header in
      _ ← ensure (Nat.eqb (length split) 2) (status_permission_denied "Missing jwt token.");
      jwt_token_text ← unwrap (split !! 1%nat);
      jwt_token ← ok_or (verify_with_key (verifying_key self) jwt_token_text)
        (status_permission_denied "Token failed verification.");
      _ ← assert_that (bool_decide (algorithm jwt_token.1 = expected_signing_algo self));
      Ok jwt_token
  | None => Err (status_permission_denied "The authorization header is missing.")
  end.

(** [Interceptor::call] *)
Definition call (self : AuthInterceptor) (req : Request) : result Status Request :=
  jwt_token ← jwt_from_header self (metadata req);
  claims ← claims_of_ser jwt_token.2;
  Ok {| metadata := metadata req; ext_pubkey := Some (client_pubkey claims) |}.

(** ** The authorization header *)

Lemma append_cons a p r : (String a p ++ r)%string = String a (p ++ r).
Proof. done. Qed.

Lemma append_nil r : (EmptyString ++ r)%string = r.
Proof. done. Qed.

Lemma append_length p r : String.length (p ++ r) = (String.length p + String.length r)%nat.
Proof. induction p; rewrite ?append_nil, ?append_cons; cbn; lia. Qed.

Lemma strip_prefix_Some pat s r : strip_prefix pat s = Some r <-> s = (pat ++ r)%string.
Proof.
  revert s. induction pat as [|a pat IH]; intros [|b s]; rewrite ?append_nil, ?append_cons; cbn;
    try (split; congruence).
  destruct (Ascii.eqb_spec a b) as [->|Hn]; [rewrite IH|]; split; congruence.
Qed.

Lemma split_fuel_enough pat s f g :
  pat <> EmptyString -> (String.length s <= f)%nat -> (String.length s <= g)%nat ->
  split_fuel f pat s = split_fuel g pat s.
Proof.
  intros Hp. assert (Hempty : forall f, split_fuel f pat EmptyString = [EmptyString]).
  { intros [|f']; [done|]. cbn. by destruct pat. }
  revert s g. induction f as [|f IH]; intros s g Hf Hg.
  { destruct s; [by rewrite !Hempty|cbn in Hf; lia]. }
  destruct g as [|g]; [destruct s; [by rewrite !Hempty|cbn in Hg; lia]|].
  cbn. destruct (strip_prefix pat s) as [r|] eqn:Hr.
  - apply strip_prefix_Some in Hr as ->.
    rewrite append_length in Hf, Hg. destruct pat; [done|]. cbn in Hf, Hg. f_equal. apply IH; lia.
  - destruct s; [done|]. cbn in Hf, Hg. rewrite (IH s g) by lia. done.
Qed.

Lemma split_cons pat s : pat <> EmptyString -> str_split pat (pat ++ s) = EmptyString :: str_split pat s.
Proof.
  intros Hp. unfold str_split. destruct pat as [|a pat]; [done|].
  change (String.length (String a pat ++ s)) with (S (String.length (pat ++ s))). cbn [split_fuel].
  rewrite (proj2 (strip_prefix_Some (String a pat) _ s)) by done. f_equal.
  apply split_fuel_enough; [done| |done]. rewrite append_length. lia.
Qed.

Lemma split_fuel_one fuel pat s t : split_fuel fuel pat s = [t] -> t = s.
Proof.
  revert s t. induction fuel as [|fuel IH]; intros s t; cbn; [by intros [= ->]|].
  destruct (strip_prefix pat s) as [r|]; [by destruct fuel as [|?]; cbn; repeat case_match|].
  destruct s as [|c s]; [by intros [= ->]|].
  destruct (split_fuel fuel pat s) as [|p ps] eqn:E; [destruct fuel; cbn in E; repeat case_match; done|].
  intros [= <- ->]. f_equal. by apply IH.
Qed.

Lemma split_no_space fuel s :
  Forall (fun a => a <> " "%char) (String.list_ascii_of_string s) -> split_fuel fuel BEARER s = [s].
Proof.
  revert s. induction fuel as [|fuel IH]; intros s Hs; [done|]. cbn [split_fuel].
  destruct (strip_prefix BEARER s) as [r|] eqn:Hr.
  { apply strip_prefix_Some in Hr as ->. cbn in Hs. repeat (apply Forall_cons in Hs as [? Hs]). done. }
  destruct s as [|c s]; [done|]. cbn in Hs. apply Forall_cons in Hs as [_ Hs]. by rewrite IH.
Qed.

(** The header the parser accepts: [Bearer ] once, at the start. *)
Lemma bearer_split h :
  starts_with BEARER h = true /\ length (str_split BEARER h) = 2%nat <->
  exists t, h = (BEARER ++ t)%string /\ str_split BEARER t = [t] /\ str_split BEARER h = [EmptyString; t].
Proof.
  unfold starts_with. rewrite bool_decide_eq_true. split.
  - intros [[t Ht] Hl]. apply strip_prefix_Some in Ht as ->. exists t. split; [done|].
    rewrite split_cons in Hl |- * by done. cbn in Hl.
    destruct (str_split BEARER t) as [|u [|]] eqn:E; try done.
    by rewrite (split_fuel_one _ _ _ _ E).
  - intros (t & -> & _ & Hs). rewrite Hs. split; [|done]. exists t. by apply strip_prefix_Some.
Qed.

Lemma jwt_from_header_Ok self m x :
  jwt_from_header self m = Ok x <->
  exists b t, m !! AUTHORIZATION_HEADER = Some b /\ to_str b = Some (BEARER ++ t)%string /\
    str_split BEARER t = [t] /\ verify_with_key (verifying_key self) t = Some x /\
    algorithm x.1 = expected_signing_algo self.
Proof.
  unfold jwt_from_header. split.
  - destruct (m !! _) as [b|]; [|done].
    intros (h & Hh%ok_or_Ok & H)%bind_Ok_inv.
    apply bind_Ok_inv in H as (? & Hp%ensure_Ok & H). apply bind_Ok_inv in H as (? & Hl%ensure_Ok & H).
    apply Nat.eqb_eq in Hl. destruct (proj1 (bearer_split h) (conj Hp Hl)) as (t & -> & Ht & Hs).
    rewrite Hs in H. cbn in H. apply bind_Ok_inv in H as (y & Hv%ok_or_Ok & H).
    unfold assert_that in H. case_bool_decide as Ha; [|done]. injection H as <-. eauto 10.
  - intros (b & t & -> & -> & Ht & Hv & Ha).
    assert (Hs : str_split BEARER (BEARER ++ t) = [EmptyString; t]) by (by rewrite split_cons, Ht).
    destruct (proj2 (bearer_split (BEARER ++ t))) as [Hp Hl]; [eauto|].
    cbn -[starts_with str_split BEARER].
    rewrite Hp. cbn -[str_split BEARER]. rewrite Hl, Hs. cbn.
    rewrite Hv. cbn. by rewrite bool_decide_eq_true_2.
Qed.

(** ** Claims *)

Lemma claims_of_ser_Ok {E} d c :
  claims_of_ser (E := E) d = Ok c <->
  from_str (ser_client_ip d) = Some (client_ip c) /\
  from_str (ser_client_pubkey d) = Some (client_pubkey c) /\
  from_timestamp (expires_at_unix_ts d) = Some (claims_expires_at_utc c).
Proof.
  unfold claims_of_ser, unwrap. split.
  - intros (ip & Hi & H)%bind_Ok_inv. apply bind_Ok_inv in H as (pk & Hp & H).
    apply bind_Ok_inv in H as (t & Ht & [= <-]). cbn.
    repeat case_match; simplify_eq; done.
  - destruct c. cbn. by intros (-> & -> & ->).
Qed.

Lemma claims_of_ser_ser {E} {ChL : ChronoLaws} `{!TextLaws IpAddr (fun _ => True)} `{!TextLaws Pubkey pubkey_wf} c :
  pubkey_wf (client_pubkey c) -> date_ok (claims_expires_at_utc c) = true ->
  claims_of_ser (E := E) (ser_of_claims c) =
    Ok {| client_ip := client_ip c; client_pubkey := client_pubkey c;
          claims_expires_at_utc := timestamp (claims_expires_at_utc c) * NANOS |}.
Proof.
  intros Hw Hd. unfold claims_of_ser. cbn. rewrite (from_to_string (client_ip c)) by done. cbn.
  rewrite (from_to_string (client_pubkey c)) by done. cbn. unfold from_timestamp.
  enough (date_ok (timestamp (claims_expires_at_utc c) * NANOS) = true) as -> by done.
  unfold date_ok, timestamp in *. set (t := claims_expires_at_utc c) in *.
  apply andb_true_iff in Hd as [H1%Z.leb_le H2%Z.leb_le].
  pose proof (Z.div_mod t NANOS ltac:(done)). pose proof (Z.mod_pos_bound t NANOS ltac:(done)).
  pose proof (Z.div_mod MIN_UTC NANOS ltac:(done)) as Hm. rewrite min_utc_whole in Hm.
  pose proof (Z.div_le_mono MIN_UTC t NANOS ltac:(done) H1).
  apply andb_true_iff. rewrite !Z.leb_le. unfold NANOS in *. lia.
Qed.

Section tokens.
Context {ChL : ChronoLaws} `{!TextLaws IpAddr (fun _ => True)} `{!TextLaws Pubkey pubkey_wf}.
Context (sk : SK) (self : AuthInterceptor) {KP : JwtKeyPair SK VK DeSerClaims sk (verifying_key self)}.

(** C31: an accepted request carries, after a single [Bearer ], a token made
    with the service's signing key and the expected algorithm; the interceptor
    only adds the public key written in that token. *)
Theorem interceptor_sound req req' :
  call self req = Ok req' ->
  exists b t h d pk,
    metadata req !! AUTHORIZATION_HEADER = Some b /\ to_str b = Some (BEARER ++ t)%string /\
    sign_with_key sk h d = Some t /\ algorithm h = expected_signing_algo self /\
    from_str (ser_client_pubkey d) = Some pk /\
    req' = {| metadata := metadata req; ext_pubkey := Some pk |}.
Proof.
  intros ([h d] & (b & t & Hm & Hb & _ & Hv & Ha)%jwt_from_header_Ok & H)%bind_Ok_inv.
  apply bind_Ok_inv in H as (c & Hc & [= <-]). cbn in *.
  apply claims_of_ser_Ok in Hc as (_ & Hpk & _).
  exists b, t, h, d, (client_pubkey c). split_and!; try done. by apply verify_unforged.
Qed.

(** C32: a token the service signs for some claims is accepted as a bearer
    token whatever the time, and identifies the public key of the claims; the
    claims read back from it differ only in the expiry, cut to a whole second. *)
Theorem interceptor_accepts_issued c t b req :
  expected_signing_algo self = Rs256 -> pubkey_wf (client_pubkey c) ->
  date_ok (claims_expires_at_utc c) = true ->
  sign_with_key sk {| algorithm := Rs256 |} (ser_of_claims c) = Some t ->
  to_str b = Some (BEARER ++ t)%string -> metadata req !! AUTHORIZATION_HEADER = Some b ->
  call self req = Ok {| metadata := metadata req; ext_pubkey := Some (client_pubkey c) |} /\
  exists c', claims_of_ser (E := Status) (ser_of_claims c) = Ok c' /\
    client_ip c' = client_ip c /\ client_pubkey c' = client_pubkey c /\
    claims_expires_at_utc c' <= claims_expires_at_utc c < claims_expires_at_utc c' + NANOS.
Proof.
  intros Ha Hw Hd Hs Hb Hm. pose proof (claims_of_ser_ser (E := Status) c Hw Hd) as Hc. split.
  - unfold call. rewrite (proj2 (jwt_from_header_Ok self (metadata req) ({| algorithm := Rs256 |}, ser_of_claims c))).
    + cbn [mbind result_bind snd]. rewrite Hc. done.
    + exists b, t. split_and!; try done.
      * apply split_no_space. by eapply token_no_space.
      * by apply verify_signed.
  - eexists. split; [exact Hc|]. cbn. split_and!; try done; unfold timestamp;
      pose proof (Z.div_mod (claims_expires_at_utc c) NANOS ltac:(done));
      pose proof (Z.mod_pos_bound (claims_expires_at_utc c) NANOS ltac:(done)); lia.
Qed.

End tokens.
End interceptor.
Arguments AuthInterceptor : clear implicits.

(** ** Witnesses *)

Definition demo_key : Pubkey := replicate 32 7.
#[export] Program Instance DeSerClaims_countable : Countable DeSerClaims :=
  inj_countable (fun d => (ser_client_ip d, ser_client_pubkey d, expires_at_unix_ts d))
    (fun '(a, b, c) => Some {| ser_client_ip := a; ser_client_pubkey := b; expires_at_unix_ts := c |}) _.
Next Obligation. by intros []. Qed.

Definition demo_claims : Claims :=
  {| client_ip := V4 10 0 0 1; client_pubkey := demo_key; claims_expires_at_utc := 1700000000123456789 |}.
Definition demo_interceptor : AuthInterceptor Z := {| verifying_key := 42; expected_signing_algo := Rs256 |}.
Definition demo_token : string := ref_token 42 {| algorithm := Rs256 |} (ser_of_claims demo_claims).
Definition demo_header : list Z := ref_bytes (BEARER ++ demo_token).
Definition demo_req : Request := {| metadata := {[ AUTHORIZATION_HEADER := demo_header ]}; ext_pubkey := None |}.

Lemma interceptor_accepts_issued_witness :
  call demo_interceptor demo_req = Ok {| metadata := metadata demo_req; ext_pubkey := Some demo_key |}.
Proof.
  refine (proj1 (interceptor_accepts_issued 42 demo_interceptor demo_claims demo_token demo_header demo_req
    _ _ _ _ _ _)); vm_compute; reflexivity.
Defined.

Lemma interceptor_sound_witness :
  exists b, metadata demo_req !! AUTHORIZATION_HEADER = Some b.
Proof.
  destruct (interceptor_sound 42 demo_interceptor demo_req
    {| metadata := metadata demo_req; ext_pubkey := Some demo_key |}) as (b & _ & _ & _ & _ & Hb & _);
    [vm_compute; reflexivity|]. exists b. exact Hb.
Defined.
