(* ===== verification/AuthChallenges.v ===== *)
(** * Pending authentication challenges

    [relayer/src/auth_challenges.rs]: a priority queue with at most one
    challenge per address, the one that expires first being at the front, and
    the sweep that drops the expired ones. *)

From Stdlib Require Import ZArith Lia String.
From stdpp Require Import base gmap strings list fin_maps.
From S2P Require Import Prelude Interfaces Reference AuthInterceptor.

Record AuthChallenge := {
  challenge : string;
  access_claims : Claims;
  refresh_claims : Claims;
  expires_at_utc : Z;
}.

(** [AuthChallenge::is_expired], the clock showing [now]. *)
Definition is_expired (now : Z) (c : AuthChallenge) : bool := expires_at_utc c <=? now.

(** [Ord for AuthChallenge] compares the expiries; the queue holds
    [Reverse<AuthChallenge>], so its order is the opposite one. *)
Definition challenge_leb (a b : AuthChallenge) : bool := expires_at_utc a <=? expires_at_utc b.
Definition reverse_leb (a b : AuthChallenge) : bool := challenge_leb b a.

Section challenges.
Context {Q : Type} {PQ : KeyedPQ Q IpAddr AuthChallenge}.

(** [AuthChallenges::default] and the operations on the locked queue. *)
Definition challenges_new : Q := pq_empty.
Definition push (ip : IpAddr) (c : AuthChallenge) (q : Q) : Q := pq_push ip c q.
Definition len (q : Q) : nat := pq_len q.
Definition get_priority (ip : IpAddr) (q : Q) : option AuthChallenge := pq_get_priority ip q.
Definition remove (ip : IpAddr) (q : Q) : Q := pq_remove ip q.

(** The loop of [remove_all_expired]; [now i] is the clock at the [i]-th test.
    Every turn but the last pops an entry, so the length is enough fuel.  The
    second component counts the entries popped. *)
Fixpoint remove_loop (fuel : nat) (now : nat -> Z) (i : nat) (q : Q) : Q * nat :=
  match fuel with
  | O => (q, i)
  | S fuel =>
      match pq_peek q with
      | Some (_, c) => if is_expired (now i) c then remove_loop fuel now (S i) (pq_pop q) else (q, i)
      | None => (q, i)
      end
  end.
Definition remove_all_expired (now : nat -> Z) (q : Q) : Q := (remove_loop (len q) now 0 q).1.

Context {contents : Q -> gmap IpAddr AuthChallenge}.
Context {PQL : KeyedPQLaws Q IpAddr AuthChallenge reverse_leb contents}.

Definition still_valid (t : Z) (m : gmap IpAddr AuthChallenge) : gmap IpAddr AuthChallenge :=
  filter (fun kv => is_expired t kv.2 = false) m.

Lemma remove_loop_spec fuel now i q :
  (forall j k, (j <= k)%nat -> now j <= now k) -> (size (contents q) <= fuel)%nat ->
  let r := remove_loop fuel now i q in
  (i <= r.2 <= i + size (contents q))%nat /\ contents r.1 = still_valid (now r.2) (contents q).
Proof.
  intros Hmono. revert i q. induction fuel as [|fuel IH]; intros i q Hs; cbn.
  { assert (contents q = ∅) as E by (apply map_size_empty_inv; lia). rewrite E. cbn.
    unfold still_valid. rewrite map_filter_empty, map_size_empty. split; [lia|done]. }
  destruct (pq_peek q) as [[ip c]|] eqn:Hp; cbn.
  2: { apply pq_peek_None in Hp. rewrite Hp. unfold still_valid.
       rewrite map_filter_empty, map_size_empty. split; [lia|done]. }
  pose proof (pq_peek_Some q ip c Hp) as [Hl Hmax].
  destruct (is_expired (now i) c) eqn:He; cbn.
  - pose proof (pq_pop_spec q ip c Hp) as Hpop.
    assert (Hsz : size (contents q) = S (size (contents (pq_pop q)))).
    { rewrite Hpop. rewrite <- (insert_delete_id _ _ _ Hl) at 1.
      apply map_size_insert_None, lookup_delete_eq. }
    destruct (IH (S i) (pq_pop q)) as [Hr Hc]; [lia|]. split; [lia|].
    rewrite Hc, Hpop. unfold still_valid. apply map_eq. intros k.
    rewrite !map_lookup_filter. destruct (decide (k = ip)) as [->|Hne]; [|by rewrite lookup_delete_ne].
    rewrite lookup_delete_eq, Hl. cbn. rewrite option_guard_False; [done|].
    unfold is_expired in *. apply Z.leb_le in He.
    pose proof (Hmono i (remove_loop fuel now (S i) (pq_pop q)).2 ltac:(lia)).
    rewrite Z.leb_gt. lia.
  - split; [lia|]. symmetry. apply map_filter_id. intros k d Hk. cbn.
    specialize (Hmax _ _ Hk). unfold reverse_leb, challenge_leb, is_expired in *.
    apply Z.leb_gt in He. apply Z.leb_le in Hmax. apply Z.leb_gt. lia.
Qed.

(** C34: the sweep keeps exactly the challenges that are not expired at its last
    clock reading, although it only ever looks at the front of the queue. *)
Theorem remove_all_expired_exact now q :
  (forall j k, (j <= k)%nat -> now j <= now k) ->
  exists n, (n <= size (contents q))%nat /\
    forall ip, get_priority ip (remove_all_expired now q) =
      match get_priority ip q with
      | Some c => if is_expired (now n) c then None else Some c
      | None => None
      end.
Proof.
  intros Hmono. unfold remove_all_expired, get_priority, len. rewrite pq_len_spec.
  destruct (remove_loop_spec (size (contents q)) now 0 q Hmono) as [Hn Hc]; [done|].
  eexists. split; [apply Hn|]. intros ip. rewrite !pq_get_priority_spec, Hc. unfold still_valid.
  rewrite map_lookup_filter. destruct (contents q !! ip) as [c|]; [|done]. cbn.
  destruct (is_expired _ c); [by rewrite option_guard_False|by rewrite option_guard_True].
Qed.

End challenges.

(** ** The reference queue *)

#[export] Instance ref_challenges : KeyedPQ (gmap IpAddr AuthChallenge) IpAddr AuthChallenge :=
  map_pq reverse_leb.
#[export] Instance ref_challenges_laws :
  KeyedPQLaws (gmap IpAddr AuthChallenge) IpAddr AuthChallenge reverse_leb id.
Proof.
  apply map_pq_laws; unfold reverse_leb, challenge_leb; intros *; rewrite ?Z.leb_le; lia.
Qed.

Definition mk_challenge (s : string) (c : Claims) (t : Z) : AuthChallenge :=
  {| challenge := s; access_claims := c; refresh_claims := c; expires_at_utc := t |}.
Definition demo_queue : gmap IpAddr AuthChallenge :=
  {[ V4 1 1 1 1 := mk_challenge "a" demo_claims 5; V4 2 2 2 2 := mk_challenge "b" demo_claims 9;
     V4 3 3 3 3 := mk_challenge "c" demo_claims 20 ]}.

Example demo_sweep : remove_all_expired (fun i => 7 + Z.of_nat i) demo_queue =
  {[ V4 2 2 2 2 := mk_challenge "b" demo_claims 9; V4 3 3 3 3 := mk_challenge "c" demo_claims 20 ]}.
Proof. vm_compute. reflexivity. Qed.

Lemma remove_all_expired_witness :
  exists n, (n <= 3)%nat /\ get_priority (V4 3 3 3 3) (remove_all_expired (fun i => 7 + Z.of_nat i) demo_queue) =
    (if is_expired (7 + Z.of_nat n) (mk_challenge "c" demo_claims 20) then None
     else Some (mk_challenge "c" demo_claims 20)).
Proof.
  destruct (remove_all_expired_exact (fun i => 7 + Z.of_nat i) demo_queue) as (n & Hn & H).
  - intros j k Hjk. lia.
  - exists n. split; [exact Hn|]. exact (H (V4 3 3 3 3)).
Defined.
