(* ===== verification/AuthService.v ===== *)
(** * The authentication service

    [relayer/src/auth_service.rs].  The gRPC handlers run concurrently and take
    the lock of the challenge queue once per operation, so another handler, or
    the expiration task, may run between two operations of one handler.  A
    handler is therefore a program ([prog]) whose steps are the operations that
    touch what is shared or vary over time: the queue, the clock, the health
    state, the validator set and the random generator. *)

From Stdlib Require Import ZArith Lia String Ascii.
From stdpp Require Import base gmap strings list fin_maps.
From S2P Require Import Prelude Interfaces Reference Health AuthInterceptor AuthChallenges.

(** ** Handlers as programs *)

Inductive auth_op : Type -> Type :=
| ChallengesLen : auth_op nat
| ChallengesGet (ip : IpAddr) : auth_op (option AuthChallenge)
| ChallengesPush (ip : IpAddr) (c : AuthChallenge) : auth_op ()
| ChallengesRemove (ip : IpAddr) : auth_op ()
| UtcNow : auth_op Z
| ReadHealth : auth_op HealthState
| IsAuthorized (pk : Pubkey) : auth_op bool
| SampleAlphanumeric : auth_op (nat -> ascii).

Inductive prog (A : Type) : Type :=
| Done (r : result Status A)
| Step {X : Type} (op : auth_op X) (k : X -> prog A).
Arguments Done {A} r.
Arguments Step {A X} op k.

Fixpoint prog_bind {A B} (f : A -> prog B) (p : prog A) : prog B :=
  match p with
  | Done (Ok a) => f a
  | Done (Err e) => Done (Err e)
  | Done Panic => Done Panic
  | Step op k => Step op (fun x => prog_bind f (k x))
  end.
#[global] Instance prog_mret : MRet prog := fun A a => Done (Ok a).
#[global] Instance prog_mbind : MBind prog := fun A B f p => prog_bind f p.
Definition perform {X} (op : auth_op X) : prog X := Step op (fun x => Done (Ok x)).
Definition lift {A} (r : result Status A) : prog A := Done r.
Definition fail {A} (s : Status) : prog A := Done (Err s).

(** ** Requests and responses *)

Record GenerateAuthChallengeRequest := { role : Z; req_pubkey : list Z }.
Record GenerateAuthTokensRequest := {
  req_challenge : string;
  req_client_pubkey : list Z;
  signed_challenge : list Z;
}.
(** [auth::Token]: the value and the seconds of the expiry. *)
Record PbToken := { token_value : string; token_expires_at : Z }.
Record GenerateAuthTokensResponse := { access_token : PbToken; refresh_token : PbToken }.

Definition AUTH_CHALLENGES_CAPACITY : nat := Z.to_nat 100000.

Section service.
Context {SK VK PK Sg : Type}.
Context `{Jw : Jwt SK VK DeSerClaims} `{Ed : Ed25519 PK Sg} `{Ch : Chrono} `{Pr : AuthProto}.
Context `{TI : !Text IpAddr} `{TP : !Text Pubkey}.

Record AuthServiceImpl := {
  signing_key : SK;
  svc_verifying_key : VK;
  access_token_ttl : Z;
  refresh_token_ttl : Z;
  challenge_ttl : Z;
}.

(** [AuthServiceImpl::new], the fields that the handlers read. *)
Definition auth_service_new (sk : SK) (vk : VK) (access refresh chall : Z) : result Status AuthServiceImpl :=
  access ← unwrap (duration_from_std access);
  refresh ← unwrap (duration_from_std refresh);
  chall ← unwrap (duration_from_std chall);
  Ok {| signing_key := sk; svc_verifying_key := vk; access_token_ttl := access;
        refresh_token_ttl := refresh; challenge_ttl := chall |}.

(** [client_ip]: [remote_addr] is the peer address of the connection. *)
Definition client_ip_of (remote_addr : option (IpAddr * Z)) : result Status IpAddr :=
  fst <$> ok_or remote_addr (status_internal "request is missing IP address").

Definition generate_challenge_token (sample : nat -> ascii) : string :=
  String.string_of_list_ascii (sample <$> List.seq 0 9).

Definition auth_check_health : prog () :=
  health ← perform ReadHealth;
  if bool_decide (health = Healthy) then mret () else fail (status_internal "relayer is unhealthy").

(** [Pubkey::try_from] on a byte vector. *)
Definition pubkey_try_from (b : list Z) : option Pubkey :=
  if decide (length b = PUBKEY_BYTES) then Some b else None.

(** What a fresh challenge is made of, once the request has passed the checks. *)
Definition new_challenge (self : AuthServiceImpl) (ip : IpAddr) (pubkey : Pubkey) (token : string) :
    prog AuthChallenge :=
  now_a ← perform UtcNow;
  access ← lift (date_add now_a (access_token_ttl self));
  now_r ← perform UtcNow;
  refresh ← lift (date_add now_r (refresh_token_ttl self));
  now_c ← perform UtcNow;
  expiry ← lift (date_add now_c (challenge_ttl self));
  mret {|
    challenge := token;
    access_claims := {| client_ip := ip; client_pubkey := pubkey; claims_expires_at_utc := access |};
    refresh_claims := {| client_ip := ip; client_pubkey := pubkey; claims_expires_at_utc := refresh |};
    expires_at_utc := expiry |}.

(** The second half of [generate_auth_challenge], when the address has no
    challenge that can be handed out again. *)
Definition create_challenge (self : AuthServiceImpl) (ip : IpAddr) (req : GenerateAuthChallengeRequest) :
    prog string :=
  if negb (role req =? ROLE_VALIDATOR) then fail (status_invalid_argument "Role must be validator.")
  else if negb (Nat.eqb (length (req_pubkey req)) PUBKEY_BYTES)
  then fail (status_invalid_argument "Pubkey must be 32 bytes in length")
  else
    pubkey ← lift (ok_or (pubkey_try_from (req_pubkey req)) (status_invalid_argument "Invalid pubkey supplied."));
    authorized ← perform (IsAuthorized pubkey);
    if negb authorized then fail (status_permission_denied
      "The supplied pubkey is not authorized to generate a challenge.")
    else
      sample ← perform SampleAlphanumeric;
      let token := generate_challenge_token sample in
      c ← new_challenge self ip pubkey token;
      _ ← perform (ChallengesPush ip c);
      mret token.

Definition generate_auth_challenge (self : AuthServiceImpl) (remote_addr : option (IpAddr * Z))
    (req : GenerateAuthChallengeRequest) : prog string :=
  _ ← auth_check_health;
  n ← perform ChallengesLen;
  if Nat.leb AUTH_CHALLENGES_CAPACITY n then fail (status_resource_exhausted "System overloaded.")
  else
    ip ← lift (client_ip_of remote_addr);
    existing ← perform (ChallengesGet ip);
    match existing with
    | Some c =>
        now ← perform UtcNow;
        if negb (is_expired now c) then mret (challenge c) else create_challenge self ip req
    | None => create_challenge self ip req
    end.

(** [Token::new(header, claims).sign_with_key(..)] *)
Definition sign_claims (self : AuthServiceImpl) (c : Claims) (e : string) : result Status string :=
  ok_or (sign_with_key (signing_key self) {| algorithm := Rs256 |} (ser_of_claims c)) (status_internal e).

(** The message a client signs. *)
Definition expected_challenge (pubkey : Pubkey) (c : string) : string :=
  (to_string pubkey ++ "-" ++ c)%string.

(** The checks of [generate_auth_tokens] against the pending challenge [c], and
    the two tokens it signs. *)
Definition check_and_sign (self : AuthServiceImpl) (client_pubkey : PK) (c : AuthChallenge)
    (req : GenerateAuthTokensRequest) : result Status GenerateAuthTokensResponse :=
  let solana_pubkey := pk_to_bytes client_pubkey in
  _ ← ensure (bool_decide (AuthInterceptor.client_pubkey (access_claims c) = solana_pubkey))
    (status_permission_denied
      "The pubkey provided does not match the pubkey that generated the challenge.");
  let expected := expected_challenge solana_pubkey (challenge c) in
  _ ← ensure (bool_decide (expected = req_challenge req)) (status_invalid_argument
    ("The provided challenge does not match the expected challenge: " ++ expected)%string);
  _ ← ensure (Nat.eqb (length (signed_challenge req)) SIGNATURE_BYTES)
    (status_invalid_argument "Signature must be 64 bytes.");
  sg ← ok_or (sig_from_bytes (signed_challenge req)) (status_invalid_argument "Invalid signature.");
  _ ← ensure (ed_verify client_pubkey (req_challenge req) sg) (status_invalid_argument
    "Failed challenge verification. Did you sign with the supplied pubkey's corresponding private key?");
  access ← sign_claims self (access_claims c) "Error signing access_token.";
  refresh ← sign_claims self (refresh_claims c) "Error signing refresh_token.";
  Ok {| access_token := {| token_value := access;
                           token_expires_at := timestamp (claims_expires_at_utc (access_claims c)) |};
        refresh_token := {| token_value := refresh;
                            token_expires_at := timestamp (claims_expires_at_utc (refresh_claims c)) |} |}.

Definition generate_auth_tokens (self : AuthServiceImpl) (remote_addr : option (IpAddr * Z))
    (req : GenerateAuthTokensRequest) : prog GenerateAuthTokensResponse :=
  _ ← auth_check_health;
  ip ← lift (client_ip_of remote_addr);
  client_pubkey ← lift (ok_or (pk_from_bytes (req_client_pubkey req))
    (status_invalid_argument "Invalid pubkey supplied."));
  existing ← perform (ChallengesGet ip);
  c ← lift (ok_or existing (status_permission_denied
    "Must invoke the GenerateAuthChallenge method before calling any method."));
  resp ← lift (check_and_sign self client_pubkey c req);
  _ ← perform (ChallengesRemove ip);
  mret resp.

Definition refresh_access_token (self : AuthServiceImpl) (refresh_token : string) : prog PbToken :=
  _ ← auth_check_health;
  verified ← lift (ok_or (verify_with_key (svc_verifying_key self) refresh_token)
    (status_permission_denied "Invalid refresh_token supplied"));
  refresh_claims ← lift (claims_of_ser verified.2);
  now ← perform UtcNow;
  if claims_is_expired now refresh_claims then fail (status_permission_denied
    "Client refresh_token has expired, please generate a new auth challenge to obtain a set of new access tokens.")
  else
    now ← perform UtcNow;
    expires ← lift (date_add now (access_token_ttl self));
    token ← lift (sign_claims self {| client_ip := client_ip refresh_claims;
      client_pubkey := client_pubkey refresh_claims; claims_expires_at_utc := expires |}
      "Error signing access_token.");
    mret {| token_value := token; token_expires_at := timestamp expires |}.

End service.
Arguments AuthServiceImpl : clear implicits.
