(* ===== verification/AuthSystem.v ===== *)
(** * The authentication service in operation

    The operations of the handlers of [AuthService] act on a shared world.
    [run] is a handler alone; [sys_step] interleaves any number of handlers
    with each other, with the expiration task
    ([start_challenge_expiration_task]) and with changes of the clock, the
    health state and the validator set. *)

From Stdlib Require Import ZArith Lia String Ascii.
From stdpp Require Import base gmap strings list fin_maps.
From S2P Require Import Prelude Interfaces Reference Health AuthInterceptor AuthChallenges AuthService.

Section system.
Context {Q : Type} {PQ : KeyedPQ Q IpAddr AuthChallenge}.

(** The shared state.  [w_approved] is a history variable: the keys the
    validator set has answered yes for. *)
Record world := {
  w_challenges : Q;
  w_now : Z;
  w_health : HealthState;
  w_auther : Pubkey -> bool;
  w_sample : nat -> ascii;
  w_approved : list Pubkey;
}.
#[global] Instance world_eta : Eta world := fun w => {|
  w_challenges := w_challenges w; w_now := w_now w; w_health := w_health w;
  w_auther := w_auther w; w_sample := w_sample w; w_approved := w_approved w |}.

Definition exec_op {X} (op : auth_op X) (w : world) : X * world :=
  match op with
  | ChallengesLen => (len (w_challenges w), w)
  | ChallengesGet ip => (get_priority ip (w_challenges w), w)
  | ChallengesPush ip c => (tt, w <| w_challenges ::= push ip c |>)
  | ChallengesRemove ip => (tt, w <| w_challenges ::= remove ip |>)
  | UtcNow => (w_now w, w)
  | ReadHealth => (w_health w, w)
  | IsAuthorized pk =>
      (w_auther w pk, if w_auther w pk then w <| w_approved ::= cons pk |> else w)
  | SampleAlphanumeric => (w_sample w, w)
  end.

(** A handler alone, without interference. *)
Fixpoint run {A} (p : prog A) (w : world) : result Status A * world :=
  match p with
  | Done r => (r, w)
  | Step op k => let '(x, w) := exec_op op w in run (k x) w
  end.

(** One operation of a handler. *)
Definition prog_step {A} (p : prog A) (w : world) : prog A * world :=
  match p with
  | Done r => (Done r, w)
  | Step op k => let '(x, w) := exec_op op w in (k x, w)
  end.

(** What the rest of the process does to the world: time passes, health, the
    validator set and the random source change; the expiration task sweeps,
    reading a clock that does not run backwards. *)
Inductive env_step : world -> world -> Prop :=
| env_world now h a s w :
    w_now w <= now ->
    env_step w (w <| w_now := now |> <| w_health := h |> <| w_auther := a |> <| w_sample := s |>)
| env_sweep now w :
    (forall j k, (j <= k)%nat -> now j <= now k) ->
    env_step w (w <| w_challenges ::= remove_all_expired now |>).

Lemma run_bind {A B} (p : prog A) (f : A -> prog B) w :
  run (p ≫= f) w =
  match run p w with
  | (Ok a, w) => run (f a) w
  | (Err e, w) => (Err e, w)
  | (Panic, w) => (Panic, w)
  end.
Proof.
  revert w. induction p as [[a|e|]|X op k IH]; intros w; [done|done|done|].
  cbn. destruct (exec_op op w) as [x w']. apply IH.
Qed.


(** ** Running handlers *)

Context {SK VK PK Sg : Type}.
Context `{Jw : Jwt SK VK DeSerClaims} `{Ed : Ed25519 PK Sg} `{Ch : Chrono} `{Pr : AuthProto}.
Context `{TI : !Text IpAddr} `{TP : !Text Pubkey}.
Context (self : AuthServiceImpl SK VK).

(** A request in progress.  [ticket] is a history variable: the handler has
    seen the queue below its capacity and has not pushed yet. *)
Inductive thread :=
| ChallengeThread (ticket : bool) (p : prog string)
| TokensThread (p : prog GenerateAuthTokensResponse)
| RefreshThread (p : prog PbToken).

Definition op_ticket {X} (op : auth_op X) (ticket : bool) : X -> bool :=
  match op with
  | ChallengesLen => fun n => ticket || negb (Nat.leb AUTH_CHALLENGES_CAPACITY n)
  | ChallengesPush _ _ => fun _ => false
  | _ => fun _ => ticket
  end.
Definition next_ticket {A} (p : prog A) (w : world) (ticket : bool) : bool :=
  match p with
  | Done _ => ticket
  | Step op _ => op_ticket op ticket (exec_op op w).1
  end.
Definition thread_step (t : thread) (w : world) : thread * world :=
  match t with
  | ChallengeThread ticket p =>
      (ChallengeThread (next_ticket p w ticket) (prog_step p w).1, (prog_step p w).2)
  | TokensThread p => (TokensThread (prog_step p w).1, (prog_step p w).2)
  | RefreshThread p => (RefreshThread (prog_step p w).1, (prog_step p w).2)
  end.
Definition finished {A} (p : prog A) : bool := match p with Done _ => true | Step _ _ => false end.
Definition in_flight (t : thread) : bool :=
  match t with
  | ChallengeThread _ p => negb (finished p)
  | TokensThread p => negb (finished p)
  | RefreshThread p => negb (finished p)
  end.

(** The tokens a finished request has handed out. *)
Definition thread_tokens (t : thread) : list string :=
  match t with
  | TokensThread (Done (Ok r)) => [token_value (access_token r); token_value (refresh_token r)]
  | RefreshThread (Done (Ok r)) => [token_value r]
  | _ => []
  end.

Record sys := { s_world : world; s_threads : list thread }.
Definition issued (s : sys) : list string := s_threads s ≫= thread_tokens.
Definition inflight (s : sys) : nat := count_if in_flight (s_threads s).
Definition spawn (t : thread) (s : sys) : sys :=
  {| s_world := s_world s; s_threads := s_threads s ++ [t] |}.

(** The service under load, with at most [max_inflight] requests at a time.  A
    client has no key to sign tokens with, so a refresh token it sends either
    does not verify or was issued before. *)
Inductive sys_step (max_inflight : nat) : sys -> sys -> Prop :=
| step_challenge addr req s : (inflight s < max_inflight)%nat ->
    sys_step max_inflight s (spawn (ChallengeThread false (generate_auth_challenge self addr req)) s)
| step_tokens addr req s : (inflight s < max_inflight)%nat ->
    sys_step max_inflight s (spawn (TokensThread (generate_auth_tokens (PK := PK) (Sg := Sg) self addr req)) s)
| step_refresh t s : (inflight s < max_inflight)%nat ->
    t ∈ issued s \/ verify_with_key (svc_verifying_key self) t = None ->
    sys_step max_inflight s (spawn (RefreshThread (refresh_access_token self t)) s)
| step_thread i t s : s_threads s !! i = Some t ->
    sys_step max_inflight s {| s_world := (thread_step t (s_world s)).2;
                               s_threads := <[i := (thread_step t (s_world s)).1]> (s_threads s) |}
| step_env w s : env_step (s_world s) w ->
    sys_step max_inflight s {| s_world := w; s_threads := s_threads s |}.

(** The service starts with an empty queue and no request. *)
Inductive sys_reachable (max_inflight : nat) : sys -> Prop :=
| sys_init w : w_challenges w = challenges_new -> w_approved w = [] ->
    sys_reachable max_inflight {| s_world := w; s_threads := [] |}
| sys_next s s' : sys_reachable max_inflight s -> sys_step max_inflight s s' ->
    sys_reachable max_inflight s'.

End system.
Arguments world : clear implicits.
