(* ===== verification/AuthProofs.v ===== *)
(** * Properties of the authentication service

    What each handler, run alone, answers and does to the queue; what holds
    under interleaving is in [AuthConcurrency]. *)

From Stdlib Require Import ZArith Lia String Ascii.
From stdpp Require Import base gmap strings list fin_maps.
From S2P Require Import Prelude Interfaces Reference Health AuthInterceptor AuthChallenges.
From S2P Require Import AuthService AuthSystem.

#[local] Opaque AUTH_CHALLENGES_CAPACITY.

Section proofs.
Context {Q : Type} {PQ : KeyedPQ Q IpAddr AuthChallenge}.
Context {contents : Q -> gmap IpAddr AuthChallenge}.
Context {PQL : KeyedPQLaws Q IpAddr AuthChallenge reverse_leb contents}.
Context {SK VK PK Sg : Type}.
Context `{Jw : Jwt SK VK DeSerClaims} `{Ed : Ed25519 PK Sg} `{Ch : Chrono} `{Pr : AuthProto}.
Context `{TI : !Text IpAddr} `{TP : !Text Pubkey}.
Context (self : AuthServiceImpl SK VK).

Implicit Types w : world Q.

Definition challenges (w : world Q) : gmap IpAddr AuthChallenge := contents (w_challenges w).

(** ** A handler alone *)

Lemma run_lift {A} (r : result Status A) w : run (lift r) w = (r, w).
Proof. done. Qed.

Lemma run_perform {X} (op : auth_op X) w : run (perform op) w = (Ok (exec_op op w).1, (exec_op op w).2).
Proof. unfold perform. cbn. by destruct (exec_op op w). Qed.

Lemma run_check_health w :
  run auth_check_health w =
    (if bool_decide (w_health w = Healthy) then Ok () else Err (status_internal "relayer is unhealthy"), w).
Proof. unfold auth_check_health. rewrite run_bind, run_perform. cbn. by case_bool_decide. Qed.

(** The challenge made for key [pk] at address [ip], the clock standing still. *)
Definition fresh_challenge (ip : IpAddr) (pk : Pubkey) (w : world Q) (c : AuthChallenge) : Prop :=
  challenge c = generate_challenge_token (w_sample w) /\
  access_claims c = {| client_ip := ip; client_pubkey := pk;
                       claims_expires_at_utc := w_now w + access_token_ttl self |} /\
  refresh_claims c = {| client_ip := ip; client_pubkey := pk;
                        claims_expires_at_utc := w_now w + refresh_token_ttl self |} /\
  expires_at_utc c = w_now w + challenge_ttl self.

Lemma date_add_Ok {E} t d x : date_add (E := E) t d = Ok x -> x = t + d.
Proof. unfold date_add. destruct (date_ok _); congruence. Qed.

Lemma run_create_challenge ip req w :
  match run (create_challenge self ip req) w with
  | (Ok tok, w') =>
      role req = ROLE_VALIDATOR /\ length (req_pubkey req) = PUBKEY_BYTES /\
      w_auther w (req_pubkey req) = true /\
      exists c, fresh_challenge ip (req_pubkey req) w c /\ tok = challenge c /\
        challenges w' = <[ip := c]> (challenges w)
  | (_, w') => w_challenges w' = w_challenges w
  end.
Proof.
  unfold create_challenge.
  destruct (Z.eqb_spec (role req) ROLE_VALIDATOR) as [Hr|]; [|done].
  destruct (Nat.eqb_spec (length (req_pubkey req)) PUBKEY_BYTES) as [Hl|]; [|done].
  unfold pubkey_try_from. rewrite decide_True by done.
  cbn -[date_add generate_challenge_token].
  destruct (w_auther w (req_pubkey req)) eqn:Ha; cbn -[date_add generate_challenge_token]; [|done].
  destruct (date_add (w_now w) (access_token_ttl self)) as [a| |] eqn:Ea;
    cbn -[date_add generate_challenge_token]; try done.
  destruct (date_add (w_now w) (refresh_token_ttl self)) as [r| |] eqn:Er;
    cbn -[date_add generate_challenge_token]; try done.
  destruct (date_add (w_now w) (challenge_ttl self)) as [e| |] eqn:Ee;
    cbn -[date_add generate_challenge_token]; try done.
  apply date_add_Ok in Ea, Er, Ee. subst.
  split_and!; try done. eexists.
  split; [|split; [|unfold challenges; cbn; unfold push; apply pq_push_spec]]; done.
Qed.

(** C13: a challenge is handed out only by a healthy relayer whose queue is
    below its capacity, to a request with a peer address.  It is either the
    pending one of that address, unexpired, or a new one: then the request was
    for the validator role with a 32-byte key the validator set approves, the
    new challenge replaces any old one of the address, and its claims carry
    that address and key and the configured lifetimes.  Every other outcome
    leaves the queue as it was. *)
Theorem generate_auth_challenge_spec addr req w :
  match run (generate_auth_challenge self addr req) w with
  | (Ok tok, w') =>
      w_health w = Healthy /\ (size (challenges w) < AUTH_CHALLENGES_CAPACITY)%nat /\
      exists ip port, addr = Some (ip, port) /\
      let pending := exists c, challenges w !! ip = Some c /\ is_expired (w_now w) c = false in
      (pending -> w' = w /\ challenge <$> challenges w !! ip = Some tok) /\
      (~ pending -> role req = ROLE_VALIDATOR /\ length (req_pubkey req) = PUBKEY_BYTES /\
        w_auther w (req_pubkey req) = true /\
        exists c, fresh_challenge ip (req_pubkey req) w c /\ tok = challenge c /\
          challenges w' = <[ip := c]> (challenges w))
  | (_, w') => w_challenges w' = w_challenges w
  end.
Proof.
  unfold generate_auth_challenge. rewrite run_bind, run_check_health.
  case_bool_decide as Hh; [|done]. cbn -[create_challenge Nat.leb].
  unfold len. rewrite pq_len_spec.
  destruct (Nat.leb_spec AUTH_CHALLENGES_CAPACITY (size (contents (w_challenges w)))) as [|Hc]; [done|].
  destruct addr as [[ip port]|]; [|done]. cbn -[create_challenge is_expired].
  unfold get_priority. rewrite pq_get_priority_spec.
  pose proof (run_create_challenge ip req w) as Hcr.
  destruct (contents (w_challenges w) !! ip) as [c|] eqn:Hip;
    cbn -[create_challenge is_expired]; [destruct (is_expired (w_now w) c) eqn:He|];
    cbn -[create_challenge is_expired].
  2: { cbn. split_and!; try done. exists ip, port. unfold challenges. rewrite Hip. naive_solver. }
  all: destruct (run (create_challenge self ip req) w) as [[tok| |] w'] eqn:Hrun; try done.
  all: split_and!; try done; exists ip, port; split; [done|]; split; [|done];
    intros (c' & Hc' & He'); unfold challenges in Hc'; congruence.
Qed.

(** The conditions under which [check_and_sign] signs. *)
Definition proof_of_key (k : PK) (c : AuthChallenge) (req : GenerateAuthTokensRequest) : Prop :=
  client_pubkey (access_claims c) = pk_to_bytes k /\
  req_challenge req = expected_challenge (pk_to_bytes k) (challenge c) /\
  length (signed_challenge req) = SIGNATURE_BYTES /\
  exists sg, sig_from_bytes (signed_challenge req) = Some sg /\
    ed_verify k (req_challenge req) sg = true.

Definition signed_for (c : Claims) (t : PbToken) : Prop :=
  sign_with_key (signing_key self) {| algorithm := Rs256 |} (ser_of_claims c) = Some (token_value t) /\
  token_expires_at t = timestamp (claims_expires_at_utc c).

Lemma check_and_sign_Ok k c req resp :
  check_and_sign self k c req = Ok resp ->
  proof_of_key k c req /\ signed_for (access_claims c) (access_token resp) /\
  signed_for (refresh_claims c) (refresh_token resp).
Proof.
  unfold check_and_sign, sign_claims.
  intros (? & H1%ensure_Ok & H)%bind_Ok_inv. apply bind_Ok_inv in H as (? & H2%ensure_Ok & H).
  apply bind_Ok_inv in H as (? & H3%ensure_Ok & H). apply bind_Ok_inv in H as (sg & H4%ok_or_Ok & H).
  apply bind_Ok_inv in H as (? & H5%ensure_Ok & H). apply bind_Ok_inv in H as (a & H6%ok_or_Ok & H).
  apply bind_Ok_inv in H as (r & H7%ok_or_Ok & [= <-]).
  apply bool_decide_eq_true in H1, H2. apply Nat.eqb_eq in H3.
  repeat split; try done. eauto.
Qed.

Lemma run_tokens_no_challenge ip port req w :
  challenges w !! ip = None ->
  exists r, run (generate_auth_tokens (PK := PK) (Sg := Sg) self (Some (ip, port)) req) w = (r, w) /\
    forall resp, r <> Ok resp.
Proof.
  intros Hn. unfold generate_auth_tokens. rewrite run_bind, run_check_health.
  case_bool_decide; [|by eexists]. cbn -[check_and_sign].
  destruct (pk_from_bytes _) as [k|]; cbn -[check_and_sign]; [|by eexists].
  unfold get_priority. rewrite pq_get_priority_spec. unfold challenges in Hn. rewrite Hn.
  cbn. by eexists.
Qed.

(** C10: tokens are issued only for the pending challenge of the caller's
    address, to a caller that repeats the key the challenge was made for and
    sends that key's signature over key and challenge; they carry the claims
    fixed when the challenge was made.  Issuing consumes the challenge and
    nothing else, so the same address gets no second pair for it; any other
    outcome changes nothing. *)
Theorem generate_auth_tokens_spec addr req w :
  match run (generate_auth_tokens (PK := PK) (Sg := Sg) self addr req) w with
  | (Ok resp, w') =>
      w_health w = Healthy /\
      exists ip port k c, addr = Some (ip, port) /\ pk_from_bytes (req_client_pubkey req) = Some k /\
        challenges w !! ip = Some c /\ proof_of_key k c req /\
        signed_for (access_claims c) (access_token resp) /\
        signed_for (refresh_claims c) (refresh_token resp) /\
        challenges w' = delete ip (challenges w) /\
        forall req2, exists r, run (generate_auth_tokens (PK := PK) (Sg := Sg) self addr req2) w' = (r, w') /\
          forall resp2, r <> Ok resp2
  | (_, w') => w' = w
  end.
Proof.
  unfold generate_auth_tokens at 1. rewrite run_bind, run_check_health.
  case_bool_decide as Hh; [|done]. destruct addr as [[ip port]|]; [|done].
  cbn -[check_and_sign generate_auth_tokens].
  destruct (pk_from_bytes _) as [k|] eqn:Hk; cbn -[check_and_sign generate_auth_tokens]; [|done].
  unfold get_priority. rewrite pq_get_priority_spec.
  destruct (contents (w_challenges w) !! ip) as [c|] eqn:Hc;
    cbn -[check_and_sign generate_auth_tokens]; [|done].
  destruct (check_and_sign self k c req) as [resp| |] eqn:Hs; cbn -[generate_auth_tokens]; try done.
  split; [done|]. exists ip, port, k, c. apply check_and_sign_Ok in Hs as (Hp & Ha & Hr).
  assert (Hd : challenges (w <| w_challenges ::= remove ip |>) = delete ip (challenges w)).
  { unfold challenges. cbn. apply pq_remove_spec. }
  split_and!; try done. intros req2. apply run_tokens_no_challenge.
  unfold challenges in Hd |- *. cbn in Hd |- *. rewrite Hd. apply lookup_delete_eq.
Qed.

(** C33: refreshing.  A new access token is issued only by a healthy relayer
    for a token made with its own key and not expired; it keeps the address and
    key of that token and expires one access lifetime from now.  The state is
    unchanged in every case. *)
Theorem refresh_access_token_spec {KP : JwtKeyPair SK VK DeSerClaims (signing_key self) (svc_verifying_key self)} t w :
  match run (refresh_access_token self t) w with
  | (Ok tok, w') => w' = w /\ w_health w = Healthy /\
      exists h d old new, sign_with_key (signing_key self) h d = Some t /\
        claims_of_ser (E := Status) d = Ok old /\ w_now w < claims_expires_at_utc old /\
        signed_for new tok /\ client_ip new = client_ip old /\ client_pubkey new = client_pubkey old /\
        claims_expires_at_utc new = w_now w + access_token_ttl self
  | (_, w') => w' = w
  end.
Proof.
  unfold refresh_access_token. rewrite run_bind, run_check_health.
  case_bool_decide as Hh; [|done]. cbn -[claims_of_ser date_add sign_claims].
  destruct (verify_with_key _ t) as [[h d]|] eqn:Hv; cbn -[claims_of_ser date_add sign_claims]; [|done].
  destruct (claims_of_ser d) as [old| |] eqn:Hc; cbn -[claims_of_ser date_add sign_claims]; try done.
  destruct (claims_is_expired (w_now w) old) eqn:He; cbn -[claims_of_ser date_add sign_claims]; [done|].
  destruct (date_add (w_now w) (access_token_ttl self)) as [e| |] eqn:Hd; cbn -[claims_of_ser sign_claims]; try done.
  apply date_add_Ok in Hd as ->.
  unfold sign_claims. destruct (sign_with_key _ _ _) as [tok|] eqn:Hs; cbn -[claims_of_ser]; [|done].
  split_and!; try done. apply verify_unforged in Hv. unfold claims_is_expired in He. apply Z.leb_gt in He.
  eexists h, d, old, {| client_ip := client_ip old; client_pubkey := client_pubkey old;
    claims_expires_at_utc := w_now w + access_token_ttl self |}. split_and!; try done.
Qed.

End proofs.

(** ** Witnesses: a client asks for a challenge, signs it, and refreshes *)

Definition demo_service : AuthServiceImpl Z Z := {|
  signing_key := 42; svc_verifying_key := 42; access_token_ttl := 1800 * NANOS;
  refresh_token_ttl := 180000 * NANOS; challenge_ttl := 1800 * NANOS |}.
Definition demo_world : world (gmap IpAddr AuthChallenge) := {|
  w_challenges := challenges_new; w_now := 1700000000 * NANOS; w_health := Healthy;
  w_auther := fun k => bool_decide (k = demo_key); w_sample := fun _ => "x"%char; w_approved := [] |}.
Definition demo_addr : option (IpAddr * Z) := Some (V4 10 0 0 1, 4000).
Definition demo_challenge_req : GenerateAuthChallengeRequest :=
  {| role := ROLE_VALIDATOR; req_pubkey := demo_key |}.
Definition demo_message : string := expected_challenge demo_key "xxxxxxxxx".
Definition demo_tokens_req : GenerateAuthTokensRequest := {|
  req_challenge := demo_message; req_client_pubkey := demo_key;
  signed_challenge := ref_sign demo_key demo_message |}.

Definition demo_world1 : world (gmap IpAddr AuthChallenge) :=
  (run (generate_auth_challenge demo_service demo_addr demo_challenge_req) demo_world).2.

Lemma generate_auth_challenge_witness :
  exists c, fresh_challenge demo_service (V4 10 0 0 1) demo_key demo_world c /\
    challenges (contents := id) demo_world1 = <[V4 10 0 0 1 := c]> ∅.
Proof.
  pose proof (generate_auth_challenge_spec (contents := id) demo_service demo_addr demo_challenge_req demo_world) as H.
  unfold demo_world1. destruct (run _ demo_world) as [[tok| |] w'] eqn:E.
  - destruct H as (_ & _ & ip & port & [= <- <-] & _ & H).
    destruct H as (_ & _ & _ & c & Hc & _ & Hw); [intros (c & Hc & _); discriminate|].
    exists c. split; [exact Hc|exact Hw].
  - exfalso. apply (f_equal (fun r => match r.1 with Ok _ => true | _ => false end)) in E.
    revert E. vm_compute. discriminate.
  - exfalso. apply (f_equal (fun r => match r.1 with Ok _ => true | _ => false end)) in E.
    revert E. vm_compute. discriminate.
Defined.

Definition demo_tokens_run : result Status GenerateAuthTokensResponse * world (gmap IpAddr AuthChallenge) :=
  run (generate_auth_tokens (PK := list Z) (Sg := list Z) demo_service demo_addr demo_tokens_req) demo_world1.

Lemma generate_auth_tokens_witness :
  challenges (contents := id) demo_tokens_run.2 = delete (V4 10 0 0 1) (challenges (contents := id) demo_world1).
Proof.
  pose proof (generate_auth_tokens_spec (contents := id) (PK := list Z) (Sg := list Z) demo_service demo_addr
    demo_tokens_req demo_world1) as H. unfold demo_tokens_run.
  destruct (run _ demo_world1) as [[resp| |] w'] eqn:E.
  - destruct H as (_ & ip & port & k & c & [= <- <-] & _ & _ & _ & _ & _ & H & _). exact H.
  - exfalso. apply (f_equal (fun r => match r.1 with Ok _ => true | _ => false end)) in E.
    revert E. vm_compute. discriminate.
  - exfalso. apply (f_equal (fun r => match r.1 with Ok _ => true | _ => false end)) in E.
    revert E. vm_compute. discriminate.
Defined.

Definition demo_refresh_token : string :=
  match demo_tokens_run.1 with Ok r => token_value (refresh_token r) | _ => EmptyString end.

Lemma refresh_access_token_witness :
  exists tok, run (refresh_access_token demo_service demo_refresh_token) demo_world1 = (Ok tok, demo_world1).
Proof.
  pose proof (refresh_access_token_spec demo_service demo_refresh_token demo_world1) as H.
  destruct (run (refresh_access_token demo_service demo_refresh_token) demo_world1) as [[tok| |] w'] eqn:E.
  - destruct H as [-> _]. exists tok. reflexivity.
  - exfalso. apply (f_equal (fun r => match r.1 with Ok _ => true | _ => false end)) in E.
    revert E. vm_compute. discriminate.
  - exfalso. apply (f_equal (fun r => match r.1 with Ok _ => true | _ => false end)) in E.
    revert E. vm_compute. discriminate.
Defined.

(** Between its expiry and the next sweep a challenge can still be exchanged
    for tokens: the handler does not look at its expiry. *)
Example expired_challenge_exchanged :
  let w := demo_world1 <| w_now ::= Z.add (2 * challenge_ttl demo_service) |> in
  option_map (is_expired (w_now w)) (get_priority (V4 10 0 0 1) (w_challenges w)) = Some true /\
  match (run (generate_auth_tokens (PK := list Z) (Sg := list Z) demo_service demo_addr demo_tokens_req) w).1 with
  | Ok _ => True
  | _ => False
  end.
Proof. vm_compute. split; [reflexivity|exact I]. Qed.
