(* ===== verification/AuthConcurrency.v ===== *)
(** * Interleaved authentication requests

    Two facts that hold however the handlers of the authentication service are
    interleaved.  The first is about what a token proves, by an invariant of
    the shared queue that every operation of every handler keeps ([safe]); the
    second bounds the queue, by counting the handlers that have passed the
    capacity test and not pushed yet ([guarded]). *)

From Stdlib Require Import ZArith Lia String Ascii.
From stdpp Require Import base gmap strings list fin_maps.
From S2P Require Import Prelude Interfaces Reference Health AuthInterceptor AuthChallenges.
From S2P Require Import AuthService AuthSystem AuthProofs.

Lemma capacity_pos : (0 < AUTH_CHALLENGES_CAPACITY)%nat.
Proof. apply Nat.ltb_lt. vm_compute. reflexivity. Qed.

#[local] Opaque AUTH_CHALLENGES_CAPACITY.

Section concurrency.
Context {Q : Type} {PQ : KeyedPQ Q IpAddr AuthChallenge}.
Context {contents : Q -> gmap IpAddr AuthChallenge}.
Context {PQL : KeyedPQLaws Q IpAddr AuthChallenge reverse_leb contents}.
Context {SK VK PK Sg : Type}.
Context `{Jw : Jwt SK VK DeSerClaims} `{Ed : Ed25519 PK Sg} `{Ch : Chrono} `{Pr : AuthProto}.
Context `{TI : !Text IpAddr} `{TP : !Text Pubkey}.
Context (self : AuthServiceImpl SK VK).

Implicit Types w : world Q.
Abbreviation challenges := (challenges (contents := contents)).

(** ** Safety of a handler under interference *)

(** Every pending challenge is for a key the validator set has approved. *)
Definition challenge_ok (w : world Q) (ip : IpAddr) (c : AuthChallenge) : Prop :=
  client_pubkey (refresh_claims c) = client_pubkey (access_claims c) /\
  pubkey_wf (client_pubkey (access_claims c)) /\
  client_pubkey (access_claims c) ∈ w_approved w.
Definition queue_ok (w : world Q) : Prop := map_Forall (challenge_ok w) (challenges w).
Definition later (w w' : world Q) : Prop := w_approved w ⊆ w_approved w'.

(** [safe P p w]: from [w] on, whatever the others do, [p] keeps [queue_ok] and
    its result satisfies [P]. *)
Fixpoint safe {A} (P : result Status A -> world Q -> Prop) (p : prog A) (w : world Q) : Prop :=
  forall w', queue_ok w' -> later w w' ->
  match p with
  | Done r => P r w'
  | Step op k =>
      queue_ok (exec_op op w').2 /\ later w' (exec_op op w').2 /\
      safe P (k (exec_op op w').1) (exec_op op w').2
  end.

Lemma later_same w w' : w_approved w' = w_approved w -> later w w'.
Proof. unfold later. by intros ->. Qed.

Lemma later_refl w : later w w.
Proof. by apply later_same. Qed.

Lemma later_trans w1 w2 w3 : later w1 w2 -> later w2 w3 -> later w1 w3.
Proof. unfold later. set_solver. Qed.

Lemma safe_later {A} (P : result Status A -> world Q -> Prop) p w w' :
  safe P p w -> later w w' -> safe P p w'.
Proof. destruct p; cbn; intros Hs Hl w'' Hq Hl'; apply Hs; try done; by eapply later_trans. Qed.

Lemma queue_ok_later w w' :
  queue_ok w -> challenges w' ⊆ challenges w -> later w w' -> queue_ok w'.
Proof.
  intros Hq Hsub Hl ip c Hc. destruct (Hq ip c) as (H1 & H2 & H3); [by eapply lookup_weaken|].
  split_and!; try done. by apply Hl.
Qed.

(** An operation that pushes nothing keeps the invariant. *)
Lemma exec_op_later {X} (op : auth_op X) w :
  later w (exec_op op w).2 /\
  match op with
  | ChallengesPush _ _ => True
  | _ => queue_ok w -> queue_ok (exec_op op w).2
  end.
Proof.
  assert (Hsame : forall w w', challenges w' ⊆ challenges w -> later w w' ->
    later w w' /\ (queue_ok w -> queue_ok w')) by (intros; split; eauto using queue_ok_later).
  destruct op; cbn; try (apply Hsame; [done|apply later_refl]).
  - split; [by apply later_same|done].
  - apply Hsame; [|by apply later_same]. unfold AuthProofs.challenges. cbn.
    unfold remove. rewrite pq_remove_spec. apply delete_subseteq.
  - destruct (w_auther w pk); [|apply Hsame; [done|by apply later_same]].
    apply Hsame; [done|]. unfold later. cbn. set_solver.
Qed.

Lemma env_step_ok w w' : env_step w w' -> queue_ok w -> queue_ok w' /\ later w w'.
Proof.
  intros Hs Hq. destruct Hs as [now h a s w Hn|now w Hm].
  - split; [|by apply later_same]. eapply queue_ok_later; [exact Hq|done|by apply later_same].
  - split; [|by apply later_same]. eapply queue_ok_later; [exact Hq| |by apply later_same].
    unfold AuthProofs.challenges, remove_all_expired, len. cbn. rewrite pq_len_spec.
    destruct (remove_loop_spec (size (contents (w_challenges w))) now 0 (w_challenges w) Hm) as [_ ->]; [done|].
    apply map_filter_subseteq.
Qed.

Lemma safe_prog_step {A} (P : result Status A -> world Q -> Prop) p w :
  safe P p w -> queue_ok w ->
  queue_ok (prog_step p w).2 /\ later w (prog_step p w).2 /\ safe P (prog_step p w).1 (prog_step p w).2.
Proof.
  intros Hs Hq. destruct p as [r|X op k]; cbn in *.
  - split; [done|]. split; [apply later_refl|done].
  - destruct (Hs w Hq (later_refl w)) as (H1 & H2 & H3). by destruct (exec_op op w).
Qed.

Definition is_push {X} (op : auth_op X) : bool :=
  match op with ChallengesPush _ _ => true | _ => false end.

Lemma safe_read {A X} (P : result Status A -> world Q -> Prop) (op : auth_op X) k w :
  is_push op = false ->
  (forall w', queue_ok w' -> later w w' -> later w' (exec_op op w').2 ->
    safe P (k (exec_op op w').1) (exec_op op w').2) ->
  safe P (Step op k) w.
Proof.
  intros Hp Hk w' Hq Hl. pose proof (exec_op_later op w') as [He Hc].
  split_and!; [destruct op; try done; by apply Hc|done|by apply Hk].
Qed.

Lemma safe_done {A} (P : result Status A -> world Q -> Prop) r w :
  (forall w', later w w' -> P r w') -> safe P (Done r) w.
Proof. intros H w' _ Hl. by apply H. Qed.

(** Walk over one reading step of a handler. *)
Ltac walk := cbn -[safe exec_op date_add check_and_sign claims_of_ser Nat.leb generate_challenge_token];
  first [ apply safe_done | apply safe_read; [done|];
            let w := fresh "w" in let Hq := fresh "Hq" in let Hl := fresh "Hl" in let He := fresh "He" in
            intros w Hq Hl He ].

Lemma create_challenge_safe ip req w : safe (fun _ _ => True) (create_challenge self ip req) w.
Proof.
  unfold create_challenge. destruct (role req =? ROLE_VALIDATOR); [|by walk].
  destruct (Nat.eqb_spec (length (req_pubkey req)) PUBKEY_BYTES) as [Hw|]; [|by walk].
  unfold pubkey_try_from. rewrite decide_True by done.
  walk. cbn. destruct (w_auther w0 (req_pubkey req)) eqn:Ha; [|by walk].
  walk. walk. destruct (date_add _ _) as [a| |]; [|by walk..].
  walk. destruct (date_add _ _) as [r| |]; [|by walk..].
  walk. destruct (date_add _ _) as [e| |]; [|by walk..].
  cbn. intros w' Hq' Hl'. split; [|split; [by apply later_same|done]].
  unfold queue_ok, AuthProofs.challenges. cbn. unfold push. rewrite pq_push_spec.
  apply map_Forall_insert_2; [|exact Hq']. split_and!; try done. cbn.
  apply Hl', Hl3, He2, Hl2, He1, Hl1, He0, Hl0. cbn. set_solver.
Qed.

Lemma check_health_safe {A} (P : result Status A -> world Q -> Prop) f w :
  (forall w', later w w' -> safe P (f tt) w') -> (forall e w', P (Err e) w') ->
  safe P (auth_check_health ≫= f) w.
Proof.
  intros Hf He. unfold auth_check_health. walk. cbn. case_bool_decide; cbn -[safe]; [by apply Hf|].
  apply safe_done. intros. apply He.
Qed.

Lemma generate_auth_challenge_safe addr req w :
  safe (fun _ _ => True) (generate_auth_challenge self addr req) w.
Proof.
  unfold generate_auth_challenge. apply check_health_safe; [|done]. intros w' _.
  walk. destruct (Nat.leb _ _); [by walk|]. destruct addr as [[ip port]|]; [|by walk].
  walk. destruct (exec_op _ _).1; [|apply create_challenge_safe].
  walk. destruct (is_expired _ _); [apply create_challenge_safe|by walk].
Qed.

(** ** What a token proves *)

(** Somebody has shown to hold the private key of [pk]. *)
Definition key_proved (pk : Pubkey) : Prop :=
  exists (k : PK) (sg : Sg) ch, pk_to_bytes k = pk /\ ed_verify k (expected_challenge pk ch) sg = true.

Definition token_ok (w : world Q) (t : string) : Prop :=
  exists c, sign_with_key (signing_key self) {| algorithm := Rs256 |} (ser_of_claims c) = Some t /\
    pubkey_wf (client_pubkey c) /\ client_pubkey c ∈ w_approved w /\ key_proved (client_pubkey c).

Lemma token_ok_later w w' t : token_ok w t -> later w w' -> token_ok w' t.
Proof. intros (c & ? & ? & ? & ?) Hl. exists c. split_and!; try done. by apply Hl. Qed.

Definition tokens_post (r : result Status GenerateAuthTokensResponse) (w : world Q) : Prop :=
  match r with
  | Ok resp => token_ok w (token_value (access_token resp)) /\ token_ok w (token_value (refresh_token resp))
  | _ => True
  end.
Definition refresh_post (r : result Status PbToken) (w : world Q) : Prop :=
  match r with Ok tok => token_ok w (token_value tok) | _ => True end.

Lemma check_and_sign_tokens_ok k c req resp ip w :
  challenge_ok w ip c -> check_and_sign self k c req = Ok resp -> tokens_post (Ok resp) w.
Proof.
  intros (Hr & Hw & Ha) (Hp & [Hs1 _] & [Hs2 _])%check_and_sign_Ok.
  assert (Hk : key_proved (client_pubkey (access_claims c))).
  { destruct Hp as (Hk & Hc & _ & sg & _ & Hv). exists k, sg, (challenge c).
    split; [done|]. rewrite Hk. by rewrite <- Hc. }
  split; eexists; (split; [eassumption|]); rewrite ?Hr; exact (conj Hw (conj Ha Hk)).
Qed.

Lemma generate_auth_tokens_safe addr req w :
  safe tokens_post (generate_auth_tokens (PK := PK) (Sg := Sg) self addr req) w.
Proof.
  unfold generate_auth_tokens. apply check_health_safe; [|done]. intros w' _.
  destruct addr as [[ip port]|]; [|by walk]. cbn -[safe check_and_sign].
  destruct (pk_from_bytes _) as [k|]; [|by walk]. walk. cbn. unfold get_priority.
  rewrite pq_get_priority_spec. destruct (contents (w_challenges w0) !! ip) as [c|] eqn:Hc; [|by walk].
  cbn -[safe check_and_sign]. destruct (check_and_sign self k c req) as [resp| |] eqn:Hs; [|by walk..].
  walk. walk. intros w2 Hl2. cbn.
  destruct (check_and_sign_tokens_ok k c req resp ip w0) as [H1 H2]; [by apply Hq|done|].
  assert (later w0 w2) by (exact (later_trans _ _ _ Hl0 (later_trans _ _ _ He0 Hl2))).
  split; by eapply token_ok_later.
Qed.

Lemma claims_of_signed {E} `{!TextLaws Pubkey pubkey_wf} c c' :
  pubkey_wf (client_pubkey c) -> claims_of_ser (E := E) (ser_of_claims c) = Ok c' ->
  client_pubkey c' = client_pubkey c.
Proof.
  intros Hw (_ & Hp & _)%claims_of_ser_Ok. cbn in Hp. rewrite from_to_string in Hp by done. congruence.
Qed.

Section system_safety.
Context {KP : JwtKeyPair SK VK DeSerClaims (signing_key self) (svc_verifying_key self)}.
Context `{!TextLaws Pubkey pubkey_wf}.

Lemma refresh_access_token_safe t w :
  token_ok w t \/ verify_with_key (svc_verifying_key self) t = None ->
  safe refresh_post (refresh_access_token self t) w.
Proof.
  intros Ht. unfold refresh_access_token. apply check_health_safe; [|done]. intros w' Hl.
  cbn -[safe claims_of_ser date_add]. destruct Ht as [(c & Hs & Hw & Ha & Hk)| ->]; [|by walk].
  rewrite (verify_signed _ _ _ Hs). cbn -[safe claims_of_ser date_add].
  destruct (claims_of_ser _) as [c'| |] eqn:Hc; [|by walk..].
  apply claims_of_signed in Hc; [|done].
  walk. destruct (claims_is_expired _ _); [by walk|].
  walk. destruct (date_add _ _) as [e| |]; [|by walk..].
  cbn -[safe]. unfold sign_claims.
  destruct (sign_with_key (signing_key self) _ (ser_of_claims (Build_Claims _ _ e))) as [tok|] eqn:Htok;
    [|by walk].
  walk. intros w3 Hl3. eexists. split; [exact Htok|]. cbn. rewrite Hc. split_and!; try done.
  by apply Hl3, He0, Hl1, He, Hl0, Hl.
Qed.

Definition thread_safe (w : world Q) (t : thread) : Prop :=
  match t with
  | ChallengeThread _ p => safe (fun _ _ => True) p w
  | TokensThread p => safe tokens_post p w
  | RefreshThread p => safe refresh_post p w
  end.
Definition sys_safe (s : sys) : Prop :=
  queue_ok (s_world s) /\ Forall (thread_safe (s_world s)) (s_threads s).

Lemma thread_safe_later w w' t : thread_safe w t -> later w w' -> thread_safe w' t.
Proof. destruct t; cbn [thread_safe]; eauto using safe_later. Qed.

Lemma thread_safe_step w t :
  thread_safe w t -> queue_ok w ->
  queue_ok (thread_step t w).2 /\ later w (thread_step t w).2 /\
  thread_safe (thread_step t w).2 (thread_step t w).1.
Proof. destruct t; cbn [thread_safe thread_step]; apply safe_prog_step. Qed.

Lemma issued_token_ok s t : sys_safe s -> t ∈ issued s -> token_ok (s_world s) t.
Proof.
  intros [Hq Hts] (th & Ht & Hth)%list_elem_of_bind.
  rewrite Forall_forall in Hts. specialize (Hts _ Hth).
  destruct th as [|p|p]; cbn in Ht; [by apply not_elem_of_nil in Ht|..];
    (destruct p as [[r| |]|]; cbn in Ht; try by apply not_elem_of_nil in Ht);
    specialize (Hts _ Hq (later_refl _)); cbn in Hts.
  - apply elem_of_cons in Ht as [->|Ht]; [apply Hts|].
    apply list_elem_of_singleton in Ht as ->. apply Hts.
  - by apply list_elem_of_singleton in Ht as ->.
Qed.

Lemma sys_step_safe n s s' : sys_step (PK := PK) (Sg := Sg) self n s s' -> sys_safe s -> sys_safe s'.
Proof.
  intros Hstep Hs. pose proof Hs as [Hq Hts].
  destruct Hstep as [addr req s _|addr req s _|t s _ Ht|i t s Hi|w s He]; cbn.
  - split; [done|]. apply Forall_app_2; [done|]. apply Forall_singleton, generate_auth_challenge_safe.
  - split; [done|]. apply Forall_app_2; [done|]. apply Forall_singleton, generate_auth_tokens_safe.
  - split; [done|]. apply Forall_app_2; [done|]. apply Forall_singleton, refresh_access_token_safe.
    destruct Ht as [Ht|Ht]; [left; exact (issued_token_ok s t Hs Ht)|by right].
  - destruct (thread_safe_step (s_world s) t) as (H1 & H2 & H3);
      [by eapply Forall_lookup_1|done|]. split; [done|]. cbn. apply Forall_insert; [|done].
    eapply Forall_impl; [exact Hts|]. intros th Hth. exact (thread_safe_later _ _ _ Hth H2).
  - destruct (env_step_ok _ _ He Hq) as [H1 H2]. split; [done|]. cbn.
    eapply Forall_impl; [exact Hts|]. intros th Hth. exact (thread_safe_later _ _ _ Hth H2).
Qed.

Lemma sys_reachable_safe n s : sys_reachable (PK := PK) (Sg := Sg) self n s -> sys_safe s.
Proof.
  induction 1 as [w Hw Ha|s s' _ IH Hstep]; [|by eapply sys_step_safe].
  split; [|constructor]. unfold queue_ok, AuthProofs.challenges. cbn. rewrite Hw.
  unfold challenges_new. rewrite pq_empty_spec. apply map_Forall_empty.
Qed.

(** C4: what an accepted request proves, for every interleaving of the
    requests of any number of clients: if the interceptor lets a request
    through on a token the service has issued, the key it attributes to the
    request was approved by the validator set, and somebody signed a challenge
    with its private key. *)
Theorem authenticated_key_approved n s (itc : AuthInterceptor VK) `{Md : MetadataApi} req req' b t :
  sys_reachable (PK := PK) (Sg := Sg) self n s ->
  verifying_key itc = svc_verifying_key self ->
  metadata req !! AUTHORIZATION_HEADER = Some b -> to_str b = Some (BEARER ++ t)%string ->
  t ∈ issued s -> call itc req = Ok req' ->
  exists pk, ext_pubkey req' = Some pk /\ pk ∈ w_approved (s_world s) /\ key_proved pk.
Proof.
  intros Hr%sys_reachable_safe Hk Hm Hb Ht Hc.
  destruct (issued_token_ok s t Hr Ht) as (c & Hs & Hw & Ha & Hp).
  apply bind_Ok_inv in Hc as (x & (b' & t' & Hm' & Hb' & _ & Hv & _)%jwt_from_header_Ok & Hc).
  rewrite Hm in Hm'. injection Hm' as <-. rewrite Hb in Hb'.
  apply (inj Some), (inj (String.append BEARER)) in Hb' as <-.
  rewrite Hk, (verify_signed _ _ _ Hs) in Hv. injection Hv as <-.
  apply bind_Ok_inv in Hc as (c' & Hc' & [= <-]). apply claims_of_signed in Hc'; [|done].
  exists (client_pubkey c). cbn. by rewrite Hc'.
Qed.

End system_safety.

(** ** The size of the queue *)

(** A push only ever happens on a ticket. *)
Fixpoint guarded {A} (ticket : bool) (p : prog A) : Prop :=
  match p with
  | Done _ => True
  | Step op k => (is_push op = true -> ticket = true) /\ forall x, guarded (op_ticket op ticket x) (k x)
  end.
Fixpoint no_push {A} (p : prog A) : Prop :=
  match p with
  | Done _ => True
  | Step op k => is_push op = false /\ forall x, no_push (k x)
  end.
Definition thread_guarded (t : thread) : Prop :=
  match t with
  | ChallengeThread ticket p => guarded ticket p
  | TokensThread p => no_push p
  | RefreshThread p => no_push p
  end.
Definition has_ticket (t : thread) : bool :=
  match t with ChallengeThread ticket p => ticket && negb (finished p) | _ => false end.

(** Unfold a handler along every answer it may get. *)
Ltac explore := repeat (cbn -[date_add check_and_sign claims_of_ser Nat.leb generate_challenge_token];
  intros; try done; try split; try case_match).

Lemma create_challenge_guarded ip req : guarded true (create_challenge self ip req).
Proof. unfold create_challenge, pubkey_try_from. explore. Qed.

Lemma generate_auth_challenge_guarded addr req : guarded false (generate_auth_challenge self addr req).
Proof.
  unfold generate_auth_challenge. cbn -[create_challenge Nat.leb is_expired]. split; [done|]. intros h.
  case_bool_decide; cbn -[create_challenge Nat.leb is_expired]; [|done]. split; [done|]. intros n.
  destruct (Nat.leb _ n); cbn -[create_challenge is_expired]; [done|].
  destruct addr as [[ip port]|]; cbn -[create_challenge is_expired]; [|done]. split; [done|].
  intros [c|]; [|apply create_challenge_guarded].
  cbn -[create_challenge is_expired]. split; [done|]. intros t.
  destruct (is_expired t c); [apply create_challenge_guarded|done].
Qed.

Lemma generate_auth_tokens_no_push addr req :
  no_push (generate_auth_tokens (PK := PK) (Sg := Sg) self addr req).
Proof. unfold generate_auth_tokens. explore. Qed.

Lemma refresh_access_token_no_push t : no_push (refresh_access_token self t).
Proof. unfold refresh_access_token. explore. Qed.

Definition queue_size (w : world Q) : nat := size (challenges w).

(** A push adds at most one challenge, other operations none. *)
Lemma exec_op_size {X} (op : auth_op X) w :
  (queue_size (exec_op op w).2 <= queue_size w + (if is_push op then 1 else 0))%nat.
Proof.
  unfold queue_size, AuthProofs.challenges. destruct op; cbn; try lia.
  - unfold push. rewrite pq_push_spec. rewrite map_size_insert. destruct (_ !! ip); unfold id; lia.
  - unfold remove. rewrite pq_remove_spec, map_size_delete. destruct (_ !! ip); unfold id; lia.
  - destruct (w_auther w pk); cbn; lia.
Qed.

Lemma env_step_size w w' : env_step w w' -> (queue_size w' <= queue_size w)%nat.
Proof.
  intros [now h a s w0 _|now w0 Hm]; [done|].
  unfold queue_size, AuthProofs.challenges, remove_all_expired, len. cbn. rewrite pq_len_spec.
  destruct (remove_loop_spec (size (contents (w_challenges w0))) now 0 (w_challenges w0) Hm) as [_ ->]; [done|].
  apply map_subseteq_size, map_filter_subseteq.
Qed.

(** A step of a request finishes it or not, keeps it guarded, and adds to the
    queue and the tickets together at most what a queue below its capacity
    allows. *)
Lemma thread_step_size t w :
  thread_guarded t ->
  let '(t', w') := thread_step t w in
  thread_guarded t' /\ (in_flight t' = true -> in_flight t = true) /\
  ((queue_size w' + (if has_ticket t' then 1 else 0) <= queue_size w + (if has_ticket t then 1 else 0))%nat \/
   (queue_size w' < AUTH_CHALLENGES_CAPACITY)%nat).
Proof.
  destruct t as [tk [r|X op k]|[r|X op k]|[r|X op k]]; cbn [thread_step thread_guarded guarded no_push];
    intros Hg; cbn [prog_step fst snd next_ticket].
  1, 3, 5: split_and!; [done|done|by left].
  all: destruct Hg as [Hp Hk]; pose proof (exec_op_size op w) as Hsz;
    destruct (exec_op op w) as [x w'] eqn:E; cbn [fst snd] in *.
  2, 3: rewrite Hp in Hsz; cbn; split_and!; [by apply Hk|done|left; lia].
  cbn [thread_guarded]. split_and!; [apply Hk|done|].
  destruct op; cbn [is_push op_ticket has_ticket finished] in *;
    try (left; destruct tk, (finished (k x)); cbn [andb orb negb]; lia).
  - cbn in E. injection E as <- <-. destruct tk; [left; destruct (finished _); cbn [andb orb negb]; lia|].
    cbn [orb]. unfold len. rewrite pq_len_spec.
    destruct (Nat.leb_spec AUTH_CHALLENGES_CAPACITY (size (contents (w_challenges w)))) as [|Hlt];
      [left; cbn [andb negb]; lia|right; exact Hlt].
Qed.

Definition cap_ok (n : nat) (s : sys) : Prop :=
  Forall thread_guarded (s_threads s) /\ (inflight s <= n)%nat /\
  (queue_size (s_world s) + count_if has_ticket (s_threads s) < AUTH_CHALLENGES_CAPACITY + n)%nat.

Lemma spawn_cap_ok n s t :
  cap_ok n s -> thread_guarded t -> has_ticket t = false -> (inflight s < n)%nat -> cap_ok n (spawn t s).
Proof.
  intros (Hg & Hi & Hq) Ht Hk Hn. split_and!; unfold spawn, inflight in *; cbn [s_threads s_world].
  - apply Forall_app_2; [done|by apply Forall_singleton].
  - rewrite count_if_app.
    enough (count_if in_flight [t] <= 1)%nat by lia. unfold count_if. cbn. destruct (in_flight t); cbn; lia.
  - rewrite count_if_app. enough (count_if has_ticket [t] = 0)%nat by lia. unfold count_if. cbn. by rewrite Hk.
Qed.

Lemma has_ticket_in_flight t : has_ticket t = true -> in_flight t = true.
Proof. destruct t as [tk p| |]; cbn; [|done..]. by intros [_ ->]%andb_true_iff. Qed.

Lemma sys_step_cap_ok n s s' : sys_step (PK := PK) (Sg := Sg) self n s s' -> cap_ok n s -> cap_ok n s'.
Proof.
  intros Hstep Hc. pose proof Hc as (Hg & Hi & Hq).
  destruct Hstep as [addr req s Hn|addr req s Hn|t s Hn _|i t s Ht|w s He].
  - apply spawn_cap_ok; [done|apply generate_auth_challenge_guarded|done|done].
  - apply spawn_cap_ok; [done|apply generate_auth_tokens_no_push|done|done].
  - apply spawn_cap_ok; [done|apply refresh_access_token_no_push|done|done].
  - pose proof (thread_step_size t (s_world s) (Forall_lookup_1 _ _ _ _ Hg Ht)) as Hs.
    destruct (thread_step t (s_world s)) as [t' w'] eqn:E. destruct Hs as (Hg' & Hf & Hs).
    pose proof (count_if_insert in_flight _ _ _ t' Ht) as C1.
    pose proof (count_if_insert has_ticket _ _ _ t' Ht) as C2.
    assert (Hi' : (count_if in_flight (<[i:=t']> (s_threads s)) <= n)%nat).
    { unfold inflight in Hi. destruct (in_flight t'); [rewrite Hf in C1 by done|destruct (in_flight t)]; lia. }
    split_and!; unfold inflight; cbn [s_world s_threads fst snd]; [by apply Forall_insert|done|].
    destruct Hs as [Hs|Hs]; [lia|].
    pose proof (count_if_le has_ticket in_flight (<[i:=t']> (s_threads s)) has_ticket_in_flight). lia.
  - split_and!; [done|done|]. cbn [s_threads s_world]. pose proof (env_step_size _ _ He). lia.
Qed.

(** C22: however the requests are interleaved, with at most [n] of them in
    progress at a time the queue holds fewer than [n] challenges above its
    nominal capacity: every handler in progress may add one after its test. *)
Theorem challenges_bounded n s :
  sys_reachable (PK := PK) (Sg := Sg) self n s ->
  (queue_size (s_world s) < AUTH_CHALLENGES_CAPACITY + n)%nat.
Proof.
  intros Hr. enough (cap_ok n s) as (_ & _ & H) by lia.
  induction Hr as [w Hw _|s s' _ IH Hstep]; [|by eapply sys_step_cap_ok].
  split_and!; [constructor|cbn; lia|]. unfold queue_size, AuthProofs.challenges. cbn. rewrite Hw.
  unfold challenges_new. rewrite pq_empty_spec, map_size_empty. pose proof capacity_pos. lia.
Qed.

End concurrency.

(** ** Witnesses: one client obtains tokens and uses one *)

Section demo.

Fixpoint thread_steps (k i : nat) (s : sys (Q := gmap IpAddr AuthChallenge)) : sys :=
  match k with
  | O => s
  | S k => match s_threads s !! i with
           | Some t => thread_steps k i {| s_world := (thread_step t (s_world s)).2;
                                           s_threads := <[i := (thread_step t (s_world s)).1]> (s_threads s) |}
           | None => s
           end
  end.

Definition demo_sys1 : sys :=
  thread_steps 12 0 (spawn (ChallengeThread false (generate_auth_challenge demo_service demo_addr demo_challenge_req))
    {| s_world := demo_world; s_threads := [] |}).
Definition demo_sys2 : sys :=
  thread_steps 5 1 (spawn (TokensThread (generate_auth_tokens demo_service demo_addr demo_tokens_req)) demo_sys1).

Lemma thread_steps_reachable n k i s :
  sys_reachable (PK := list Z) (Sg := list Z) demo_service n s ->
  sys_reachable (PK := list Z) (Sg := list Z) demo_service n (thread_steps k i s).
Proof.
  revert s. induction k as [|k IH]; intros s Hs; cbn [thread_steps]; [done|].
  destruct (s_threads s !! i) as [t|] eqn:E; [|done]. apply IH. eapply sys_next; [exact Hs|]. by constructor.
Qed.

Lemma auth_demo_reachable : sys_reachable (PK := list Z) (Sg := list Z) demo_service 5 demo_sys2.
Proof.
  apply thread_steps_reachable. eapply sys_next; [apply thread_steps_reachable|constructor].
  - eapply sys_next; [exact (sys_init demo_service 5 demo_world eq_refl eq_refl)|constructor]. apply Nat.ltb_lt. vm_compute. reflexivity.
  - apply Nat.ltb_lt. vm_compute. reflexivity.
Qed.

Definition demo_access_token : string := default EmptyString (issued demo_sys2 !! 0%nat).
Definition demo_access_header : list Z := ref_bytes (BEARER ++ demo_access_token).
Definition demo_access_req : Request :=
  {| metadata := {[ AUTHORIZATION_HEADER := demo_access_header ]}; ext_pubkey := None |}.

Lemma authenticated_key_approved_witness :
  exists pk, Some demo_key = Some pk /\ pk ∈ w_approved (s_world demo_sys2).
Proof.
  destruct (authenticated_key_approved demo_service 5 demo_sys2 demo_interceptor demo_access_req
    {| metadata := metadata demo_access_req; ext_pubkey := Some demo_key |}
    demo_access_header demo_access_token auth_demo_reachable) as (pk & H1 & H2 & _).
  - reflexivity.
  - vm_compute. reflexivity.
  - vm_compute. reflexivity.
  - apply (bool_decide_unpack _). vm_compute. exact I.
  - vm_compute. reflexivity.
  - exists pk. split; [exact H1|exact H2].
Defined.

(** A challenge is meant for one exchange, but two requests that have both read
    it before either removes it are both answered with tokens. *)
Definition demo_tokens_thread : thread := TokensThread (generate_auth_tokens demo_service demo_addr demo_tokens_req).
Definition demo_race : sys :=
  thread_steps 5 1 (thread_steps 5 2 (spawn demo_tokens_thread (thread_steps 2 1 (spawn demo_tokens_thread demo_sys1)))).
Example challenge_exchanged_twice :
  sys_reachable (PK := list Z) (Sg := list Z) demo_service 5 demo_race /\
  length (List.filter (fun t => match t with ChallengeThread _ _ => true | _ => false end) (s_threads demo_race)) = 1%nat /\
  length (issued demo_race) = 4%nat.
Proof.
  split; [|by vm_compute]. do 2 apply thread_steps_reachable.
  eapply sys_next; [apply thread_steps_reachable|apply step_tokens; apply Nat.ltb_lt; by vm_compute].
  eapply sys_next; [apply thread_steps_reachable|apply step_tokens; apply Nat.ltb_lt; by vm_compute].
  eapply sys_next; [exact (sys_init demo_service 5 demo_world eq_refl eq_refl)|apply step_challenge].
  apply Nat.ltb_lt. by vm_compute.
Qed.

Lemma challenges_bounded_witness :
  (queue_size (contents := id) (s_world demo_sys1) < AUTH_CHALLENGES_CAPACITY + 5)%nat.
Proof.
  apply (challenges_bounded (PK := list Z) (Sg := list Z) demo_service 5 demo_sys1).
  apply thread_steps_reachable. eapply sys_next; [exact (sys_init demo_service 5 demo_world eq_refl eq_refl)|constructor].
  apply Nat.ltb_lt. vm_compute. reflexivity.
Defined.

End demo.
