(* ===== verification/BlockEngineStats.v ===== *)
(** * Counters of the block engine connection
    ([src/block_engine/src/block_engine_stats.rs])

    Nineteen 64-bit counters that saturate, one of them a high-water mark. *)

From Stdlib Require Import ZArith Lia String.
From stdpp Require Import base strings list.
From S2P Require Import Prelude.

Record BlockEngineStats := {
  heartbeat_count : Z;
  heartbeat_elapsed_us : Z;
  aoi_update_count : Z;
  aoi_update_elapsed_us : Z;
  aoi_accounts_received : Z;
  poi_update_count : Z;
  poi_update_elapsed_us : Z;
  poi_accounts_received : Z;
  num_packets_received : Z;
  packet_filter_elapsed_us : Z;
  packet_forward_elapsed_us : Z;
  block_engine_packet_sender_len : Z;
  auth_refresh_count : Z;
  refresh_auth_elapsed_us : Z;
  packet_forward_count : Z;
  metrics_delay_us : Z;
  accounts_of_interest_len : Z;
  programs_of_interest_len : Z;
  flush_elapsed_us : Z;
}.
#[global] Instance BlockEngineStats_eta : Eta BlockEngineStats := fun s => {|
  heartbeat_count := heartbeat_count s;
  heartbeat_elapsed_us := heartbeat_elapsed_us s;
  aoi_update_count := aoi_update_count s;
  aoi_update_elapsed_us := aoi_update_elapsed_us s;
  aoi_accounts_received := aoi_accounts_received s;
  poi_update_count := poi_update_count s;
  poi_update_elapsed_us := poi_update_elapsed_us s;
  poi_accounts_received := poi_accounts_received s;
  num_packets_received := num_packets_received s;
  packet_filter_elapsed_us := packet_filter_elapsed_us s;
  packet_forward_elapsed_us := packet_forward_elapsed_us s;
  block_engine_packet_sender_len := block_engine_packet_sender_len s;
  auth_refresh_count := auth_refresh_count s;
  refresh_auth_elapsed_us := refresh_auth_elapsed_us s;
  packet_forward_count := packet_forward_count s;
  metrics_delay_us := metrics_delay_us s;
  accounts_of_interest_len := accounts_of_interest_len s;
  programs_of_interest_len := programs_of_interest_len s;
  flush_elapsed_us := flush_elapsed_us s;
|}.

Definition stats_default : BlockEngineStats := {|
  heartbeat_count := 0;
  heartbeat_elapsed_us := 0;
  aoi_update_count := 0;
  aoi_update_elapsed_us := 0;
  aoi_accounts_received := 0;
  poi_update_count := 0;
  poi_update_elapsed_us := 0;
  poi_accounts_received := 0;
  num_packets_received := 0;
  packet_filter_elapsed_us := 0;
  packet_forward_elapsed_us := 0;
  block_engine_packet_sender_len := 0;
  auth_refresh_count := 0;
  refresh_auth_elapsed_us := 0;
  packet_forward_count := 0;
  metrics_delay_us := 0;
  accounts_of_interest_len := 0;
  programs_of_interest_len := 0;
  flush_elapsed_us := 0;
|}.

Definition increment_heartbeat_count (num : Z) (s : BlockEngineStats) : BlockEngineStats :=
  s <| heartbeat_count ::= fun x => u64_saturating_add x num |>.
Definition increment_heartbeat_elapsed_us (num : Z) (s : BlockEngineStats) : BlockEngineStats :=
  s <| heartbeat_elapsed_us ::= fun x => u64_saturating_add x num |>.
Definition increment_aoi_update_count (num : Z) (s : BlockEngineStats) : BlockEngineStats :=
  s <| aoi_update_count ::= fun x => u64_saturating_add x num |>.
Definition increment_aoi_update_elapsed_us (num : Z) (s : BlockEngineStats) : BlockEngineStats :=
  s <| aoi_update_elapsed_us ::= fun x => u64_saturating_add x num |>.
Definition increment_aoi_accounts_received (num : Z) (s : BlockEngineStats) : BlockEngineStats :=
  s <| aoi_accounts_received ::= fun x => u64_saturating_add x num |>.
Definition increment_poi_update_count (num : Z) (s : BlockEngineStats) : BlockEngineStats :=
  s <| poi_update_count ::= fun x => u64_saturating_add x num |>.
Definition increment_poi_update_elapsed_us (num : Z) (s : BlockEngineStats) : BlockEngineStats :=
  s <| poi_update_elapsed_us ::= fun x => u64_saturating_add x num |>.
Definition increment_poi_accounts_received (num : Z) (s : BlockEngineStats) : BlockEngineStats :=
  s <| poi_accounts_received ::= fun x => u64_saturating_add x num |>.
Definition increment_num_packets_received (num : Z) (s : BlockEngineStats) : BlockEngineStats :=
  s <| num_packets_received ::= fun x => u64_saturating_add x num |>.
Definition increment_packet_filter_elapsed_us (num : Z) (s : BlockEngineStats) : BlockEngineStats :=
  s <| packet_filter_elapsed_us ::= fun x => u64_saturating_add x num |>.
Definition increment_packet_forward_elapsed_us (num : Z) (s : BlockEngineStats) : BlockEngineStats :=
  s <| packet_forward_elapsed_us ::= fun x => u64_saturating_add x num |>.
Definition update_block_engine_packet_sender_len (num : Z) (s : BlockEngineStats) : BlockEngineStats :=
  s <| block_engine_packet_sender_len ::= fun x => Z.max x num |>.
Definition increment_auth_refresh_count (num : Z) (s : BlockEngineStats) : BlockEngineStats :=
  s <| auth_refresh_count ::= fun x => u64_saturating_add x num |>.
Definition increment_refresh_auth_elapsed_us (num : Z) (s : BlockEngineStats) : BlockEngineStats :=
  s <| refresh_auth_elapsed_us ::= fun x => u64_saturating_add x num |>.
Definition increment_packet_forward_count (num : Z) (s : BlockEngineStats) : BlockEngineStats :=
  s <| packet_forward_count ::= fun x => u64_saturating_add x num |>.
Definition increment_metrics_delay_us (num : Z) (s : BlockEngineStats) : BlockEngineStats :=
  s <| metrics_delay_us ::= fun x => u64_saturating_add x num |>.
Definition increment_accounts_of_interest_len (num : Z) (s : BlockEngineStats) : BlockEngineStats :=
  s <| accounts_of_interest_len ::= fun x => u64_saturating_add x num |>.
Definition increment_programs_of_interest_len (num : Z) (s : BlockEngineStats) : BlockEngineStats :=
  s <| programs_of_interest_len ::= fun x => u64_saturating_add x num |>.
Definition increment_flush_elapsed_us (num : Z) (s : BlockEngineStats) : BlockEngineStats :=
  s <| flush_elapsed_us ::= fun x => u64_saturating_add x num |>.

(** The counters in the order of [report], under the names of the data point. *)
Definition stat_fields (s : BlockEngineStats) : list (string * Z) := [
  ("heartbeat_count", heartbeat_count s);
  ("heartbeat_elapsed_us", heartbeat_elapsed_us s);
  ("aoi_update_count", aoi_update_count s);
  ("aoi_update_elapsed_us", aoi_update_elapsed_us s);
  ("aoi_accounts_received", aoi_accounts_received s);
  ("poi_update_count", poi_update_count s);
  ("poi_update_elapsed_us", poi_update_elapsed_us s);
  ("poi_accounts_received", poi_accounts_received s);
  ("num_packets_received", num_packets_received s);
  ("packet_filter_elapsed_us", packet_filter_elapsed_us s);
  ("packet_forward_elapsed_us", packet_forward_elapsed_us s);
  ("block_engine_packet_sender_len", block_engine_packet_sender_len s);
  ("auth_refresh_count", auth_refresh_count s);
  ("refresh_auth_elapsed_us", refresh_auth_elapsed_us s);
  ("packet_forward_count", packet_forward_count s);
  ("metrics_delay_us", metrics_delay_us s);
  ("accounts_of_interest_len", accounts_of_interest_len s);
  ("programs_of_interest_len", programs_of_interest_len s);
  ("flush_elapsed_us", flush_elapsed_us s)
]%string.

(** [report]: every counter is cast to [i64]. *)
Definition report (s : BlockEngineStats) : list (string * Z) :=
  (fun kv => (kv.1, as_i64 kv.2)) <$> stat_fields s.

(** ** Bounds *)

Definition stats_ok (s : BlockEngineStats) : Prop := Forall (fun kv => is_u64 kv.2) (stat_fields s).
Definition stats_le (s t : BlockEngineStats) : Prop :=
  Forall2 (fun a b => a.2 <= b.2) (stat_fields s) (stat_fields t).

#[global] Instance stats_le_preorder : PreOrder stats_le.
Proof.
  split.
  - intros s. unfold stats_le. by induction (stat_fields s); constructor.
  - intros s t u H1 H2. unfold stats_le in *. revert H1 H2.
    generalize (stat_fields s), (stat_fields t), (stat_fields u). intros l k m H. revert m.
    induction H as [|a b l k Hab _ IH]; intros m Hm; inversion Hm; subst; constructor; [lia|].
    by apply IH.
Qed.

Lemma stats_default_ok : stats_ok stats_default.
Proof. repeat constructor; cbn; unfold u64_max; lia. Qed.

(** An increment keeps every counter a [u64] and decreases none. *)
Definition grows (f : BlockEngineStats -> BlockEngineStats) : Prop :=
  forall s, stats_ok s -> stats_ok (f s) /\ stats_le s (f s).

Ltac grow_one :=
  let s := fresh "s" in let Hs := fresh "Hs" in
  intros s Hs; unfold stats_ok, stats_le, stat_fields in *; cbn -[u64_saturating_add] in *;
  repeat match goal with H : Forall _ (_ :: _) |- _ => apply Forall_cons in H as [? H] end;
  split; repeat constructor; cbn [snd] in *; unfold is_u64, u64_saturating_add in *;
  first [assumption | lia].

(** The methods that change a counter, at an argument [n]. *)
Definition stat_methods (n : Z) : list (BlockEngineStats -> BlockEngineStats) :=
  [increment_heartbeat_count n; increment_heartbeat_elapsed_us n;
   increment_aoi_update_count n; increment_aoi_update_elapsed_us n;
   increment_aoi_accounts_received n; increment_poi_update_count n;
   increment_poi_update_elapsed_us n; increment_poi_accounts_received n;
   increment_num_packets_received n; increment_packet_filter_elapsed_us n;
   increment_packet_forward_elapsed_us n; update_block_engine_packet_sender_len n;
   increment_auth_refresh_count n; increment_refresh_auth_elapsed_us n;
   increment_packet_forward_count n; increment_metrics_delay_us n;
   increment_accounts_of_interest_len n; increment_programs_of_interest_len n;
   increment_flush_elapsed_us n].

Lemma stat_methods_grow n : is_u64 n -> Forall grows (stat_methods n).
Proof.
  intros Hn. unfold stat_methods. repeat (apply Forall_cons; split; [grow_one|]). apply List.Forall_nil.
Qed.

Lemma method_grows n f : is_u64 n -> In f (stat_methods n) -> grows f.
Proof. intros Hn Hf. apply stat_methods_grow in Hn. rewrite List.Forall_forall in Hn. by apply Hn. Qed.

(** Chains of method calls, from the inside out. *)
Lemma grows_step n f s0 s :
  is_u64 n -> In f (stat_methods n) -> stats_ok s /\ stats_le s0 s -> stats_ok (f s) /\ stats_le s0 (f s).
Proof.
  intros Hn Hf [Hs Hle]. destruct (method_grows n f Hn Hf s Hs) as [H1 H2].
  split; [done|by transitivity s].
Qed.

Ltac grow_chain :=
  repeat match goal with
  | |- stats_ok (?m ?x ?st) /\ stats_le _ _ =>
      apply (grows_step x (m x)); [| unfold stat_methods; repeat (first [apply in_eq | apply in_cons]) |]
  end.
