(* ===== verification/BlockEngine.v ===== *)
(** * The connection to the block engine
    ([src/block_engine/src/block_engine.rs])

    A thread authenticates with the block engine, opens a packet stream and
    runs an event loop over it until something fails, then starts over.  The
    filters it applies to packets are in [InterestFilter]. *)

From Stdlib Require Import ZArith Lia String.
From stdpp Require Import base gmap strings list.
From S2P Require Import Prelude Interfaces Convert Ofac InterestFilter AuthInterceptor AuthService.
From S2P Require Import BlockEngineStats.

Record BlockEngineConfig := { block_engine_url : string; auth_service_url : string }.

(** [auth::Token] *)
Record Token := { value : string; expires_at : option Timestamp }.

(** What the remote authentication service answers, errors as text. *)
Record auth_client := {
  rpc_generate_auth_challenge : GenerateAuthChallengeRequest -> string + string;
  rpc_generate_auth_tokens : GenerateAuthTokensRequest -> string + (option Token * option Token);
  rpc_refresh_access_token : string -> string + option Token;
}.

(** [rpc(..).await.map_err(|e| f(e.to_string()))?] *)
Definition rpc {A} (f : string -> BlockEngineError) (r : string + A) : result BlockEngineError A :=
  match r with inl e => Err (f e) | inr a => Ok a end.

(** [packet_batch_update::Msg], the messages of the packet stream. *)
Inductive Msg := Batches (b : ExpiringPacketBatch) | HeartbeatMsg (h : Heartbeat).

Section block_engine.
Context {C : Type -> Type} `{MP : Mpsc C}.
Context {T : Type} `{TC : TimedCache T Pubkey} `{PA : PacketApi}.
Context `{TP : Text Pubkey} `{TI : Text IpAddr}.
Context {EP KP : Type} `{EA : EndpointApi EP} `{SG : Signer KP} `{TS : TimestampApi} `{Pr : AuthProto}.
Context `{Md : MetadataApi}.

Definition BLOCK_ENGINE_PACKET_QUEUE_CAPACITY : nat := 1000.

(** ** Authentication *)

(** The answer to a challenge: the message and its signature. *)
Definition tokens_request (keypair : KP) (auth_response : string) : GenerateAuthTokensRequest :=
  let challenge := (to_string (signer_pubkey keypair) ++ "-" ++ auth_response)%string in
  {| req_challenge := challenge; req_client_pubkey := signer_pubkey keypair;
     signed_challenge := sign_message keypair challenge |}.

Definition auth (client : auth_client) (keypair : KP) : result BlockEngineError (Token * Token) :=
  auth_response ← rpc AuthServiceFailure (rpc_generate_auth_challenge client
    {| role := ROLE_RELAYER; req_pubkey := signer_pubkey keypair |});
  tokens ← rpc AuthServiceFailure (rpc_generate_auth_tokens client (tokens_request keypair auth_response));
  match tokens with
  | (Some access_token, Some refresh_token) =>
      match expires_at access_token, expires_at refresh_token with
      | Some _, Some _ => Ok (access_token, refresh_token)
      | _, _ => Err (AuthServiceFailure "auth tokens don't have valid expiration time")
      end
  | _ => Err (AuthServiceFailure "failed to get valid auth tokens")
  end.

(** The client's [AuthInterceptor::call]: the header is replaced; a token that
    is not a legal header value makes the [unwrap] panic. *)
Definition add_access_token {E} (access_token : Token) (m : MetadataMap) : result E MetadataMap :=
  v ← unwrap (parse_value ("Bearer " ++ value access_token)%string);
  Ok (<["authorization"%string := v]> m).

(** A call through the intercepted client: the interceptor sees the metadata of
    the new request, empty, and the server what it made of them. *)
Definition intercepted {A} (access_token : Token) (server : MetadataMap -> string + A)
    : result BlockEngineError A :=
  m ← add_access_token access_token ∅;
  rpc BlockEngineFailure (server m).

(** [SystemTime::try_from(token.expires_at_utc.as_ref().unwrap().clone()).unwrap()] *)
Definition token_expiration (t : Token) : result BlockEngineError Z :=
  ts ← unwrap (expires_at t); unwrap (system_time_of ts).

(** [later.duration_since(now)], an error when [now] is after [later]. *)
Definition duration_since (later now : Z) : option Z :=
  if now <=? later then Some (later - now) else None.

Definition REFRESH_MARGIN : Z := 5 * 60 * NANOS.
Definition expiring_soon (duration_left : option Z) : bool :=
  match duration_left with Some dur => dur <? REFRESH_MARGIN | None => true end.

(** [maybe_refresh_auth]; [now_access] and [now_refresh] are the two clock
    readings.  Answers whether a refresh took place and the tokens to use from
    now on, access token first. *)
Definition maybe_refresh_auth (client : auth_client) (keypair : KP) (now_access now_refresh : Z)
    (access_token refresh_token : Token) : result BlockEngineError (bool * Token * Token) :=
  access_expiration ← token_expiration access_token;
  refresh_expiration ← token_expiration refresh_token;
  match expiring_soon (duration_since refresh_expiration now_refresh),
        expiring_soon (duration_since access_expiration now_access) with
  | true, _ =>
      tokens ← auth client keypair;
      Ok (true, tokens.1, tokens.2)
  | false, true =>
      response ← rpc AuthServiceFailure (rpc_refresh_access_token client (value refresh_token));
      match response with
      | None => Err (AuthServiceFailure "missing access token")
      | Some access_token => Ok (true, access_token, refresh_token)
      end
  | false, false => Ok (false, access_token, refresh_token)
  end.

(** ** The event loop *)

(** [sent] is a history variable: the messages the packet stream accepted. *)
Record be_state := {
  be_sender : C Msg;
  accounts_of_interest : T;
  programs_of_interest : T;
  forward_all : bool;
  be_stats : BlockEngineStats;
  be_heartbeat_count : Z;
  last_response_at : Z;
  be_access_token : Token;
  be_refresh_token : Token;
  sent : list Msg;
}.
#[global] Instance be_state_eta : Eta be_state := fun s => {|
  be_sender := be_sender s; accounts_of_interest := accounts_of_interest s;
  programs_of_interest := programs_of_interest s; forward_all := forward_all s;
  be_stats := be_stats s; be_heartbeat_count := be_heartbeat_count s;
  last_response_at := last_response_at s; be_access_token := be_access_token s;
  be_refresh_token := be_refresh_token s; sent := sent s |}.

(** The arms of the [select!]. *)
Inductive be_event :=
| PacketResponse (maybe_response : stream_read ())
| HeartbeatTick
| AoiMessage (maybe_aoi : stream_read AccountsOfInterestUpdate)
| PoiMessage (maybe_poi : stream_read ProgramsOfInterestUpdate)
| BlockEngineBatches (batches : option BlockEnginePackets)
| AuthRefreshTick (client : auth_client) (now_access now_refresh : Z)
| MetricsTick.

(** What an iteration reads: the [Instant] in nanoseconds, the clock of the
    caches in seconds, the durations it measures in microseconds, the lookup
    tables, and what the stream has taken from the channel by the time a send
    succeeds or times out, and by the end of the iteration. *)
Record be_readings := {
  rd_instant : Z;
  rd_cache_now : Z;
  rd_elapsed : Z;
  rd_elapsed2 : Z;
  rd_tick_delay : Z;
  rd_alt : AltCache;
  rd_drain : C Msg -> C Msg;
  rd_drain_end : C Msg -> C Msg;
}.

(** [sender.send_timeout(msg, 3 s)]: an error when the channel is closed or
    still full at the end. *)
Definition send_timeout (drain : C Msg -> C Msg) (m : Msg) (s : be_state) : option be_state :=
  match try_send m (drain (be_sender s)) with
  | (c, Sent) => Some (s <| be_sender := c |> <| sent ::= fun l => l ++ [m] |>)
  | _ => None
  end.

Definition check_and_send_heartbeat (drain : C Msg -> C Msg) (s : be_state)
    : result BlockEngineError be_state :=
  ok_or (send_timeout drain (HeartbeatMsg {| count := be_heartbeat_count s |}) s)
    (BlockEngineFailure "error sending heartbeat").

(** [forward_packets], with the number of packets of the batch. *)
Definition be_forward_packets (drain : C Msg -> C Msg) (batch : ExpiringPacketBatch) (s : be_state)
    : result BlockEngineError (nat * be_state) :=
  b ← unwrap (epb_batch batch);
  s ← ok_or (send_timeout drain (Batches batch) s) (BlockEngineFailure "error forwarding packets");
  Ok (length (packets b), s).

Definition BLOCK_ENGINE_RESPONSE_TIMEOUT : Z := 30 * NANOS.

Section loop.
Context (keypair : KP) (ofac_addresses : gset Pubkey).

Definition be_arm (rd : be_readings) (ev : be_event) (s : be_state) : result BlockEngineError be_state :=
  match ev with
  | PacketResponse maybe_response =>
      response ← rpc BlockEngineFailure maybe_response;
      _ ← ok_or response (BlockEngineFailure "block engine packet response stream closed");
      Ok (s <| last_response_at := rd_instant rd |>)
  | HeartbeatTick =>
      s ← check_and_send_heartbeat (rd_drain rd) s;
      Ok (s <| be_stats ::= fun st => increment_heartbeat_count 1
                 (increment_heartbeat_elapsed_us (u64 (rd_elapsed rd)) st) |>
            <| be_heartbeat_count ::= fun n => u64_add n 1 |>)
  | AoiMessage maybe_aoi =>
      '(num_pubkeys, cache, all) ← handle_aoi (rd_cache_now rd) maybe_aoi (accounts_of_interest s) (forward_all s);
      Ok (s <| accounts_of_interest := cache |> <| forward_all := all |>
            <| be_stats ::= fun st => increment_aoi_accounts_received (u64 (Z.of_nat num_pubkeys))
                 (increment_aoi_update_count 1 (increment_aoi_update_elapsed_us (u64 (rd_elapsed rd)) st)) |>)
  | PoiMessage maybe_poi =>
      '(num_pubkeys, cache, all) ← handle_poi (rd_cache_now rd) maybe_poi (programs_of_interest s) (forward_all s);
      Ok (s <| programs_of_interest := cache |> <| forward_all := all |>
            <| be_stats ::= fun st => increment_poi_accounts_received (u64 (Z.of_nat num_pubkeys))
                 (increment_poi_update_count 1 (increment_poi_update_elapsed_us (u64 (rd_elapsed rd)) st)) |>)
  | BlockEngineBatches batches =>
      batches ← ok_or batches (BlockEngineFailure "block engine packet receiver disconnected");
      let num_packets := total_len (banking_packet_batch batches) in
      let '(filtered_packets, caches) :=
        filter_packets (rd_cache_now rd) batches (rd_alt rd) ofac_addresses (forward_all s)
          (accounts_of_interest s, programs_of_interest s) in
      let s := s <| accounts_of_interest := caches.1 |> <| programs_of_interest := caches.2 |>
                 <| be_stats ::= fun st => increment_packet_filter_elapsed_us (u64 (rd_elapsed rd))
                      (increment_num_packets_received num_packets st) |> in
      match filtered_packets with
      | None => Ok s
      | Some batch =>
          '(packet_forward_count, s) ← be_forward_packets (rd_drain rd) batch s;
          Ok (s <| be_stats ::= fun st => increment_packet_forward_elapsed_us (u64 (rd_elapsed2 rd))
                     (increment_packet_forward_count (u64 (Z.of_nat packet_forward_count)) st) |>)
      end
  | AuthRefreshTick client now_access now_refresh =>
      '(did_refresh, access, refresh) ←
        maybe_refresh_auth client keypair now_access now_refresh (be_access_token s) (be_refresh_token s);
      Ok (s <| be_access_token := access |> <| be_refresh_token := refresh |>
            <| be_stats ::= fun st => increment_refresh_auth_elapsed_us (u64 (rd_elapsed rd))
                 (if did_refresh : bool then increment_auth_refresh_count 1 st else st) |>)
  | MetricsTick =>
      _ ← ensure (negb (BLOCK_ENGINE_RESPONSE_TIMEOUT <? rd_instant rd - last_response_at s))
        (BlockEngineFailure "no response from block engine in 30s, reconnecting");
      Ok (s <| accounts_of_interest ::= flush (rd_cache_now rd) |>
            <| programs_of_interest ::= flush (rd_cache_now rd) |>
            <| be_stats := stats_default |>)
  end.

(** The counters [MetricsTick] reports before it resets them. *)
Definition be_reported (rd : be_readings) (s : be_state) : list (string * Z) :=
  report (increment_programs_of_interest_len
    (u64 (Z.of_nat (cache_size (flush (rd_cache_now rd) (programs_of_interest s)))))
    (increment_accounts_of_interest_len
      (u64 (Z.of_nat (cache_size (flush (rd_cache_now rd) (accounts_of_interest s)))))
      (increment_flush_elapsed_us (u64 (rd_elapsed rd))
        (increment_metrics_delay_us (u64 (rd_tick_delay rd)) (be_stats s))))).

(** The end of an iteration: the high-water mark of the packet channel. *)
Definition be_iteration (rd : be_readings) (ev : be_event) (s : be_state) : result BlockEngineError be_state :=
  s ← be_arm rd ev s;
  let sender := rd_drain_end rd (be_sender s) in
  Ok (s <| be_sender := sender |>
        <| be_stats ::= update_block_engine_packet_sender_len
             (u64 (Z.of_nat BLOCK_ENGINE_PACKET_QUEUE_CAPACITY - Z.of_nat (capacity sender))) |>).

(** The body of [handle_packet_stream]: the exit flag is read at the head of
    every iteration.  The last state is kept next to the result. *)
Fixpoint be_run (inputs : list (bool * be_readings * be_event)) (s : be_state)
    : result BlockEngineError () * be_state :=
  match inputs with
  | [] => (Ok (), s)
  | (exit, rd, ev) :: inputs =>
      if exit : bool then (Ok (), s)
      else match be_iteration rd ev s with
           | Ok s => be_run inputs s
           | Err e => (Err e, s)
           | Panic => (Panic, s)
           end
  end.

(** The state [handle_packet_stream] starts its loop in. *)
Definition be_init (aoi_cache_ttl_s now : Z) (access_token refresh_token : Token) : be_state := {|
  be_sender := channel BLOCK_ENGINE_PACKET_QUEUE_CAPACITY;
  accounts_of_interest := with_lifespan aoi_cache_ttl_s;
  programs_of_interest := with_lifespan aoi_cache_ttl_s;
  forward_all := false; be_stats := stats_default; be_heartbeat_count := 0;
  last_response_at := now; be_access_token := access_token; be_refresh_token := refresh_token;
  sent := [] |}.

End loop.

(** ** Connecting *)

(** [is_connected_to_block_engine], shared with the rest of the relayer, and the
    packets waiting in [block_engine_receiver]. *)
Record handler_state := { is_connected_to_block_engine : bool; backlog : list BlockEnginePackets }.
#[global] Instance handler_state_eta : Eta handler_state := fun h =>
  {| is_connected_to_block_engine := is_connected_to_block_engine h; backlog := backlog h |}.

(** What one attempt meets: the answers of the two servers (those of the block
    engine to the metadata of the requests), the clocks, and the events of the
    stream if it opens. *)
Record attempt := {
  at_auth_connect : EP -> string + auth_client;
  at_now_access : Z;
  at_now_refresh : Z;
  at_engine_connect : EP -> string + ();
  at_subscribe_aoi : MetadataMap -> string + ();
  at_subscribe_poi : MetadataMap -> string + ();
  at_packet_stream : MetadataMap -> string + ();
  at_start : Z;
  at_inputs : list (bool * be_readings * be_event);
}.

(** [Endpoint::from_str(url).expect(..)], with TLS for an https URL. *)
Definition endpoint_for (url : string) : result BlockEngineError EP :=
  e ← unwrap (endpoint_from_str url);
  if negb (Nat.eqb (length (str_split "https" url)) 1) then unwrap (tls_config e) else Ok e.

(** [auth_and_connect] up to the opening of the streams in [start_event_loop];
    the [info!] unwraps the remaining lifetime of both tokens. *)
Definition connect (cfg : BlockEngineConfig) (keypair : KP) (a : attempt) : result BlockEngineError (Token * Token) :=
  auth_endpoint ← endpoint_for (auth_service_url cfg);
  client ← rpc AuthServiceFailure (at_auth_connect a auth_endpoint);
  tokens ← auth client keypair;
  access_expiration ← token_expiration tokens.1;
  refresh_expiration ← token_expiration tokens.2;
  _ ← unwrap (duration_since access_expiration (at_now_access a));
  _ ← unwrap (duration_since refresh_expiration (at_now_refresh a));
  engine_endpoint ← endpoint_for (block_engine_url cfg);
  _ ← rpc BlockEngineFailure (at_engine_connect a engine_endpoint);
  _ ← intercepted tokens.1 (at_subscribe_aoi a);
  _ ← intercepted tokens.1 (at_subscribe_poi a);
  _ ← intercepted tokens.1 (at_packet_stream a);
  Ok tokens.

(** [handle_packet_stream]: drop the backlog, raise the flag, run the loop. *)
Definition handle_packet_stream (keypair : KP) (ofac_addresses : gset Pubkey) (aoi_cache_ttl_s : Z)
    (tokens : Token * Token) (a : attempt) (h : handler_state)
    : result BlockEngineError () * handler_state * option be_state :=
  let h := h <| backlog := [] |> <| is_connected_to_block_engine := true |> in
  let '(r, s) := be_run keypair ofac_addresses (at_inputs a)
                   (be_init aoi_cache_ttl_s (at_start a) tokens.1 tokens.2) in
  (r, h, Some s).

Definition auth_and_connect (cfg : BlockEngineConfig) (keypair : KP) (ofac_addresses : gset Pubkey)
    (aoi_cache_ttl_s : Z) (a : attempt) (h : handler_state)
    : result BlockEngineError () * handler_state * option be_state :=
  match connect cfg keypair a with
  | Ok tokens => handle_packet_stream keypair ofac_addresses aoi_cache_ttl_s tokens a h
  | Err e => (Err e, h, None)
  | Panic => (Panic, h, None)
  end.

(** One turn of the thread of [BlockEngineRelayerHandler::new]: the flag is
    lowered after every attempt; a panic ends the thread.  The last component
    tells whether it sleeps two seconds before the next attempt. *)
Definition handler_iteration (cfg : BlockEngineConfig) (keypair : KP) (ofac_addresses : gset Pubkey)
    (aoi_cache_ttl_s : Z) (a : attempt) (h : handler_state) : result Empty_set (handler_state * bool) :=
  match auth_and_connect cfg keypair ofac_addresses aoi_cache_ttl_s a h with
  | (Panic, _, _) => Panic
  | (Ok _, h, _) => Ok (h <| is_connected_to_block_engine := false |>, false)
  | (Err _, h, _) => Ok (h <| is_connected_to_block_engine := false |>, true)
  end.

End block_engine.
