(* ===== verification/BlockEngineProofs.v ===== *)
(** * Properties of the block engine connection

    The stream of messages of the event loop, specified on the history of its
    events; its watchdog, wildcard, counters and token refresh; the attempts of
    the connection thread; and the client's handshake against the service of
    [AuthService]. *)

From Stdlib Require Import ZArith Lia String.
From stdpp Require Import base gmap strings list sorting.
From S2P Require Import Prelude Interfaces Reference Convert Ofac InterestFilter AuthInterceptor.
From S2P Require Import Health AuthChallenges AuthService AuthSystem AuthProofs BlockEngineStats BlockEngine.

Section proofs.
Context {C : Type -> Type} `{MP : Mpsc C}.
Context {T : Type} `{TC : TimedCache T Pubkey} `{PA : PacketApi}.
Context `{TP : Text Pubkey} `{TI : Text IpAddr}.
Context {EP KP : Type} `{EA : EndpointApi EP} `{SG : Signer KP} `{TS : TimestampApi} `{Pr : AuthProto}.
Context `{Md : MetadataApi} (keypair : KP) (ofac : gset Pubkey).

Abbreviation be_state := (be_state (C := C) (T := T)).
Abbreviation be_readings := (be_readings (C := C)).
Implicit Types (rd : be_readings) (s : be_state) (ev : be_event).

(** ** One iteration *)

(** The wildcard in an interest update. *)
Definition has_star (names : list string) : bool := existsb (String.eqb "*") names.
Definition star_event (ev : be_event) : bool :=
  match ev with
  | AoiMessage (inr (Some u)) => has_star (accounts u)
  | PoiMessage (inr (Some u)) => has_star (programs u)
  | _ => false
  end.

(** What an iteration sends. *)
Definition messages rd ev s : list Msg :=
  match ev with
  | HeartbeatTick => [HeartbeatMsg {| count := be_heartbeat_count s |}]
  | BlockEngineBatches (Some bep) =>
      Batches <$> option_list
        (filter_packets (rd_cache_now rd) bep (rd_alt rd) ofac (forward_all s)
           (accounts_of_interest s, programs_of_interest s)).1
  | _ => []
  end.

(** The part of the state the theorems follow. *)
Definition iteration_view rd ev s s' : Prop :=
  sent s' = sent s ++ messages rd ev s /\
  be_heartbeat_count s' =
    match ev with HeartbeatTick => u64_add (be_heartbeat_count s) 1 | _ => be_heartbeat_count s end /\
  forward_all s' = forward_all s || star_event ev /\
  last_response_at s' =
    match ev with PacketResponse _ => rd_instant rd | _ => last_response_at s end.

Lemma send_timeout_Some drain m s s' :
  send_timeout drain m s = Some s' ->
  exists c, s' = s <| be_sender := c |> <| sent ::= fun l => l ++ [m] |>.
Proof.
  unfold send_timeout. destruct (try_send _ _) as [c []]; intros [= <-]. by exists c.
Qed.

Lemma handle_interest_all closed now msg cache all n (cache' : T) all' :
  handle_interest closed now msg cache all = Ok (n, cache', all') ->
  exists names, msg = inr (Some names) /\ all' = all || has_star names.
Proof.
  unfold handle_interest. destruct msg as [|[names|]]; try done. intros [= _ _ <-].
  exists names. split; [done|]. unfold has_star. by destruct (existsb _ names), all.
Qed.

Lemma be_arm_view rd ev s s' : be_arm keypair ofac rd ev s = Ok s' -> iteration_view rd ev s s'.
Proof.
  unfold iteration_view. destruct ev as [r| |m|m|b|cl na nr|]; cbn -[filter_packets u64_add u64_saturating_add].
  - intros (x & _ & H)%bind_Ok_inv. apply bind_Ok_inv in H as (? & _ & [= <-]). cbn.
    by rewrite app_nil_r, orb_false_r.
  - intros (s1 & H%ok_or_Ok & [= <-])%bind_Ok_inv. apply send_timeout_Some in H as (c & ->).
    cbn -[u64_add]. by rewrite orb_false_r.
  - intros ([[n c] all] & H & [= <-])%bind_Ok_inv.
    apply handle_interest_all in H as (names & Hm & ->). cbn. rewrite app_nil_r.
    destruct m as [|[u|]]; cbn in Hm; try done. by injection Hm as <-.
  - intros ([[n c] all] & H & [= <-])%bind_Ok_inv.
    apply handle_interest_all in H as (names & Hm & ->). cbn. rewrite app_nil_r.
    destruct m as [|[u|]]; cbn in Hm; try done. by injection Hm as <-.
  - intros (bep & Hb%ok_or_Ok & H)%bind_Ok_inv. subst b.
    destruct (filter_packets _ _ _ _ _ _) as [[batch|] c]; cbn in H |- *.
    + apply bind_Ok_inv in H as ([n s1] & H & [= <-]).
      apply bind_Ok_inv in H as (pb & _ & H). apply bind_Ok_inv in H as (s2 & H2%ok_or_Ok & [= _ <-]).
      apply send_timeout_Some in H2 as (c' & ->). cbn. by rewrite orb_false_r.
    + injection H as <-. cbn. by rewrite app_nil_r, orb_false_r.
  - intros ([[b a] r] & _ & [= <-])%bind_Ok_inv. cbn. by rewrite app_nil_r, orb_false_r.
  - intros (x & _ & [= <-])%bind_Ok_inv. cbn. by rewrite app_nil_r, orb_false_r.
Qed.

Lemma be_iteration_view rd ev s s' : be_iteration keypair ofac rd ev s = Ok s' -> iteration_view rd ev s s'.
Proof. intros (s1 & H%be_arm_view & [= <-])%bind_Ok_inv. exact H. Qed.

(** A run is a sequence of completed iterations from its first state. *)
Inductive completed : list (be_readings * be_event) -> be_state -> be_state -> Prop :=
| completed_nil s : completed [] s s
| completed_snoc done s s1 rd ev s2 :
    completed done s s1 -> be_iteration keypair ofac rd ev s1 = Ok s2 ->
    completed (done ++ [(rd, ev)]) s s2.

Lemma completed_cons rd ev s s1 done s2 :
  be_iteration keypair ofac rd ev s = Ok s1 -> completed done s1 s2 -> completed ((rd, ev) :: done) s s2.
Proof.
  intros Hi. induction 1 as [s1|done s1 s2 rd' ev' s3 _ IH Hi'].
  - apply (completed_snoc [] s s rd ev s1); [constructor|done].
  - change ((rd, ev) :: done ++ [(rd', ev')]) with (((rd, ev) :: done) ++ [(rd', ev')]).
    econstructor; [by apply IH|done].
Qed.

(** The state a run stops in was reached by the iterations before the stop:
    all of them, or those before the exit flag was read or an iteration failed. *)
Lemma be_run_completed inputs s :
  exists dn rest, inputs = dn ++ rest /\ Forall (fun i => i.1.1 = false) dn /\
    completed ((fun i => (i.1.2, i.2)) <$> dn) s (be_run keypair ofac inputs s).2 /\
    match (be_run keypair ofac inputs s).1 with
    | Ok _ => forall i, head rest = Some i -> i.1.1 = true
    | _ => exists i, head rest = Some i /\ i.1.1 = false
    end.
Proof.
  revert s. induction inputs as [|[[exit rd] ev] inputs IH]; intros s; cbn.
  { exists [], []. split_and!; [done..|constructor|done]. }
  destruct exit; [eexists [], _; split_and!; [reflexivity|done|constructor|by intros i [= <-]]|].
  destruct (be_iteration keypair ofac rd ev s) as [s1| |] eqn:E;
    [|eexists [], _; split_and!; [reflexivity|done|constructor|by eexists]..].
  destruct (IH s1) as (dn & rest & -> & Hx & Hc & Hend). exists ((false, rd, ev) :: dn), rest.
  split_and!; [done|by constructor|by eapply completed_cons|done].
Qed.

(** ** The packet stream, as the block engine is to see it

    The specification knows only the history of the connection, the events
    handled so far with the readings made for each, and no state of the loop. *)

Definition history : Type := list (be_readings * be_event).

(** The interest updates of a history, with the time of their arrival. *)
Definition aoi_updates (h : history) : list (Z * list string) :=
  omap (fun e => match e.2 with
                 | AoiMessage (inr (Some u)) => Some (rd_cache_now e.1, accounts u)
                 | _ => None
                 end) h.
Definition poi_updates (h : history) : list (Z * list string) :=
  omap (fun e => match e.2 with
                 | PoiMessage (inr (Some u)) => Some (rd_cache_now e.1, programs u)
                 | _ => None
                 end) h.

(** The wildcard has been asked for. *)
Definition wildcard (h : history) : Prop :=
  exists u, u ∈ aoi_updates h ++ poi_updates h /\ "*"%string ∈ u.2.

(** When a key was last listed, and whether it still counts at time [t]: for
    less than [ttl] seconds it does, after more than [ttl] seconds it does not. *)
Definition last_listed (updates : list (Z * list string)) (k : Pubkey) : option Z :=
  last (omap (fun u : Z * list string => if decide (k ∈ omap from_str u.2) then Some u.1 else None) updates).
Definition interested (ttl : Z) (updates : list (Z * list string)) (t : Z) (k : Pubkey) (b : bool) : Prop :=
  match last_listed updates k with
  | Some t0 => (t - t0 < ttl -> b = true) /\ (ttl < t - t0 -> b = false)
  | None => b = false
  end.

(** What a batch [bep] handled after [h] must become: the packets that are not
    discarded, deserialize, mention no listed address and are of interest, all
    of them and in order, in one message; no message when there is none. *)
Definition filtered_form (ttl : Z) (h : history) rd (bep : BlockEnginePackets) (out : list Msg) : Prop :=
  exists (aoi poi : Pubkey -> bool) (all : bool) (sel : Packet -> bool),
    (forall k, interested ttl (aoi_updates h) (rd_cache_now rd) k (aoi k)) /\
    (forall k, interested ttl (poi_updates h) (rd_cache_now rd) k (poi k)) /\
    (all = true <-> wildcard h) /\
    (forall p, sel p = true <-> discard p = false /\
       exists tx, deserialize_tx p = Some tx /\ wanted aoi poi (rd_alt rd) ofac all tx) /\
    out = match selected sel (banking_packet_batch bep) with
          | [] => []
          | l => [Batches {| epb_header := Some {| ts := Some (stamp bep) |};
                             epb_batch := Some {| packets := l |};
                             epb_expiry_ms := expiration bep |}]
          end.

Definition ticks (h : history) : nat :=
  length (List.filter (fun e => match e.2 with HeartbeatTick => true | _ => false end) h).

(** What the stream carries for one event, and for a history. *)
Definition carried (ttl : Z) (h : history) rd ev (out : list Msg) : Prop :=
  match ev with
  | HeartbeatTick => out = [HeartbeatMsg {| count := u64 (Z.of_nat (ticks h)) |}]
  | BlockEngineBatches (Some bep) => filtered_form ttl h rd bep out
  | _ => out = []
  end.
Inductive stream (ttl : Z) : history -> list Msg -> Prop :=
| stream_nil : stream ttl [] []
| stream_snoc h msgs rd ev out :
    stream ttl h msgs -> carried ttl h rd ev out -> stream ttl (h ++ [(rd, ev)]) (msgs ++ out).

(** The clock of the caches does not go back. *)
Definition clocks (h : history) : list Z := (fun e => rd_cache_now e.1) <$> h.

Section laws.
Context {lifespan : T -> Z} {TCL : TimedCacheLaws T Pubkey lifespan}.

(** One cache holds what [updates] listed, for every time from [now] on. *)
Definition cache_follows (ttl : Z) (updates : list (Z * list string)) (now : Z) (c : T) : Prop :=
  lifespan c = ttl /\ forall t k, now <= t -> interested ttl updates t k (live c t k).

Lemma follows_same ttl updates now now' (c c' : T) :
  now <= now' -> lifespan c' = lifespan c -> (forall t k, now' <= t -> live c' t k = live c t k) ->
  cache_follows ttl updates now c -> cache_follows ttl updates now' c'.
Proof.
  intros Hn Hl Hs [Hlife Hf]. split; [congruence|]. intros t k Ht. rewrite Hs by done. apply Hf. lia.
Qed.

Lemma follows_update ttl updates now now' names (c : T) :
  now <= now' -> cache_follows ttl updates now c ->
  cache_follows ttl (updates ++ [(now', names)]) now'
    (foldl (fun c k => cache_set now' k c) c (omap from_str names)).
Proof.
  intros Hn [Hlife Hf].
  split; [rewrite <- Hlife; by apply (foldl_cache_set now' (omap from_str names) c now')|].
  intros t k Ht. destruct (foldl_cache_set now' (omap from_str names) c t Ht) as (_ & Hin & Hexp & Hout).
  unfold interested, last_listed. rewrite omap_app. cbn. destruct (decide _) as [Hk|Hk]; cbn.
  - rewrite last_snoc, <- Hlife. split; [by apply Hin|by apply Hexp].
  - rewrite app_nil_r, Hout by done. apply Hf. lia.
Qed.

(** The interests the loop keeps are those of the history. *)
Definition interests_follow (ttl : Z) (h : history) (now : Z) s : Prop :=
  (forward_all s = true <-> wildcard h) /\
  cache_follows ttl (aoi_updates h) now (accounts_of_interest s) /\
  cache_follows ttl (poi_updates h) now (programs_of_interest s).

Lemma new_follows ttl now : cache_follows ttl [] now (with_lifespan ttl).
Proof. split; [apply new_lifespan|]. intros t k _. apply new_live. Qed.
Lemma init_follows ttl now start access refresh :
  interests_follow ttl [] now (be_init ttl start access refresh).
Proof.
  split_and!; [|apply new_follows..]. split; [done|]. intros (u & Hu & _). by apply not_elem_of_nil in Hu.
Qed.

(** What an iteration does to a cache. *)
Definition cache_step (rd : be_readings) (update : option (list string)) (c c' : T) : Prop :=
  match update with
  | Some names => c' = foldl (fun c k => cache_set (rd_cache_now rd) k c) c (omap from_str names)
  | None => lifespan c' = lifespan c /\ forall t k, rd_cache_now rd <= t -> live c' t k = live c t k
  end.
Definition aoi_update ev : option (list string) :=
  match ev with AoiMessage (inr (Some u)) => Some (accounts u) | _ => None end.
Definition poi_update ev : option (list string) :=
  match ev with PoiMessage (inr (Some u)) => Some (programs u) | _ => None end.

Lemma follows_step ttl updates now rd update (c c' : T) :
  now <= rd_cache_now rd -> cache_step rd update c c' -> cache_follows ttl updates now c ->
  cache_follows ttl (updates ++ option_list ((fun names => (rd_cache_now rd, names)) <$> update)) (rd_cache_now rd) c'.
Proof.
  intros Hn Hs Hf. destruct update as [names|]; cbn in *.
  - subst c'. by eapply follows_update.
  - rewrite app_nil_r. destruct Hs. by eapply follows_same.
Qed.

Lemma be_arm_caches rd ev s s' :
  be_arm keypair ofac rd ev s = Ok s' ->
  cache_step rd (aoi_update ev) (accounts_of_interest s) (accounts_of_interest s') /\
  cache_step rd (poi_update ev) (programs_of_interest s) (programs_of_interest s').
Proof.
  destruct ev as [r| |m|m|b|cl na nr|]; cbn -[filter_packets u64_add u64_saturating_add].
  - intros (x & _ & H)%bind_Ok_inv. by apply bind_Ok_inv in H as (? & _ & [= <-]).
  - intros (s1 & H%ok_or_Ok & [= <-])%bind_Ok_inv. by apply send_timeout_Some in H as (c & ->).
  - destruct m as [|[u|]]; [done| |done]. by intros [= <-].
  - destruct m as [|[u|]]; [done| |done]. by intros [= <-].
  - intros (bep & _ & H)%bind_Ok_inv.
    destruct (filter_packets_kept (rd_cache_now rd) bep (rd_alt rd) ofac (forward_all s)
      (accounts_of_interest s, programs_of_interest s)) as [_ (Hk & H1 & H2)].
    destruct (filter_packets _ _ _ _ _ _) as [o c]. cbn [fst snd] in *.
    assert (accounts_of_interest s' = c.1 /\ programs_of_interest s' = c.2) as [-> ->].
    { destruct o as [batch|]; [|by injection H as <-]. apply bind_Ok_inv in H as ([n s1] & H & [= <-]).
      apply bind_Ok_inv in H as (pb & _ & H). apply bind_Ok_inv in H as (s2 & H3%ok_or_Ok & [= _ <-]).
      by apply send_timeout_Some in H3 as (c' & ->). }
    split; (split; [done|]); intros t k Ht; symmetry; by apply Hk.
  - by intros ([[b a] r] & _ & [= <-])%bind_Ok_inv.
  - intros (x & _ & [= <-])%bind_Ok_inv. cbn.
    split; (split; [apply flush_lifespan|]); intros t k Ht; by apply flush_live.
Qed.

Lemma aoi_updates_snoc h rd ev :
  aoi_updates (h ++ [(rd, ev)]) = aoi_updates h ++ option_list ((fun names => (rd_cache_now rd, names)) <$> aoi_update ev).
Proof. unfold aoi_updates. rewrite omap_app. by destruct ev as [| |[|[|]]| | | |]. Qed.
Lemma poi_updates_snoc h rd ev :
  poi_updates (h ++ [(rd, ev)]) = poi_updates h ++ option_list ((fun names => (rd_cache_now rd, names)) <$> poi_update ev).
Proof. unfold poi_updates. rewrite omap_app. by destruct ev as [| | |[|[|]]| | |]. Qed.

Lemma has_star_iff names : has_star names = true <-> "*"%string ∈ names.
Proof.
  unfold has_star. rewrite existsb_elem. setoid_rewrite String.eqb_eq. split; [by intros (x & ? & <-)|by eexists].
Qed.
Lemma wildcard_snoc h rd ev : wildcard (h ++ [(rd, ev)]) <-> wildcard h \/ star_event ev = true.
Proof.
  unfold wildcard. rewrite aoi_updates_snoc, poi_updates_snoc.
  destruct ev as [| |[|[u|]]|[|[u|]]| | |]; cbn; rewrite ?has_star_iff; setoid_rewrite elem_of_app;
    rewrite ?app_nil_r; repeat setoid_rewrite elem_of_app; repeat setoid_rewrite list_elem_of_singleton; naive_solver.
Qed.

Lemma be_iteration_follows ttl h now rd ev s s' :
  now <= rd_cache_now rd -> be_iteration keypair ofac rd ev s = Ok s' ->
  interests_follow ttl h now s -> interests_follow ttl (h ++ [(rd, ev)]) (rd_cache_now rd) s'.
Proof.
  intros Hn Hi (Hw & Ha & Hp). pose proof (be_iteration_view _ _ _ _ Hi) as (_ & _ & Hall & _).
  apply bind_Ok_inv in Hi as (s1 & Harm & [= <-]). apply be_arm_caches in Harm as [H1 H2].
  split_and!.
  - rewrite Hall, wildcard_snoc, orb_true_iff. by rewrite Hw.
  - rewrite aoi_updates_snoc. by eapply follows_step.
  - rewrite poi_updates_snoc. by eapply follows_step.
Qed.

Lemma interests_mono ttl h now now' s :
  now <= now' -> interests_follow ttl h now s -> interests_follow ttl h now' s.
Proof.
  intros Hn (Hw & H1 & H2). split; [done|].
  split; (eapply follows_same; [exact Hn|reflexivity|reflexivity|done]).
Qed.

Lemma batch_filtered_form ttl h now rd bep s :
  now <= rd_cache_now rd -> interests_follow ttl h now s ->
  filtered_form ttl h rd bep (messages rd (BlockEngineBatches (Some bep)) s).
Proof.
  intros Hn (Hw & [_ Ha] & [_ Hp]).
  exists (live (accounts_of_interest s) (rd_cache_now rd)), (live (programs_of_interest s) (rd_cache_now rd)).
  exists (forward_all s), (forwardable_packet (live (accounts_of_interest s) (rd_cache_now rd))
    (live (programs_of_interest s) (rd_cache_now rd)) (rd_alt rd) ofac (forward_all s)).
  split_and!; [intros k; by apply Ha|intros k; by apply Hp|done|apply forwardable_packet_spec|].
  cbn [messages]. destruct (filter_packets_kept (rd_cache_now rd) bep (rd_alt rd) ofac (forward_all s)
    (accounts_of_interest s, programs_of_interest s)) as [-> _].
  rewrite omap_kept. unfold selected. by destruct (omap _ _).
Qed.

Lemma messages_carried ttl h now rd ev s :
  now <= rd_cache_now rd -> interests_follow ttl h now s -> be_heartbeat_count s = u64 (Z.of_nat (ticks h)) ->
  carried ttl h rd ev (messages rd ev s).
Proof.
  intros Hn Hf Hc. destruct ev as [| | | |[bep|]| |]; try done; cbn.
  - by rewrite Hc.
  - by eapply batch_filtered_form.
Qed.

Lemma ticks_snoc h rd ev :
  ticks (h ++ [(rd, ev)]) = (ticks h + match ev with HeartbeatTick => 1 | _ => 0 end)%nat.
Proof. unfold ticks. rewrite List.filter_app, length_app. by destruct ev. Qed.

Lemma completed_stream ttl dn start access refresh s :
  completed dn (be_init ttl start access refresh) s -> StronglySorted Z.le (clocks dn) ->
  stream ttl dn (sent s) /\ be_heartbeat_count s = u64 (Z.of_nat (ticks dn)) /\
  forall now, Forall (fun t => t <= now) (clocks dn) -> interests_follow ttl dn now s.
Proof.
  remember (be_init ttl start access refresh) as s0 eqn:E0. intros Hc.
  induction Hc as [s|dn s s1 rd ev s2 _ IH Hi]; intros Hs.
  { subst s. split_and!; [constructor|done|]. intros now _. apply init_follows. }
  unfold clocks in *. rewrite fmap_app in *.
  destruct (IH E0) as (Hst & Hc & Hf); [by eapply StronglySorted_app_1_l|].
  assert (Hle : Forall (fun t => t <= rd_cache_now rd) ((fun e => rd_cache_now e.1) <$> dn)).
  { apply Forall_forall. intros t Ht. eapply StronglySorted_app_1_elem_of; [exact Hs|exact Ht|set_solver]. }
  pose proof (be_iteration_view _ _ _ _ Hi) as (Hsent & Hcount & _). split_and!.
  - rewrite Hsent. constructor; [done|]. by eapply messages_carried; [reflexivity|apply Hf|].
  - rewrite Hcount, ticks_snoc, Hc. destruct ev; rewrite ?Nat.add_0_r; try done.
    unfold u64_add. rewrite wrap_add_l by lia. f_equal. lia.
  - intros now [_ Hnow]%Forall_app. apply Forall_cons in Hnow as [Hnow _]. cbn in Hnow.
    eapply interests_mono; [exact Hnow|]. eapply be_iteration_follows; [reflexivity|exact Hi|by apply Hf].
Qed.

(** C9: the stream of messages to the block engine.  A run of the event loop
    completes some first events, all of them when it ends normally without the
    exit flag, and what it has sent is, message by message and in order, what
    those events call for: the n-th heartbeat bears the number n (from zero, on
    64 bits); a batch of packets becomes its filtered form, all and only the
    packets that are not discarded, mention no listed address and are of
    interest, in order and under the stamp and expiry of the batch, or nothing
    when no packet is left; no other event sends anything.  Interest is that of
    the history of the connection: the wildcard once an update has listed it,
    and the keys an update listed within the lifespan of the caches.  The
    readings of the caches' clock do not decrease. *)
Theorem packet_stream_ok ttl start access refresh inputs :
  StronglySorted Z.le (clocks ((fun i => (i.1.2, i.2)) <$> inputs)) ->
  let '(r, s) := be_run keypair ofac inputs (be_init ttl start access refresh) in
  exists dn rest, inputs = dn ++ rest /\
    stream ttl ((fun i => (i.1.2, i.2)) <$> dn) (sent s) /\
    match r with
    | Ok _ => forall i, head rest = Some i -> i.1.1 = true
    | _ => exists i, head rest = Some i /\ i.1.1 = false
    end.
Proof.
  intros Hs. pose proof (be_run_completed inputs (be_init ttl start access refresh)) as (dn & rest & -> & _ & Hc & He).
  destruct (be_run _ _ _ _) as [r s]. exists dn, rest. split_and!; [done| |done].
  eapply completed_stream; [exact Hc|]. unfold clocks in *. rewrite !fmap_app in Hs.
  by eapply StronglySorted_app_1_l.
Qed.
End laws.

(** ** Liveness of the link *)


(** The wildcard.  After a run that handled all its events the filter is
    switched off exactly when it already was or one of the interest updates of
    the run listed the star; nothing switches it on again. *)
Theorem wildcard_is_sticky inputs s s' :
  Forall (fun i => i.1.1 = false) inputs ->
  be_run keypair ofac inputs s = (Ok tt, s') ->
  forward_all s' = forward_all s || existsb (fun i => star_event i.2) inputs.
Proof.
  intros Hex. revert s. induction Hex as [|[[exit rd] ev] inputs He _ IH]; intros s; cbn.
  { intros [= ->]. by rewrite orb_false_r. }
  cbn in He. subst exit. destruct (be_iteration keypair ofac rd ev s) as [s1| |] eqn:E; [|done..].
  intros Hr%IH. pose proof (be_iteration_view rd ev s s1 E) as (_ & _ & Ha & _).
  by rewrite Hr, Ha, orb_assoc.
Qed.

(** ** Counters *)

Lemma be_arm_stats rd ev s s' :
  be_arm keypair ofac rd ev s = Ok s' -> stats_ok (be_stats s) ->
  stats_ok (be_stats s') /\ (ev <> MetricsTick -> stats_le (be_stats s) (be_stats s')).
Proof.
  intros Ha Hs.
  assert (Hone : is_u64 1) by (unfold is_u64, u64_max; lia).
  assert (Hlen : forall b : BankingPacketBatch, is_u64 (total_len b)).
  { intros b. unfold total_len. rewrite u64_sum_spec. apply u64_is_u64. }
  assert (Hbase : stats_ok (be_stats s) /\ stats_le (be_stats s) (be_stats s)) by done.
  enough (ev <> MetricsTick -> stats_ok (be_stats s') /\ stats_le (be_stats s) (be_stats s')) as Hgo.
  { destruct ev; try (split; [by apply Hgo|intros; by apply Hgo]). split; [|done].
    apply bind_Ok_inv in Ha as (? & _ & [= <-]). apply stats_default_ok. }
  intros Hev. destruct ev as [r| |m|m|b|cl na nr|]; cbn -[filter_packets u64_add] in Ha; try done.
  - apply bind_Ok_inv in Ha as (x & _ & H). apply bind_Ok_inv in H as (? & _ & [= <-]). done.
  - apply bind_Ok_inv in Ha as (s1 & H%ok_or_Ok & [= <-]). apply send_timeout_Some in H as (c & ->).
    cbn [be_stats update_field]. grow_chain; auto with relayer.
  - apply bind_Ok_inv in Ha as ([[n c] all] & _ & [= <-]).
    cbn [be_stats update_field]. grow_chain; auto with relayer.
  - apply bind_Ok_inv in Ha as ([[n c] all] & _ & [= <-]).
    cbn [be_stats update_field]. grow_chain; auto with relayer.
  - apply bind_Ok_inv in Ha as (bep & _ & H).
    destruct (filter_packets _ _ _ _ _ _) as [[batch|] c]; cbn in H.
    + apply bind_Ok_inv in H as ([n s1] & H & [= <-]). apply bind_Ok_inv in H as (pb & _ & H).
      apply bind_Ok_inv in H as (s2 & H2%ok_or_Ok & [= _ <-]). apply send_timeout_Some in H2 as (c' & ->).
      cbn [be_stats update_field]. grow_chain; auto with relayer.
    + injection H as <-. cbn [be_stats update_field]. grow_chain; auto with relayer.
  - apply bind_Ok_inv in Ha as ([[b a] r] & _ & [= <-]). cbn [be_stats update_field].
    destruct b; grow_chain; auto with relayer.
Qed.

Lemma be_iteration_stats rd ev s s' :
  be_iteration keypair ofac rd ev s = Ok s' -> stats_ok (be_stats s) ->
  stats_ok (be_stats s') /\ (ev <> MetricsTick -> stats_le (be_stats s) (be_stats s')).
Proof.
  intros (s1 & Ha & [= <-])%bind_Ok_inv Hs. destruct (be_arm_stats _ _ _ _ Ha Hs) as [H1 H2].
  cbn [be_stats update_field]. set (n := u64 _).
  assert (Hx : stats_ok (update_block_engine_packet_sender_len n (be_stats s1)) /\
    stats_le (be_stats s1) (update_block_engine_packet_sender_len n (be_stats s1))).
  { grow_chain; [apply u64_is_u64|by split]. }
  split; [apply Hx|]. intros Hev. etransitivity; [by apply H2|apply Hx].
Qed.

Lemma completed_stats dn s0 s : completed dn s0 s -> stats_ok (be_stats s0) -> stats_ok (be_stats s).
Proof.
  intros Hc H0. induction Hc as [s|dn s s1 rd ev s2 _ IH Hi]; [done|].
  by apply (be_iteration_stats _ _ _ _ Hi), IH.
Qed.

(** The counters stay 64-bit numbers in every run, and no iteration but the
    one that reports and resets them ever decreases one. *)
Theorem counters_ok ttl start access refresh inputs :
  let s := (be_run keypair ofac inputs (be_init ttl start access refresh)).2 in
  stats_ok (be_stats s) /\
  forall rd ev s', be_iteration keypair ofac rd ev s = Ok s' -> ev <> MetricsTick ->
    stats_le (be_stats s) (be_stats s').
Proof.
  cbn zeta. destruct (be_run_completed inputs (be_init ttl start access refresh)) as (dn & rest & _ & _ & Hc & _).
  pose proof (completed_stats _ _ _ Hc stats_default_ok) as Hok.
  split; [done|]. intros rd ev s' Hi. by apply (be_iteration_stats _ _ _ _ Hi).
Qed.

(** ** Tokens *)

Lemma expiring_soon_iff e now : expiring_soon (duration_since e now) = true <-> e < now + REFRESH_MARGIN.
Proof.
  unfold duration_since, expiring_soon. assert (0 < REFRESH_MARGIN) by (unfold REFRESH_MARGIN, NANOS; lia).
  destruct (Z.leb_spec now e); rewrite ?Z.ltb_lt; split; try done; lia.
Qed.

Lemma expiring_later_iff e now : expiring_soon (duration_since e now) = false <-> now + REFRESH_MARGIN <= e.
Proof. rewrite <- not_true_iff_false, expiring_soon_iff. lia. Qed.

Lemma auth_Ok client access refresh :
  auth client keypair = Ok (access, refresh) -> is_Some (expires_at access) /\ is_Some (expires_at refresh).
Proof.
  intros (c & _ & H)%bind_Ok_inv. apply bind_Ok_inv in H as ([[a|] [r|]] & _ & H); try done.
  destruct (expires_at a) eqn:Ea, (expires_at r) eqn:Er; try done. injection H as <- <-.
  rewrite Ea, Er. by split.
Qed.

Lemma auth_fails client :
  match auth client keypair with
  | Ok _ => True
  | Err e => exists m, e = AuthServiceFailure m
  | Panic => False
  end.
Proof.
  unfold auth, rpc. destruct (rpc_generate_auth_challenge _ _) as [e|c]; cbn; [by eexists|].
  destruct (rpc_generate_auth_tokens _ _) as [e|[[a|] [r|]]]; cbn; try by eexists.
  destruct (expires_at a), (expires_at r); by try eexists.
Qed.

Lemma token_expiration_Err t e : token_expiration t <> Err e.
Proof.
  unfold token_expiration, unwrap. destruct (expires_at t) as [x|]; cbn; [|done].
  by destruct (system_time_of x).
Qed.

Lemma maybe_refresh_auth_panics client now_a now_r access refresh :
  maybe_refresh_auth client keypair now_a now_r access refresh = Panic ->
  token_expiration access = Panic \/ token_expiration refresh = Panic.
Proof.
  unfold maybe_refresh_auth.
  destruct (token_expiration access) as [ea|e|] eqn:Ea; [|by apply token_expiration_Err in Ea|by left].
  destruct (token_expiration refresh) as [er|e|] eqn:Er; [|by apply token_expiration_Err in Er|by right].
  cbn -[duration_since auth]. pose proof (auth_fails client) as Hf.
  destruct (expiring_soon _); [by destruct (auth client keypair)|]. destruct (expiring_soon _); [|done].
  by destruct (rpc_refresh_access_token _ _) as [?|[?|]].
Qed.

(** C28: refreshing the tokens.  Nothing happens while both have five minutes
    left; a refresh token with less is replaced, together with the access token,
    by a new authentication (which answers tokens with an expiry); otherwise
    the access token alone is replaced by the server's answer.  Every error is
    an authentication failure, and the only panic is a token at hand without a
    usable expiry. *)
Theorem maybe_refresh_auth_spec client now_a now_r access refresh :
  match maybe_refresh_auth client keypair now_a now_r access refresh with
  | Ok (did, a, r) => exists ea er, token_expiration access = Ok ea /\ token_expiration refresh = Ok er /\
      (now_r + REFRESH_MARGIN <= er -> now_a + REFRESH_MARGIN <= ea ->
        did = false /\ a = access /\ r = refresh) /\
      (now_r + REFRESH_MARGIN <= er -> ea < now_a + REFRESH_MARGIN ->
        did = true /\ r = refresh /\ rpc_refresh_access_token client (value refresh) = inr (Some a)) /\
      (er < now_r + REFRESH_MARGIN ->
        did = true /\ auth client keypair = Ok (a, r) /\ is_Some (expires_at a) /\ is_Some (expires_at r))
  | Err e => exists m, e = AuthServiceFailure m
  | Panic => token_expiration access = Panic \/ token_expiration refresh = Panic
  end.
Proof.
  unfold maybe_refresh_auth.
  destruct (token_expiration access) as [ea|e|] eqn:Ea; [|by apply token_expiration_Err in Ea|by left].
  destruct (token_expiration refresh) as [er|e|] eqn:Er; [|by apply token_expiration_Err in Er|by right].
  cbn -[duration_since auth REFRESH_MARGIN].
  destruct (expiring_soon (duration_since er now_r)) eqn:Hr;
    [apply expiring_soon_iff in Hr|apply expiring_later_iff in Hr].
  - pose proof (auth_fails client) as Hf. destruct (auth client keypair) as [[a r]|e|] eqn:Hau; [|done|done].
    cbn -[REFRESH_MARGIN]. exists ea, er. apply auth_Ok in Hau. split_and!; try done; intros; try lia.
  - destruct (expiring_soon (duration_since ea now_a)) eqn:Ha;
      [apply expiring_soon_iff in Ha|apply expiring_later_iff in Ha]; cbn -[REFRESH_MARGIN].
    + unfold rpc. destruct (rpc_refresh_access_token _ _) as [e|[a|]] eqn:Hrpc; cbn -[REFRESH_MARGIN];
        [by eexists| |by eexists].
      exists ea, er. split_and!; try done; intros; lia.
    + exists ea, er. split_and!; try done; intros; lia.
Qed.

Lemma map_read_not_panic closed now m cache all :
  handle_interest (T := T) closed now m cache all <> Panic.
Proof. by destruct m as [|[|]]. Qed.

Lemma filter_packets_batch now bep alt all c b :
  (filter_packets (T := T) now bep alt ofac all c).1 = Some b -> is_Some (epb_batch b).
Proof.
  unfold filter_packets. destruct (foldl _ _ _) as [[|p l] c']; cbn; [done|]. intros [= <-]. by eexists.
Qed.

(** C29: the loop has a single way to panic: the refresh timer fires while the
    connection holds a token whose expiry is missing or out of range.  Every
    other failure is an error value, after which the outer loop reconnects. *)
Theorem event_loop_panics rd ev s :
  be_iteration keypair ofac rd ev s = Panic ->
  exists client now_a now_r, ev = AuthRefreshTick client now_a now_r /\
    (token_expiration (be_access_token s) = Panic \/ token_expiration (be_refresh_token s) = Panic).
Proof.
  unfold be_iteration. destruct (be_arm keypair ofac rd ev s) as [s1| |] eqn:E; try done. intros _.
  destruct ev as [[e|[[]|]]| |m|m|[b|]|cl na nr|]; cbn -[filter_packets maybe_refresh_auth] in E; try done.
  - unfold check_and_send_heartbeat in E. by destruct (send_timeout _ _ _).
  - unfold handle_aoi in E. destruct (handle_interest _ _ _ _ _) as [[[] ?]| |] eqn:H; try done.
    by apply map_read_not_panic in H.
  - unfold handle_poi in E. destruct (handle_interest _ _ _ _ _) as [[[] ?]| |] eqn:H; try done.
    by apply map_read_not_panic in H.
  - destruct (filter_packets _ _ _ _ _ _) as [[batch|] c] eqn:Hf; [|done].
    destruct (filter_packets_batch (rd_cache_now rd) b (rd_alt rd) (forward_all s)
      (accounts_of_interest s, programs_of_interest s) batch) as [pb Hb]; [by rewrite Hf|].
    unfold be_forward_packets in E. rewrite Hb in E. cbn in E. by destruct (send_timeout _ _ _).
  - exists cl, na, nr. split; [done|].
    apply (maybe_refresh_auth_panics cl na nr).
    by destruct (maybe_refresh_auth _ _ _ _ _ _) as [[[] ?]| |].
  - by destruct (negb _).
Qed.

(** ** Connecting *)

Lemma connect_Ok cfg (a : attempt (C := C) (EP := EP)) tokens :
  connect cfg keypair a = Ok tokens ->
  (exists ea er, token_expiration tokens.1 = Ok ea /\ token_expiration tokens.2 = Ok er /\
    at_now_access a <= ea /\ at_now_refresh a <= er) /\
  (exists v, parse_value ("Bearer " ++ value tokens.1)%string = Some v /\
    at_packet_stream a {["authorization"%string := v]} = inr tt).
Proof.
  unfold connect. intros (e1 & _ & H)%bind_Ok_inv. apply bind_Ok_inv in H as (cl & _ & H).
  apply bind_Ok_inv in H as (tk & _ & H). apply bind_Ok_inv in H as (ea & Ha & H).
  apply bind_Ok_inv in H as (er & Hr & H). apply bind_Ok_inv in H as (da & Hda & H).
  apply bind_Ok_inv in H as (dr & Hdr & H).
  do 4 (apply bind_Ok_inv in H as (? & _ & H)). apply bind_Ok_inv in H as ([] & Hp & [= <-]).
  split.
  - exists ea, er. unfold duration_since in *.
    destruct (Z.leb_spec (at_now_access a) ea); [|done]. by destruct (Z.leb_spec (at_now_refresh a) er).
  - apply bind_Ok_inv in Hp as (m & Hm & Hp). unfold add_access_token, unwrap in Hm.
    destruct (parse_value _) as [v|]; [|done]. injection Hm as <-. exists v. split; [done|].
    change (rpc BlockEngineFailure (at_packet_stream a {["authorization"%string := v]}) = Ok tt) in Hp. unfold rpc in Hp. by destruct (at_packet_stream a _) as [?|[]].
Qed.

(** One attempt of the connection thread.  However it ends, short of a
    panic, the relayer is marked disconnected afterwards.  If the connection
    came up, both tokens were still valid, the packet stream was opened with the
    access token in its header, the packets that had piled up were dropped, and the thread pauses exactly when the event loop failed; if it
    did not, the packets stay queued and the thread pauses. *)
Theorem handler_iteration_spec cfg ttl (a : attempt (C := C) (EP := EP)) h h' pause :
  handler_iteration (T := T) cfg keypair ofac ttl a h = Ok (h', pause) ->
  is_connected_to_block_engine h' = false /\
  match connect cfg keypair a with
  | Ok tokens =>
      backlog h' = [] /\
      (pause = false <-> (be_run (T := T) keypair ofac (at_inputs a)
        (be_init ttl (at_start a) tokens.1 tokens.2)).1 = Ok tt) /\
      (exists ea er, token_expiration tokens.1 = Ok ea /\ token_expiration tokens.2 = Ok er /\
        at_now_access a <= ea /\ at_now_refresh a <= er) /\
      (exists v, parse_value ("Bearer " ++ value tokens.1)%string = Some v /\
        at_packet_stream a {["authorization"%string := v]} = inr tt)
  | _ => backlog h' = backlog h /\ pause = true
  end.
Proof.
  unfold handler_iteration, auth_and_connect.
  destruct (connect cfg keypair a) as [tokens|e|] eqn:Hc; [|by intros [= <- <-]|done].
  unfold handle_packet_stream. pose proof (connect_Ok _ _ _ Hc) as [He Hv].
  destruct (be_run _ _ _ _) as [[[]|e|] s]; intros [= <- <-]; by split_and!.
Qed.

End proofs.

(** ** The client and the service *)

Section handshake.
Context {Q : Type} {PQ : KeyedPQ Q IpAddr AuthChallenge}.
Context {contents : Q -> gmap IpAddr AuthChallenge}.
Context {PQL : KeyedPQLaws Q IpAddr AuthChallenge reverse_leb contents}.
Context {SK VK PK Sg KP : Type}.
Context `{Jw : Jwt SK VK DeSerClaims} `{Ed : Ed25519 PK Sg} `{SG : Signer KP} `{SGL : !SignerLaws KP PK Sg}.
Context `{EdL : !Ed25519Laws PK Sg} `{TI : !Text IpAddr} `{TP : !Text Pubkey} `{Ch : Chrono} `{Pr : AuthProto}.
Context (self : AuthServiceImpl SK VK) (keypair : KP).
Abbreviation challenges := (challenges (contents := contents)).
Implicit Types w : world Q.

(** The two legs of the client's [auth], asked of this repository's service from
    one address and under a role; [auth] itself asks as [ROLE_RELAYER]. *)
Definition handshake (r : Z) (ip : IpAddr) (port : Z) : prog GenerateAuthTokensResponse :=
  auth_response ← generate_auth_challenge self (Some (ip, port)) {| role := r; req_pubkey := signer_pubkey keypair |};
  generate_auth_tokens (PK := PK) (Sg := Sg) self (Some (ip, port)) (tokens_request keypair auth_response).

(** The service is up, has room, and holds no challenge for the address. *)
Definition ready ip w : Prop :=
  w_health w = Healthy /\ (size (challenges w) < AUTH_CHALLENGES_CAPACITY)%nat /\ challenges w !! ip = None.

(** The clock and the lifetimes stay in the range of dates. *)
Definition dates_fit w : Prop :=
  Forall (fun ttl => date_ok (w_now w + ttl) = true)
    [access_token_ttl self; refresh_token_ttl self; challenge_ttl self].

Lemma run_ready_challenge ip port req w :
  ready ip w -> run (generate_auth_challenge self (Some (ip, port)) req) w = run (create_challenge self ip req) w.
Proof.
  intros (Hh & Hc & Hn). unfold generate_auth_challenge. rewrite run_bind, run_check_health, bool_decide_eq_true_2 by done.
  cbn -[create_challenge Nat.leb AUTH_CHALLENGES_CAPACITY]. unfold len. rewrite pq_len_spec.
  destruct (Nat.leb_spec AUTH_CHALLENGES_CAPACITY (size (contents (w_challenges w)))) as [H|_];
    [unfold AuthProofs.challenges in Hc; lia|].
  cbn -[create_challenge AUTH_CHALLENGES_CAPACITY]. unfold get_priority. rewrite pq_get_priority_spec.
  unfold AuthProofs.challenges in Hn. by rewrite Hn.
Qed.

Lemma run_validator_challenge ip w :
  length (signer_pubkey keypair) = PUBKEY_BYTES -> w_auther w (signer_pubkey keypair) = true -> dates_fit w ->
  exists c w', run (create_challenge self ip {| role := ROLE_VALIDATOR; req_pubkey := signer_pubkey keypair |}) w =
    (Ok (challenge c), w') /\ fresh_challenge self ip (signer_pubkey keypair) w c /\
    w_health w' = w_health w /\ challenges w' = <[ip := c]> (challenges w).
Proof.
  intros Hl Ha Hd. apply Forall_cons in Hd as [Hd1 Hd]. apply Forall_cons in Hd as [Hd2 Hd].
  apply Forall_cons in Hd as [Hd3 _]. unfold create_challenge, pubkey_try_from. cbn -[generate_challenge_token date_add].
  rewrite Z.eqb_refl, Hl. cbn -[generate_challenge_token date_add]. rewrite decide_True by done.
  cbn -[generate_challenge_token date_add]. rewrite Ha. cbn -[generate_challenge_token date_add].
  unfold date_add. rewrite Hd1. cbn -[generate_challenge_token date_ok]. rewrite Hd2.
  cbn -[generate_challenge_token date_ok]. rewrite Hd3. cbn -[generate_challenge_token].
  eexists {| challenge := _ |}, _.
  split; [done|]. split; [done|]. split; [done|]. unfold AuthProofs.challenges. cbn. apply pq_push_spec.
Qed.

(** The answer to a pending challenge of the client's key passes every check. *)
Lemma run_tokens ip port w c access refresh :
  w_health w = Healthy -> challenges w !! ip = Some c ->
  client_pubkey (access_claims c) = signer_pubkey keypair ->
  sign_with_key (signing_key self) {| algorithm := Rs256 |} (ser_of_claims (access_claims c)) = Some access ->
  sign_with_key (signing_key self) {| algorithm := Rs256 |} (ser_of_claims (refresh_claims c)) = Some refresh ->
  exists resp w',
    run (generate_auth_tokens (PK := PK) (Sg := Sg) self (Some (ip, port))
          (tokens_request keypair (challenge c))) w = (Ok resp, w') /\
    signed_for self (access_claims c) (access_token resp) /\ signed_for self (refresh_claims c) (refresh_token resp) /\
    challenges w' = delete ip (challenges w).
Proof.
  intros Hh Hc Hpk Ha Hr. destruct (signer_verifies keypair) as (k & Hk & Hsig).
  pose proof (pk_bytes _ _ Hk) as [Hb _].
  set (msg := (to_string (signer_pubkey keypair) ++ "-" ++ challenge c)%string).
  destruct (Hsig msg) as [Hlen (sg & Hsg & Hv)].
  unfold generate_auth_tokens. rewrite run_bind, run_check_health, bool_decide_eq_true_2 by done.
  cbn -[check_and_sign tokens_request]. unfold tokens_request at 1. cbn -[check_and_sign tokens_request].
  rewrite Hk. cbn -[check_and_sign tokens_request]. unfold get_priority. rewrite pq_get_priority_spec.
  unfold AuthProofs.challenges in Hc. rewrite Hc. cbn -[check_and_sign tokens_request].
  unfold check_and_sign, sign_claims. rewrite Hb, Hpk. cbn -[Nat.eqb].
  rewrite !bool_decide_eq_true_2 by done. fold msg. cbn -[Nat.eqb]. rewrite Hlen. cbn -[Nat.eqb].
  rewrite Nat.eqb_refl. cbn. rewrite Hsg. cbn. rewrite Hv. cbn. rewrite Ha. cbn. rewrite Hr. cbn.
  eexists _, _. split_and!; try done. unfold AuthProofs.challenges. cbn. apply pq_remove_spec.
Qed.

(** C30: the client's handshake against the service of this repository, both
    legs, on a service that is up, has room and holds no challenge for the
    address.  The client asks as a relayer, and that is refused at the first leg
    with nothing changed: its counterpart is the block engine's service, not
    this one.  The same two messages sent under the validator role by an
    approved key succeed end to end: the answer the client code composes passes
    every check of the second leg, the two tokens are signed for the client's
    address and key with the configured lifetimes, and the challenge of the
    first leg is gone. *)
Theorem handshake_by_role w ip port :
  ROLE_RELAYER <> ROLE_VALIDATOR -> ready ip w ->
  run (handshake ROLE_RELAYER ip port) w = (Err (status_invalid_argument "Role must be validator."), w) /\
  (w_auther w (signer_pubkey keypair) = true -> dates_fit w ->
   (forall d, is_Some (sign_with_key (signing_key self) {| algorithm := Rs256 |} d)) ->
   exists resp w', run (handshake ROLE_VALIDATOR ip port) w = (Ok resp, w') /\
     signed_for self {| client_ip := ip; client_pubkey := signer_pubkey keypair;
                        claims_expires_at_utc := w_now w + access_token_ttl self |} (access_token resp) /\
     signed_for self {| client_ip := ip; client_pubkey := signer_pubkey keypair;
                        claims_expires_at_utc := w_now w + refresh_token_ttl self |} (refresh_token resp) /\
     challenges w' = challenges w).
Proof.
  intros Hrole Hready. unfold handshake. split.
  - rewrite run_bind, run_ready_challenge by done. unfold create_challenge. cbn.
    by rewrite (proj2 (Z.eqb_neq _ _) Hrole).
  - intros Ha Hd Hsign. rewrite run_bind, run_ready_challenge by done.
    destruct (signer_verifies keypair) as (k & Hk & _). pose proof (pk_bytes _ _ Hk) as [_ Hl].
    destruct (run_validator_challenge ip w Hl Ha Hd) as (c & w1 & -> & (_ & Hac & Hrc & _) & Hh & Hw1).
    destruct (Hsign (ser_of_claims (access_claims c))) as [access Hsa].
    destruct (Hsign (ser_of_claims (refresh_claims c))) as [refresh Hsr].
    destruct Hready as (Hh0 & _ & Hn).
    destruct (run_tokens ip port w1 c access refresh) as (resp & w2 & Hrun & H1 & H2 & Hw2);
      [by rewrite Hh|by rewrite Hw1, lookup_insert_eq|by rewrite Hac|done|done|].
    exists resp, w2. rewrite Hac in H1. rewrite Hrc in H2. split_and!; [done|exact H1|exact H2|].
    rewrite Hw2, Hw1. by apply delete_insert_id.
Qed.

End handshake.

(** ** Witnesses *)

Section demo.

Definition demo_keypair : list Z := replicate 32 7.
Definition demo_good_token (v : string) : Token :=
  {| value := v; expires_at := Some {| ts_seconds := 1700001000; ts_nanos := 0 |} |}.
Definition demo_bad_token : Token := {| value := "c"; expires_at := None |}.
(** A server whose refreshed access token lacks the expiry. *)
Definition demo_client : auth_client := {|
  rpc_generate_auth_challenge _ := inr "xyz"%string;
  rpc_generate_auth_tokens _ := inr (Some (demo_good_token "a"), Some (demo_good_token "b"));
  rpc_refresh_access_token _ := inr (Some demo_bad_token) |}.
Definition be_demo_rd (t : Z) : be_readings (C := queue) := {|
  rd_instant := t * NANOS; rd_cache_now := t; rd_elapsed := 5; rd_elapsed2 := 6; rd_tick_delay := 1;
  rd_alt := ∅; rd_drain := id; rd_drain_end := id |}.
Definition be_demo_init : be_state (C := queue) (T := timed Pubkey) :=
  be_init 300 0 (demo_good_token "a") (demo_good_token "b").
Definition be_demo_inputs : list (bool * be_readings * be_event) := [
  (false, be_demo_rd 1, HeartbeatTick);
  (false, be_demo_rd 2, AoiMessage (inr (Some {| accounts := [to_string ([5] : Pubkey)] |})));
  (false, be_demo_rd 3, BlockEngineBatches (Some demo_batches));
  (false, be_demo_rd 4, HeartbeatTick);
  (false, be_demo_rd 25, MetricsTick);
  (false, be_demo_rd 400, BlockEngineBatches (Some demo_batches));
  (false, be_demo_rd 401, PoiMessage (inr (Some {| programs := ["*"%string] |})));
  (false, be_demo_rd 402, BlockEngineBatches (Some demo_batches))].
Definition be_demo_run : result BlockEngineError () * be_state :=
  be_run (KP := list Z) demo_keypair {[ [9] ]} be_demo_inputs be_demo_init.

(** Filtered by the account of interest, then by nothing left of it after its
    lifespan, then by the wildcard: the address [9] never passes. *)
Example be_demo_sent :
  be_demo_run.1 = Ok tt /\
  map (fun m => match m with
                | Batches b => inl (option_map (fun l => map pp_data (packets l)) (epb_batch b))
                | HeartbeatMsg h => inr (count h)
                end) (sent be_demo_run.2) =
    [inr 0; inl (Some [[5; 6]; [5; 7]]); inr 1; inl (Some [[5; 6]; [6]; [5; 7]])].
Proof. vm_compute. by split_and!. Qed.

Lemma packet_stream_ok_witness :
  StronglySorted Z.le (clocks ((fun i => (i.1.2, i.2)) <$> be_demo_inputs)) /\
  length (sent be_demo_run.2) = 4%nat /\
  exists dn rest, be_demo_inputs = dn ++ rest /\
    stream {[ [9] ]} 300 ((fun i => (i.1.2, i.2)) <$> dn) (sent be_demo_run.2) /\ rest = [].
Proof.
  assert (Hs : StronglySorted Z.le (clocks ((fun i => (i.1.2, i.2)) <$> be_demo_inputs))).
  { cbn. repeat constructor; lia. }
  pose proof (packet_stream_ok (KP := list Z) (T := timed Pubkey) (lifespan := tc_ttl) demo_keypair {[ [9] ]} 300 0
    (demo_good_token "a") (demo_good_token "b") be_demo_inputs Hs) as Hok.
  pose proof be_demo_sent as [Hr Hl%(f_equal length)]. rewrite length_map in Hl.
  split; [exact Hs|]. split; [exact Hl|].
  unfold be_demo_run, be_demo_init in *. destruct (be_run _ _ _ _) as [r s]. cbn [fst snd] in *.
  destruct Hok as (dn & rest & Heq & Hst & Hend). exists dn, rest. split; [exact Heq|]. split; [exact Hst|].
  subst r. destruct rest as [|i rest]; [reflexivity|]. exfalso. specialize (Hend i eq_refl).
  assert (Hf : Forall (fun i : bool * be_readings * be_event => i.1.1 = false) be_demo_inputs) by repeat constructor.
  rewrite Heq in Hf. apply Forall_app in Hf as [_ Hf]. apply Forall_cons in Hf as [Hf _]. congruence.
Defined.


Lemma wildcard_witness : forward_all be_demo_run.2 = true.
Proof.
  refine (wildcard_is_sticky (KP := list Z) demo_keypair {[ [9] ]} be_demo_inputs be_demo_init be_demo_run.2 _ _).
  - repeat constructor.
  - vm_compute. reflexivity.
Defined.

(** The first refresh accepts the token without expiry, the second panics. *)
Definition be_demo_refreshed : be_state (C := queue) (T := timed Pubkey) :=
  (be_run (KP := list Z) demo_keypair ∅
    [(false, be_demo_rd 1, AuthRefreshTick demo_client (1700000800 * NANOS) (1600000000 * NANOS))] be_demo_init).2.

Lemma event_loop_panics_witness :
  token_expiration (be_access_token be_demo_refreshed) = Panic \/
  token_expiration (be_refresh_token be_demo_refreshed) = Panic.
Proof.
  destruct (event_loop_panics (KP := list Z) demo_keypair ∅ (be_demo_rd 61) (AuthRefreshTick demo_client 0 0)
    be_demo_refreshed) as (_ & _ & _ & _ & H); [vm_compute; reflexivity|exact H].
Defined.

Definition demo_attempt : attempt (C := queue) (EP := string) := {|
  at_auth_connect _ := inr demo_client; at_now_access := 1700000000 * NANOS;
  at_now_refresh := 1700000000 * NANOS; at_engine_connect _ := inr tt; at_subscribe_aoi _ := inr tt;
  at_subscribe_poi _ := inr tt; at_packet_stream _ := inr tt; at_start := 0; at_inputs := be_demo_inputs |}.
Definition demo_be_cfg : BlockEngineConfig :=
  {| block_engine_url := "https://engine"; auth_service_url := "http://auth" |}.

Lemma handler_iteration_witness :
  exists h', handler_iteration (T := timed Pubkey) (KP := list Z) demo_be_cfg demo_keypair ∅ 300 demo_attempt
    {| is_connected_to_block_engine := false; backlog := [demo_batches] |} = Ok (h', false) /\
    is_connected_to_block_engine h' = false /\ backlog h' = [].
Proof.
  eexists. split; [vm_compute; reflexivity|].
  destruct (handler_iteration_spec (T := timed Pubkey) (KP := list Z) demo_keypair ∅ demo_be_cfg 300 demo_attempt
    {| is_connected_to_block_engine := false; backlog := [demo_batches] |}
    {| is_connected_to_block_engine := false; backlog := [] |} false) as [H1 H2];
    [vm_compute; reflexivity|]. split; [exact H1|]. exact (proj1 H2).
Defined.

Lemma handshake_witness :
  (exists w', run (handshake (PK := list Z) (Sg := list Z) demo_service demo_keypair ROLE_RELAYER (V4 10 0 0 1) 4000)
    demo_world = (Err (status_invalid_argument "Role must be validator."), w')) /\
  exists resp w',
    run (handshake (PK := list Z) (Sg := list Z) demo_service demo_keypair ROLE_VALIDATOR (V4 10 0 0 1) 4000)
      demo_world = (Ok resp, w').
Proof.
  destruct (handshake_by_role (PK := list Z) (Sg := list Z) (contents := id) demo_service demo_keypair demo_world
    (V4 10 0 0 1) 4000) as [Hno Hyes].
  - discriminate.
  - split; [reflexivity|]. split; [apply Nat.ltb_lt; vm_compute; reflexivity|reflexivity].
  - split; [exists demo_world; exact Hno|].
    destruct Hyes as (resp & w' & H & _).
    + vm_compute. reflexivity.
    + repeat constructor.
    + intros d. eexists. reflexivity.
    + exists resp, w'. exact H.
Defined.

End demo.
