(* ===== verification/LoadBalancer.v ===== *)
(** * The RPC load balancer ([src/rpc/src/load_balancer.rs])

    One thread per RPC server follows the slots that server reports.  The
    threads share the table of slots per server and the highest slot seen; a
    thread that raises the highest slot sends it on.  Raising and sending are
    two steps, so the steps of several threads interleave. *)

From Stdlib Require Import ZArith Lia String.
From stdpp Require Import base gmap strings list sorting.
From S2P Require Import Prelude Interfaces Reference.

(** What a thread does next: wait for a slot, publish one it received, or send
    one with which it raised the highest slot. *)
Inductive phase := Waiting | Publishing (slot : Z) | Sending (slot : Z).

Section load_balancer.
Context `{IT : !HashIter string}.

(** [servers] is the configured list of RPC and websocket URLs. *)
Variable servers : list (string * string).

(** [slots_sent] is the history of the slot channel, [slots_reported] of what
    the servers reported. *)
Record lb_state := {
  server_to_slot : gmap string Z;
  highest_slot : Z;
  lb_threads : list phase;
  slots_sent : list Z;
  slots_reported : list Z;
}.
#[global] Instance lb_state_eta : Eta lb_state := fun s => {|
  server_to_slot := server_to_slot s; highest_slot := highest_slot s; lb_threads := lb_threads s;
  slots_sent := slots_sent s; slots_reported := slots_reported s |}.

(** [LoadBalancer::new]: the tables are keyed by the websocket URL; a client is
    identified by the RPC URL it was made for. *)
Definition server_to_rpc_client : gmap string string :=
  foldl (fun m '(rpc_url, ws) => <[ws := rpc_url]> m) ∅ servers.
Definition lb_new : lb_state := {|
  server_to_slot := foldl (fun m '(_, ws) => <[ws := 0]> m) ∅ servers;
  highest_slot := 0;
  lb_threads := replicate (length servers) Waiting;
  slots_sent := []; slots_reported := [] |}.

(** What a subscription thread meets at a step: a slot, a timeout or the end of
    the subscription while it waits; the outcome of the send. *)
Inductive lb_input := SlotUpdate (slot : Z) | NoUpdate | SendOutcome (ok : bool).

(** One step of thread [i]: the atomic actions on the shared state of the body
    of the loop.  After a timeout, a disconnection or a failed send the thread
    goes on waiting, on a new subscription if need be. *)
Definition lb_step (i : nat) (input : lb_input) (s : lb_state) : lb_state :=
  match lb_threads s !! i, servers !! i, input with
  | Some Waiting, Some (_, websocket_url), SlotUpdate slot =>
      s <| server_to_slot ::= insert websocket_url slot |>
        <| slots_reported ::= fun l => l ++ [slot] |>
        <| lb_threads ::= insert i (Publishing slot) |>
  | Some (Publishing slot), _, _ =>
      let old_slot := highest_slot s in
      s <| highest_slot := Z.max old_slot slot |>
        <| lb_threads ::= insert i (if old_slot <? slot then Sending slot else Waiting) |>
  | Some (Sending slot), _, SendOutcome ok =>
      s <| slots_sent ::= fun l => if ok : bool then l ++ [slot] else l |>
        <| lb_threads ::= insert i Waiting |>
  | _, _, _ => s
  end.

Definition lb_run (steps : list (nat * lb_input)) (s : lb_state) : lb_state :=
  foldl (fun s '(i, input) => lb_step i input s) s steps.

(** [iter.max_by(|l, r| l.value().cmp(r.value()))]: the last of the greatest. *)
Definition max_by_value (l : list (string * Z)) : option (string * Z) :=
  foldl (fun acc x => match acc with
                      | None => Some x
                      | Some y => if x.2 <? y.2 then Some y else Some x
                      end) None l.

(** The iteration over the concurrent map sees one state of it. *)
Definition get_highest_slot (s : lb_state) : result Empty_set (string * Z) :=
  unwrap (max_by_value (map_iter (server_to_slot s))).

(** [rpc_client] *)
Definition rpc_client (s : lb_state) : result Empty_set string :=
  '(highest_server, _) ← get_highest_slot s;
  unwrap (server_to_rpc_client !! highest_server).

(** ** Slots go out once *)

Definition claimed (p : phase) : option Z := match p with Sending slot => Some slot | _ => None end.
Definition in_hand (p : phase) : option Z :=
  match p with Sending slot | Publishing slot => Some slot | Waiting => None end.

(** Slots sent or about to be. *)
Definition claims (s : lb_state) : list Z := slots_sent s ++ omap claimed (lb_threads s).

Definition lb_ok (s : lb_state) : Prop :=
  0 <= highest_slot s /\
  NoDup (claims s) /\ Forall (fun x => 0 < x <= highest_slot s) (claims s) /\
  (forall x, x ∈ claims s \/ Publishing x ∈ lb_threads s -> x ∈ slots_reported s) /\
  (forall ws, is_Some (server_to_slot s !! ws) <-> ws ∈ servers.*2).

Lemma omap_insert_perm {A B} (f : A -> option B) l i x y :
  l !! i = Some x ->
  option_list (f x) ++ omap f (<[i := y]> l) ≡ₚ option_list (f y) ++ omap f l.
Proof.
  revert i. induction l as [|z l IH]; intros [|i]; cbn; try done.
  - intros [= ->]. destruct (f x), (f y); cbn; try done. apply perm_swap.
  - intros Hi. specialize (IH i Hi).
    destruct (f z); cbn; [|done]. rewrite <- !Permutation_middle. by rewrite IH.
Qed.

Lemma lb_new_ok : lb_ok lb_new.
Proof.
  assert (Hcl : omap claimed (replicate (length servers) Waiting) = [])
    by (induction (length servers); done).
  unfold lb_ok, claims. cbn. rewrite Hcl. split_and!; [done|constructor|constructor| |].
  - intros x [Hx|Hx]; [by apply not_elem_of_nil in Hx|]. by apply elem_of_replicate in Hx as [? _].
  - assert (Hgen : forall (l : list (string * string)) (m : gmap string Z) ws,
      is_Some (foldl (fun m '(_, ws) => <[ws := 0]> m) m l !! ws) <-> is_Some (m !! ws) \/ ws ∈ l.*2).
    { induction l as [|[rpc ws'] l IH]; intros m ws; cbn.
      - split; [by left|]. intros [?|H]; [done|by apply not_elem_of_nil in H].
      - rewrite IH, lookup_insert_is_Some', elem_of_cons. intuition congruence. }
    intros ws. rewrite Hgen, lookup_empty. split; [|by right]. intros [H|H]; [by apply is_Some_None in H|done].
Qed.

Lemma lb_step_ok i input s : lb_ok s -> lb_ok (lb_step i input s).
Proof.
  intros Hok. pose proof Hok as (H0 & Hnd & Hb & Hrep & Hkeys). unfold lb_step.
  destruct (lb_threads s !! i) as [[|slot|slot]|] eqn:Hi; [| | |done].
  - destruct (servers !! i) as [[rpc ws]|] eqn:Hs; [|done]. destruct input as [slot| |ok]; try done.
    pose proof (omap_insert_perm claimed _ _ _ (Publishing slot) Hi) as Hp. cbn in Hp.
    unfold lb_ok, claims. cbn. rewrite Hp. split_and!; try done.
    + intros x [Hx|Hx]; apply elem_of_app; [rewrite Hp in Hx; left; apply Hrep; by left|].
      apply elem_of_list_insert_inv in Hx as [[= ->]|Hx]; [right; apply list_elem_of_here|].
      left. apply Hrep. by right.
    + intros w. rewrite lookup_insert_is_Some'. rewrite Hkeys. split; [|by right]. intros [<-|?]; [|done].
      apply list_elem_of_lookup_2 in Hs. by apply (list_elem_of_fmap_2 snd) in Hs.
  - pose proof (omap_insert_perm claimed _ _ _ (if highest_slot s <? slot then Sending slot else Waiting) Hi) as Hp.
    assert (Hin : slot ∈ slots_reported s) by (apply Hrep; right; by eapply list_elem_of_lookup_2).
    unfold lb_ok, claims. cbn in *.
    destruct (Z.ltb_spec (highest_slot s) slot) as [Hlt|Hge]; cbn in Hp; rewrite Hp.
    + rewrite <- Permutation_middle. split_and!; [lia| | | |done].
      * constructor; [|done]. intros Hc. rewrite Forall_forall in Hb. apply Hb in Hc. lia.
      * constructor; [lia|]. eapply Forall_impl; [exact Hb|]. cbn. lia.
      * intros x [Hx|Hx].
        { rewrite Hp, <- Permutation_middle in Hx. apply elem_of_cons in Hx as [->|Hx]; [done|].
          apply Hrep. by left. }
        apply elem_of_list_insert_inv in Hx as [Hx|Hx]; [done|]. apply Hrep. by right.
    + split_and!; [lia|done| | |done].
      * eapply Forall_impl; [exact Hb|]. cbn. lia.
      * intros x [Hx|Hx]; [rewrite Hp in Hx; apply Hrep; by left|].
        apply elem_of_list_insert_inv in Hx as [Hx|Hx]; [done|]. apply Hrep. by right.
  - destruct input as [| |ok]; try done.
    pose proof (omap_insert_perm claimed _ _ _ Waiting Hi) as Hp. cbn in Hp.
    assert (Hsub : exists rest, claims s ≡ₚ rest ++ (if ok then slots_sent s ++ [slot] else slots_sent s) ++
      omap claimed (<[i := Waiting]> (lb_threads s))).
    { unfold claims. destruct ok; [exists []|exists [slot]]; rewrite <- Hp; cbn.
      - by rewrite <- app_assoc.
      - by rewrite <- Permutation_middle. }
    destruct Hsub as [rest Hsub]. unfold lb_ok, claims. cbn. rewrite Hsub in Hnd, Hb.
    apply NoDup_app in Hnd as (_ & _ & Hnd). apply Forall_app in Hb as [_ Hb].
    split_and!; try done. intros x [Hx|Hx].
    + apply Hrep. left. rewrite Hsub. apply elem_of_app. by right.
    + apply elem_of_list_insert_inv in Hx as [Hx|Hx]; [done|]. apply Hrep. by right.
Qed.

Lemma lb_run_ok steps s : lb_ok s -> lb_ok (lb_run steps s).
Proof.
  intros Hs. unfold lb_run. apply foldl_inv; [done|]. intros t [i input] _. apply lb_step_ok.
Qed.

(** With a single thread the slots also go out in increasing order. *)
Definition lb_ordered (s : lb_state) : Prop :=
  StronglySorted Z.lt (slots_sent s) /\ Forall (fun x => x <= highest_slot s) (slots_sent s) /\
  exists p, lb_threads s = [p] /\
    match p with Sending slot => Forall (fun x => x < slot) (slots_sent s) /\ slot <= highest_slot s | _ => True end.

Lemma lb_step_ordered i input s : lb_ordered s -> lb_ordered (lb_step i input s).
Proof.
  intros (Hs & Hb & p & Ht & Hp). unfold lb_step. rewrite Ht.
  destruct i as [|i]; cbn; [|by split_and!; eauto].
  destruct p as [|slot|slot].
  - destruct (servers !! 0%nat) as [[rpc ws]|]; [|by split_and!; eauto].
    destruct input; cbn; split_and!; rewrite ?Ht; eauto.
  - unfold lb_ordered. cbn. rewrite Ht. split_and!; [done| |].
    + eapply Forall_impl; [exact Hb|]. cbn. lia.
    + eexists. split; [done|]. destruct (Z.ltb_spec (highest_slot s) slot); [|done].
      split; [|lia]. eapply Forall_impl; [exact Hb|]. cbn. lia.
  - destruct input as [| |ok]; [by split_and!; eauto..|]. unfold lb_ordered. cbn. rewrite Ht.
    destruct Hp as [Hlt Hle]. destruct ok; (split_and!; [| |by exists Waiting]); try done.
    + apply StronglySorted_app_2; [|done|repeat constructor].
      intros x y Hx Hy. apply list_elem_of_singleton in Hy as ->. rewrite Forall_forall in Hlt. by apply Hlt.
    + apply Forall_app. split; [done|]. by apply Forall_singleton.
Qed.

Lemma lb_sent_ok s : lb_ok s ->
  NoDup (slots_sent s) /\ forall x, x ∈ slots_sent s -> 0 < x <= highest_slot s /\ x ∈ slots_reported s.
Proof.
  intros (_ & Hnd & Hb & Hrep & _). unfold claims in *. apply NoDup_app in Hnd as (Hnd & _ & _).
  apply Forall_app in Hb as [Hb _]. split; [done|]. intros x Hx. rewrite Forall_forall in Hb.
  split; [by apply Hb|]. apply Hrep. left. apply elem_of_app. by left.
Qed.

Lemma lb_run_ordered steps :
  length servers = 1%nat -> lb_ordered (lb_run steps lb_new).
Proof.
  intros Hone. unfold lb_run. apply foldl_inv; [|intros t [i input] _; apply lb_step_ordered].
  unfold lb_ordered. cbn. rewrite Hone. split_and!; [constructor|constructor|]. by exists Waiting.
Qed.

(** C35: every slot goes out once.  However the steps of the threads interleave,
    no slot is sent twice, and a slot that is sent was reported by a server,
    is positive and at most the highest slot; with a single server they are
    sent in strictly increasing order. *)
Theorem slots_sent_once steps :
  let s := lb_run steps lb_new in
  NoDup (slots_sent s) /\
  (forall x, x ∈ slots_sent s -> 0 < x <= highest_slot s /\ x ∈ slots_reported s) /\
  (length servers = 1%nat -> StronglySorted Z.lt (slots_sent s)).
Proof.
  cbn zeta. destruct (lb_sent_ok _ (lb_run_ok steps _ lb_new_ok)) as [Hnd Hs].
  split_and!; [done|done|]. intros Hone. by destruct (lb_run_ordered steps Hone) as [H _].
Qed.

(** ** Choosing the server *)

Lemma max_by_value_spec l :
  match max_by_value l with
  | None => l = []
  | Some x => x ∈ l /\ forall y, y ∈ l -> y.2 <= x.2
  end.
Proof.
  unfold max_by_value. induction l as [|x l IH] using rev_ind; [done|].
  rewrite foldl_app. cbn. destruct (foldl _ None l) as [y|].
  - destruct IH as [Hy Hmax]. destruct (Z.ltb_spec x.2 y.2); split; try set_solver.
    + intros z [Hz|Hz]%elem_of_app; [by apply Hmax|]. apply list_elem_of_singleton in Hz as ->. lia.
    + intros z [Hz|Hz]%elem_of_app; [apply Hmax in Hz; lia|]. by apply list_elem_of_singleton in Hz as ->.
  - subst l. split; [set_solver|]. intros z Hz. by apply list_elem_of_singleton in Hz as ->.
Qed.

Lemma rpc_clients_lookup l (m : gmap string string) ws :
  ws ∈ l.*2 \/ is_Some (m !! ws) ->
  exists rpc, foldl (fun m '(rpc_url, ws) => <[ws := rpc_url]> m) m l !! ws = Some rpc /\
    ((rpc, ws) ∈ l \/ m !! ws = Some rpc).
Proof.
  revert m. induction l as [|[r w] l IH]; intros m Hws; cbn.
  { destruct Hws as [H|[rpc H]]; [by apply not_elem_of_nil in H|]. exists rpc. auto. }
  destruct (IH (<[w := r]> m)) as (rpc & Hr & Hin).
  { rewrite lookup_insert_is_Some'. cbn in Hws. rewrite elem_of_cons in Hws. intuition congruence. }
  exists rpc. split; [done|]. rewrite elem_of_cons.
  destruct Hin as [Hin|Hin]; [by left; right|].
  destruct (decide (w = ws)) as [->|Hne].
  - rewrite lookup_insert_eq in Hin. injection Hin as ->. by left; left.
  - rewrite lookup_insert_ne in Hin by done. by right.
Qed.


End load_balancer.

(** ** Witnesses *)

Definition demo_servers : list (string * string) := [("http://a", "ws://a"); ("http://b", "ws://b")]%string.
Definition demo_steps : list (nat * lb_input) := [
  (0%nat, SlotUpdate 5); (1%nat, SlotUpdate 6); (0%nat, NoUpdate); (1%nat, NoUpdate);
  (1%nat, SendOutcome true); (0%nat, SendOutcome true); (0%nat, SlotUpdate 6); (0%nat, NoUpdate)].

(** Two threads may send their slots out of order. *)
Example demo_slots_out_of_order : slots_sent (lb_run demo_servers demo_steps (lb_new demo_servers)) = [6; 5].
Proof. vm_compute. reflexivity. Qed.

Lemma slots_sent_once_witness :
  StronglySorted Z.lt (slots_sent (lb_run [("http://a", "ws://a")]%string
    [(0%nat, SlotUpdate 5); (0%nat, NoUpdate); (0%nat, SendOutcome true)] (lb_new [("http://a", "ws://a")]%string))).
Proof.
  exact (proj2 (proj2 (slots_sent_once [("http://a", "ws://a")]%string
    [(0%nat, SlotUpdate 5); (0%nat, NoUpdate); (0%nat, SendOutcome true)])) eq_refl).
Defined.

