(* ===== verification/Forwarder.v ===== *)
(** * The forward-and-delay thread ([src/transaction-relayer/src/forwarder.rs])

    Verified packet batches are offered to the block engine at once and held
    back for the validators until the packet delay has passed. *)

From Stdlib Require Import ZArith Lia String.
From stdpp Require Import base gmap strings list.
From S2P Require Import Prelude Interfaces Reference InterestFilter Relayer.

Definition BLOCK_ENGINE_FORWARDER_QUEUE_CAPACITY : nat := Z.to_nat 5000.

Record ForwarderMetrics := {
  num_batches_received : Z;
  num_packets_received : Z;
  num_be_packets_forwarded : Z;
  num_be_packets_dropped : Z;
  num_be_sender_full : Z;
  num_relayer_packets_forwarded : Z;
  buffered_packet_batches_max_len : Z;
  buffered_packet_batches_capacity : Z;
  verified_receiver_max_len : Z;
  verified_receiver_capacity : Z;
  block_engine_sender_max_len : Z;
  block_engine_sender_capacity : Z;
}.
#[global] Instance ForwarderMetrics_eta : Eta ForwarderMetrics := fun m => {|
  num_batches_received := num_batches_received m;
  num_packets_received := num_packets_received m;
  num_be_packets_forwarded := num_be_packets_forwarded m;
  num_be_packets_dropped := num_be_packets_dropped m;
  num_be_sender_full := num_be_sender_full m;
  num_relayer_packets_forwarded := num_relayer_packets_forwarded m;
  buffered_packet_batches_max_len := buffered_packet_batches_max_len m;
  buffered_packet_batches_capacity := buffered_packet_batches_capacity m;
  verified_receiver_max_len := verified_receiver_max_len m;
  verified_receiver_capacity := verified_receiver_capacity m;
  block_engine_sender_max_len := block_engine_sender_max_len m;
  block_engine_sender_capacity := block_engine_sender_capacity m |}.

Definition forwarder_metrics_new (buffered_cap verified_cap be_cap : Z) : ForwarderMetrics := {|
  num_batches_received := 0; num_packets_received := 0; num_be_packets_forwarded := 0;
  num_be_packets_dropped := 0; num_be_sender_full := 0; num_relayer_packets_forwarded := 0;
  buffered_packet_batches_max_len := 0; buffered_packet_batches_capacity := buffered_cap;
  verified_receiver_max_len := 0; verified_receiver_capacity := verified_cap;
  block_engine_sender_max_len := 0; block_engine_sender_capacity := be_cap |}.

Definition update_queue_lengths (buffered_len buffered_cap verified_len be_len : Z) (m : ForwarderMetrics)
    : ForwarderMetrics :=
  m <| buffered_packet_batches_max_len ::= fun x => Z.max x buffered_len |>
    <| buffered_packet_batches_capacity ::= fun x => Z.max x buffered_cap |>
    <| verified_receiver_max_len ::= fun x => Z.max x verified_len |>
    <| block_engine_sender_max_len ::= fun x => Z.max x be_len |>.

(** [ForwarderMetrics::report] *)
Definition report_metrics (thread_id delay : Z) (m : ForwarderMetrics) : Datapoint := {|
  dp_name := "forwarder_metrics"; dp_tags := [];
  dp_fields := [
    i64_field "thread_id" thread_id;
    i64_field "delay" delay;
    i64_field "num_batches_received" (num_batches_received m);
    i64_field "num_packets_received" (num_packets_received m);
    i64_field "num_be_packets_forwarded" (num_be_packets_forwarded m);
    i64_field "num_be_packets_dropped" (num_be_packets_dropped m);
    i64_field "num_be_sender_full" (num_be_sender_full m);
    i64_field "num_relayer_packets_forwarded" (num_relayer_packets_forwarded m);
    i64_field "buffered_packet_batches_len" (buffered_packet_batches_max_len m);
    i64_field "buffered_packet_batches_capacity" (buffered_packet_batches_capacity m);
    i64_field "verified_receiver_len" (verified_receiver_max_len m);
    i64_field "verified_receiver_capacity" (verified_receiver_capacity m);
    i64_field "block_engine_sender_len" (block_engine_sender_max_len m);
    i64_field "block_engine_sender_capacity" (block_engine_sender_capacity m)] |}.

Section forwarder.
Context {C : Type -> Type} `{MP : Mpsc C}.
Variables (packet_delay_ms : Z) (disable_mempool : bool).

Definition MILLIS : Z := 1000000.
Definition packet_delay : Z := packet_delay_ms * MILLIS.
Definition METRICS_INTERVAL : Z := NANOS.

(** [delivered] is the history of [delay_packet_sender], each batch with the
    clock reading that released it; [offered] of [block_engine_sender]. *)
Record fwd_state := {
  buffered_packet_batches : list RelayerPacketBatches;
  forwarder_metrics : ForwarderMetrics;
  last_metrics_upload : Z;
  block_engine_sender : C BlockEnginePackets;
  delivered : list (Z * RelayerPacketBatches);
  offered : list BlockEnginePackets;
}.
#[global] Instance fwd_state_eta : Eta fwd_state := fun s => {|
  buffered_packet_batches := buffered_packet_batches s; forwarder_metrics := forwarder_metrics s;
  last_metrics_upload := last_metrics_upload s; block_engine_sender := block_engine_sender s;
  delivered := delivered s; offered := offered s |}.

Inductive recv_result := Received (batch : BankingPacketBatch) | RecvTimeout | RecvDisconnected.

(** What an iteration reads: clocks in nanoseconds ([fr_now i] is the clock when
    the [i]-th batch at the front is tested), the lengths and capacities of the
    queues, what the block engine thread has taken from its channel, and
    whether the validators' channel still has a receiver. *)
Record fwd_readings := {
  fr_metrics_now : Z;
  fr_metrics_now2 : Z;
  fr_instant : Z;
  fr_system_time : Z;
  fr_now : nat -> Z;
  fr_buffered_cap : Z;
  fr_verified_cap : Z;
  fr_verified_len : Z;
  fr_recv : C BlockEnginePackets -> C BlockEnginePackets;
  fr_send_ok : nat -> bool;
}.

(** The upload of the metrics at the head of the loop. *)
Definition maybe_report (rd : fwd_readings) (s : fwd_state) : fwd_state :=
  if METRICS_INTERVAL <=? Z.max 0 (fr_metrics_now rd - last_metrics_upload s)
  then s <| forwarder_metrics := forwarder_metrics_new (fr_buffered_cap rd) (fr_verified_cap rd)
              (Z.of_nat (capacity (block_engine_sender s))) |>
         <| last_metrics_upload := fr_metrics_now2 rd |>
  else s.

(** The offer of a batch to the block engine thread. *)
Definition offer (rd : fwd_readings) (batch : BankingPacketBatch) (num_packets : Z) (s : fwd_state)
    : result Empty_set fwd_state :=
  if disable_mempool then Ok s
  else
    let packets := {| banking_packet_batch := batch; stamp := fr_system_time rd; expiration := packet_delay_ms |} in
    match try_send packets (fr_recv rd (block_engine_sender s)) with
    | (c, Sent) =>
        Ok (s <| block_engine_sender := c |> <| offered ::= fun l => l ++ [packets] |>
              <| forwarder_metrics ::= fun m =>
                   m <| num_be_packets_forwarded ::= fun x => u64_add x num_packets |> |>)
    | (_, Closed) => Panic
    | (c, Full) =>
        Ok (s <| block_engine_sender := c |>
              <| forwarder_metrics ::= fun m =>
                   m <| num_be_packets_dropped ::= fun x => u64_add x num_packets |>
                     <| num_be_sender_full ::= fun x => u64_add x 1 |> |>)
    end.

(** The arms of [verified_receiver.recv_timeout(..)]. *)
Definition receive (rd : fwd_readings) (r : recv_result) (s : fwd_state) : result Empty_set fwd_state :=
  match r with
  | Received batch =>
      let num_packets := total_len batch in
      let s := s <| forwarder_metrics ::= fun m =>
                      m <| num_batches_received ::= fun x => u64_add x 1 |>
                        <| num_packets_received ::= fun x => u64_add x num_packets |> |> in
      s ← offer rd batch num_packets s;
      Ok (s <| buffered_packet_batches ::= fun l =>
                 l ++ [{| rpb_stamp := fr_instant rd; rpb_batch := batch |}] |>)
  | RecvTimeout => Ok s
  | RecvDisconnected => Panic
  end.

(** The inner loop: batches are released from the front while they are due. *)
Fixpoint release (rd : fwd_readings) (i : nat) (buf : list RelayerPacketBatches) (s : fwd_state)
    : result Empty_set fwd_state :=
  match buf with
  | [] => Ok (s <| buffered_packet_batches := [] |>)
  | packet_batches :: rest =>
      if Z.max 0 (fr_now rd i - rpb_stamp packet_batches) <? packet_delay
      then Ok (s <| buffered_packet_batches := buf |>)
      else
        _ ← assert_that (fr_send_ok rd i);
        release rd (S i) rest
          (s <| forwarder_metrics ::= fun m =>
                  m <| num_relayer_packets_forwarded ::= fun x => u64_add x (total_len (rpb_batch packet_batches)) |> |>
             <| delivered ::= fun l => l ++ [(fr_now rd i, packet_batches)] |>)
  end.

(** One turn of the loop of [start_forward_and_delay_thread]. *)
Definition fwd_iteration (rd : fwd_readings) (r : recv_result) (s : fwd_state) : result Empty_set fwd_state :=
  let s := maybe_report rd s in
  s ← receive rd r s;
  s ← release rd 0 (buffered_packet_batches s) s;
  Ok (s <| forwarder_metrics ::= update_queue_lengths (Z.of_nat (length (buffered_packet_batches s)))
             (fr_buffered_cap rd) (fr_verified_len rd)
             (Z.of_nat BLOCK_ENGINE_FORWARDER_QUEUE_CAPACITY - Z.of_nat (capacity (block_engine_sender s))) |>).

Fixpoint fwd_run (inputs : list (fwd_readings * recv_result)) (s : fwd_state) : result Empty_set fwd_state :=
  match inputs with
  | [] => Ok s
  | (rd, r) :: inputs => s ← fwd_iteration rd r s; fwd_run inputs s
  end.

Definition fwd_init (start buffered_cap verified_cap : Z) (be : C BlockEnginePackets) : fwd_state := {|
  buffered_packet_batches := []; last_metrics_upload := start; block_engine_sender := be;
  forwarder_metrics := forwarder_metrics_new buffered_cap verified_cap (Z.of_nat (capacity be));
  delivered := []; offered := [] |}.

(** ** What goes to the validators *)

(** The batches received, with the time of their receipt. *)
Definition arrivals (inputs : list (fwd_readings * recv_result)) : list RelayerPacketBatches :=
  omap (fun i => match i.2 with
                 | Received b => Some {| rpb_stamp := fr_instant i.1; rpb_batch := b |}
                 | _ => None
                 end) inputs.

Definition held (s : fwd_state) : list RelayerPacketBatches := snd <$> delivered s.
Definition due (x : Z * RelayerPacketBatches) : Prop := packet_delay <= Z.max 0 (x.1 - rpb_stamp x.2).

Lemma release_spec rd i buf s s' :
  release rd i buf s = Ok s' ->
  exists n, (n <= length buf)%nat /\ buffered_packet_batches s' = drop n buf /\
    held s' = held s ++ take n buf /\ (Forall due (delivered s) -> Forall due (delivered s')) /\
    offered s' = offered s /\ block_engine_sender s' = block_engine_sender s /\
    forall b, drop n buf !! 0%nat = Some b -> fr_now rd (i + n) - rpb_stamp b < packet_delay.
Proof.
  revert i s. induction buf as [|b buf IH]; intros i s; cbn.
  { intros [= <-]. exists 0%nat. cbn. rewrite app_nil_r. by split_and!. }
  destruct (Z.ltb_spec (Z.max 0 (fr_now rd i - rpb_stamp b)) packet_delay) as [Hlt|Hge].
  { intros [= <-]. exists 0%nat. cbn. rewrite app_nil_r, Nat.add_0_r. split_and!; try done; [lia|].
    intros ? [= <-]. lia. }
  intros (u & _ & H)%bind_Ok_inv. apply IH in H as (n & Hn & Hb & Hh & Hd & Ho & Hc & Hf).
  exists (S n). cbn in *. split_and!; try done; [lia| | |].
  - rewrite Hh. unfold held. cbn. by rewrite fmap_app, <- app_assoc.
  - intros Hs. apply Hd. apply Forall_app. split; [done|]. by apply Forall_singleton.
  - by rewrite Nat.add_succ_r in *.
Qed.

Lemma fwd_iteration_spec rd r s s' :
  fwd_iteration rd r s = Ok s' ->
  held s' ++ buffered_packet_batches s' = (held s ++ buffered_packet_batches s) ++ arrivals [(rd, r)] /\
  (Forall due (delivered s) -> Forall due (delivered s')) /\
  exists n, forall b, buffered_packet_batches s' !! 0%nat = Some b -> fr_now rd n - rpb_stamp b < packet_delay.
Proof.
  intros (s1 & Hr & H)%bind_Ok_inv. apply bind_Ok_inv in H as (s2 & Hrel & [= <-]).
  apply release_spec in Hrel as (n & _ & Hb & Hh & Hd & _ & _ & Hf). cbn.
  assert (Hs1 : delivered s1 = delivered s /\
    buffered_packet_batches s1 = buffered_packet_batches s ++ arrivals [(rd, r)]).
  { assert (Hm : delivered (maybe_report rd s) = delivered s /\
      buffered_packet_batches (maybe_report rd s) = buffered_packet_batches s)
      by (unfold maybe_report; by case_match).
    destruct Hm as [Hm1 Hm2]. destruct r as [batch| |]; cbn -[maybe_report] in Hr |- *.
    - apply bind_Ok_inv in Hr as (s3 & Ho & [= <-]). unfold offer in Ho. cbn -[maybe_report].
      rewrite <- Hm1, <- Hm2. destruct disable_mempool; [by injection Ho as <-|].
      destruct (try_send _ _) as [c []]; by try injection Ho as <-.
    - injection Hr as <-. by rewrite app_nil_r.
    - done. }
  destruct Hs1 as [H1 H2]. split_and!.
  - unfold held in *. cbn. rewrite Hh, Hb, H1, H2, <- !app_assoc. f_equal. by rewrite take_drop.
  - cbn. rewrite <- H1. done.
  - exists n. cbn. rewrite Hb. exact Hf.
Qed.

Lemma fwd_run_spec inputs s0 s :
  fwd_run inputs s0 = Ok s -> Forall due (delivered s0) ->
  held s ++ buffered_packet_batches s = (held s0 ++ buffered_packet_batches s0) ++ arrivals inputs /\
  Forall due (delivered s) /\
  forall rd r, last inputs = Some (rd, r) ->
    exists n, forall b, buffered_packet_batches s !! 0%nat = Some b -> fr_now rd n - rpb_stamp b < packet_delay.
Proof.
  revert s0. induction inputs as [|[rd r] inputs IH]; intros s0; cbn [fwd_run].
  { intros [= <-] Hd. rewrite app_nil_r. by split_and!. }
  intros (s1 & Hi & Hr)%bind_Ok_inv Hd. apply fwd_iteration_spec in Hi as (Heq & Hd1 & Hf).
  destruct (IH s1 Hr (Hd1 Hd)) as (Heq' & Hds & Hl). split_and!; [|done|].
  - rewrite Heq', Heq, <- app_assoc. f_equal. unfold arrivals. by rewrite <- (omap_app _ [(rd, r)]).
  - intros rd' r'. destruct inputs as [|i inputs]; [|by apply Hl].
    intros [= <- <-]. injection Hr as <-. exact Hf.
Qed.

(** C11: what goes to the validators.  In every run the batches delivered,
    followed by those still held back, are the batches received, in the order
    received: none is lost, repeated or overtaken.  A batch is delivered only
    after it was held for the packet delay, and after every iteration the
    batch at the front is one that was not due yet. *)
Theorem delay_is_fifo start bcap vcap be inputs s :
  fwd_run inputs (fwd_init start bcap vcap be) = Ok s ->
  held s ++ buffered_packet_batches s = arrivals inputs /\ Forall due (delivered s) /\
  forall rd r, last inputs = Some (rd, r) ->
    exists n, forall b, buffered_packet_batches s !! 0%nat = Some b -> fr_now rd n - rpb_stamp b < packet_delay.
Proof. intros Hrun. exact (fwd_run_spec _ _ _ Hrun (List.Forall_nil _)). Qed.

(** ** What goes to the block engine *)

Definition accounted (s : fwd_state) : Prop :=
  let m := forwarder_metrics s in
  if disable_mempool then offered s = [] /\ num_be_packets_forwarded m = 0 /\ num_be_packets_dropped m = 0
  else u64 (num_packets_received m) = u64 (num_be_packets_forwarded m + num_be_packets_dropped m).

Lemma u64_add_swap a b c : u64 a = u64 (b + c) -> forall n,
  u64 (u64_add a n) = u64 (u64_add b n + c) /\ u64 (u64_add a n) = u64 (b + u64_add c n).
Proof.
  intros H n. unfold u64_add. rewrite wrap_wrap, wrap_add_l, wrap_add_r by lia.
  rewrite <- (wrap_add_l 64 a n), H, wrap_add_l by lia. split; f_equal; lia.
Qed.

Lemma fwd_iteration_accounted rd r s s' : fwd_iteration rd r s = Ok s' -> accounted s -> accounted s'.
Proof.
  intros (s1 & Hr & H)%bind_Ok_inv Ha. apply bind_Ok_inv in H as (s2 & Hrel & [= <-]).
  assert (Hm : accounted (maybe_report rd s)).
  { unfold maybe_report. case_match; [|done]. unfold accounted in *. cbn.
    destruct disable_mempool; [by destruct Ha|done]. }
  assert (H1 : accounted s1).
  { destruct r as [batch| |]; cbn -[maybe_report u64_add total_len] in Hr; [|by injection Hr as <-|done].
    apply bind_Ok_inv in Hr as (s3 & Ho & [= <-]). unfold offer, accounted in *.
    destruct disable_mempool; [injection Ho as <-; exact Hm|].
    destruct (try_send _ _) as [c []]; try done; injection Ho as <-; cbn -[maybe_report u64_add total_len wrap];
      by apply u64_add_swap. }
  clear Hr Hm Ha. revert H1 Hrel. generalize (buffered_packet_batches s1) as buf, 0%nat as i. intros buf.
  revert s1. induction buf as [|b buf IH]; intros s1 i H1; cbn.
  { intros [= <-]. exact H1. }
  destruct (_ <? packet_delay); [intros [= <-]; exact H1|].
  intros (u & _ & H)%bind_Ok_inv. by eapply IH in H.
Qed.

(** The block engine's share.  Within a reporting interval every packet
    received is counted once as forwarded to or once as dropped for the block
    engine; with the mempool disabled nothing is offered to it at all. *)
Theorem block_engine_share_accounted start bcap vcap be inputs s :
  fwd_run inputs (fwd_init start bcap vcap be) = Ok s -> accounted s.
Proof.
  assert (H0 : accounted (fwd_init start bcap vcap be)) by (unfold accounted; by destruct disable_mempool).
  revert H0. generalize (fwd_init start bcap vcap be) as s0.
  induction inputs as [|[rd r] inputs IH]; intros s0 H0; cbn; [by intros [= <-]|].
  intros (s1 & Hi & Hr)%bind_Ok_inv. eapply IH; [|exact Hr]. by eapply fwd_iteration_accounted.
Qed.

End forwarder.

(** ** Witnesses *)

Definition demo_fr (t : Z) : fwd_readings (C := queue) := {|
  fr_metrics_now := t * MILLIS; fr_metrics_now2 := t * MILLIS; fr_instant := t * MILLIS;
  fr_system_time := t * MILLIS; fr_now := fun _ => t * MILLIS; fr_buffered_cap := 100000;
  fr_verified_cap := 0; fr_verified_len := 0; fr_recv := id; fr_send_ok := fun _ => true |}.
(** Room for one batch towards the block engine, a delay of 50 ms. *)
Definition demo_fwd_inputs : list (fwd_readings (C := queue) * recv_result) := [
  (demo_fr 0, Received [[ref_packet [1] 0; ref_packet [2] 0]]); (demo_fr 20, Received [[ref_packet [3] 0]]);
  (demo_fr 55, RecvTimeout)].
Definition demo_fwd : result Empty_set (fwd_state (C := queue)) :=
  fwd_run 50 false demo_fwd_inputs (fwd_init 0 100000 0 (mk_queue [] 1 false)).

Example demo_fwd_run :
  match demo_fwd with
  | Ok s => length (delivered s) = 1%nat /\ length (buffered_packet_batches s) = 1%nat /\
      num_be_packets_forwarded (forwarder_metrics s) = 2 /\ num_be_packets_dropped (forwarder_metrics s) = 1
  | _ => False
  end.
Proof. vm_compute. by split_and!. Qed.

Definition demo_fwd_end : fwd_state (C := queue) :=
  match demo_fwd with Ok s => s | _ => fwd_init 0 0 0 (mk_queue [] 1 false) end.

Lemma delay_is_fifo_witness :
  held demo_fwd_end ++ buffered_packet_batches demo_fwd_end = arrivals demo_fwd_inputs.
Proof.
  refine (proj1 (delay_is_fifo 50 false 0 100000 0 (mk_queue [] 1 false) demo_fwd_inputs demo_fwd_end _)).
  vm_compute. reflexivity.
Defined.

Lemma block_engine_share_witness : accounted false demo_fwd_end.
Proof.
  refine (block_engine_share_accounted 50 false 0 100000 0 (mk_queue [] 1 false) demo_fwd_inputs demo_fwd_end _).
  vm_compute. reflexivity.
Defined.
