(* ===== verification/Startup.v ===== *)
(** * Start-up of the relayer ([src/transaction-relayer/src/main.rs])

    The checks and the wiring of [main]: sockets, the public address, the block
    engine configuration, the validator store, and the thread that refreshes
    the address lookup tables. *)

From Stdlib Require Import ZArith Lia String.
From stdpp Require Import base gmap strings list.
From S2P Require Import Prelude Interfaces Reference Ofac InterestFilter Schedule BlockEngine Forwarder.

(** The command line.  A [PathBuf] is its text, a [SocketAddr] an address and a
    port. *)
Record Args := {
  tpu_port : Z;                                 (** deprecated, unused *)
  tpu_fwd_port : Z;                             (** deprecated, unused *)
  tpu_quic_port : Z;
  num_tpu_quic_servers : Z;
  tpu_quic_fwd_port : Z;
  num_tpu_fwd_quic_servers : Z;
  grpc_bind_ip : IpAddr;
  grpc_bind_port : Z;
  rpc_servers : list string;
  websocket_servers : list string;
  entrypoint_address : string;
  arg_public_ip : option IpAddr;
  arg_packet_delay_ms : Z;
  arg_block_engine_url : option string;
  block_engine_auth_service_url : option string;
  keypair_path : string;
  allowed_validators : option (list Pubkey);
  signing_key_pem_path : string;
  verifying_key_pem_path : string;
  access_token_ttl_secs : Z;
  refresh_token_ttl_secs : Z;
  challenge_ttl_secs : Z;
  challenge_expiration_sleep_interval_secs : Z;
  missing_slot_unhealthy_secs : Z;
  cluster : option string;                      (** deprecated *)
  region : option string;                       (** deprecated *)
  aoi_cache_ttl_secs : Z;
  lookup_table_refresh_secs : Z;
  enable_lookup_table_refresh : bool;
  arg_ofac_addresses : option (list Pubkey);
  webserver_bind_addr : IpAddr * Z;
  max_unstaked_quic_connections : Z;
  max_staked_quic_connections : Z;
  arg_validator_packet_batch_size : Z;
  arg_disable_mempool : bool;
  arg_forward_all : bool;
  staked_nodes_overrides : option string;
  arg_slot_lookahead : Z;
  heartbeat_tick_time : Z;
}.
#[global] Instance Args_eta : Eta Args := fun a => {|
  tpu_port := tpu_port a; tpu_fwd_port := tpu_fwd_port a; tpu_quic_port := tpu_quic_port a;
  num_tpu_quic_servers := num_tpu_quic_servers a; tpu_quic_fwd_port := tpu_quic_fwd_port a;
  num_tpu_fwd_quic_servers := num_tpu_fwd_quic_servers a; grpc_bind_ip := grpc_bind_ip a;
  grpc_bind_port := grpc_bind_port a; rpc_servers := rpc_servers a; websocket_servers := websocket_servers a;
  entrypoint_address := entrypoint_address a; arg_public_ip := arg_public_ip a;
  arg_packet_delay_ms := arg_packet_delay_ms a; arg_block_engine_url := arg_block_engine_url a;
  block_engine_auth_service_url := block_engine_auth_service_url a; keypair_path := keypair_path a;
  allowed_validators := allowed_validators a; signing_key_pem_path := signing_key_pem_path a;
  verifying_key_pem_path := verifying_key_pem_path a; access_token_ttl_secs := access_token_ttl_secs a;
  refresh_token_ttl_secs := refresh_token_ttl_secs a; challenge_ttl_secs := challenge_ttl_secs a;
  challenge_expiration_sleep_interval_secs := challenge_expiration_sleep_interval_secs a;
  missing_slot_unhealthy_secs := missing_slot_unhealthy_secs a; cluster := cluster a; region := region a;
  aoi_cache_ttl_secs := aoi_cache_ttl_secs a; lookup_table_refresh_secs := lookup_table_refresh_secs a;
  enable_lookup_table_refresh := enable_lookup_table_refresh a; arg_ofac_addresses := arg_ofac_addresses a;
  webserver_bind_addr := webserver_bind_addr a; max_unstaked_quic_connections := max_unstaked_quic_connections a;
  max_staked_quic_connections := max_staked_quic_connections a;
  arg_validator_packet_batch_size := arg_validator_packet_batch_size a; arg_disable_mempool := arg_disable_mempool a;
  arg_forward_all := arg_forward_all a; staked_nodes_overrides := staked_nodes_overrides a;
  arg_slot_lookahead := arg_slot_lookahead a; heartbeat_tick_time := heartbeat_tick_time a |}.

(** The defaults, given the three paths that have none. *)
Definition default_args (keypair signing verifying : string) : Args := {|
  tpu_port := 0; tpu_fwd_port := 0; tpu_quic_port := 11228; num_tpu_quic_servers := 1;
  tpu_quic_fwd_port := 11229; num_tpu_fwd_quic_servers := 1; grpc_bind_ip := V4 0 0 0 0;
  grpc_bind_port := 11226; rpc_servers := ["http://127.0.0.1:8899"%string];
  websocket_servers := ["ws://127.0.0.1:8900"%string];
  entrypoint_address := "entrypoint.mainnet-beta.solana.com:8001"; arg_public_ip := None;
  arg_packet_delay_ms := 50; arg_block_engine_url := None; block_engine_auth_service_url := None;
  keypair_path := keypair; allowed_validators := None; signing_key_pem_path := signing;
  verifying_key_pem_path := verifying; access_token_ttl_secs := 1800; refresh_token_ttl_secs := 180000;
  challenge_ttl_secs := 1800; challenge_expiration_sleep_interval_secs := 180;
  missing_slot_unhealthy_secs := 10; cluster := None; region := None; aoi_cache_ttl_secs := 300;
  lookup_table_refresh_secs := 600; enable_lookup_table_refresh := false; arg_ofac_addresses := None;
  webserver_bind_addr := (V4 127 0 0 1, 11227); max_unstaked_quic_connections := 500;
  max_staked_quic_connections := 2000; arg_validator_packet_batch_size := 4; arg_disable_mempool := false;
  arg_forward_all := false; staked_nodes_overrides := None; arg_slot_lookahead := 5; heartbeat_tick_time := 100 |}.

Definition args_ok (a : Args) : Prop :=
  is_u16 (tpu_quic_port a) /\ is_u16 (num_tpu_quic_servers a) /\
  is_u16 (tpu_quic_fwd_port a) /\ is_u16 (num_tpu_fwd_quic_servers a).

(** [solana_net_utils::multi_bind_in_range_with_config]: binds [n] sockets to one
    port of a half-open range. *)
Class NetApi (Sk : Type) := {
  multi_bind_in_range : Z -> Z -> nat -> option (Z * list Sk);
  local_port : Sk -> Z;
}.
Class NetLaws (Sk : Type) `{NetApi Sk} := {
  multi_bind_spec : forall lo hi n p socks, multi_bind_in_range lo hi n = Some (p, socks) ->
    lo <= p < hi /\ length socks = n /\ Forall (fun s => local_port s = p) socks;
}.

Section sockets.
Context {Sk : Type} `{NA : NetApi Sk}.

Record TpuSockets := {
  transactions_quic_sockets : list Sk;
  transactions_forwards_quic_sockets : list Sk;
}.

(** [start..end] of two [u16]s. *)
Definition port_range (start stop : Z) : list Z := seqZ start (stop - start).

(** The closure that binds server [i] of a range, and its [collect]. *)
Definition bind_server (start i : Z) : result Empty_set (Z * Sk) :=
  '(port, socks) ← unwrap (multi_bind_in_range (u16 (start + i)) (u16 (start + 1 + i)) 1);
  sock ← unwrap (last socks);
  Ok (port, sock).
Fixpoint bind_servers (start : Z) (idxs : list Z) : result Empty_set (list (Z * Sk)) :=
  match idxs with
  | [] => Ok []
  | i :: idxs => x ← bind_server start i; xs ← bind_servers start idxs; Ok (x :: xs)
  end.

Definition get_sockets (args : Args) : result Empty_set TpuSockets :=
  _ ← assert_that (num_tpu_quic_servers args <? u16_max);
  _ ← assert_that (num_tpu_fwd_quic_servers args <? u16_max);
  tpu_end ← unwrap (u16_checked_add (tpu_quic_port args) (num_tpu_quic_servers args));
  fwd_end ← unwrap (u16_checked_add (tpu_quic_fwd_port args) (num_tpu_fwd_quic_servers args));
  let tpu_ports := port_range (tpu_quic_port args) tpu_end in
  let tpu_fwd_ports := port_range (tpu_quic_fwd_port args) fwd_end in
  _ ← assert_that (forallb (fun p => negb (bool_decide (p ∈ tpu_fwd_ports))) tpu_ports);
  tpu ← bind_servers (tpu_quic_port args) (port_range 0 (num_tpu_quic_servers args));
  fwd ← bind_servers (tpu_quic_fwd_port args) (port_range 0 (num_tpu_fwd_quic_servers args));
  _ ← assert_that (bool_decide (tpu_ports = tpu.*1));
  _ ← assert_that (bool_decide (tpu_fwd_ports = fwd.*1));
  Ok {| transactions_quic_sockets := tpu.*2; transactions_forwards_quic_sockets := fwd.*2 |}.

Lemma bind_servers_ports `{NL : !NetLaws Sk} start idxs xs :
  bind_servers start idxs = Ok xs -> local_port <$> xs.*2 = xs.*1.
Proof.
  revert xs. induction idxs as [|i idxs IH]; intros xs; cbn; [by intros [= <-]|].
  intros ([p sk] & Hb & H)%bind_Ok_inv. apply bind_Ok_inv in H as (ys & Hy & [= <-]).
  apply bind_Ok_inv in Hb as ([port socks] & Hm & Hb). apply bind_Ok_inv in Hb as (sock & Hl & [= <- <-]).
  destruct (multi_bind_in_range _ _ _) as [[port' socks']|] eqn:E; [|done]. injection Hm as -> ->.
  apply multi_bind_spec in E as (_ & _ & Hp). cbn. f_equal; [|by apply IH].
  destruct (last socks) eqn:El; [|done]. injection Hl as ->.
  rewrite Forall_forall in Hp. apply Hp. by apply last_Some_elem_of.
Qed.

Definition tpu_ports (args : Args) : list Z := seqZ (tpu_quic_port args) (num_tpu_quic_servers args).
Definition fwd_ports (args : Args) : list Z := seqZ (tpu_quic_fwd_port args) (num_tpu_fwd_quic_servers args).

(** What the assertions of [get_sockets] leave. *)
Lemma get_sockets_Ok `{NL : !NetLaws Sk} args s :
  args_ok args -> get_sockets args = Ok s ->
  local_port <$> transactions_quic_sockets s = tpu_ports args /\
  local_port <$> transactions_forwards_quic_sockets s = fwd_ports args /\
  (forall p, p ∈ tpu_ports args -> p ∉ fwd_ports args) /\ Forall is_u16 (tpu_ports args ++ fwd_ports args).
Proof.
  intros (Ht & Hnt & Hf & Hnf). unfold get_sockets, port_range, u16_checked_add.
  intros ([] & _ & H)%bind_Ok_inv. apply bind_Ok_inv in H as ([] & _ & H).
  apply bind_Ok_inv in H as (e1 & He1 & H). apply bind_Ok_inv in H as (e2 & He2 & H).
  destruct (Z.leb_spec (tpu_quic_port args + num_tpu_quic_servers args) u16_max) as [Hle|]; [|done].
  destruct (Z.leb_spec (tpu_quic_fwd_port args + num_tpu_fwd_quic_servers args) u16_max) as [Hle2|]; [|done].
  injection He1 as <-. injection He2 as <-. rewrite !Z.add_simpl_l in H.
  apply bind_Ok_inv in H as ([] & Hdis%assert_that_Ok & H).
  apply bind_Ok_inv in H as (tpu & Htpu & H). apply bind_Ok_inv in H as (fwd & Hfwd & H).
  apply bind_Ok_inv in H as (? & Hb1%assert_that_Ok & H). apply bind_Ok_inv in H as (? & Hb2%assert_that_Ok & H).
  apply bool_decide_eq_true in Hb1, Hb2. injection H as <-. cbn.
  rewrite (bind_servers_ports _ _ _ Htpu), (bind_servers_ports _ _ _ Hfwd), <- Hb1, <- Hb2. split_and!; try done.
  - intros p Hp. rewrite forallb_forall in Hdis. apply list_elem_of_In, Hdis in Hp.
    by apply negb_true_iff, bool_decide_eq_false in Hp.
  - apply Forall_forall. intros p [Hp|Hp]%elem_of_app; unfold tpu_ports, fwd_ports in Hp;
      apply elem_of_seqZ in Hp; unfold is_u16 in *; lia.
Qed.

(** The range check stops overlapping ranges. *)
Lemma get_sockets_overlap args p :
  p ∈ tpu_ports args -> p ∈ fwd_ports args -> get_sockets args = Panic.
Proof.
  intros Hp1 Hp2. unfold get_sockets, port_range, u16_checked_add.
  destruct (num_tpu_quic_servers args <? u16_max); cbn -[u16_max]; [|done].
  destruct (num_tpu_fwd_quic_servers args <? u16_max); cbn -[u16_max]; [|done].
  destruct (tpu_quic_port args + num_tpu_quic_servers args <=? u16_max); cbn -[u16_max]; [|done].
  destruct (tpu_quic_fwd_port args + num_tpu_fwd_quic_servers args <=? u16_max); cbn -[u16_max]; [|done].
  rewrite !Z.add_simpl_l. destruct (forallb _ _) eqn:Hdis; [|done]. exfalso.
  rewrite forallb_forall in Hdis. apply list_elem_of_In, Hdis in Hp1.
  apply negb_true_iff, bool_decide_eq_false in Hp1. by apply Hp1.
Qed.

(** The sockets.  When [get_sockets] returns, the sockets are bound to the
    configured consecutive ports, no port serves both purposes, and none is
    used twice; when the two configured ranges overlap it never returns. *)
Theorem get_sockets_spec `{NL : !NetLaws Sk} args :
  args_ok args ->
  (forall s, get_sockets args = Ok s ->
    local_port <$> transactions_quic_sockets s = tpu_ports args /\
    local_port <$> transactions_forwards_quic_sockets s = fwd_ports args /\
    NoDup (tpu_ports args ++ fwd_ports args) /\ Forall is_u16 (tpu_ports args ++ fwd_ports args)) /\
  ((exists p, p ∈ tpu_ports args /\ p ∈ fwd_ports args) -> get_sockets args = Panic).
Proof.
  intros Hargs. split.
  - intros s (H1 & H2 & Hd & Hu)%get_sockets_Ok; [|done]. split_and!; try done.
    apply NoDup_app. split; [apply NoDup_seqZ|split; [exact Hd|apply NoDup_seqZ]].
  - intros (p & H1 & H2). by eapply get_sockets_overlap.
Qed.
End sockets.
Arguments TpuSockets : clear implicits.

(** ** The addresses *)

(** The public address: the argument, or what [get_public_ip_addr] finds; then
    the three assertions on addresses. *)
Definition check_addresses (args : Args) (discovered : option IpAddr) : result Empty_set IpAddr :=
  ip ← match arg_public_ip args with
       | Some ip => Ok ip
       | None => unwrap discovered
       end;
  _ ← assert_that (is_ipv4 ip);
  _ ← assert_that (negb (is_loopback ip));
  _ ← assert_that (is_ipv4 (grpc_bind_ip args));
  Ok ip.

(** The RPC and websocket servers are paired by position. *)
Definition pair_servers (args : Args) : result Empty_set (list (string * string)) :=
  _ ← assert_that (Nat.eqb (length (rpc_servers args)) (length (websocket_servers args)));
  Ok (zip (rpc_servers args) (websocket_servers args)).

Definition ofac_set (args : Args) : gset Pubkey :=
  match arg_ofac_addresses args with Some a => list_to_set a | None => ∅ end.

(** ** Who may authenticate *)

Inductive ValidatorStore :=
| LeaderScheduleStore
| UserDefined (pubkeys : gset Pubkey).
Definition validator_store (args : Args) : ValidatorStore :=
  match allowed_validators args with
  | Some pubkeys => UserDefined (list_to_set pubkeys)
  | None => LeaderScheduleStore
  end.

(** [ValidatorAutherImpl::is_authorized], given the current leader schedule. *)
Definition is_authorized `{IZ : !HashIter Z} (store : ValidatorStore) (schedule : LeaderSchedule) (pubkey : Pubkey) : bool :=
  match store with
  | LeaderScheduleStore => is_scheduled_validator schedule pubkey
  | UserDefined pubkeys => bool_decide (pubkey ∈ pubkeys)
  end.

(** ** The block engine *)

Definition block_engine_config (args : Args) : option BlockEngineConfig :=
  if negb (arg_disable_mempool args)
  then url ← arg_block_engine_url args;
       Some {| block_engine_url := url; auth_service_url := default url (block_engine_auth_service_url args) |}
  else None.

(** [BlockEngineRelayerHandler::new] starts its thread, which owns the receiving
    end of the packet channel, only with a configuration; without one the
    receiver is dropped, and the channel closes. *)
Definition engine_receiver_alive (cfg : option BlockEngineConfig) : bool := bool_decide (is_Some cfg).

Section no_engine.
Context {C : Type -> Type} `{MP : Mpsc C} `{MPL : !MpscLaws C}.

(** C40: a relayer started without a block engine address but with the mempool
    enabled does not survive its first packets: the forwarder finds the channel
    to the block engine thread closed, and panics. *)
Theorem no_engine_address_panics args delay (be : C BlockEnginePackets) rd batch s :
  arg_block_engine_url args = None -> arg_disable_mempool args = false ->
  rx_closed be = negb (engine_receiver_alive (block_engine_config args)) ->
  (length (queued be) < max_capacity be)%nat ->
  fr_recv rd (block_engine_sender s) = be ->
  fwd_iteration delay (arg_disable_mempool args) rd (Received batch) s = Panic.
Proof.
  intros Hurl Hdis Hrx Hlen Hbe. unfold block_engine_config in Hrx. rewrite Hurl, Hdis in *.
  assert (Hm : block_engine_sender (maybe_report rd s) = block_engine_sender s)
    by (unfold maybe_report; by destruct (_ <=? _)).
  unfold fwd_iteration, receive, offer. cbn -[maybe_report release total_len u64_add]. rewrite Hm, Hbe.
  match goal with |- context [try_send ?p be] => pose proof (try_send_spec p be) as Hs;
    destruct (try_send p be) as [c []] end; [|lia|done].
  destruct Hs as [Hs _]. rewrite Hs in Hrx. unfold engine_receiver_alive in Hrx.
  rewrite bool_decide_eq_false_2 in Hrx; [done|apply is_Some_None].
Qed.
End no_engine.

(** ** Address lookup tables *)

Section lookup_tables.
(** [AddressLookupTable::deserialize] on the data of an account. *)
Context {Data : Type} (deserialize_table : Data -> option (list Pubkey)).

(** One turn of the loop over the accounts: the keys read so far and the table. *)
Definition load_table (acc : gset Pubkey * AltCache) (account : Pubkey * Data) : gset Pubkey * AltCache :=
  let '(new_pubkeys, lookup_table) := acc in
  let '(pubkey, data) := account in
  match deserialize_table data with
  | None => (new_pubkeys, lookup_table)
  | Some addresses =>
      ({[pubkey]} ∪ new_pubkeys,
       <[pubkey := {| alt_key := pubkey; addresses := addresses |}]> lookup_table)
  end.

(** [refresh_address_lookup_table]; [accounts] answers [get_program_accounts]. *)
Definition refresh_address_lookup_table (accounts : string + list (Pubkey * Data)) (lookup_table : AltCache)
    : result string () * AltCache :=
  match accounts with
  | inl e => (Err e, lookup_table)
  | inr accounts =>
      let '(new_pubkeys, lookup_table) := foldl load_table (∅, lookup_table) accounts in
      (Ok (), filter (fun kv => kv.1 ∈ new_pubkeys) lookup_table)
  end.

(** The table of the last readable account of a key. *)
Definition last_table (accounts : list (Pubkey * Data)) (k : Pubkey) : option AddressLookupTableAccount :=
  foldl (fun acc account => if decide (account.1 = k)
                            then match deserialize_table account.2 with
                                 | Some l => Some {| alt_key := k; addresses := l |}
                                 | None => acc
                                 end
                            else acc) None accounts.

Lemma load_tables accounts seen lt k :
  let r := foldl load_table (seen, lt) accounts in
  (k ∈ r.1 <-> k ∈ seen \/ is_Some (last_table accounts k)) /\
  r.2 !! k = match last_table accounts k with Some t => Some t | None => lt !! k end.
Proof.
  cbn. unfold last_table. induction accounts as [|[pk d] accounts IH] using rev_ind; cbn.
  { split; [|done]. split; [by left|]. intros [?|H]; [done|by apply is_Some_None in H]. }
  rewrite !foldl_app. cbn. destruct (foldl load_table (seen, lt) accounts) as [seen' lt']. cbn in *.
  destruct IH as [IH1 IH2]. destruct (deserialize_table d) as [l|]; cbn.
  - destruct (decide (pk = k)) as [->|Hne].
    + rewrite lookup_insert_eq. split; [|done]. split; [by right; eexists|set_solver].
    + rewrite lookup_insert_ne by done. split; [|done]. rewrite <- IH1. set_solver.
  - destruct (decide (pk = k)); done.
Qed.

(** A refresh of the lookup tables forgets everything it knew: afterwards
    the cache holds exactly, for every account the server listed whose data is
    readable, its last table under its own key; if the server fails the cache
    is left alone. *)
Theorem refresh_replaces_tables accounts lookup_table :
  match refresh_address_lookup_table accounts lookup_table with
  | (Ok _, lt) => exists l, accounts = inr l /\ forall k, lt !! k = last_table l k
  | (Err e, lt) => accounts = inl e /\ lt = lookup_table
  | (Panic, _) => False
  end.
Proof.
  unfold refresh_address_lookup_table. destruct accounts as [e|l]; [done|].
  pose proof (load_tables l ∅ lookup_table) as H. cbn in H.
  destruct (foldl load_table _ l) as [seen lt]. exists l. split; [done|]. intros k.
  destruct (H k) as [H1 H2]. cbn in *. rewrite map_lookup_filter, H2.
  destruct (last_table l k) as [t|]; cbn.
  - rewrite option_guard_True; [done|]. apply H1. right. by eexists.
  - destruct (lookup_table !! k); cbn; [|done]. rewrite option_guard_False; [done|].
    rewrite H1. intros [Hk|Hk]; [set_solver|by apply is_Some_None in Hk].
Qed.

(** One turn of the refresher thread: nothing until the refresh period is over. *)
Definition refresher_turn (refresh_duration now now_after : Z) (accounts : string + list (Pubkey * Data))
    (s : AltCache * Z) : AltCache * Z :=
  let '(lookup_table, last_refresh) := s in
  if Z.max 0 (now - last_refresh) <? refresh_duration then s
  else ((refresh_address_lookup_table accounts lookup_table).2, now_after).
End lookup_tables.

(** ** Witnesses *)

#[export] Instance ref_net : NetApi Z := {|
  multi_bind_in_range lo hi n := if lo <? hi then Some (lo, replicate n lo) else None;
  local_port := id;
|}.
#[export] Instance ref_net_laws : NetLaws Z.
Proof.
  split. cbn. intros lo hi n p socks. destruct (Z.ltb_spec lo hi); [|done]. intros [= <- <-].
  split_and!; [lia|lia|apply length_replicate|by apply Forall_replicate].
Qed.

Definition demo_args : Args :=
  (default_args "id.json" "priv.pem" "pub.pem") <| num_tpu_quic_servers := 2 |>
    <| tpu_quic_fwd_port := 11240 |> <| num_tpu_fwd_quic_servers := 3 |>.

Lemma get_sockets_witness :
  exists s, get_sockets (Sk := Z) demo_args = Ok s /\
    local_port <$> transactions_forwards_quic_sockets s = [11240; 11241; 11242].
Proof.
  eexists. split; [vm_compute; reflexivity|].
  refine (proj1 (proj2 (proj1 (get_sockets_spec (Sk := Z) demo_args _)
    {| transactions_quic_sockets := [11228; 11229]; transactions_forwards_quic_sockets := [11240; 11241; 11242] |} _)));
    vm_compute; try reflexivity; repeat split; discriminate.
Defined.

(** Without any options the two port ranges are adjacent but do not overlap. *)
Example default_sockets :
  get_sockets (Sk := Z) (default_args "id.json" "priv.pem" "pub.pem") =
    Ok {| transactions_quic_sockets := [11228]; transactions_forwards_quic_sockets := [11229] |}.
Proof. vm_compute. reflexivity. Qed.

Lemma no_engine_address_witness :
  fwd_iteration 50 (arg_disable_mempool demo_args) (demo_fr 1) (Received [[ref_packet [1] 0]])
    (fwd_init 0 100 0 (mk_queue [] 5000 true)) = Panic.
Proof.
  refine (no_engine_address_panics demo_args 50 (mk_queue [] 5000 true) (demo_fr 1) [[ref_packet [1] 0]]
    (fwd_init 0 100 0 (mk_queue [] 5000 true)) eq_refl eq_refl _ _ eq_refl).
  - vm_compute. reflexivity.
  - apply Nat.ltb_lt. vm_compute. reflexivity.
Defined.
