(* ===== verification/Web.v ===== *)
(** * The diagnostic web server ([src/web/src/lib.rs])

    Three endpoints show the state of the relayer.  What the web framework
    answers to an unknown path or another method, and whether its buffer refuses
    a request, are parameters. *)

From Stdlib Require Import ZArith Lia String.
From stdpp Require Import base gmap strings list.
From S2P Require Import Prelude Interfaces Health Relayer.

Section web.
Context {C : Type -> Type} `{MP : Mpsc C} `{IT : !HashIter Pubkey} `{TP : Text Pubkey}.

(** What [RelayerState] gives access to. *)
Record RelayerState := {
  slot_health : HealthState;
  web_is_connected_to_block_engine : bool;
  web_subscriptions : gmap Pubkey (C response);
}.
Record RelayerStatus := {
  slots_healthy : bool;
  status_is_connected : bool;
  validators_connected : list string;
}.

Definition get_health (state : RelayerState) : string :=
  if bool_decide (slot_health state = Healthy) && web_is_connected_to_block_engine state
  then "ok" else "unhealthy".

Definition get_status (state : RelayerState) : RelayerStatus := {|
  slots_healthy := bool_decide (slot_health state = Healthy);
  status_is_connected := web_is_connected_to_block_engine state;
  validators_connected := to_string <$> connected_validators (web_subscriptions state);
|}.

(** ** The router *)

Inductive web_body := PlainText (t : string) | StatusJson (st : RelayerStatus).
Inductive Method := GET | OtherMethod (name : string).
Record http_response := { http_status : Z; http_body : web_body }.

Definition homepage (state : RelayerState) : string := "jito relayer".

(** The routes of [build_relayer_router]. *)
Definition web_routes : list (string * (RelayerState -> web_body)) := [
  ("/"%string, fun state => PlainText (homepage state));
  ("/health"%string, fun state => PlainText (get_health state));
  ("/status"%string, fun state => StatusJson (get_status state))].

(** Around them, the layer that turns an error of the buffer or of the rate
    limiter into a response. *)
Definition handle_error (err : string) : http_response :=
  {| http_status := 500; http_body := PlainText ("Unhandled error: " ++ err) |}.
Definition web_serve (not_found : string -> http_response) (method_not_allowed : string -> string -> http_response)
    (layer_error : option string) (method : Method) (path : string) (state : RelayerState) : http_response :=
  match layer_error with
  | Some err => handle_error err
  | None =>
      match list_find (fun r => r.1 = path) web_routes with
      | None => not_found path
      | Some (_, (_, handler)) =>
          match method with
          | GET => {| http_status := 200; http_body := handler state |}
          | OtherMethod m => method_not_allowed path m
          end
      end
  end.

(** [start_relayer_web_server]: [bind] panics when the address is taken; an error
    of the server itself is ignored. *)
Definition start_relayer_web_server (bind_ok : bool) (serve_result : string + ()) : result Empty_set () :=
  _ ← assert_that bind_ok;
  match serve_result with inl _ => Ok () | inr () => Ok () end.

(** The health endpoint agrees with the two flags of the status endpoint, and
    the status lists each connected validator exactly once. *)
Lemma health_and_status `{ITL : !HashIterLaws Pubkey} `{!TextLaws Pubkey wf} nf mna state :
  (forall k, k ∈ dom (web_subscriptions state) -> wf k) ->
  (web_serve nf mna None GET "/health" state = {| http_status := 200; http_body := PlainText "ok" |} <->
     slots_healthy (get_status state) = true /\ status_is_connected (get_status state) = true) /\
  NoDup (validators_connected (get_status state)) /\
  forall t, t ∈ validators_connected (get_status state) <->
    exists k, t = to_string k /\ k ∈ dom (web_subscriptions state).
Proof.
  intros Hwf. split; [|split].
  - change (web_serve nf mna None GET "/health" state)
      with {| http_status := 200; http_body := PlainText (get_health state) |}.
    cbn. unfold get_health. rewrite <- andb_true_iff. destruct (_ && _); split; congruence.
  - cbn. unfold connected_validators. rewrite map_iter_perm.
    assert (Hnd : NoDup (map_to_list (web_subscriptions state)).*1) by apply NoDup_fst_map_to_list.
    assert (Hin : forall k, k ∈ (map_to_list (web_subscriptions state)).*1 -> wf k).
    { intros k (kv & -> & Hkv)%list_elem_of_fmap. apply Hwf, elem_of_dom.
      destruct kv as [k c]. apply elem_of_map_to_list in Hkv. by eexists. }
    revert Hnd Hin. generalize ((map_to_list (web_subscriptions state)).*1). intros l Hnd Hin.
    apply NoDup_fmap_2_strong; [|done]. intros x y Hx Hy Heq.
    apply (f_equal from_str) in Heq. rewrite !from_to_string in Heq by auto. by injection Heq.
  - intros t. cbn. unfold connected_validators. rewrite list_elem_of_fmap. f_equiv. intros k. f_equiv.
    rewrite map_iter_perm, list_elem_of_fmap, elem_of_dom. split.
    + intros ([k' c] & -> & Hc). apply elem_of_map_to_list in Hc. by eexists.
    + intros [c Hc]. exists (k, c). split; [done|]. by apply elem_of_map_to_list.
Qed.
End web.
