(* ===== verification/StakedNodes.v ===== *)
(** * Stakes of the nodes ([src/core/src/staked_nodes_updater_service.rs])

    A thread replaces the shared map of stakes with the vote accounts the RPC
    server lists, at most every five seconds. *)

From Stdlib Require Import ZArith Lia String.
From stdpp Require Import base gmap strings list.
From S2P Require Import Prelude Interfaces.

(** The part of [RpcVoteAccountStatus] that is read. *)
Record VoteAccount := { node_pubkey : string; activated_stake : Z }.
Record VoteAccountStatus := { current : list VoteAccount; delinquent : list VoteAccount }.

(** [StakedNodes]: the stakes and the overrides. *)
Record StakedNodes := { stakes : gmap Pubkey Z; overrides : gmap Pubkey Z }.

Definition PK_TO_STAKE_REFRESH_DURATION : Z := 5 * NANOS.

Section staked_nodes.
Context `{TP : Text Pubkey}.

(** [collect] into a [HashMap]: a later entry of a key replaces an earlier one. *)
Definition stake_entries (v : VoteAccountStatus) : list (Pubkey * Z) :=
  omap (fun a => pk ← from_str (node_pubkey a); Some (pk, activated_stake a)) (current v ++ delinquent v).
Definition collect_stakes (l : list (Pubkey * Z)) : gmap Pubkey Z :=
  foldl (fun m kv => <[kv.1 := kv.2]> m) ∅ l.

(** [try_refresh_pk_to_stake]: the new map and the new time of the last refresh;
    [now] and [now_after] are its clock readings. *)
Definition try_refresh_pk_to_stake (now now_after last_stakes : Z) (vote_accounts : string + VoteAccountStatus)
    : result string (option (gmap Pubkey Z) * Z) :=
  if PK_TO_STAKE_REFRESH_DURATION <? Z.max 0 (now - last_stakes)
  then match vote_accounts with
       | inl e => Err e
       | inr v => Ok (Some (collect_stakes (stake_entries v)), now_after)
       end
  else Ok (None, last_stakes).

(** One turn of the updater thread on the shared stakes and its timer. *)
Definition updater_turn (staked_nodes_overrides : gmap Pubkey Z) (now now_after : Z)
    (vote_accounts : string + VoteAccountStatus) (s : StakedNodes * Z) : StakedNodes * Z :=
  let '(shared, last_stakes) := s in
  match try_refresh_pk_to_stake now now_after last_stakes vote_accounts with
  | Ok (Some stake_map, last_stakes) =>
      ({| stakes := stake_map; overrides := staked_nodes_overrides |}, last_stakes)
  | Ok (None, last_stakes) => (shared, last_stakes)
  | _ => s
  end.

Lemma collect_stakes_lookup l k :
  collect_stakes l !! k = snd <$> last (List.filter (fun kv => bool_decide (kv.1 = k)) l).
Proof.
  unfold collect_stakes. induction l as [|[k' v] l IH] using rev_ind; [done|].
  rewrite foldl_app, List.filter_app. cbn. case_bool_decide as Hk.
  - subst k'. by rewrite lookup_insert_eq, last_snoc.
  - rewrite lookup_insert_ne by done. by rewrite app_nil_r.
Qed.

Lemma collect_stakes_elem l k x : collect_stakes l !! k = Some x -> (k, x) ∈ l.
Proof.
  rewrite collect_stakes_lookup. destruct (last _) as [[k' y]|] eqn:E; [|done]. intros [= <-].
  apply last_Some_elem_of in E. apply list_elem_of_In, filter_In in E as [E Hk%bool_decide_eq_true].
  cbn in Hk. subst k'. by apply list_elem_of_In.
Qed.

(** A node listed several times has the stake of its last entry, delinquent
    accounts after current ones, not the sum. *)
Lemma updater_turn_spec ovr now now_after votes shared last_stakes k :
  let s' := updater_turn ovr now now_after votes (shared, last_stakes) in
  (Z.max 0 (now - last_stakes) <= PK_TO_STAKE_REFRESH_DURATION -> s' = (shared, last_stakes)) /\
  (forall e, votes = inl e -> s' = (shared, last_stakes)) /\
  (forall v, votes = inr v -> PK_TO_STAKE_REFRESH_DURATION < Z.max 0 (now - last_stakes) ->
    s'.2 = now_after /\ overrides s'.1 = ovr /\
    stakes s'.1 !! k = snd <$> last (List.filter (fun kv => bool_decide (kv.1 = k)) (stake_entries v))).
Proof.
  cbn. unfold try_refresh_pk_to_stake.
  destruct (Z.ltb_spec PK_TO_STAKE_REFRESH_DURATION (Z.max 0 (now - last_stakes))).
  - split_and!; [lia|by intros e ->|]. intros v -> _. cbn. by rewrite collect_stakes_lookup.
  - split_and!; [done|done|lia].
Qed.

End staked_nodes.
