(* ===== verification/PacketBlaster.v ===== *)
(** * The packet blaster ([src/packet_blaster/src/main.rs])

    A load generator: one thread per keypair opens a connection to the TPU of a
    relayer and sends it batches of ten transfers to itself, in one of three
    modes.  Connections, transactions and the RPC client are parameters; what
    they did in a turn is an input of the turn. *)

From Stdlib Require Import ZArith Lia String.
From stdpp Require Import base list.
From S2P Require Import Prelude Interfaces.

(** ** Arguments *)

Inductive Mode :=
| Quic
| Quinn (spam_from_localhost : bool)
| SlowLoris (spam_from_localhost : bool) (chunk_size : nat) (sleep_interval_ms num_connections : Z)
    (num_streams_per_conn : nat).

Record Args := {
  rpc_addr : string;
  keypair_path : string;
  tpu_addr : IpAddr * Z;
  ip_port_offset : Z;
  loop_sleep_micros : option Z;
  connection_mode : Mode;
}.

Inductive PacketBlasterError :=
| ConnectError (e : string) | ConnectionError (e : string) | WriteError (e : string) | TransportError (e : string).
Inductive io_error := IoOther (e : string) | IoNotFound (e : string).

(** ** What the blaster uses of the Solana client, of the file system and of quinn *)

Class BlasterApi (KP : Type) := {
  keypair_pubkey : KP -> Pubkey;
  keypair_from_bytes : list Z -> string + KP;
  (** [serialize(&transfer(keypair, to, lamports, blockhash))] *)
  transfer_bytes : KP -> Pubkey -> Z -> Z -> option (list Z);
  QUIC_MAX_TIMEOUT_MS : Z;
  QUIC_KEEP_ALIVE_MS : Z;
  ALPN_TPU_PROTOCOL_ID : list Z;
}.

Record endpoint := {
  ep_bind : IpAddr * Z;
  ep_early_data : bool;
  ep_alpn : list (list Z);
  ep_idle_timeout_ms : Z;
  ep_keep_alive_ms : Z;
}.
Record connection := { conn_from : endpoint; conn_to : IpAddr * Z; conn_name : string }.

(** A path as the file system shows it. *)
Inductive path_contents (KP : Type) :=
| Directory (entries : string + list (option (option KP)))    (** per entry: readable, and its keypair *)
| File (contents : string + list Z).
Arguments Directory {KP}. Arguments File {KP}.

(** [offset.to_be_bytes()] of a [u32]. *)
Definition to_be_bytes (z : Z) : Z * Z * Z * Z :=
  (Z.land (Z.shiftr z 24) 255, Z.land (Z.shiftr z 16) 255, Z.land (Z.shiftr z 8) 255, Z.land z 255).

Definition local_socket_addr (ip_port_offset thread_id : Z) (spam_from_localhost : bool) : IpAddr * Z :=
  let offset := u32 (u32 ip_port_offset + u32 thread_id) in
  let '(_, b, c, d) := to_be_bytes offset in
  let port := u16 (1024 + u16 offset) in
  if spam_from_localhost then (V4 127 b c d, port) else (V4 0 0 0 0, port).

(** ** Streams *)

(** A unidirectional stream as its peer sees it; [slept] is the time spent
    between the writes. *)
Record uni_stream := { written : list (list Z); finished : bool; slept : Z }.
Definition stream_new : uni_stream := {| written := []; finished := false; slept := 0 |}.
#[global] Instance uni_stream_eta : Eta uni_stream := fun s =>
  {| written := written s; finished := finished s; slept := slept s |}.

(** What happens to one stream: whether it opens, at which write it fails and how
    many bytes of that write got through, and whether it can be finished. *)
Record stream_env := {
  se_open : option string;
  se_write : nat -> option (string * nat);
  se_finish : option string;
}.
Definition stream_fine : stream_env := {| se_open := None; se_write := fun _ => None; se_finish := None |}.

Definition stream_outcome : Type := result PacketBlasterError () * option uni_stream.

Definition finish_stream (env : stream_env) (s : uni_stream) : stream_outcome :=
  match se_finish env with
  | Some e => (Err (WriteError e), Some s)
  | None => (Ok (), Some (s <| finished := true |>))
  end.

(** One future of the [Quinn] arm of [send]. *)
Definition send_quinn (env : stream_env) (buf : list Z) : stream_outcome :=
  match se_open env with
  | Some e => (Err (ConnectionError e), None)
  | None =>
      match se_write env 0%nat with
      | Some (e, n) => (Err (WriteError e), Some (stream_new <| written := [take n buf] |>))
      | None => finish_stream env (stream_new <| written := [buf] |>)
      end
  end.

(** The loop over the chunks of a transaction. *)
Fixpoint write_chunks (env : stream_env) (sleep_interval : Z) (i : nat) (cs : list (list Z)) (s : uni_stream)
    : stream_outcome :=
  match cs with
  | [] => finish_stream env s
  | c :: cs =>
      match se_write env i with
      | Some (e, n) => (Err (WriteError e), Some (s <| written ::= fun w => w ++ [take n c] |>))
      | None => write_chunks env sleep_interval (S i) cs
                  (s <| written ::= fun w => w ++ [c] |> <| slept ::= Z.add sleep_interval |>)
      end
  end.

(** One future of the [SlowLoris] arm; [chunks] panics on a size of zero. *)
Definition send_slow (env : stream_env) (chunk_size : nat) (sleep_interval : Z) (txn : list Z) : stream_outcome :=
  match se_open env with
  | Some e => (Err (ConnectionError e), None)
  | None =>
      match chunk_size with
      | O => (Panic, Some stream_new)
      | S _ => write_chunks env sleep_interval 0 (chunks chunk_size txn) stream_new
      end
  end.

(** ** Senders *)

Inductive TpuSender :=
| SendQuinn (c : connection)
| SendSlowLoris (c : connection) (chunk_size : nat) (num_streams_per_conn : nat) (sleep_interval : Z)
| SendQuic (to : IpAddr * Z).

(** [txns.into_iter().cartesian_product(0..n)], without the stream number. *)
Definition repeat_each {A} (n : nat) (l : list A) : list A := concat (replicate n <$> l).

(** [join_all] keeps the order of the futures, and a panic of one of them is a
    panic of the whole. *)
Definition join_all (os : list stream_outcome) : result Empty_set (list (result PacketBlasterError ())) :=
  if existsb (fun o => match o.1 with Panic => true | _ => false end) os then Panic else Ok os.*1.

(** [TpuSender::send]: the results, and the streams of the batch. *)
Definition send (s : TpuSender) (envs : nat -> stream_env) (batch : option string) (serialized_txns : list (list Z))
    : result Empty_set (list (result PacketBlasterError ()) * list (option uni_stream)) :=
  match s with
  | SendQuinn _ =>
      let os := imap (fun i buf => send_quinn (envs i) buf) serialized_txns in
      rs ← join_all os; Ok (rs, os.*2)
  | SendSlowLoris _ chunk_size n sleep_interval =>
      let os := imap (fun i txn => send_slow (envs i) chunk_size sleep_interval txn)
                  (repeat_each n serialized_txns) in
      rs ← join_all os; Ok (rs, os.*2)
  | SendQuic _ =>
      Ok ([match batch with Some e => Err (TransportError e) | None => Ok () end], [])
  end.

Section blaster.
Context {KP : Type} `{BlasterApi KP}.

(** The configuration of the client side of a connection. *)
Definition create_endpoint (send_addr : IpAddr * Z) : endpoint := {|
  ep_bind := send_addr;
  ep_early_data := true;
  ep_alpn := [ALPN_TPU_PROTOCOL_ID];
  ep_idle_timeout_ms := u32 (QUIC_MAX_TIMEOUT_MS * 100);
  ep_keep_alive_ms := QUIC_KEEP_ALIVE_MS;
|}.

(** What the network does with a socket address: the endpoint cannot be bound, or
    the connection fails, or it stands. *)
Inductive connect_outcome := BindFails | ConnectFails | Connected.

Definition setup_quinn_sender (net : endpoint -> connect_outcome) (dest_addr : IpAddr * Z)
    (offset : Z) (thread_id : Z) (spam_from_localhost : bool) : result PacketBlasterError connection :=
  let send_socket_addr := local_socket_addr offset thread_id spam_from_localhost in
  let ep := create_endpoint send_socket_addr in
  match net ep with
  | BindFails | ConnectFails => Panic
  | Connected => Ok {| conn_from := ep; conn_to := dest_addr; conn_name := "connect" |}
  end.

Definition TpuSender_new (net : endpoint -> connect_outcome) (args : Args) (thread_id : Z)
    : result PacketBlasterError TpuSender :=
  match connection_mode args with
  | Quinn spam =>
      c ← setup_quinn_sender net (tpu_addr args) (ip_port_offset args) thread_id spam;
      Ok (SendQuinn c)
  | SlowLoris spam chunk_size sleep_interval_ms _ num_streams_per_conn =>
      c ← setup_quinn_sender net (tpu_addr args) (ip_port_offset args) thread_id spam;
      Ok (SendSlowLoris c chunk_size num_streams_per_conn sleep_interval_ms)
  | Quic => Ok (SendQuic (tpu_addr args))
  end.

(** ** A thread *)

Definition TXN_BATCH_SIZE : nat := 10.
Definition metrics_interval : Z := 5 * NANOS.

Record blaster := {
  last_blockhash_refresh : Z;
  latest_blockhash : Z;
  curr_success : Z; curr_fail : Z;
  cumm_success : Z; cumm_fail : Z;
}.
#[global] Instance blaster_eta : Eta blaster := fun b => {|
  last_blockhash_refresh := last_blockhash_refresh b; latest_blockhash := latest_blockhash b;
  curr_success := curr_success b; curr_fail := curr_fail b;
  cumm_success := cumm_success b; cumm_fail := cumm_fail b |}.

(** The start of a thread: the clock and the first blockhash. *)
Definition blaster_new (now : Z) (blockhash : string + Z) : result Empty_set blaster :=
  h ← unwrap (match blockhash with inr h => Some h | inl _ => None end);
  Ok {| last_blockhash_refresh := now; latest_blockhash := h;
        curr_success := 0; curr_fail := 0; cumm_success := 0; cumm_fail := 0 |}.

(** The counts that a report logs. *)
Record report_line := { rl_success : Z; rl_fail : Z; rl_total : Z }.

(** The report at the head of the loop, and the new blockhash. *)
Definition blaster_report (now : Z) (blockhash : string + Z) (b : blaster)
    : result Empty_set (blaster * report_line) :=
  let b := b <| cumm_success ::= fun x => u64_add x (curr_success b) |>
             <| cumm_fail ::= fun x => u64_add x (curr_fail b) |> in
  let line := {| rl_success := curr_success b; rl_fail := curr_fail b;
                 rl_total := u64_add (cumm_success b) (cumm_fail b) |} in
  let b := b <| last_blockhash_refresh := now |> <| curr_success := 0 |> <| curr_fail := 0 |> in
  h ← unwrap (match blockhash with inr h => Some h | inl _ => None end);
  Ok (b <| latest_blockhash := h |>, line).

Definition tx_count (b : blaster) : Z :=
  u64_add (u64_add (u64_add (cumm_success b) (cumm_fail b)) (curr_success b)) (curr_fail b).

(** The amounts of the transfers of a turn, and the transfers that serialize. *)
Definition amounts (b : blaster) : list Z :=
  (fun i => u64_add (tx_count b) (Z.of_nat i)) <$> List.seq 0 TXN_BATCH_SIZE.
Definition make_txns (kp : KP) (b : blaster) : list (list Z) :=
  omap (fun lamports => transfer_bytes kp (keypair_pubkey kp) lamports (latest_blockhash b)) (amounts b).

(** What a turn reads: the clock, the blockhash if it asks for one, and what
    becomes of its streams. *)
Record turn_input := {
  ti_now : Z;
  ti_blockhash : string + Z;
  ti_streams : nat -> stream_env;
  ti_batch : option string;
}.
Record turn_output := {
  to_line : option report_line;
  to_amounts : list Z;
  to_streams : list (option uni_stream);
}.

Definition is_success (r : result PacketBlasterError ()) : bool := match r with Ok _ => true | _ => false end.

(** One turn of the loop. *)
Definition blaster_turn (kp : KP) (sender : TpuSender) (i : turn_input) (b : blaster)
    : result Empty_set (blaster * turn_output) :=
  '(b, line) ← (if metrics_interval <? ti_now i - last_blockhash_refresh b
                then '(b, line) ← blaster_report (ti_now i) (ti_blockhash i) b; Ok (b, Some line)
                else Ok (b, None));
  '(results, streams) ← send sender (ti_streams i) (ti_batch i) (make_txns kp b);
  let out := {| to_line := line; to_amounts := amounts b; to_streams := streams |} in
  Ok (b <| curr_success ::= fun x => u64_add x (u64 (Z.of_nat (count_if is_success results))) |>
        <| curr_fail ::= fun x => u64_add x (u64 (Z.of_nat (count_if (fun r => negb (is_success r)) results))) |>,
      out).

Fixpoint blaster_run (kp : KP) (sender : TpuSender) (inputs : list turn_input) (b : blaster)
    : result Empty_set (blaster * list turn_output) :=
  match inputs with
  | [] => Ok (b, [])
  | i :: inputs =>
      '(b, out) ← blaster_turn kp sender i b;
      '(b, outs) ← blaster_run kp sender inputs b;
      Ok (b, out :: outs)
  end.

(** ** The program *)

Definition read_keypairs (path : path_contents KP) : result io_error (list KP) :=
  match path with
  | Directory (inl e) => Err (IoOther e)
  | Directory (inr entries) => Ok (omap mjoin entries)
  | File (inl e) => Err (IoOther e)
  | File (inr bytes) =>
      match keypair_from_bytes bytes with
      | inl e => Err (IoNotFound e)
      | inr kp => Ok [kp]
      end
  end.

(** The threads [main] starts, each with its number, and the range of ports it logs. *)
Definition blaster_main (args : Args) (path : path_contents KP) : result Empty_set (list (nat * KP) * (Z * Z)) :=
  keypairs ← unwrap (match read_keypairs path with Ok kps => Some kps | _ => None end);
  let starting_port := u16 (1024 + ip_port_offset args) in
  Ok (imap pair keypairs, (starting_port, u16 (starting_port + u16 (Z.of_nat (length keypairs))))).

(** A thread from its start: [TpuSender::new], the first blockhash, the turns. *)
Definition blaster_thread (net : endpoint -> connect_outcome) (args : Args) (thread : nat * KP)
    (start : Z) (blockhash : string + Z) (inputs : list turn_input) : result Empty_set (blaster * list turn_output) :=
  sender ← unwrap (match TpuSender_new net args (Z.of_nat thread.1) with Ok s => Some s | _ => None end);
  b ← blaster_new start blockhash;
  blaster_run thread.2 sender inputs b.
End blaster.

(** ** Airdrops *)

Inductive client_error := ClientErr (e : string) | Custom (e : string).

(** [sigs] are the answers to the requests; each poll has the time since the
    requests and the answer to [get_signature_statuses]. *)
Fixpoint poll_airdrop (polls : list (Z * (client_error + list bool))) : option (result client_error ()) :=
  match polls with
  | [] => None
  | (elapsed, r) :: polls =>
      if elapsed <? 20 * NANOS then
        match r with
        | inl e => Some (Err e)
        | inr confirmed =>
            if forallb id confirmed then Some (Err (Custom "signature error")) else poll_airdrop polls
        end
      else Some (Ok ())
  end.
Fixpoint collect_results {A} (l : list (client_error + A)) : client_error + list A :=
  match l with
  | [] => inr []
  | inl e :: _ => inl e
  | inr a :: l => match collect_results l with inl e => inl e | inr l => inr (a :: l) end
  end.
(** [None] when the list of polls ends before the function returns. *)
Definition request_and_confirm_airdrop {Sg} (LAMPORTS_PER_SOL : Z) (request : Pubkey -> Z -> client_error + Sg)
    (pubkeys : list Pubkey)
    (polls : list Sg -> list (Z * (client_error + list bool))) : option (result client_error ()) :=
  match collect_results ((fun pubkey => request pubkey (u64 (100 * LAMPORTS_PER_SOL))) <$> pubkeys) with
  | inl e => Some (Err e)
  | inr sigs => poll_airdrop (polls sigs)
  end.

(** ** Lemmas on streams *)

Lemma finish_stream_spec env s r st :
  finish_stream env s = (r, st) ->
  exists s', st = Some s' /\ written s' = written s /\ slept s' = slept s /\
    ((r = Ok () /\ finished s' = true) \/ ((exists e, r = Err e) /\ finished s' = finished s)).
Proof.
  unfold finish_stream. destruct (se_finish env) as [e|]; intros [= <- <-]; eexists; split_and!; try done; eauto.
Qed.

(** The bytes on the stream are those of the chunks up to the failing write. *)
Lemma write_chunks_spec env ms cs : forall i s r st,
  finished s = false -> write_chunks env ms i cs s = (r, st) ->
  exists s', st = Some s' /\ concat (written s) `prefix_of` concat (written s') /\
    concat (written s') `prefix_of` concat (written s) ++ concat cs /\
    ((r = Ok () /\ finished s' = true /\ written s' = written s ++ cs /\
      slept s' = slept s + ms * Z.of_nat (length cs)) \/
     ((exists e, r = Err e) /\ finished s' = false)).
Proof.
  induction cs as [|c cs IH]; intros i s r st Hf; cbn [write_chunks].
  - intros (s' & -> & Hw & Hs & Hr)%finish_stream_spec. exists s'. rewrite Hw. cbn. rewrite app_nil_r.
    split_and!; try done. destruct Hr as [[-> Hfin]|[He Hfin]]; [left|right; by rewrite Hfin].
    split_and!; try done; [by rewrite app_nil_r|lia].
  - destruct (se_write env i) as [[e n]|].
    + intros [= <- <-]. eexists. split; [done|]. cbn. rewrite concat_app. cbn. rewrite app_nil_r. split_and!.
      * by apply prefix_app_r.
      * apply prefix_app. apply prefix_app_r. apply prefix_take.
      * right. split; [by eexists|done].
    + intros (s' & -> & Hp1 & Hp2 & Hr)%IH; [|done]. exists s'. cbn in *.
      rewrite concat_app in Hp1, Hp2. cbn in Hp1, Hp2. rewrite app_nil_r in Hp1, Hp2. rewrite <- app_assoc in Hp2.
      split_and!; try done.
      * etrans; [|exact Hp1]. by apply prefix_app_r.
      * destruct Hr as [(-> & Hfin & Hw & Hsl)|Hr]; [left|by right].
        split_and!; try done; [by rewrite Hw, <- app_assoc|lia].
Qed.

(** Threads of one instance send from different addresses when they send from
    localhost, up to 2^16 of them by the port alone. *)
Lemma local_socket_addr_inj offset i j spam :
  0 <= offset <= u16_max -> 0 <= i < 2 ^ 16 -> 0 <= j < 2 ^ 16 ->
  local_socket_addr offset i spam = local_socket_addr offset j spam -> i = j.
Proof.
  intros Ho Hi Hj H. assert (Hp : (local_socket_addr offset i spam).2 = (local_socket_addr offset j spam).2)
    by by rewrite H.
  unfold local_socket_addr in Hp. unfold u16_max in Ho.
  rewrite !(wrap_small 32 offset), !(wrap_small 32 i), !(wrap_small 32 j),
    !(wrap_small 32 (offset + _)) in Hp by lia.
  destruct spam; cbn [snd to_be_bytes] in Hp; rewrite !wrap_add_r in Hp by lia;
    unfold wrap in Hp; change (2 ^ 16) with 65536 in *;
    Z.to_euclidean_division_equations; lia.
Qed.


(** What a stream carries of a transaction: a prefix of it, all of it exactly
    when the result is a success, and only then is the stream finished. *)
Definition carries (txn : list Z) (o : stream_outcome) : Prop :=
  match o.2 with
  | None => exists e, o.1 = Err (ConnectionError e)
  | Some s => concat (written s) `prefix_of` txn /\
              ((o.1 = Ok () /\ finished s = true /\ concat (written s) = txn) \/
               ((exists e, o.1 = Err e) /\ finished s = false))
  end.

Lemma send_quinn_carries env buf : carries buf (send_quinn env buf).
Proof.
  unfold send_quinn. destruct (se_open env) as [e|]; [by exists e|].
  destruct (se_write env 0%nat) as [[e n]|].
  - cbn. rewrite app_nil_r. split; [apply prefix_take|]. right. split; [by eexists|done].
  - destruct (finish_stream env _) as [r st] eqn:E. apply finish_stream_spec in E as (s' & -> & Hw & _ & Hr).
    cbn in *. rewrite Hw. cbn. rewrite app_nil_r. split; [done|]. destruct Hr as [[-> Hfin]|[He Hfin]]; [by left|by right].
Qed.

Lemma send_slow_carries env cs ms txn : (0 < cs)%nat -> carries txn (send_slow env cs ms txn).
Proof.
  intros Hcs. unfold send_slow. destruct (se_open env) as [e|]; [by exists e|]. destruct cs as [|cs']; [lia|].
  destruct (write_chunks _ _ _ _ _) as [r st] eqn:E. apply write_chunks_spec in E as (s' & -> & _ & Hp & Hr); [|done].
  rewrite chunks_concat in Hp by lia. cbn in *. split; [done|].
  destruct Hr as [(-> & Hfin & Hw & _)|Hr]; [left|by right]. rewrite Hw. cbn. split_and!; try done. apply chunks_concat. lia.
Qed.

Lemma carries_no_panic txn o : carries txn o -> match o.1 with Panic => true | _ => false end = false.
Proof. unfold carries. destruct o as [r [s|]]; cbn; [intros (_ & [(-> & _)|((e & ->) & _)]); done|by intros (e & ->)]. Qed.

Lemma join_all_carries {A} (f : nat -> A -> stream_outcome) (g : A -> list Z) l :
  (forall i a, carries (g a) (f i a)) -> join_all (imap f l) = Ok (imap f l).*1.
Proof.
  intros Hf. unfold join_all. destruct (existsb _ _) eqn:E; [|done]. exfalso.
  apply existsb_exists in E as (o & Hin & Ho). apply list_elem_of_In in Hin.
  apply elem_of_lookup_imap in Hin as (i & a & -> & _). by rewrite (carries_no_panic _ _ (Hf i a)) in Ho.
Qed.

(** The transactions a sender opens a stream for, in order. *)
Definition stream_payloads (s : TpuSender) (txns : list (list Z)) : list (list Z) :=
  match s with
  | SendQuinn _ => txns
  | SendSlowLoris _ _ n _ => repeat_each n txns
  | SendQuic _ => []
  end.
Definition stream_sender (s : TpuSender) : Prop :=
  match s with SendQuinn _ => True | SendSlowLoris _ cs _ _ => (0 < cs)%nat | SendQuic _ => False end.

Lemma send_streams_outcomes s envs batch txns : stream_sender s ->
  exists os, send s envs batch txns = Ok (os.*1, os.*2) /\ Forall2 carries (stream_payloads s txns) os.
Proof.
  destruct s as [c|c cs n ms|to]; cbn [stream_sender stream_payloads send]; intros Hs; [| |done].
  - eexists. rewrite (join_all_carries _ id) by (intros; apply send_quinn_carries). split; [done|].
    apply Forall2_same_length_lookup. split; [by rewrite length_imap|].
    intros i txn o Ht Ho. rewrite list_lookup_imap, Ht in Ho. injection Ho as <-. apply send_quinn_carries.
  - eexists. rewrite (join_all_carries _ id) by (intros; by apply send_slow_carries). split; [done|].
    apply Forall2_same_length_lookup. split; [by rewrite length_imap|].
    intros i txn o Ht Ho. rewrite list_lookup_imap, Ht in Ho. injection Ho as <-. by apply send_slow_carries.
Qed.

(** ** Lemmas on the counters *)

Section counters.
Context {KP : Type} `{BlasterApi KP}.

Lemma tx_count_spec b :
  tx_count b = u64 (cumm_success b + cumm_fail b + curr_success b + curr_fail b).
Proof.
  unfold tx_count, u64_add. rewrite wrap_add_l, <- Z.add_assoc, wrap_add_l by lia. f_equal. lia.
Qed.

Lemma tx_count_bounds b : 0 <= tx_count b < 2 ^ 64.
Proof. rewrite tx_count_spec. by apply wrap_bounds. Qed.

(** Two counters advanced modulo the width. *)
Lemma wrap_add_two w a s f x y : 0 <= w ->
  wrap w (a + wrap w (s + wrap w x) + wrap w (f + wrap w y)) = wrap w (a + s + f + (x + y)).
Proof.
  intros Hw. rewrite wrap_add_r by done.
  replace (a + wrap w (s + wrap w x) + (f + wrap w y)) with (wrap w (s + wrap w x) + (a + f) + wrap w y) by lia.
  rewrite wrap_add_r by done. rewrite <- (Z.add_assoc (wrap _ _)), wrap_add_l by done.
  replace (s + wrap w x + (a + f + y)) with (s + a + f + y + wrap w x) by lia. rewrite wrap_add_r by done.
  f_equal. lia.
Qed.

(** A report moves the counts without changing their sum. *)
Lemma blaster_report_count now h b b' line :
  blaster_report now h b = Ok (b', line) -> tx_count b' = tx_count b.
Proof.
  unfold blaster_report. destruct h as [e|h]; [done|]. intros [= <- _]. rewrite !tx_count_spec.
  unfold u64_add. cbn -[wrap]. rewrite !Z.add_0_r, wrap_add_l, wrap_add_r by lia. f_equal. lia.
Qed.

(** The results a batch of [m] transactions has. *)
Definition results_per_turn (s : TpuSender) (m : nat) : nat :=
  match s with SendQuinn _ => m | SendSlowLoris _ _ n _ => n * m | SendQuic _ => 1 end.

Lemma length_repeat_each {A} n (l : list A) : length (repeat_each n l) = (n * length l)%nat.
Proof.
  unfold repeat_each. induction l as [|a l IH]; cbn; [lia|]. rewrite length_app, length_replicate, IH. lia.
Qed.

Lemma join_all_length os rs : join_all os = Ok rs -> length rs = length os.
Proof. unfold join_all. destruct (existsb _ _); [done|]. intros [= <-]. by rewrite length_fmap. Qed.

Lemma send_length s envs batch txns rs sts :
  send s envs batch txns = Ok (rs, sts) -> length rs = results_per_turn s (length txns).
Proof.
  destruct s as [c|c cs n ms|to]; cbn [send results_per_turn].
  - destruct (join_all _) as [rs'| |] eqn:E; cbn; [|done|done]. intros [= <- _].
    by rewrite (join_all_length _ _ E), length_imap.
  - destruct (join_all _) as [rs'| |] eqn:E; cbn; [|done|done]. intros [= <- _].
    by rewrite (join_all_length _ _ E), length_imap, length_repeat_each.
  - by intros [= <- _].
Qed.

Lemma count_if_negb {A} (f : A -> bool) l : (count_if f l + count_if (fun x => negb (f x)) l = length l)%nat.
Proof. induction l as [|x l IH]; [done|]. unfold count_if in *. cbn. destruct (f x); cbn; lia. Qed.

Lemma make_txns_length kp b :
  (forall lamports h, is_Some (transfer_bytes kp (keypair_pubkey kp) lamports h)) ->
  length (make_txns kp b) = TXN_BATCH_SIZE.
Proof.
  intros Hs. unfold make_txns. assert (Hl : length (amounts b) = TXN_BATCH_SIZE) by done.
  rewrite <- Hl. clear Hl. induction (amounts b) as [|x l IH]; [done|]. cbn [omap list_omap].
  destruct (Hs x (latest_blockhash b)) as [t ->]. cbn. by f_equal.
Qed.

Lemma blaster_turn_spec kp sender i b b' out :
  (forall lamports h, is_Some (transfer_bytes kp (keypair_pubkey kp) lamports h)) ->
  blaster_turn kp sender i b = Ok (b', out) ->
  to_amounts out = amounts b /\
  tx_count b' = u64_add (tx_count b) (Z.of_nat (results_per_turn sender TXN_BATCH_SIZE)).
Proof.
  intros Hs. unfold blaster_turn. intros Ht.
  apply bind_Ok_inv in Ht as ([b1 line] & Hb1 & Ht).
  assert (Hcount : tx_count b1 = tx_count b).
  { destruct (metrics_interval <? _) in Hb1; [|by injection Hb1 as <- _].
    apply bind_Ok_inv in Hb1 as ([b2 line'] & Hb1 & Hb2). injection Hb2 as <- _. by eapply blaster_report_count. }
  apply bind_Ok_inv in Ht as ([rs sts] & Hsend & Ht). injection Ht as <- <-. cbn.
  split; [unfold amounts; by rewrite Hcount|].
  apply send_length in Hsend. rewrite make_txns_length in Hsend by done.
  pose proof (count_if_negb is_success rs) as Hn. rewrite <- Hcount, !tx_count_spec. unfold u64_add. cbn -[wrap count_if].
  rewrite wrap_add_two, wrap_add_l by lia. f_equal. lia.
Qed.

Lemma blaster_run_cons kp sender i inputs b b' outs :
  blaster_run kp sender (i :: inputs) b = Ok (b', outs) ->
  exists b1 out outs', blaster_turn kp sender i b = Ok (b1, out) /\
    blaster_run kp sender inputs b1 = Ok (b', outs') /\ outs = out :: outs'.
Proof.
  cbn. intros ([b1 out] & Ht & Hr)%bind_Ok_inv. apply bind_Ok_inv in Hr as ([b2 outs'] & Hr & Heq).
  injection Heq as <- <-. by exists b1, out, outs'.
Qed.

(** Amounts without overflow: ten in a row. *)
Lemma amounts_small b x : x ∈ amounts b -> tx_count b + 10 <= 2 ^ 64 -> tx_count b <= x < tx_count b + 10.
Proof.
  intros (i & -> & Hi)%list_elem_of_fmap Hb. apply elem_of_seq in Hi. unfold TXN_BATCH_SIZE in Hi.
  pose proof (tx_count_bounds b) as Hw. unfold u64_add. rewrite wrap_small; lia.
Qed.
Lemma amounts_NoDup b : tx_count b + 10 <= 2 ^ 64 -> NoDup (amounts b).
Proof.
  intros Hb. pose proof (tx_count_bounds b) as Hw. unfold amounts. apply NoDup_fmap_2_strong; [|apply NoDup_seq].
  intros i j Hi%elem_of_seq Hj%elem_of_seq. unfold TXN_BATCH_SIZE in *. unfold u64_add. rewrite !wrap_small by lia. lia.
Qed.

Section serializable.
Context (kp : KP) (sender : TpuSender).
Context (Hser : forall lamports h, is_Some (transfer_bytes kp (keypair_pubkey kp) lamports h)).
Let r : nat := results_per_turn sender TXN_BATCH_SIZE.

Lemma run_amounts_distinct inputs : forall b b' outs,
  (10 <= r)%nat -> tx_count b + Z.of_nat (length inputs * r) <= 2 ^ 64 ->
  blaster_run kp sender inputs b = Ok (b', outs) ->
  NoDup (concat (to_amounts <$> outs)) /\ Forall (Z.le (tx_count b)) (concat (to_amounts <$> outs)).
Proof.
  induction inputs as [|i inputs IH]; intros b b' outs Hr Hb Hrun.
  { injection Hrun as _ <-. split; constructor. }
  apply blaster_run_cons in Hrun as (b1 & out & outs' & Ht & Hrun & ->).
  destruct (blaster_turn_spec _ _ _ _ _ _ Hser Ht) as [Ham Hc]. fold r in Hc.
  pose proof (tx_count_bounds b) as Hw. rewrite length_cons in Hb.
  cbn [fmap list_fmap concat]. rewrite Ham.
  destruct (decide (tx_count b + Z.of_nat r = 2 ^ 64)) as [Hfull|Hnf].
  - assert (inputs = []) as -> by (destruct inputs; [done|cbn in Hb; lia]).
    injection Hrun as _ <-. cbn [fmap list_fmap concat]. rewrite app_nil_r. split; [apply amounts_NoDup; lia|].
    apply Forall_forall. intros x Hx%amounts_small; lia.
  - rewrite u64_add_small in Hc by (unfold u64_max; lia).
    destruct (IH b1 b' outs' Hr) as [Hnd Hall]; [rewrite Hc; lia|done|]. split.
    + apply NoDup_app. split_and!; [apply amounts_NoDup; lia| |done].
      intros x Hx%amounts_small Hin; [|lia]. rewrite Forall_forall in Hall. specialize (Hall _ Hin). lia.
    + apply Forall_app_2; [apply Forall_forall; intros x Hx%amounts_small; lia|].
      eapply Forall_impl; [exact Hall|]. intros x. lia.
Qed.

(** In general the amounts of turn [k] begin where the results so far end. *)
Lemma run_amounts inputs : forall b b' outs k out,
  blaster_run kp sender inputs b = Ok (b', outs) -> outs !! k = Some out ->
  to_amounts out = (fun i => u64 (tx_count b + Z.of_nat (k * r) + Z.of_nat i)) <$> List.seq 0 TXN_BATCH_SIZE.
Proof.
  induction inputs as [|i inputs IH]; intros b b' outs k out Hrun Hk.
  { injection Hrun as _ <-. done. }
  apply blaster_run_cons in Hrun as (b1 & out1 & outs' & Ht & Hrun & ->).
  destruct (blaster_turn_spec _ _ _ _ _ _ Hser Ht) as [Ham Hc]. fold r in Hc.
  destruct k as [|k]; cbn [lookup list_lookup] in Hk.
  - injection Hk as <-. rewrite Ham. apply list_fmap_ext. intros ? j _. unfold u64_add. f_equal. lia.
  - rewrite (IH _ _ _ _ _ Hrun Hk). apply list_fmap_ext. intros ? j _. rewrite Hc. unfold u64_add.
    rewrite <- Z.add_assoc, wrap_add_l by lia. f_equal. lia.
Qed.
End serializable.
End counters.

(** ** Theorems *)

(** A batch sent over streams has one result per stream, the streams in the
    order of the transactions (each repeated for the streams of a slow loris),
    and whatever fails, a stream carries a prefix of its transaction; it carries
    all of it and is finished exactly when its result is a success. *)
Theorem send_streams s envs batch txns :
  stream_sender s ->
  exists rs sts, send s envs batch txns = Ok (rs, sts) /\
    length rs = results_per_turn s (length txns) /\ length sts = length rs /\
    forall i txn, stream_payloads s txns !! i = Some txn ->
      exists r st, rs !! i = Some r /\ sts !! i = Some st /\ carries txn (r, st).
Proof.
  intros Hs. destruct (send_streams_outcomes s envs batch txns Hs) as (os & Hsend & Hall).
  exists os.*1, os.*2. split; [done|]. split; [by eapply send_length|]. split; [by rewrite !length_fmap|].
  intros i txn Hi. destruct (Forall2_lookup_l _ _ _ _ _ Hall Hi) as ([r st] & Ho & Hc).
  exists r, st. unfold stream_outcome in *. split_and!; [by rewrite list_lookup_fmap, Ho|by rewrite list_lookup_fmap, Ho|done].
Qed.

(** C21: when every batch yields at least one result per transaction (the Quinn
    mode, and the slow loris with at least one stream), no two transactions of a
    thread transfer the same amount, whatever failed, until the counts reach
    2^64. *)
Theorem amounts_distinct {KP} `{BlasterApi KP} (kp : KP) sender inputs start h b b' outs :
  (forall lamports h, is_Some (transfer_bytes kp (keypair_pubkey kp) lamports h)) ->
  match sender with SendQuinn _ => True | SendSlowLoris _ _ n _ => (0 < n)%nat | SendQuic _ => False end ->
  blaster_new start h = Ok b -> blaster_run kp sender inputs b = Ok (b', outs) ->
  Z.of_nat (length inputs * results_per_turn sender TXN_BATCH_SIZE) <= 2 ^ 64 ->
  NoDup (concat (to_amounts <$> outs)).
Proof.
  intros Hser Hsender Hb Hrun Hlen.
  refine (proj1 (run_amounts_distinct kp sender Hser inputs b b' outs _ _ Hrun)).
  - destruct sender; cbn; unfold TXN_BATCH_SIZE; [lia|lia|done].
  - assert (tx_count b = 0) as ->; [|lia]. unfold blaster_new in Hb. destruct h; [done|]. by injection Hb as <-.
Qed.

(** In the Quic mode a batch has one result, and nine of the ten amounts of a
    turn are those of the turn before. *)
Lemma quic_amounts_overlap {KP} `{BlasterApi KP} (kp : KP) to inputs b b' outs k o1 o2 :
  (forall lamports h, is_Some (transfer_bytes kp (keypair_pubkey kp) lamports h)) ->
  blaster_run kp (SendQuic to) inputs b = Ok (b', outs) -> outs !! k = Some o1 -> outs !! S k = Some o2 ->
  drop 1 (to_amounts o1) = take 9 (to_amounts o2).
Proof.
  intros Hser Hrun H1 H2. rewrite (run_amounts _ _ Hser _ _ _ _ _ _ Hrun H1), (run_amounts _ _ Hser _ _ _ _ _ _ Hrun H2).
  cbn -[wrap Z.of_nat Nat.mul]. repeat (f_equal; [f_equal; lia|]). do 2 f_equal. lia.
Qed.

(** [request_and_confirm_airdrop] reports the opposite of what happened: it
    fails with a signature error as soon as every airdrop is confirmed, and it
    succeeds only after twenty seconds in which that was never seen. *)
Theorem airdrop_inverted {Sg} sol (request : Pubkey -> Z -> client_error + Sg) pubkeys polls sigs :
  collect_results ((fun pubkey => request pubkey (u64 (100 * sol))) <$> pubkeys) = inr sigs ->
  (forall pre t confirmed post, polls sigs = pre ++ (t, inr confirmed) :: post ->
     Forall (fun p => p.1 < 20 * NANOS /\ exists c, p.2 = inr c /\ forallb id c = false) pre ->
     t < 20 * NANOS -> forallb id confirmed = true ->
     request_and_confirm_airdrop sol request pubkeys polls = Some (Err (Custom "signature error"))) /\
  (request_and_confirm_airdrop sol request pubkeys polls = Some (Ok ()) ->
     exists pre t r post, polls sigs = pre ++ (t, r) :: post /\ 20 * NANOS <= t /\
       Forall (fun p => p.1 < 20 * NANOS /\ exists c, p.2 = inr c /\ forallb id c = false) pre).
Proof.
  intros Hsigs. unfold request_and_confirm_airdrop. rewrite Hsigs. split.
  - intros pre t confirmed post -> Hpre Ht Hc.
    induction Hpre as [|[t' r'] pre [Ht' (c & Hr' & Hc')] _ IH]; cbn in *.
    + rewrite (proj2 (Z.ltb_lt _ _)) by done. by rewrite Hc.
    + rewrite (proj2 (Z.ltb_lt _ _)) by done. subst r'. by rewrite Hc'.
  - generalize (polls sigs) as l. clear Hsigs. induction l as [|[t r] l IH]; [done|]. cbn [poll_airdrop].
    destruct (Z.ltb_spec t (20 * NANOS)) as [Hlt|Hge].
    + destruct r as [e|c]; [done|]. destruct (forallb id c) eqn:Hc; [done|]. intros Hp.
      destruct (IH Hp) as (pre & t' & r' & post & -> & Ht' & Hpre). exists ((t, inr c) :: pre), t', r', post.
      split; [done|]. split; [done|]. constructor; [|done]. cbn. split; [done|]. by exists c.
    + intros _. exists [], t, r, l. split; [done|]. split; [done|]. constructor.
Qed.

(** ** Witnesses *)

(** A keypair is a number; a transfer serializes to its amount and blockhash. *)
#[local] Instance toy_api : BlasterApi nat := {|
  keypair_pubkey kp := [Z.of_nat kp];
  keypair_from_bytes bytes := match bytes with [b] => inr (Z.to_nat b) | _ => inl "length"%string end;
  transfer_bytes _ _ lamports h := Some [lamports; h; 7];
  QUIC_MAX_TIMEOUT_MS := 2000; QUIC_KEEP_ALIVE_MS := 1000; ALPN_TPU_PROTOCOL_ID := [115]
|}.
Definition toy_args (m : Mode) : Args := {|
  rpc_addr := "http://127.0.0.1:8899"; keypair_path := "keys"; tpu_addr := (V4 127 0 0 1, 8009);
  ip_port_offset := 0; loop_sleep_micros := None; connection_mode := m |}.
Definition toy_sender : TpuSender :=
  SendSlowLoris {| conn_from := create_endpoint (local_socket_addr 0 0 true);
                   conn_to := (V4 127 0 0 1, 8009); conn_name := "connect" |} 2 2 50.
(** The second stream fails in its second write. *)
Definition toy_envs (i : nat) : stream_env :=
  if decide (i = 1%nat)
  then {| se_open := None; se_write := fun j => if decide (j = 1%nat) then Some ("reset"%string, 0%nat) else None; se_finish := None |}
  else stream_fine.
Definition toy_turn : turn_input :=
  {| ti_now := 1; ti_blockhash := inr 9; ti_streams := toy_envs; ti_batch := None |}.

Example toy_sender_made :
  TpuSender_new (fun _ => Connected) (toy_args (SlowLoris true 2 50 8 2)) 0 = Ok toy_sender.
Proof. reflexivity. Qed.

Lemma send_streams_witness :
  stream_sender toy_sender /\
  exists rs sts, send toy_sender toy_envs None [[1; 2; 3]; [4]] = Ok (rs, sts) /\ length rs = 4%nat /\
    rs !! 1%nat = Some (Err (WriteError "reset")) /\
    forall i txn, stream_payloads toy_sender [[1; 2; 3]; [4]] !! i = Some txn ->
      exists r st, rs !! i = Some r /\ sts !! i = Some st /\ carries txn (r, st).
Proof.
  split; [cbn; lia|].
  destruct (send_streams toy_sender toy_envs None [[1; 2; 3]; [4]]) as (rs & sts & Hs & Hl & _ & Hc); [cbn; lia|].
  exists rs, sts. split; [exact Hs|]. split; [exact Hl|]. split; [|exact Hc].
  vm_compute in Hs. injection Hs as <- _. reflexivity.
Defined.

Lemma amounts_distinct_witness :
  exists b b' outs, blaster_new 0 (inr 5) = Ok b /\ blaster_run 3%nat toy_sender [toy_turn; toy_turn] b = Ok (b', outs) /\
    to_amounts <$> outs = [[0; 1; 2; 3; 4; 5; 6; 7; 8; 9]; [20; 21; 22; 23; 24; 25; 26; 27; 28; 29]] /\
    NoDup (concat (to_amounts <$> outs)).
Proof.
  eexists _, _, _. split; [reflexivity|]. split; [vm_compute; reflexivity|]. split; [reflexivity|].
  eapply (amounts_distinct 3%nat toy_sender [toy_turn; toy_turn] 0 (inr 5)).
  - intros lamports h. by eexists.
  - cbn. lia.
  - reflexivity.
  - vm_compute. reflexivity.
  - cbn. lia.
Defined.

(** Airdrops that are confirmed after two nanoseconds. *)
Definition toy_request (_ : Pubkey) (_ : Z) : client_error + nat := inr 1%nat.
Definition toy_polls (_ : list nat) : list (Z * (client_error + list bool)) :=
  [(1, inr [false]); (2, inr [true])].
Lemma airdrop_inverted_witness :
  request_and_confirm_airdrop 1000000000 toy_request [[1]] toy_polls = Some (Err (Custom "signature error")).
Proof.
  apply (proj1 (airdrop_inverted 1000000000 toy_request [[1]] toy_polls [1%nat] eq_refl) [(1, inr [false])] 2 [true] []);
    [reflexivity| |reflexivity|reflexivity].
  constructor; [|constructor]. split; [reflexivity|]. exists [false]. split; reflexivity.
Defined.
