(* ===== verification/Pipeline.v ===== *)
(** * The components in sequence

    A packet passes the forward-and-delay thread ([Forwarder]), a channel, the
    event loop of the relayer ([Relayer]) and the channel of a validator; a slot
    passes the load balancer ([LoadBalancer]), the health manager ([Health])
    and the event loop.  The channels between the threads are first-in
    first-out, so what one thread has taken is a prefix of what the other has
    put in.

    To speak about everything a validator was sent, including what it has read
    since, the event loop is run on channels that keep a log: the loop is
    generic in the channels, so this changes nothing of what it does. *)

From Stdlib Require Import ZArith Lia String.
From stdpp Require Import base gmap strings list sorting.
From S2P Require Import Prelude Interfaces Reference Convert Schedule Health Relayer.
From S2P Require Import RelayerForward RelayerLoop InterestFilter LoadBalancer Forwarder.

(** ** Channels with a log *)

Record logged (C : Type -> Type) (M : Type) := mk_logged { inner : C M; log : list M }.
Arguments mk_logged {C M} _ _.
Arguments inner {C M} _.
Arguments log {C M} _.

#[global] Instance logged_mpsc {C} `{Mpsc C} : Mpsc (logged C) := {|
  channel M n := mk_logged (channel n) [];
  try_send M m c :=
    let '(c', outcome) := try_send m (inner c) in
    (mk_logged c' (match outcome with Sent => log c ++ [m] | _ => log c end), outcome);
  queued M c := queued (inner c);
  max_capacity M c := max_capacity (inner c);
  rx_closed M c := rx_closed (inner c);
|}.

#[global] Instance logged_mpsc_laws {C} `{MpscLaws C} : MpscLaws (logged C).
Proof.
  split; [intros M n Hn; exact (channel_spec (C := C) n Hn)|]. intros M m [c l]. cbn.
  pose proof (try_send_spec m c) as Hs. destruct (try_send m c) as [c' []]; cbn; [done| |];
    by destruct Hs as [-> Hs].
Qed.

Section packets.
Context {C : Type -> Type} `{MP : Mpsc C}.
Context {Hist : Type} `{HI : Histogram Hist}.
Context `{IT : !HashIter Pubkey}.
Context `{PA : PacketApi} `{TI : Text IpAddr}.
Context `{ML : !MpscLaws C} `{IL : !HashIterLaws Pubkey}.

Abbreviation loop_input := (bool * readings (C := logged C) * loop_event (C := logged C))%type.

(** The packets in a list of messages. *)
Definition message_packets (r : response) : list ProtoPacket :=
  match r with
  | Ok {| msg := Some (BatchMsg b) |} => packets b
  | _ => []
  end.
Definition stream (l : list response) : list ProtoPacket := l ≫= message_packets.

(** The batches the event loop has taken, and the packets of them it admits. *)
Definition taken (inputs : list loop_input) : list RelayerPacketBatches :=
  omap (fun i => match i.2 with PacketEvent b => b | _ => None end) inputs.
Definition admitted (cfg : loop_config) (i : loop_input) : list ProtoPacket :=
  match i.2 with
  | PacketEvent (Some b) => admitted_packets (ofac_addresses cfg) (rd_alt i.1.2) (rpb_batch b)
  | _ => []
  end.

(** An open channel, of some capacity. *)
Definition can_send (c : logged C response) : Prop :=
  rx_closed c = false /\ (0 < max_capacity c)%nat.

(** Validator [k] keeps up: it reads, so that its channel is open and has room
    whenever the loop sends, and it neither subscribes again nor stops being a
    target; the relayer is healthy when it sends heartbeats. *)
Definition keeps_up (recv : logged C response -> logged C response) : Prop :=
  forall c, can_send c -> can_send (recv c) /\
    (length (queued (recv c)) < max_capacity (recv c))%nat /\ log (recv c) = log c.
Definition steady (cfg : loop_config) (k : Pubkey) (i : loop_input) : Prop :=
  i.1.1 = false /\ (forall j, keeps_up (rd_recv i.1.2 j k)) /\
  match i.2 with
  | HeartbeatTick _ => rd_health i.1.2 = Healthy
  | SubscriptionEvent (Some (ValidatorPacketSubscription pk _)) => pk <> k
  | SlotEvent (Some slot) => cfg_forward_all cfg = true \/
      k ∈ leaders_for_slots (rd_schedule i.1.2) (slot_window slot (slot_lookahead cfg))
  | _ => True
  end.

(** ** One validator along a run *)

Definition serving (cfg : loop_config) (k : Pubkey) (s : loop_state (C := logged C) (Hist := Hist))
    (c : logged C response) : Prop :=
  packet_subscriptions s !! k = Some c /\ can_send c /\
  (cfg_forward_all cfg = true \/ k ∈ slot_leaders s).

Lemma stream_app l l' : stream (l ++ l') = stream l ++ stream l'.
Proof. apply bind_app. Qed.

Lemma stream_batches (now : nat -> Z) bs :
  stream (imap (fun i b => batch_message (now i) b) bs) = concat (packets <$> bs).
Proof.
  revert now. induction bs as [|b bs IH]; intros now; [done|]. rewrite imap_cons. cbn.
  f_equal. exact (IH (now ∘ S)).
Qed.

Lemma try_send_log (recv : logged C response -> logged C response) m c :
  keeps_up recv -> can_send c ->
  exists c', try_send m (recv c) = (c', Sent) /\ can_send c' /\ log c' = log c ++ [m].
Proof.
  intros Hk Hc. destruct (Hk c Hc) as ([Ho Hcap] & Hr & Hl).
  pose proof (try_send_spec m (recv c)) as Hs. destruct (try_send m (recv c)) as [c' []] eqn:E;
    [|destruct Hs; lia|destruct Hs; congruence].
  exists c'. destruct Hs as (_ & _ & _ & Hm & Ho').
  split; [done|]. split; [split; [done|by rewrite Hm]|]. revert E. cbn.
  destruct (try_send m (inner (recv c))) as [c1 o]. intros [= <- ->]. cbn. by rewrite Hl.
Qed.

Lemma deliver_log now (recv : nat -> logged C response -> logged C response) (g : nat -> nat) bs c st n :
  (forall j, keeps_up (recv j)) -> can_send c ->
  exists c' st', deliver now recv {| p_chan := Some c; p_stats := st; p_closed := n |}
              (imap (fun i b => (g i, b)) bs) = {| p_chan := Some c'; p_stats := st'; p_closed := n |} /\
    can_send c' /\ log c' = log c ++ imap (fun i b => batch_message (now (g i)) b) bs.
Proof.
  intros Hk. revert g c st. induction bs as [|b bs IH]; intros g c st Hc.
  { exists c, st. by rewrite app_nil_r. }
  destruct (try_send_log (recv (g 0%nat)) (batch_message (now (g 0%nat)) b) c) as (c1 & Hs & Hc1 & Hl1); [done|done|].
  rewrite !imap_cons. unfold deliver. cbn [foldl fst snd]. unfold peer_send at 2. cbn [p_chan].
  rewrite Hs. destruct (IH (g ∘ S) c1 (Some (add_forwarded (Z.of_nat (length (packets b))) st)) Hc1)
    as (c' & st' & Hd & Hc' & Hl'). exists c', st'. split; [exact Hd|]. split; [done|].
  rewrite Hl', Hl1. by rewrite <- app_assoc.
Qed.

Lemma packet_arm_log cfg rd b s s' k c :
  (forall j, keeps_up (rd_recv rd j k)) -> serving cfg k s c ->
  loop_arm cfg rd (PacketEvent (Some b)) s = Ok s' ->
  exists c', serving cfg k s' c' /\
    stream (log c') = stream (log c) ++ admitted cfg (false, rd, PacketEvent (Some b)).
Proof.
  intros Hk (Hsub & Hc & Ht) (sw & Hf & Harm)%bind_Ok_inv.
  destruct (forward_packets_peer _ _ _ _ _ _ _ _ _ _ _ _ k Hf) as [Hsize Hp]. cbn in Hp.
  rewrite decide_True in Hp by (apply elem_of_targets; eauto). rewrite Hsub in Hp.
  set (bs := proto_batches _ _) in Hp.
  destruct (deliver_log (fun i => rd_now rd i k) (fun i => rd_recv rd i k) (fun i => i) bs c
    (packet_stats_per_validator (relayer_metrics s) !! k) 0 Hk Hc) as (c' & st' & Hd & Hc' & Hl).
  unfold deliver in Hd. assert (Hp' := eq_trans Hp Hd). unfold peer_of in Hp'.
  injection Hp' as Hch _ Hfl. injection Harm as <-. exists c'. split.
  - split_and!; [|done|done]. cbn. rewrite drop_lookup_gen.
    by rewrite decide_False by (by apply count_occ_notin).
  - rewrite Hl, stream_app. f_equal. cbn.
    rewrite (stream_batches (fun i => rd_now rd i k)). by apply proto_batches_concat.
Qed.

Lemma heartbeat_arm_log cfg rd lat s s' k c :
  (forall j, keeps_up (rd_recv rd j k)) -> rd_health rd = Healthy -> serving cfg k s c ->
  loop_arm cfg rd (HeartbeatTick lat) s = Ok s' ->
  exists c', serving cfg k s' c' /\ stream (log c') = stream (log c).
Proof.
  intros Hk Hh (Hsub & Hc & Ht) Harm.
  pose proof (heartbeat_view _ _ _ _ _ k Hh Harm) as Hv. rewrite Hsub in Hv. cbn [mbind option_bind] in Hv.
  destruct (try_send_log (rd_recv rd 0 k) (heartbeat_message (num_heartbeats (relayer_metrics s))) c)
    as (c' & Hs & Hc' & Hl); [done|done|]. rewrite Hs in Hv. exists c'. split.
  - split_and!; [done|done|]. cbn -[drop_connections] in Harm. rewrite Hh in Harm. by injection Harm as <-.
  - rewrite Hl, stream_app. cbn. by rewrite app_nil_r.
Qed.

Lemma iteration_log cfg (i : loop_input) s s' k c :
  steady cfg k i -> serving cfg k s c -> loop_iteration cfg i.1.2 i.2 s = Ok s' ->
  exists c', serving cfg k s' c' /\ stream (log c') = stream (log c) ++ admitted cfg i.
Proof.
  destruct i as [[exit rd] ev]. intros (_ & Hk & Hev) Hserv (s1 & Harm & [= <-])%bind_Ok_inv.
  change (exists c', serving cfg k s1 c' /\ stream (log c') = stream (log c) ++ admitted cfg (exit, rd, ev)).
  cbn [fst snd] in *. pose proof Hserv as (Hsub & Hc & Ht).
  destruct ev as [[slot|]|[b|]|[[pk sender]|]|lat|lat]; try done.
  - injection Harm as <-. exists c. rewrite app_nil_r. by split_and!.
  - by eapply packet_arm_log.
  - injection Harm as <-. exists c. rewrite app_nil_r. split; [|done]. split; [|done]. cbn.
    by rewrite lookup_insert_ne.
  - rewrite app_nil_r. by eapply heartbeat_arm_log.
  - injection Harm as <-. exists c. rewrite app_nil_r. by split_and!.
Qed.

Lemma run_log cfg inputs s s' k c :
  Forall (steady cfg k) inputs -> serving cfg k s c -> run_event_loop cfg inputs s = Ok s' ->
  exists c', serving cfg k s' c' /\ stream (log c') = stream (log c) ++ (inputs ≫= admitted cfg).
Proof.
  intros Hst. revert s c. induction Hst as [|[[exit rd] ev] inputs Hi _ IH]; intros s c Hserv.
  { intros [= <-]. exists c. by rewrite app_nil_r. }
  cbn [run_event_loop]. destruct (Hi) as [Hexit _]. cbn in Hexit. subst exit.
  intros (s1 & Hit & Hrun)%bind_Ok_inv.
  destruct (iteration_log cfg (false, rd, ev) s s1 k c Hi Hserv Hit) as (c1 & Hserv1 & Hl1).
  destruct (IH s1 c1 Hserv1 Hrun) as (c' & Hserv' & Hl'). exists c'. split; [done|].
  rewrite Hl', Hl1, <- app_assoc. done.
Qed.

(** ** From the verified packets to a validator *)

Variables (packet_delay_ms : Z) (disable_mempool : bool).

(** C2: from end to end.  A validator that keeps up, and stays a target, has
    been sent at any moment exactly the admitted packets, in order and each
    once, of the first batches that entered the forward-and-delay thread: those
    the event loop has taken, every one of which was held for the packet delay. *)
Theorem pipeline_delivers start bcap vcap (be : C BlockEnginePackets) finputs f cfg inputs s s' k c :
  fwd_run packet_delay_ms disable_mempool finputs (fwd_init start bcap vcap be) = Ok f ->
  taken inputs `prefix_of` held f ->
  Forall (steady cfg k) inputs -> serving cfg k s c ->
  run_event_loop cfg inputs s = Ok s' ->
  exists c', packet_subscriptions s' !! k = Some c' /\
    stream (log c') = stream (log c) ++ (inputs ≫= admitted cfg) /\
    taken inputs `prefix_of` arrivals finputs /\
    Forall (fun b => exists t, (t, b) ∈ delivered f /\ due packet_delay_ms (t, b)) (taken inputs).
Proof.
  intros Hf Hpre Hst Hserv Hrun.
  destruct (run_log cfg inputs s s' k c Hst Hserv Hrun) as (c' & (Hsub & _) & Hl).
  destruct (fwd_run_spec _ _ _ _ _ Hf (List.Forall_nil _)) as (Heq & Hdue & _). cbn in Heq.
  exists c'. split_and!; [done|done| |].
  - rewrite <- Heq. by apply prefix_app_r.
  - apply Forall_forall. intros b Hb. destruct Hpre as [rest Hr].
    assert (Hin : b ∈ held f) by (rewrite Hr; apply elem_of_app; by left).
    apply list_elem_of_fmap in Hin as ([t b'] & -> & Hin). exists t. split; [done|].
    rewrite Forall_forall in Hdue. by apply Hdue.
Qed.

End packets.

(** ** From the servers' slots to the leaders *)

Section slots.
Context {C : Type -> Type} `{MP : Mpsc C}.
Context {Hist : Type} `{HI : Histogram Hist}.
Context `{IT : !HashIter Pubkey}.
Context `{PA : PacketApi} `{TI : Text IpAddr}.
Variables (servers : list (string * string)) (missing_slot_unhealthy_threshold : Z).

(** The slots the event loop has taken, each with what it read meanwhile. *)
Definition slot_inputs (inputs : list (bool * readings (C := C) * loop_event (C := C)))
    : list (readings (C := C) * Z) :=
  omap (fun i => match i.2 with SlotEvent (Some slot) => Some (i.1.2, slot) | _ => None end) inputs.

(** The state the last slot leaves: the slot and its leaders. *)
Definition follows (cfg : loop_config) (l : list (readings (C := C) * Z)) (old : Z * gset Pubkey)
    : Z * gset Pubkey :=
  match last l with
  | Some (rd, slot) =>
      (slot, leaders_for_slots (rd_schedule rd) (slot_window slot (slot_lookahead cfg)))
  | None => old
  end.

Lemma follows_cons cfg x l old : follows cfg l (follows cfg [x] old) = follows cfg (x :: l) old.
Proof. unfold follows. rewrite (last_cons x l). destruct x. by destruct (last l) as [[]|]. Qed.

Lemma iteration_slot cfg rd ev (s s' : loop_state (C := C) (Hist := Hist)) :
  loop_iteration cfg rd ev s = Ok s' ->
  (Relayer.highest_slot s', slot_leaders s') =
  follows cfg (slot_inputs [(false, rd, ev)]) (Relayer.highest_slot s, slot_leaders s).
Proof.
  intros (s1 & Harm & [= <-])%bind_Ok_inv.
  change ((Relayer.highest_slot s1, slot_leaders s1) =
    follows cfg (slot_inputs [(false, rd, ev)]) (Relayer.highest_slot s, slot_leaders s)).
  destruct ev as [[slot|]|[b|]|[[pk sender]|]|lat|lat]; try done; try by injection Harm as <-.
  by apply bind_Ok_inv in Harm as (sw & _ & [= <-]).
Qed.

Lemma run_slot cfg inputs (s s' : loop_state (C := C) (Hist := Hist)) :
  Forall (fun i => i.1.1 = false) inputs -> run_event_loop cfg inputs s = Ok s' ->
  (Relayer.highest_slot s', slot_leaders s') =
  follows cfg (slot_inputs inputs) (Relayer.highest_slot s, slot_leaders s).
Proof.
  intros Hex. revert s. induction Hex as [|[[exit rd] ev] inputs He _ IH]; intros s; [by intros [= <-]|].
  cbn [fst] in He. subst exit. cbn [run_event_loop]. intros (s1 & Hit & Hrun)%bind_Ok_inv.
  rewrite (IH s1 Hrun), (iteration_slot cfg rd ev s s1 Hit).
  destruct ev as [[slot|]|b|sub|lat|lat]; try done. apply (follows_cons cfg (rd, slot)).
Qed.

(** C25: the slots from end to end.  The event loop never handles a slot twice,
    and handles only slots that some server reported; its leaders are those
    the schedule had, when the last of these slots was handled, for the window
    starting at it.  With a single server the slots it handles only increase,
    so the window never moves back. *)
Theorem pipeline_slots steps start evs m cfg inputs (s : loop_state (C := C) (Hist := Hist)) :
  let lb := lb_run servers steps (lb_new servers) in
  received_slots evs `prefix_of` slots_sent lb ->
  health_run missing_slot_unhealthy_threshold (health_init start) evs = Ok m ->
  (slot_inputs inputs).*2 `prefix_of` slots_forwarded m ->
  Forall (fun i => i.1.1 = false) inputs -> run_event_loop cfg inputs (loop_init cfg) = Ok s ->
  NoDup (slot_inputs inputs).*2 /\
  (length servers = 1%nat -> StronglySorted Z.lt (slot_inputs inputs).*2) /\
  match last (slot_inputs inputs) with
  | None => Relayer.highest_slot s = 0 /\ slot_leaders s = ∅
  | Some (rd, slot) =>
      Relayer.highest_slot s = slot /\ slot ∈ slots_reported lb /\ 0 < slot <= highest_slot lb /\
      slot_leaders s = leaders_for_slots (rd_schedule rd) (slot_window slot (slot_lookahead cfg))
  end.
Proof.
  intros lb Hrec Hh Hsl Hex Hrun. apply health_run_spec in Hh as (_ & _ & Hfw). cbn in Hfw.
  rewrite Hfw in Hsl. assert (Hall := Hsl). rewrite Hrec in Hall. destruct Hall as [rest Hpre].
  destruct (lb_sent_ok _ _ (lb_run_ok servers steps _ (lb_new_ok servers))) as [Hnd Hsent].
  fold lb in Hnd, Hsent. rewrite Hpre in Hnd. split_and!.
  - by apply NoDup_app in Hnd as (? & _).
  - intros Hone. destruct (lb_run_ordered servers steps Hone) as [Hsort _]. fold lb in Hsort.
    rewrite Hpre in Hsort. by apply StronglySorted_app_1_l in Hsort.
  - pose proof (run_slot cfg inputs _ s Hex Hrun) as Hf. unfold follows in Hf.
    destruct (last (slot_inputs inputs)) as [[rd slot]|] eqn:El; [|by injection Hf as -> ->].
    injection Hf as -> ->. apply last_Some in El as [l El].
    destruct (Hsent slot) as [[??] ?]; [|by split_and!].
    rewrite Hpre, El, fmap_app. cbn. set_solver.
Qed.

End slots.

(** ** Witnesses *)

Section demo.

(** A validator that has read everything each time it is sent something. *)
Definition demo_reader (c : logged queue response) : logged queue response :=
  mk_logged (mk_queue [] (q_cap (inner c)) (q_closed (inner c))) (log c).
Definition demo_live_rd : readings (C := logged queue) := {|
  rd_schedule := {[ 102 := [1]; 107 := [3] ]}; rd_alt := ∅; rd_health := Healthy;
  rd_now := fun i _ => 1000 + Z.of_nat i; rd_recv := fun _ _ => demo_reader; rd_packet_latency_us := 7;
  rd_elapsed_us := 3; rd_slot_len := 1; rd_subscription_len := 0; rd_delay_len := 2 |}.
Definition demo_event (ev : loop_event (C := logged queue)) : bool * readings * loop_event :=
  (false, demo_live_rd, ev).
Definition demo_start_inputs : list (bool * readings (C := logged queue) * loop_event) :=
  demo_event <$> [SubscriptionEvent (Some (ValidatorPacketSubscription [1] (channel SUBSCRIBER_QUEUE_CAPACITY)));
                  SlotEvent (Some 100)].
Definition demo_live_inputs : list (bool * readings (C := logged queue) * loop_event) :=
  demo_event <$> ((fun b => PacketEvent (Some b)) <$> held demo_fwd_end) ++
                 [HeartbeatTick (Some 4); SlotEvent (Some 101); MetricsTick None].
Definition demo_start : loop_state (C := logged queue) (Hist := list Z) :=
  match run_event_loop demo_cfg demo_start_inputs (loop_init demo_cfg) with
  | Ok s => s
  | _ => loop_init demo_cfg
  end.
Definition demo_end : result RelayerError (loop_state (C := logged queue) (Hist := list Z)) :=
  run_event_loop demo_cfg demo_live_inputs demo_start.

Example demo_end_stream :
  match demo_end with
  | Ok s => (fun c => map pp_data (stream (log c))) <$> packet_subscriptions s !! [1] = Some [[1]; [2]]
  | _ => False
  end.
Proof. vm_compute. reflexivity. Qed.

Lemma demo_reader_keeps_up : keeps_up demo_reader.
Proof. intros [[q cap cl] l] [Hc Hm]. by split_and!. Qed.

Lemma demo_steady : Forall (steady demo_cfg [1]) demo_live_inputs.
Proof.
  assert (Hk : forall j, keeps_up (rd_recv demo_live_rd j [1])) by (intros; apply demo_reader_keeps_up).
  unfold demo_live_inputs. rewrite Forall_fmap, Forall_app, Forall_fmap. split.
  - apply Forall_true. intros b. split; [done|]. by split.
  - apply Forall_forall. intros ev Hev. split; [done|]. split; [exact Hk|].
    rewrite !elem_of_cons, elem_of_nil in Hev. destruct Hev as [->|[->|[->|[]]]]; [done| |done].
    right. vm_compute. reflexivity.
Qed.

Lemma pipeline_delivers_witness :
  exists s' (c c' : logged queue response), demo_end = Ok s' /\ packet_subscriptions s' !! [1] = Some c' /\
    stream (log c') = stream (log c) ++ (demo_live_inputs ≫= admitted demo_cfg) /\
    taken demo_live_inputs `prefix_of` arrivals demo_fwd_inputs.
Proof.
  destruct (is_ok_inv demo_end) as [s' E]; [vm_compute; reflexivity|].
  assert (Hs : bool_decide (is_Some (packet_subscriptions demo_start !! [1])) = true) by (vm_compute; reflexivity).
  apply bool_decide_eq_true in Hs as [c Hc].
  destruct (pipeline_delivers 50 false 0 100000 0 (mk_queue [] 1 false) demo_fwd_inputs demo_fwd_end demo_cfg
    demo_live_inputs demo_start s' [1] c) as (c' & Hc' & Hl & Hp & _).
  - vm_compute. reflexivity.
  - exists []. vm_compute. reflexivity.
  - exact demo_steady.
  - split; [exact Hc|]. split; [|right; vm_compute; reflexivity].
    assert (Hd : match packet_subscriptions demo_start !! [1] with
                 | Some c => negb (rx_closed c) && (0 <? max_capacity c)%nat
                 | None => true
                 end = true) by (vm_compute; reflexivity).
    rewrite Hc in Hd. apply andb_prop in Hd as [Hd1 Hd2].
    split; [by apply negb_true_iff|by apply Nat.ltb_lt].
  - exact E.
  - exists s', c, c'. split; [exact E|]. split; [exact Hc'|]. split; [exact Hl|exact Hp].
Defined.

Definition demo_lb_steps : list (nat * lb_input) := [
  (0%nat, SlotUpdate 100); (0%nat, NoUpdate); (0%nat, SendOutcome true);
  (0%nat, SlotUpdate 99); (0%nat, NoUpdate);
  (0%nat, SlotUpdate 101); (0%nat, NoUpdate); (0%nat, SendOutcome true)].
Definition demo_health_events : list (health_event * Z) :=
  [(SlotReceived (Some 100) true 3, 1); (CheckAndMetricsTick 4, 0); (SlotReceived (Some 101) true 5, 0)].
Definition demo_slot_inputs : list (bool * readings (C := queue) * loop_event) :=
  (fun ev => (false, demo_rd Healthy, ev)) <$>
    [demo_sub [1]; SlotEvent (Some 100); HeartbeatTick None; SlotEvent (Some 101)].

Lemma pipeline_slots_witness :
  exists s : loop_state (C := queue) (Hist := list Z),
    run_event_loop demo_cfg demo_slot_inputs (loop_init demo_cfg) = Ok s /\
    Relayer.highest_slot s = 101 /\
    slot_leaders s = leaders_for_slots (rd_schedule (demo_rd Healthy)) (slot_window 101 5).
Proof.
  destruct (is_ok_inv (run_event_loop (Hist := list Z) demo_cfg demo_slot_inputs (loop_init demo_cfg))) as [s E];
    [vm_compute; reflexivity|].
  destruct (is_ok_inv (health_run 10 (health_init 0) demo_health_events)) as [m Hm]; [vm_compute; reflexivity|].
  assert (Hfw : slots_forwarded m = [100; 101]) by (vm_compute in Hm; by injection Hm as <-).
  destruct (pipeline_slots [("http://a", "ws://a")]%string 10 demo_lb_steps 0 demo_health_events m demo_cfg
    demo_slot_inputs s) as (_ & _ & Hlast).
  - exists []. vm_compute. reflexivity.
  - exact Hm.
  - exists []. rewrite Hfw. vm_compute. reflexivity.
  - repeat constructor.
  - exact E.
  - exists s. split; [exact E|]. cbn in Hlast. destruct Hlast as (H1 & _ & _ & H2). split; [exact H1|exact H2].
Defined.

End demo.
