(* ===== verification/EnginePath.v ===== *)
(** * The path of a packet to the block engine

    The forwarder offers every verified batch to a bounded channel; the thread
    of the block engine takes batches from it while it has a link, filters them
    and sends what is left.  While there is no link batches stay in the channel,
    and [handle_packet_stream] throws them away when the next link opens.

    The channel is first in, first out: its receiver is a position in the list
    of the batches the channel has accepted, which the forwarder's model keeps. *)

From Stdlib Require Import ZArith Lia String.
From stdpp Require Import base gmap strings list sorting.
From S2P Require Import Prelude Interfaces Reference Convert Ofac InterestFilter AuthInterceptor AuthService.
From S2P Require Import BlockEngineStats BlockEngine BlockEngineProofs Forwarder.

Section path.
Context {C : Type -> Type} `{MP : Mpsc C}.
Context {T : Type} `{TC : TimedCache T Pubkey} `{PA : PacketApi}.
Context `{TP : Text Pubkey} `{TI : Text IpAddr}.
Context {KP : Type} `{SG : Signer KP} `{TS : TimestampApi} `{Pr : AuthProto}.
Context (keypair : KP) (ofac : gset Pubkey) (aoi_cache_ttl_s packet_delay_ms : Z) (disable_mempool : bool).
Abbreviation be_state := (be_state (C := C) (T := T)).
Abbreviation be_readings := (be_readings (C := C)).
Abbreviation fwd_readings := (fwd_readings (C := C)).

(** [taken] is how far the thread of the block engine is in the channel; [past]
    holds the messages of the links that have ended. *)
Record engine_path := {
  ep_forwarder : fwd_state (C := C);
  taken : nat;
  link : option be_state;
  past : list Msg;
}.
#[global] Instance engine_path_eta : Eta engine_path := fun p => {|
  ep_forwarder := ep_forwarder p; taken := taken p; link := link p; past := past p |}.
Definition all_sent (p : engine_path) : list Msg :=
  past p ++ match link p with Some s => sent s | None => [] end.

Inductive path_event :=
| FwdTurn (rd : fwd_readings) (r : recv_result)
| LinkOpens (access_token refresh_token : Token) (now : Z)
| LinkTakes (rd : be_readings)
| LinkTurn (rd : be_readings) (ev : be_event)
| LinkStops.

Definition link_ends (s : be_state) (p : engine_path) : engine_path :=
  p <| link := None |> <| past ::= fun l => l ++ sent s |>.
Definition link_iteration (rd : be_readings) (ev : be_event) (s : be_state) (p : engine_path)
    : result Empty_set engine_path :=
  match be_iteration keypair ofac rd ev s with
  | Ok s => Ok (p <| link := Some s |>)
  | Err _ => Ok (link_ends s p)
  | Panic => Panic
  end.
Definition is_batches (ev : be_event) : bool := match ev with BlockEngineBatches _ => true | _ => false end.

(** [LinkOpens] while a link is up is the loss of that link and a new one;
    [LinkTakes] takes the next batch of the channel, if there is one; packets
    reach the link in no other way. *)
Definition path_step (p : engine_path) (ev : path_event) : result Empty_set engine_path :=
  match ev, link p with
  | FwdTurn rd r, _ =>
      f ← fwd_iteration packet_delay_ms disable_mempool rd r (ep_forwarder p);
      Ok (p <| ep_forwarder := f |>)
  | LinkOpens access_token refresh_token now, old =>
      let p := match old with Some s => link_ends s p | None => p end in
      Ok (p <| taken := length (offered (ep_forwarder p)) |>
            <| link := Some (be_init aoi_cache_ttl_s now access_token refresh_token) |>)
  | LinkTakes rd, Some s =>
      match offered (ep_forwarder p) !! taken p with
      | Some b => link_iteration rd (BlockEngineBatches (Some b)) s (p <| taken ::= S |>)
      | None => Ok p
      end
  | LinkTurn rd ev, Some s => if is_batches ev then Ok p else link_iteration rd ev s p
  | LinkStops, Some s => Ok (link_ends s p)
  | _, _ => Ok p
  end.
Fixpoint path_run (evs : list path_event) (p : engine_path) : result Empty_set engine_path :=
  match evs with
  | [] => Ok p
  | ev :: evs => p ← path_step p ev; path_run evs p
  end.
Definition path_new (start bcap vcap : Z) (be : C BlockEnginePackets) : engine_path := {|
  ep_forwarder := fwd_init start bcap vcap be; taken := 0; link := None; past := [] |}.

(** ** What is promised *)

Definition batches_of (l : list Msg) : list ExpiringPacketBatch :=
  omap (fun m => match m with Batches b => Some b | _ => None end) l.

(** What the open link has handled after the events [evs], packets apart: what
    came since it was opened; and the readings of its caches' clock. *)
Definition link_history (evs : list path_event) : history (C := C) :=
  foldl (fun h ev => match ev with
                     | LinkOpens _ _ _ => []
                     | LinkTurn rd ev => h ++ [(rd, ev)]
                     | _ => h
                     end) [] evs.
Definition link_clocks (evs : list path_event) : list Z :=
  omap (fun ev => match ev with LinkTakes rd | LinkTurn rd _ => Some (rd_cache_now rd) | _ => None end) evs.

(** The [n]-th event took [b] from the channel, and [e] is the filtered form of
    [b] for the interests of the link at that moment. *)
Definition sent_at (evs : list path_event) (n : nat) (b : BlockEnginePackets) (e : ExpiringPacketBatch) : Prop :=
  exists rd, evs !! n = Some (LinkTakes rd) /\
    filtered_form ofac aoi_cache_ttl_s (link_history (take n evs)) rd b [Batches e].

(** What the forwarder makes of the batches it received. *)
Definition received (evs : list path_event) : list BlockEnginePackets :=
  omap (fun ev => match ev with
                  | FwdTurn rd (Received b) =>
                      Some {| banking_packet_batch := b; stamp := fr_system_time rd; expiration := packet_delay_ms |}
                  | _ => None
                  end) evs.

Section laws.
Context {lifespan : T -> Z} {TCL : TimedCacheLaws T Pubkey lifespan}.

Lemma batches_messages h now (rd : be_readings) b (s : be_state) :
  now <= rd_cache_now rd -> interests_follow (lifespan := lifespan) aoi_cache_ttl_s h now s ->
  batches_of (messages ofac rd (BlockEngineBatches (Some b)) s) = [] \/
  exists e, batches_of (messages ofac rd (BlockEngineBatches (Some b)) s) = [e] /\
    filtered_form ofac aoi_cache_ttl_s h rd b [Batches e].
Proof.
  intros Hn Hf. pose proof (batch_filtered_form ofac aoi_cache_ttl_s h now rd b s Hn Hf) as Hform.
  cbn [messages] in *. destruct (filter_packets _ _ _ _ _ _) as [[e|] c]; cbn in *; [right|by left]. by exists e.
Qed.

Lemma other_messages (rd : be_readings) ev (s : be_state) : is_batches ev = false -> batches_of (messages ofac rd ev s) = [].
Proof. by destruct ev. Qed.

(** The invariant after the events [evs]: what was sent comes from batches taken
    at known moments, in order, and the open link knows the interests of its
    history. *)
Definition path_ok (evs : list path_event) (p : engine_path) : Prop :=
  (taken p <= length (offered (ep_forwarder p)))%nat /\
  (exists takes : list (nat * BlockEnginePackets),
    takes.*2 `sublist_of` take (taken p) (offered (ep_forwarder p)) /\
    StronglySorted lt takes.*1 /\
    Forall2 (fun x => sent_at evs x.1 x.2) takes (batches_of (all_sent p))) /\
  (forall s now, link p = Some s -> Forall (fun t => t <= now) (link_clocks evs) ->
    interests_follow (lifespan := lifespan) aoi_cache_ttl_s (link_history evs) now s) /\
  offered (ep_forwarder p) `sublist_of` received evs /\
  (disable_mempool = true -> offered (ep_forwarder p) = []).

Lemma batches_app l k : batches_of (l ++ k) = batches_of l ++ batches_of k.
Proof. apply omap_app. Qed.

Lemma take_sublist {A} (l : list A) n m : (n <= m)%nat -> take n l `sublist_of` take m l.
Proof. intros Hnm. replace n with (n `min` m)%nat by lia. rewrite <- take_take. apply sublist_take. Qed.

Lemma link_iteration_view (rd : be_readings) ev (s : be_state) p p' :
  link p = Some s -> link_iteration rd ev s p = Ok p' ->
  ep_forwarder p' = ep_forwarder p /\ taken p' = taken p /\
  (all_sent p' = all_sent p \/ all_sent p' = all_sent p ++ messages ofac rd ev s).
Proof.
  unfold link_iteration, all_sent. intros Hl. rewrite Hl.
  destruct (be_iteration keypair ofac rd ev s) as [s'|e|] eqn:E; intros [= <-]; cbn.
  - split_and!; try done. right. apply be_iteration_view in E as [-> _]. by rewrite app_assoc.
  - split_and!; try done. left. by rewrite app_nil_r.
Qed.

Lemma fwd_offered rd r (f f' : fwd_state (C := C)) :
  fwd_iteration packet_delay_ms disable_mempool rd r f = Ok f' ->
  offered f' = offered f \/
  (disable_mempool = false /\ exists b, r = Received b /\
     offered f' = offered f ++ [{| banking_packet_batch := b; stamp := fr_system_time rd; expiration := packet_delay_ms |}]).
Proof.
  intros (f1 & Hr & H)%bind_Ok_inv. apply bind_Ok_inv in H as (f2 & Hrel & [= <-]). cbn.
  apply release_spec in Hrel as (n & _ & _ & _ & _ & -> & _).
  assert (Hm : offered (maybe_report rd f) = offered f) by (unfold maybe_report; by case_match).
  destruct r as [b| |]; cbn -[maybe_report] in Hr; [|injection Hr as <-; by left|done].
  apply bind_Ok_inv in Hr as (f3 & Ho & [= <-]). unfold offer in Ho. cbn -[maybe_report].
  destruct disable_mempool eqn:Hdis; [injection Ho as <-; by left|].
  destruct (try_send _ _) as [c []]; try done; injection Ho as <-; cbn -[maybe_report]; rewrite Hm; [right|by left].
  split; [done|]. by exists b.
Qed.

Lemma sent_at_app evs evs' n b e : sent_at evs n b e -> sent_at (evs ++ evs') n b e.
Proof.
  intros (rd & Hn & Hf). exists rd. pose proof (lookup_lt_Some _ _ _ Hn).
  by rewrite lookup_app_l, take_app_le by lia.
Qed.

(** Nothing is sent: the part of the invariant on messages is kept. *)
Lemma path_ok_quiet evs ev p p' :
  path_ok evs p -> batches_of (all_sent p') = batches_of (all_sent p) ->
  take (taken p) (offered (ep_forwarder p)) `sublist_of` take (taken p') (offered (ep_forwarder p')) ->
  exists takes : list (nat * BlockEnginePackets),
    takes.*2 `sublist_of` take (taken p') (offered (ep_forwarder p')) /\ StronglySorted lt takes.*1 /\
    Forall2 (fun x => sent_at (evs ++ [ev]) x.1 x.2) takes (batches_of (all_sent p')).
Proof.
  intros (_ & (takes & Hsub & Hst & Hall) & _) Hb Htk. exists takes. rewrite Hb.
  split_and!; [by etrans|done|]. eapply Forall2_impl; [exact Hall|]. intros x e. apply sent_at_app.
Qed.

(** A batch taken by the [length evs]-th event is sent: it is the last one. *)
Lemma path_ok_sends evs rd b e p p' :
  path_ok evs p -> offered (ep_forwarder p) !! taken p = Some b ->
  ep_forwarder p' = ep_forwarder p -> taken p' = S (taken p) ->
  filtered_form ofac aoi_cache_ttl_s (link_history evs) rd b [Batches e] ->
  batches_of (all_sent p') = batches_of (all_sent p) ++ [e] ->
  exists takes : list (nat * BlockEnginePackets),
    takes.*2 `sublist_of` take (taken p') (offered (ep_forwarder p')) /\ StronglySorted lt takes.*1 /\
    Forall2 (fun x => sent_at (evs ++ [LinkTakes rd]) x.1 x.2) takes (batches_of (all_sent p')).
Proof.
  intros (_ & (takes & Hsub & Hst & Hall) & _) Hb -> -> Hf ->. exists (takes ++ [(length evs, b)]).
  rewrite !fmap_app. cbn. split_and!.
  - rewrite (take_S_r _ _ b Hb). by apply sublist_app.
  - apply StronglySorted_app_2; [|done|by repeat constructor]. intros x y Hx ->%list_elem_of_singleton.
    apply list_elem_of_fmap in Hx as ([n b'] & -> & Hx). apply list_elem_of_lookup in Hx as [i Hx].
    destruct (Forall2_lookup_l _ _ _ _ _ Hall Hx) as (e' & _ & rd' & Hn & _). by eapply lookup_lt_Some.
  - apply Forall2_app; [eapply Forall2_impl; [exact Hall|]; intros x e'; apply sent_at_app|].
    constructor; [|constructor]. exists rd. cbn.
    by rewrite lookup_app_r, Nat.sub_diag, take_app_length by lia.
Qed.

Lemma link_history_snoc evs ev :
  link_history (evs ++ [ev]) = match ev with
                               | LinkOpens _ _ _ => []
                               | LinkTurn rd ev => link_history evs ++ [(rd, ev)]
                               | _ => link_history evs
                               end.
Proof. unfold link_history. by rewrite foldl_app. Qed.
Lemma link_clocks_app evs evs' : link_clocks (evs ++ evs') = link_clocks evs ++ link_clocks evs'.
Proof. apply omap_app. Qed.
Lemma received_app evs evs' : received (evs ++ evs') = received evs ++ received evs'.
Proof. apply omap_app. Qed.

(** An iteration of the link keeps its interests those of its history; packets
    do not matter to them. *)
Lemma batches_follow h now (rd : be_readings) o (s : be_state) :
  interests_follow (lifespan := lifespan) aoi_cache_ttl_s (h ++ [(rd, BlockEngineBatches o)]) now s <->
  interests_follow (lifespan := lifespan) aoi_cache_ttl_s h now s.
Proof. unfold interests_follow. rewrite wildcard_snoc, aoi_updates_snoc, poi_updates_snoc. cbn. rewrite !app_nil_r. naive_solver. Qed.

Lemma link_iteration_follows evs now (rd : be_readings) ev (s : be_state) p p' s' :
  link_iteration rd ev s p = Ok p' -> link p' = Some s' ->
  interests_follow (lifespan := lifespan) aoi_cache_ttl_s (link_history evs) (rd_cache_now rd) s ->
  rd_cache_now rd <= now ->
  interests_follow (lifespan := lifespan) aoi_cache_ttl_s (link_history evs ++ [(rd, ev)]) now s'.
Proof.
  unfold link_iteration. intros Hi Hl Hf Hn.
  destruct (be_iteration keypair ofac rd ev s) as [s1|e|] eqn:E; [|injection Hi as <-; done|done].
  injection Hi as <-. injection Hl as <-. eapply interests_mono; [exact Hn|].
  eapply (be_iteration_follows keypair ofac); [apply Z.le_refl|exact E|exact Hf].
Qed.

(** The forwarder's turn: the rest of the path is as before. *)
Lemma path_ok_forwarder evs rd r p f :
  path_ok evs p -> fwd_iteration packet_delay_ms disable_mempool rd r (ep_forwarder p) = Ok f ->
  path_ok (evs ++ [FwdTurn rd r]) (p <| ep_forwarder := f |>).
Proof.
  intros Hp Hf. pose proof Hp as (Ht & _ & Hl & Hsub & Hdis).
  unfold path_ok. rewrite received_app, link_history_snoc, link_clocks_app. cbn [link_clocks omap list_omap].
  assert (Hpre : exists tl, offered f = offered (ep_forwarder p) ++ tl /\ tl `sublist_of` received [FwdTurn rd r] /\
    (disable_mempool = true -> tl = [])).
  { destruct (fwd_offered _ _ _ _ Hf) as [Ho|(Hd & b & -> & Ho)]; rewrite Ho.
    - exists []. rewrite app_nil_r. split_and!; [done|apply sublist_nil_l|done].
    - eexists. split_and!; [done|done|congruence]. }
  destruct Hpre as (tl & Ho & Htl & Hn). split_and!.
  - cbn. rewrite Ho, length_app. lia.
  - eapply path_ok_quiet; [exact Hp|done|]. cbn. by rewrite Ho, take_app_le by lia.
  - intros s now Hs Hc. rewrite app_nil_r in Hc. by apply Hl.
  - cbn. rewrite Ho. by apply sublist_app.
  - intros Hd. cbn. by rewrite Ho, (Hdis Hd), (Hn Hd).
Qed.

Lemma received_other evs ev :
  (forall rd r, ev <> FwdTurn rd r) -> received (evs ++ [ev]) = received evs.
Proof. intros Hne. rewrite received_app. destruct ev as [rd r| | | |]; cbn; [by destruct (Hne rd r)|by rewrite app_nil_r..]. Qed.

(** A step of the link that leaves the forwarder alone. *)
Lemma path_ok_link evs ev p p' :
  path_ok evs p -> (forall rd r, ev <> FwdTurn rd r) -> ep_forwarder p' = ep_forwarder p ->
  (taken p <= taken p' <= length (offered (ep_forwarder p)))%nat ->
  (exists takes : list (nat * BlockEnginePackets),
    takes.*2 `sublist_of` take (taken p') (offered (ep_forwarder p')) /\ StronglySorted lt takes.*1 /\
    Forall2 (fun x => sent_at (evs ++ [ev]) x.1 x.2) takes (batches_of (all_sent p'))) ->
  (forall s now, link p' = Some s -> Forall (fun t => t <= now) (link_clocks (evs ++ [ev])) ->
    interests_follow (lifespan := lifespan) aoi_cache_ttl_s (link_history (evs ++ [ev])) now s) ->
  path_ok (evs ++ [ev]) p'.
Proof.
  intros (_ & _ & _ & Hsub & Hdis) Hne Hf Ht Htakes Hlink. unfold path_ok. rewrite received_other by done.
  split_and!; [rewrite Hf; lia|done|done|by rewrite Hf|by rewrite Hf].
Qed.

(** An event with no effect. *)
Lemma path_ok_stutter evs ev p :
  path_ok evs p -> (forall rd r, ev <> FwdTurn rd r) -> (forall a r n, ev <> LinkOpens a r n) ->
  (forall rd e, ev = LinkTurn rd e -> link p = None \/ is_batches e = true) -> path_ok (evs ++ [ev]) p.
Proof.
  intros Hp Hne Hno Hturn. pose proof Hp as (Ht & _ & Hl & _).
  apply (path_ok_link evs ev p); try done; [eapply path_ok_quiet; [exact Hp|done|done]|].
  intros s now Hs Hc. rewrite link_clocks_app in Hc. apply Forall_app in Hc as [Hc _].
  specialize (Hl s now Hs Hc). rewrite link_history_snoc. destruct ev as [| | |rd e|]; try done; [by destruct (Hno access_token refresh_token now0)|].
  destruct (Hturn rd e eq_refl) as [|He]; [congruence|]. destruct e as [| | | |o| |]; try done.
  by apply batches_follow.
Qed.

(** A reading of the last event is no earlier than those before it. *)
Lemma link_clock_last evs ev (rd : be_readings) :
  StronglySorted Z.le (link_clocks (evs ++ [ev])) -> link_clocks [ev] = [rd_cache_now rd] ->
  Forall (fun t => t <= rd_cache_now rd) (link_clocks evs) /\
  forall now, Forall (fun t => t <= now) (link_clocks (evs ++ [ev])) -> rd_cache_now rd <= now.
Proof.
  rewrite link_clocks_app. intros Hclk Hrd. rewrite Hrd in *. split.
  - apply Forall_forall. intros t Hin. eapply StronglySorted_app_1_elem_of; [exact Hclk|exact Hin|set_solver].
  - intros now Hc. apply Forall_app in Hc as [_ Hc]. by apply Forall_cons in Hc as [Hc _].
Qed.

Lemma path_step_ok evs p ev p' :
  StronglySorted Z.le (link_clocks (evs ++ [ev])) -> path_ok evs p -> path_step p ev = Ok p' -> path_ok (evs ++ [ev]) p'.
Proof.
  intros Hclk Hp. pose proof Hp as (Ht & _ & Hlk & _).
  pose proof (fun rd => link_clock_last evs ev rd Hclk) as Hlast.
  destruct ev as [rd r|access refresh now|rd|rd ev|]; cbn [path_step].
  - intros (f & Hf & [= <-])%bind_Ok_inv. by apply path_ok_forwarder.
  - intros [= <-]. apply (path_ok_link evs _ p); try done.
    + by destruct (link p).
    + destruct (link p); cbn; lia.
    + eapply path_ok_quiet; [exact Hp| |].
      * unfold all_sent. destruct (link p) eqn:Hl; cbn; by rewrite ?Hl, app_nil_r.
      * destruct (link p); cbn; by apply take_sublist.
    + intros s now' [= <-] _. rewrite link_history_snoc. apply init_follows.
  - destruct (link p) as [s|] eqn:Hl; [|intros [= <-]; by apply path_ok_stutter].
    destruct (offered (ep_forwarder p) !! taken p) as [b|] eqn:Hb; [|intros [= <-]; by apply path_ok_stutter].
    intros Hi. pose proof (lookup_lt_Some _ _ _ Hb) as Hlt. specialize (Hlk s _ eq_refl (proj1 (Hlast rd eq_refl))).
    apply link_iteration_view in Hi as Hv; [|exact Hl]. destruct Hv as (Hf & Htk & Hs).
    change (taken p' = S (taken p)) in Htk. change (ep_forwarder p' = ep_forwarder p) in Hf.
    change (all_sent (p <| taken ::= S |>)) with (all_sent p) in Hs.
    apply (path_ok_link evs _ p); try done; [lia| |].
    + destruct (batches_messages _ _ rd b s (Z.le_refl _) Hlk) as [Hm|(e & Hm & Hform)], Hs as [Hs|Hs];
        try (eapply path_ok_quiet; [exact Hp|by rewrite Hs, ?batches_app, ?Hm, ?app_nil_r|rewrite Hf, Htk; apply take_sublist; lia]).
      eapply path_ok_sends; [done..|]. by rewrite Hs, batches_app, Hm.
    + intros s' now Hs' Hc. rewrite link_history_snoc. apply (batches_follow _ _ rd (Some b)).
      by eapply link_iteration_follows, (proj2 (Hlast rd eq_refl)).
  - destruct (link p) as [s|] eqn:Hl; [|intros [= <-]; apply path_ok_stutter; naive_solver].
    destruct (is_batches ev) eqn:Hev; [intros [= <-]; apply path_ok_stutter; naive_solver|].
    intros Hi. specialize (Hlk s _ eq_refl (proj1 (Hlast rd eq_refl))).
    pose proof (link_iteration_view _ _ _ _ _ Hl Hi) as (Hf & Htk & Hs).
    apply (path_ok_link evs _ p); try done; [lia| |].
    + eapply path_ok_quiet; [exact Hp| |by rewrite Hf, Htk].
      destruct Hs as [Hs|Hs]; rewrite Hs; [done|]. by rewrite batches_app, other_messages, app_nil_r.
    + intros s' now Hs' Hc. rewrite link_history_snoc. by eapply link_iteration_follows, (proj2 (Hlast rd eq_refl)).
  - destruct (link p) as [s|] eqn:Hl; intros [= <-]; [|by apply path_ok_stutter].
    apply (path_ok_link evs _ p); try done. eapply path_ok_quiet; [exact Hp| |done].
    unfold all_sent. cbn. by rewrite Hl, app_nil_r.
Qed.

Lemma path_run_snoc evs : forall ev p p',
  path_run (evs ++ [ev]) p = Ok p' -> exists p1, path_run evs p = Ok p1 /\ path_step p1 ev = Ok p'.
Proof.
  induction evs as [|e evs IH]; intros ev p p' H; cbn in H.
  - apply bind_Ok_inv in H as (p1 & H & [= <-]). by exists p.
  - apply bind_Ok_inv in H as (p1 & H1 & (p2 & H2 & H3)%IH). exists p2. cbn. by rewrite H1.
Qed.

Lemma path_run_ok start bcap vcap (be : C BlockEnginePackets) evs : forall p,
  StronglySorted Z.le (link_clocks evs) -> path_run evs (path_new start bcap vcap be) = Ok p -> path_ok evs p.
Proof.
  induction evs as [|ev evs IH] using rev_ind; intros p Hclk Hrun.
  - injection Hrun as <-. split_and!; try done.
    exists []. split_and!; [apply sublist_nil_l|constructor|constructor].
  - apply path_run_snoc in Hrun as (p1 & Hrun & Hs). eapply path_step_ok; [done| |exact Hs]. apply IH; [|done].
    rewrite link_clocks_app in Hclk. by eapply StronglySorted_app_1_l.
Qed.

(** C3: the way to the block engine.  Whatever the links do, the batches that
    leave for the block engine were taken from the channel one after another by
    an open link, and each is exactly the filtered form of what was taken (all
    and only the packets not discarded, mentioning no listed address and of
    interest, with the lookup tables of that turn) for the interests this link
    has been told since it was opened.  Their sources are batches the relayer
    received, each at most once and in the order of their reception, across
    reconnections too, stamped with the time of reception and expiring after the
    configured delay; with the mempool disabled nothing leaves.  The readings of
    the caches' clock do not decrease. *)
Theorem engine_path_ok start bcap vcap (be : C BlockEnginePackets) evs p :
  StronglySorted Z.le (link_clocks evs) ->
  path_run evs (path_new start bcap vcap be) = Ok p ->
  exists takes : list (nat * BlockEnginePackets),
    Forall2 (fun x => sent_at evs x.1 x.2) takes (batches_of (all_sent p)) /\
    StronglySorted lt takes.*1 /\
    takes.*2 `sublist_of` received evs /\
    (disable_mempool = true -> batches_of (all_sent p) = []).
Proof.
  intros Hclk Hrun. destruct (path_run_ok _ _ _ _ _ _ Hclk Hrun) as (_ & (takes & Hsub & Hst & Hall) & _ & Hrec & Hdis).
  assert (Ho : takes.*2 `sublist_of` offered (ep_forwarder p)) by (etrans; [exact Hsub|apply sublist_take]).
  exists takes. split_and!; [done|done|by etrans|].
  intros Hd. rewrite (Hdis Hd) in Ho. apply sublist_nil_r in Ho. destruct takes; [|done].
  by apply Forall2_nil_inv_l in Hall.
Qed.
End laws.
End path.

(** ** Witness: a batch offered before the link opens is lost, the next one is
    filtered by the accounts of interest and sent, the link is lost and opened
    again, and the new link, told nothing yet, sends nothing *)

Definition demo_path_events : list (path_event (C := queue)) := [
  FwdTurn (demo_fr 0) (Received [[ref_packet [1] 0]]);
  LinkOpens (demo_good_token "a") (demo_good_token "b") 0;
  LinkTurn (be_demo_rd 1) HeartbeatTick;
  LinkTurn (be_demo_rd 2) (AoiMessage (inr (Some {| accounts := [to_string ([5] : Pubkey)] |})));
  FwdTurn (demo_fr 20) (Received [[ref_packet [5; 6] 0; ref_packet [5] 1]; [ref_packet [7] 0; ref_packet [5; 9] 0]]);
  LinkTakes (be_demo_rd 3);
  LinkTurn (be_demo_rd 40) MetricsTick;
  LinkOpens (demo_good_token "a") (demo_good_token "b") 41;
  FwdTurn (demo_fr 40) (Received [[ref_packet [5; 6] 0]]);
  LinkTakes (be_demo_rd 42)].
Abbreviation demo_path :=
  (path_run (KP := list Z) (T := timed Pubkey) demo_keypair {[ [9] ]} 300 50 false demo_path_events
     (path_new 0 100000 0 (mk_queue [] 5 false))).

Example demo_path_sent :
  match demo_path with
  | Ok p => (fun e => option_map (fun l => map pp_data (packets l)) (epb_batch e)) <$> batches_of (all_sent p) =
              [Some [[5; 6]]] /\ length (all_sent p) = 2%nat /\ taken p = 3%nat
  | _ => False
  end.
Proof. vm_compute. by split_and!. Qed.

Lemma engine_path_ok_witness :
  exists p takes, demo_path = Ok p /\ batches_of (all_sent p) <> [] /\
    Forall2 (fun x => sent_at {[ [9] ]} 300 demo_path_events x.1 x.2) takes (batches_of (all_sent p)) /\
    takes.*2 `sublist_of` received 50 demo_path_events.
Proof.
  pose proof demo_path_sent as Hs. destruct demo_path as [p| |] eqn:E; [|destruct Hs..].
  assert (Hclk : StronglySorted Z.le (link_clocks demo_path_events)) by (cbn; repeat constructor; lia).
  destruct (engine_path_ok (KP := list Z) (T := timed Pubkey) (lifespan := tc_ttl) demo_keypair {[ [9] ]} 300 50 false
    0 100000 0 (mk_queue [] 5 false) demo_path_events p Hclk E) as (takes & H1 & _ & H2 & _).
  exists p, takes. split; [reflexivity|]. split; [|split; [exact H1|exact H2]].
  destruct Hs as [Hs _]. intros Hn. rewrite Hn in Hs. discriminate Hs.
Defined.
