(* ===== verification/Accounts.v ===== *)
(** * The reported numbers of a validator

    The event loop counts, per validator, the packets it forwarded and dropped,
    reports the counts every second and starts again from nothing.  Here: over
    any run the reports, together with the counts not reported yet, are what
    was put into the channel of the validator and what was not. *)

From Stdlib Require Import ZArith Lia String.
From stdpp Require Import base gmap strings list.
From S2P Require Import Prelude Interfaces Reference Convert Schedule Health Relayer.
From S2P Require Import RelayerForward RelayerLoop RelayerReport Pipeline.

Section accounts.
Context {C : Type -> Type} `{MP : Mpsc C}.
Context {Hist : Type} `{HI : Histogram Hist}.
Context `{IT : !HashIter Pubkey}.
Context `{PA : PacketApi} `{TI : Text IpAddr}.
Context `{ML : !MpscLaws C} `{IL : !HashIterLaws Pubkey}.

Abbreviation loop_input := (bool * readings (C := logged C) * loop_event (C := logged C))%type.
Abbreviation state := (loop_state (C := logged C) (Hist := Hist)).

(** ** What the points and the counters say about a validator *)

Definition forwarded (st : option PacketForwardStats) : Z := from_option num_packets_forwarded 0 st.
Definition dropped (st : option PacketForwardStats) : Z := from_option num_packets_dropped 0 st.
Definition current (k : Pubkey) (s : state) : option PacketForwardStats :=
  packet_stats_per_validator (relayer_metrics s) !! k.

(** The values of a point of [k], as they are written: cast to [i64]. *)
Definition point_value (f : option PacketForwardStats -> Z) (k : Pubkey) (p : loop_point (Hist := Hist)) : Z :=
  match p with
  | ValidatorMetrics k' st => if decide (k' = k) then as_i64 (f (Some st)) else 0
  | _ => 0
  end.
Definition reported (f : option PacketForwardStats -> Z) (k : Pubkey) (ps : list loop_point) : Z :=
  sumZ (point_value f k <$> ps).

(** Validator [k] stays connected and a target; it may read as slowly as it
    likes, so sends may find its channel full. *)
Definition patient (recv : logged C response -> logged C response) : Prop :=
  forall c, rx_closed c = false -> rx_closed (recv c) = false /\ log (recv c) = log c.
Definition attached (cfg : loop_config) (k : Pubkey) (i : loop_input) : Prop :=
  i.1.1 = false /\ (forall j, patient (rd_recv i.1.2 j k)) /\
  match i.2 with
  | HeartbeatTick _ => rd_health i.1.2 = Healthy
  | SubscriptionEvent (Some (ValidatorPacketSubscription pk _)) => pk <> k
  | SlotEvent (Some slot) => cfg_forward_all cfg = true \/
      k ∈ leaders_for_slots (rd_schedule i.1.2) (slot_window slot (slot_lookahead cfg))
  | _ => True
  end.
Definition on_line (cfg : loop_config) (k : Pubkey) (s : state) (c : logged C response) : Prop :=
  packet_subscriptions s !! k = Some c /\ rx_closed c = false /\
  (cfg_forward_all cfg = true \/ k ∈ slot_leaders s).

(** The packets in the log of a channel. *)
Definition accepted (c : logged C response) : Z := Z.of_nat (length (stream (log c))).

(** ** Sums over points *)

Lemma sumZ_perm l l' : l ≡ₚ l' -> sumZ l = sumZ l'.
Proof. induction 1; rewrite ?sumZ_cons in *; lia. Qed.

Lemma reported_app f k ps qs : reported f k (ps ++ qs) = reported f k ps + reported f k qs.
Proof. unfold reported. by rewrite fmap_app, sumZ_app. Qed.

Lemma reported_silent f k ps :
  Forall (fun p => point_value f k p = 0) ps -> reported f k ps = 0.
Proof. induction 1 as [|p ps Hp _ IH]; [done|]. unfold reported in *. rewrite fmap_cons, sumZ_cons. lia. Qed.

Lemma drop_points_silent f k ks (subs : gmap Pubkey (logged C response)) :
  reported f k (drop_points ks subs) = 0.
Proof.
  apply reported_silent. revert subs. induction ks as [|x ks IH]; intros subs; cbn; [constructor|].
  destruct (subs !! x); [constructor; [done|]|]; apply IH.
Qed.

Lemma sum_at_key (m : gmap Pubkey PacketForwardStats) (g : PacketForwardStats -> Z) k :
  sumZ ((fun kv : Pubkey * PacketForwardStats => if decide (kv.1 = k) then g kv.2 else 0) <$> map_to_list m) =
  from_option g 0 (m !! k).
Proof.
  induction m as [|k' st m Hn IH] using map_ind; [by rewrite map_to_list_empty, lookup_empty|].
  erewrite sumZ_perm by (apply fmap_Permutation, map_to_list_insert; exact Hn).
  rewrite fmap_cons, sumZ_cons, IH. cbn [fst snd]. destruct (decide (k' = k)) as [->|Hne].
  - rewrite lookup_insert_eq, Hn. cbn. lia.
  - by rewrite lookup_insert_ne.
Qed.

Lemma reported_report f k (m : RelayerMetrics (Hist := Hist)) :
  reported f k (report m) = from_option (fun st => as_i64 (f (Some st))) 0 (packet_stats_per_validator m !! k).
Proof.
  unfold report. rewrite reported_app. replace (reported f k [MetricsReport m]) with 0 by done.
  rewrite Z.add_0_r. unfold reported. rewrite <- list_fmap_compose.
  rewrite <- (sum_at_key _ (fun st => as_i64 (f (Some st)))). apply sumZ_perm.
  rewrite map_iter_perm. done.
Qed.

Lemma as_i64_small z : 0 <= z < 2 ^ 63 -> as_i64 z = z.
Proof.
  intros Hz. unfold as_i64. rewrite wrap_small by lia. destruct (Z.ltb_spec z (2 ^ 63)); lia.
Qed.

(** ** One send, one forward, one iteration *)

(** The account of a validator: nothing in it changes but the total, which
    grows by [n]. *)
Definition balanced (n : Z) (st : option PacketForwardStats) (c : logged C response)
    (st' : option PacketForwardStats) (c' : logged C response) : Prop :=
  forwarded st' - accepted c' = forwarded st - accepted c /\
  forwarded st' + dropped st' = forwarded st + dropped st + n /\
  0 <= forwarded st <= forwarded st' /\ 0 <= dropped st <= dropped st'.

Lemma stream_length_snoc t b l :
  Z.of_nat (length (stream (l ++ [batch_message t b]))) =
  Z.of_nat (length (stream l)) + Z.of_nat (length (packets b)).
Proof. rewrite stream_app, length_app. cbn. rewrite app_nil_r. lia. Qed.

Lemma send_balanced t recv b c st n :
  patient recv -> rx_closed c = false -> 0 <= forwarded st -> 0 <= dropped st ->
  forwarded st + dropped st + Z.of_nat (length (packets b)) <= u64_max ->
  exists c' st', peer_send t recv b {| p_chan := Some c; p_stats := st; p_closed := n |} =
      {| p_chan := Some c'; p_stats := st'; p_closed := n |} /\ rx_closed c' = false /\
    balanced (Z.of_nat (length (packets b))) st c st' c'.
Proof.
  intros Hp Hc Hf Hd Hmax. destruct (Hp c Hc) as [Ho Hl]. unfold peer_send. cbn [p_chan p_stats p_closed].
  pose proof (try_send_spec (batch_message t b) (recv c)) as Hs.
  destruct (try_send (batch_message t b) (recv c)) as [c' []] eqn:E; [| |destruct Hs; congruence].
  - exists c', (Some (add_forwarded (Z.of_nat (length (packets b))) st)).
    destruct Hs as (_ & _ & _ & _ & Ho'). split; [done|]. split; [done|].
    assert (Hlog : log c' = log c ++ [batch_message t b]).
    { revert E. cbn. destruct (try_send _ (inner (recv c))) as [c1 o]. intros [= <- ->]. cbn. by rewrite Hl. }
    unfold balanced, accepted. rewrite Hlog, stream_length_snoc.
    destruct st as [st|]; cbn in *; unfold u64_saturating_add, u64_max in *; lia.
  - destruct Hs as [-> _]. exists (recv c), (Some (add_dropped (Z.of_nat (length (packets b))) st)).
    split; [done|]. split; [done|]. unfold balanced, accepted. rewrite Hl.
    destruct st as [st|]; cbn in *; unfold u64_saturating_add, u64_max in *; lia.
Qed.

Lemma balanced_trans n m st c st1 c1 st2 c2 :
  balanced n st c st1 c1 -> balanced m st1 c1 st2 c2 -> balanced (n + m) st c st2 c2.
Proof. unfold balanced. lia. Qed.

Lemma deliver_balanced now recv ibs c st n :
  (forall j, patient (recv j)) -> rx_closed c = false -> 0 <= forwarded st -> 0 <= dropped st ->
  forwarded st + dropped st + sumZ (batch_len <$> ibs) <= u64_max ->
  exists c' st', deliver now recv {| p_chan := Some c; p_stats := st; p_closed := n |} ibs =
      {| p_chan := Some c'; p_stats := st'; p_closed := n |} /\ rx_closed c' = false /\
    balanced (sumZ (batch_len <$> ibs)) st c st' c'.
Proof.
  intros Hp. revert c st. induction ibs as [|ib ibs IH]; intros c st Hc Hf Hd Hmax.
  { exists c, st. split; [done|]. split; [done|]. unfold balanced. cbn. lia. }
  rewrite fmap_cons, sumZ_cons in *. unfold deliver. cbn [foldl].
  assert (0 <= sumZ (batch_len <$> ibs)).
  { apply sumZ_nonneg. rewrite Forall_fmap. apply Forall_true. intros x. unfold compose, batch_len. lia. }
  change (batch_len ib) with (Z.of_nat (length (packets ib.2))) in *.
  destruct (send_balanced (now ib.1) (recv ib.1) ib.2 c st n) as (c1 & st1 & -> & Hc1 & Hb1); [done|done|done|done|lia|].
  destruct (IH c1 st1) as (c' & st' & Hd' & Hc' & Hb'); [done|unfold balanced in Hb1; lia..|].
  exists c', st'. split; [exact Hd'|]. split; [done|]. by eapply balanced_trans.
Qed.

(** The account over some iterations: [n] packets were due, the points [ps] were
    written. *)
Definition accounted_for (k : Pubkey) (n : Z) (s : state) (c : logged C response)
    (ps : list loop_point) (s' : state) (c' : logged C response) : Prop :=
  let rf := reported forwarded k ps in let rd := reported dropped k ps in
  rf + forwarded (current k s') - accepted c' = forwarded (current k s) - accepted c /\
  rf + forwarded (current k s') + (rd + dropped (current k s')) =
    forwarded (current k s) + dropped (current k s) + n /\
  0 <= rf /\ 0 <= rd /\ 0 <= forwarded (current k s') /\ 0 <= dropped (current k s').
Definition solvent (k : Pubkey) (n : Z) (s : state) : Prop :=
  0 <= forwarded (current k s) /\ 0 <= dropped (current k s) /\
  forwarded (current k s) + dropped (current k s) + n < 2 ^ 63.

Lemma packet_arm_accounted cfg rd b (s s' : state) k c :
  (forall j, patient (rd_recv rd j k)) -> on_line cfg k s c ->
  solvent k (Z.of_nat (length (admitted cfg (false, rd, PacketEvent (Some b))))) s ->
  loop_arm cfg rd (PacketEvent (Some b)) s = Ok s' ->
  exists c', on_line cfg k s' c' /\
    accounted_for k (Z.of_nat (length (admitted cfg (false, rd, PacketEvent (Some b))))) s c
      (loop_points cfg rd (PacketEvent (Some b)) s) s' c'.
Proof.
  intros Hp (Hsub & Hc & Ht) (Hf & Hd & Hmax) (sw & Hfw & Harm)%bind_Ok_inv.
  destruct (forward_packets_peer _ _ _ _ _ _ _ _ _ _ _ _ k Hfw) as [Hsize Hpeer]. cbn in Hpeer.
  rewrite decide_True in Hpeer by (apply elem_of_targets; eauto). rewrite Hsub in Hpeer.
  assert (Hpts : forall f, reported f k (loop_points cfg rd (PacketEvent (Some b)) s) = 0).
  { intros f. unfold loop_points. rewrite Hfw. apply drop_points_silent. }
  cbn [admitted snd fst] in *. rewrite <- (sum_batch_len (validator_packet_batch_size cfg)) in * by done.
  destruct (deliver_balanced (fun i => rd_now rd i k) (fun i => rd_recv rd i k)
    (imap pair (proto_batches (validator_packet_batch_size cfg)
       (admitted_packets (ofac_addresses cfg) (rd_alt rd) (rpb_batch b)))) c (current k s) 0)
    as (c' & st' & Hdl & Hc' & Hb); [done..|unfold u64_max; lia|].
  unfold deliver in Hdl. assert (Hp' := eq_trans Hpeer Hdl). unfold peer_of in Hp'.
  injection Hp' as Hch Hst Hfl. injection Harm as <-. exists c'. split.
  - split_and!; [|done|done]. cbn. rewrite drop_lookup_gen.
    by rewrite decide_False by (by apply count_occ_notin).
  - unfold accounted_for. rewrite !Hpts. unfold current. cbn. rewrite Hst.
    unfold balanced, current in Hb. lia.
Qed.

Lemma heartbeat_arm_accounted cfg rd lat (s s' : state) k c :
  (forall j, patient (rd_recv rd j k)) -> rd_health rd = Healthy -> on_line cfg k s c -> solvent k 0 s ->
  loop_arm cfg rd (HeartbeatTick lat) s = Ok s' ->
  exists c', on_line cfg k s' c' /\
    accounted_for k 0 s c (loop_points cfg rd (HeartbeatTick lat) s) s' c'.
Proof.
  intros Hp Hh (Hsub & Hc & Ht) (Hf & Hd & _) Harm.
  assert (Hpts : forall f, reported f k (loop_points cfg rd (HeartbeatTick lat) s) = 0).
  { intros f. unfold loop_points. rewrite Hh. apply drop_points_silent. }
  pose proof (heartbeat_view _ _ _ _ _ k Hh Harm) as Hv. rewrite Hsub in Hv. cbn [mbind option_bind] in Hv.
  assert (Hcur : current k s' = current k s /\ slot_leaders s' = slot_leaders s).
  { cbn -[handle_heartbeat] in Harm. rewrite Hh in Harm. injection Harm as <-. split; [|done].
    unfold current. cbn -[handle_heartbeat]. set (m := match lat with Some l => _ | None => _ end).
    pose proof (f_equal p_stats (handle_heartbeat_peer (rd_recv rd 0) (packet_subscriptions s) m k)) as Hs.
    unfold peer_heartbeat in Hs. cbn [p_stats peer_of p_chan] in Hs. rewrite Hsub in Hs. etrans; [exact Hs|].
    assert (Hm : packet_stats_per_validator m = packet_stats_per_validator (relayer_metrics s)) by (by destruct lat).
    rewrite <- Hm. by match goal with |- context [try_send ?x ?y] => destruct (try_send x y) as [? []] end. }
  destruct Hcur as [Hcur Hsl]. destruct (Hp 0%nat c Hc) as [Ho Hl].
  set (hb := heartbeat_message _) in Hv. pose proof (try_send_spec hb (rd_recv rd 0 k c)) as Hs.
  destruct (try_send hb (rd_recv rd 0 k c)) as [c' []] eqn:E; [| |destruct Hs; congruence]; exists c'.
  - assert (Hlog : log c' = log c ++ [hb]).
    { revert E. cbn. destruct (try_send _ (inner _)) as [c1 o]. intros [= <- ->]. cbn. by rewrite Hl. }
    split; [split_and!; [done|by destruct Hs as (_ & _ & _ & _ & ?)|by rewrite Hsl]|].
    unfold accounted_for, accepted. rewrite !Hpts, Hcur, Hlog, stream_app. cbn. rewrite app_nil_r. lia.
  - destruct Hs as [-> _]. split; [split_and!; [done|done|by rewrite Hsl]|].
    unfold accounted_for, accepted. rewrite !Hpts, Hcur, Hl. lia.
Qed.

Lemma metrics_arm_accounted cfg rd lat (s s' : state) k c :
  on_line cfg k s c -> solvent k 0 s -> loop_arm cfg rd (MetricsTick lat) s = Ok s' ->
  exists c', on_line cfg k s' c' /\ accounted_for k 0 s c (loop_points cfg rd (MetricsTick lat) s) s' c'.
Proof.
  intros Hon (Hf & Hd & Hmax) Harm. exists c.
  assert (Hnew : current k s' = None) by (injection Harm as <-; apply lookup_empty).
  split; [injection Harm as <-; exact Hon|]. cbn [loop_points]. unfold accounted_for.
  rewrite !reported_report, Hnew.
  assert (Hst : packet_stats_per_validator (reported_metrics rd lat s) !! k = current k s) by (by destruct lat).
  rewrite Hst. destruct (current k s) as [st|]; cbn in *; [rewrite !as_i64_small by lia|]; lia.
Qed.

Lemma quiet_accounted k (s s' : state) c ps :
  solvent k 0 s -> current k s' = current k s -> (forall f, reported f k ps = 0) ->
  accounted_for k 0 s c ps s' c.
Proof. intros (? & ? & _) Hcur Hps. unfold accounted_for. rewrite !Hps, Hcur. lia. Qed.

Lemma iteration_accounted cfg (i : loop_input) (s s' : state) k c :
  attached cfg k i -> on_line cfg k s c -> solvent k (Z.of_nat (length (admitted cfg i))) s ->
  loop_iteration cfg i.1.2 i.2 s = Ok s' ->
  exists c', on_line cfg k s' c' /\
    accounted_for k (Z.of_nat (length (admitted cfg i))) s c (loop_points cfg i.1.2 i.2 s) s' c'.
Proof.
  destruct i as [[exit rd] ev]. intros (_ & Hp & Hev) Hon Hsol (s1 & Harm & [= <-])%bind_Ok_inv.
  change (exists c', on_line cfg k s1 c' /\
    accounted_for k (Z.of_nat (length (admitted cfg (exit, rd, ev)))) s c (loop_points cfg rd ev s) s1 c').
  cbn [fst snd] in *. pose proof Hon as (Hsub & Hc & Ht).
  destruct ev as [[slot|]|[b|]|[[pk sender]|]|lat|lat]; try done.
  - injection Harm as <-. exists c. split; [by split_and!|]. by apply quiet_accounted.
  - by eapply packet_arm_accounted.
  - injection Harm as <-. exists c. split; [split; [|done]; cbn; by rewrite lookup_insert_ne|].
    apply quiet_accounted; [done| |].
    + unfold current. cbn. by destruct (packet_subscriptions s !! pk).
    + intros f. cbn. by destruct (packet_subscriptions s !! pk).
  - by eapply heartbeat_arm_accounted.
  - by eapply metrics_arm_accounted.
Qed.

(** C14: the reports are right.  Over any run in which a validator stays
    connected and a target, however slowly it reads, what was reported as
    forwarded to it plus what is still to be reported has grown by exactly the
    packets its channel accepted, and what was reported as dropped plus what is
    still to be reported by the other packets that were due to it. *)
Theorem reports_account_packets cfg inputs (s s' : state) k c :
  Forall (attached cfg k) inputs -> on_line cfg k s c ->
  solvent k (Z.of_nat (length (inputs ≫= admitted cfg))) s ->
  run_event_loop cfg inputs s = Ok s' ->
  exists c', packet_subscriptions s' !! k = Some c' /\
    let ps := run_points cfg inputs s in
    let due := Z.of_nat (length (inputs ≫= admitted cfg)) in
    reported forwarded k ps + forwarded (current k s') =
      forwarded (current k s) + (accepted c' - accepted c) /\
    reported dropped k ps + dropped (current k s') =
      dropped (current k s) + (due - (accepted c' - accepted c)).
Proof.
  intros Hat Hon Hsol Hrun.
  enough (exists c', on_line cfg k s' c' /\
    accounted_for k (Z.of_nat (length (inputs ≫= admitted cfg))) s c (run_points cfg inputs s) s' c')
    as (c' & (Hsub & _) & Hacc).
  { exists c'. split; [done|]. unfold accounted_for in Hacc. cbn zeta. lia. }
  revert s c Hon Hsol Hrun. induction Hat as [|[[exit rd] ev] inputs Hi _ IH]; intros s c Hon Hsol.
  { intros [= <-]. exists c. split; [done|]. by apply quiet_accounted. }
  cbn [run_event_loop run_points]. destruct (Hi) as [Hexit _]. cbn in Hexit. subst exit.
  intros (s1 & Hit & Hrun)%bind_Ok_inv. rewrite Hit.
  change (((false, rd, ev) :: inputs) ≫= admitted cfg)
    with (admitted cfg (false, rd, ev) ++ (inputs ≫= admitted cfg)) in *.
  rewrite length_app, Nat2Z.inj_add in *.
  destruct (iteration_accounted cfg (false, rd, ev) s s1 k c) as (c1 & Hon1 & Hacc1);
    [done|done|unfold solvent in *; lia|exact Hit|]. cbn [fst snd] in Hacc1.
  destruct (IH s1 c1) as (c' & Hon' & Hacc'); [done|unfold accounted_for, solvent in *; lia|done|].
  exists c'. split; [done|]. unfold accounted_for in *. rewrite !reported_app. lia.
Qed.

End accounts.

(** ** Witness: the two packets of the demonstration of [Pipeline] *)

Lemma demo_attached : Forall (attached demo_cfg [1]) demo_live_inputs.
Proof.
  assert (Hk : forall j, patient (rd_recv demo_live_rd j [1])) by (intros j [[q cap cl] l] Hc; by split).
  apply Forall_forall. intros i Hi. pose proof demo_steady as Hs. rewrite Forall_forall in Hs.
  destruct (Hs i Hi) as (Hx & _ & Hev). split; [done|]. split; [|done].
  apply list_elem_of_fmap in Hi as (ev & -> & _). exact Hk.
Qed.

Lemma reports_account_packets_witness :
  exists s' (c c' : logged queue response), demo_end = Ok s' /\ packet_subscriptions s' !! [1] = Some c' /\
    reported forwarded [1] (run_points demo_cfg demo_live_inputs demo_start) + forwarded (current [1] s') =
      forwarded (current [1] demo_start) + (accepted c' - accepted c).
Proof.
  destruct (is_ok_inv demo_end) as [s' E]; [vm_compute; reflexivity|].
  assert (Hs : bool_decide (is_Some (packet_subscriptions demo_start !! [1])) = true) by (vm_compute; reflexivity).
  apply bool_decide_eq_true in Hs as [c Hc].
  destruct (reports_account_packets demo_cfg demo_live_inputs demo_start s' [1] c) as (c' & Hc' & Hf & _).
  - exact demo_attached.
  - split; [exact Hc|]. split; [|right; vm_compute; reflexivity].
    assert (Hd : match packet_subscriptions demo_start !! [1] with Some c => rx_closed c | None => false end = false)
      by (vm_compute; reflexivity).
    rewrite Hc in Hd. exact Hd.
  - vm_compute. repeat split; discriminate.
  - exact E.
  - exists s', c, c'. split; [exact E|]. split; [exact Hc'|exact Hf].
Defined.

Example demo_reported :
  reported forwarded [1] (run_points demo_cfg demo_live_inputs demo_start) = 2.
Proof. vm_compute. reflexivity. Qed.
