(* ===== verification/Tpu.v ===== *)
(** * The transaction processing unit ([src/core/src/tpu.rs])

    [Tpu::new] starts one QUIC server per socket, the fetch stage, the updater
    of the stakes and signature verification.  The servers are those of
    [solana_streamer]; modelled are the parameters they are started with, the
    channels between the stages, and what reaches signature verification. *)

From Stdlib Require Import ZArith Lia String.
From stdpp Require Import base gmap strings list.
From S2P Require Import Prelude Interfaces Reference FetchStage StakedNodes.

Definition MAX_QUIC_CONNECTIONS_PER_IP : Z := 8.
Definition MAX_CONNECTIONS_PER_IPADDR_PER_MIN : Z := 64.
Definition TPU_QUEUE_CAPACITY : nat := Z.to_nat 10000.

(** [solana_streamer::quic::QuicServerParams]: the fields the code sets, and the
    rest, which it takes from the default. *)
Record QuicServerParams (R : Type) := {
  max_connections_per_peer : Z;
  max_connections_per_ipaddr_per_min : Z;
  max_staked_connections : Z;
  max_unstaked_connections : Z;
  max_streams_per_ms : Z;
  other_params : R;
}.
Arguments max_connections_per_peer {R} _.
Arguments max_connections_per_ipaddr_per_min {R} _.
Arguments max_staked_connections {R} _.
Arguments max_unstaked_connections {R} _.
Arguments max_streams_per_ms {R} _.
Arguments other_params {R} _.

(** The streamer: its default parameters, the start of a server on a socket,
    the stake it finds for the key of a peer, and whether a server with some
    parameters lets a peer with that stake in. *)
Class Streamer (Sk R : Type) := {
  MAX_QUIC_CONNECTIONS_PER_PEER : Z;
  default_other_params : R;
  spawn_server : string -> Sk -> QuicServerParams R -> bool;
  get_node_stake : StakedNodes -> Pubkey -> option Z;
  quic_admits : QuicServerParams R -> option Z -> bool;
}.
(** A server with no room for unstaked connections refuses unstaked peers, and
    a stake comes from the overrides or from the map of the stakes. *)
Class StreamerLaws (Sk R : Type) `{Streamer Sk R} := {
  no_unstaked : forall p, max_unstaked_connections p = 0 -> quic_admits p None = false;
  stake_listed : forall s k x, get_node_stake s k = Some x -> overrides s !! k = Some x \/ stakes s !! k = Some x;
}.

Section tpu.
Context {Sk R : Type} `{ST : Streamer Sk R} `{PA : PacketApi} `{TP : Text Pubkey}.

(** ** [Tpu::new] *)

Definition tpu_server_params (max_unstaked max_staked : Z) : QuicServerParams R := {|
  max_connections_per_peer := MAX_QUIC_CONNECTIONS_PER_PEER;
  max_connections_per_ipaddr_per_min := MAX_CONNECTIONS_PER_IPADDR_PER_MIN;
  max_staked_connections := max_staked;
  max_unstaked_connections := max_unstaked;
  max_streams_per_ms := 1000;
  other_params := default_other_params |}.
Definition tpu_forwards_server_params (max_staked : Z) : QuicServerParams R := {|
  max_connections_per_peer := MAX_QUIC_CONNECTIONS_PER_PEER;
  max_connections_per_ipaddr_per_min := MAX_CONNECTIONS_PER_IPADDR_PER_MIN;
  max_staked_connections := max_staked;
  max_unstaked_connections := 0;
  max_streams_per_ms := 1000;
  other_params := default_other_params |}.

(** The servers of a kind; the [unwrap] panics when one does not start. *)
Fixpoint spawn_servers (name : string) (socks : list Sk) (p : QuicServerParams R)
    : result Empty_set (list (QuicServerParams R)) :=
  match socks with
  | [] => Ok []
  | sock :: socks =>
      _ ← assert_that (spawn_server name sock p);
      rest ← spawn_servers name socks p;
      Ok (p :: rest)
  end.

(** What is running after [Tpu::new]: the parameters of the servers that feed
    each of the two channels. *)
Record Tpu := {
  tpu_servers : list (QuicServerParams R);
  tpu_forwards_servers : list (QuicServerParams R);
  tpu_staked_nodes_overrides : gmap Pubkey Z;
}.
Definition tpu_new (transactions_quic_sockets transactions_forwards_quic_sockets : list Sk)
    (max_unstaked max_staked : Z) (staked_nodes_overrides : gmap Pubkey Z) : result Empty_set Tpu :=
  quic_tasks ← spawn_servers "quic_streamer_tpu" transactions_quic_sockets
                 (tpu_server_params max_unstaked max_staked);
  forwards_tasks ← spawn_servers "quic_streamer_tpu_forwards" transactions_forwards_quic_sockets
                     (tpu_forwards_server_params max_staked);
  Ok {| tpu_servers := quic_tasks; tpu_forwards_servers := forwards_tasks;
        tpu_staked_nodes_overrides := staked_nodes_overrides |}.

(** ** The stages at work

    The channels of the two kinds of servers and the fetch stage between them
    are the [fetch_thread] of [FetchStage], which moves by single channel
    operations; [verified] is what signature verification has taken; [received]
    is a history variable: every batch a server has let in, with its kind and
    the key and stake of the peer. *)
Inductive port := TpuPort | ForwardsPort.
Record reception := { at_port : port; from_peer : Pubkey; from_stake : option Z; batch : PacketBatch }.
Record ingress := {
  staked_nodes : StakedNodes;
  last_stakes : Z;
  stage : fetch_thread;
  verified : list PacketBatch;
  received : list reception;
}.
#[global] Instance ingress_eta : Eta ingress := fun s => {|
  staked_nodes := staked_nodes s; last_stakes := last_stakes s; stage := stage s;
  verified := verified s; received := received s |}.

Definition ingress_new (start : Z) : ingress := {|
  staked_nodes := {| stakes := ∅; overrides := ∅ |}; last_stakes := start;
  stage := {| pc := Receiving;
              fetch := {| metrics_start := start; tpu_forwards_receiver_max_len := 0;
                          tpu_sender_max_len := 0; tpu_out := [] |};
              forwards_chan := []; tpu_chan := [] |};
  verified := []; received := [] |}.

(** A server receives a batch from the peer with some key; the fetch stage
    makes a step ([open] tells whether signature verification still holds its
    receiver); signature verification takes a batch; the updater of the stakes
    takes a turn. *)
Inductive ingress_event :=
| ServerReceived (p : port) (i : nat) (peer : Pubkey) (b : PacketBatch)
| FetchStep (open : bool) (now forwards_len sender_len : Z)
| SigverifyTurn
| StakesTurn (now now_after : Z) (vote_accounts : string + VoteAccountStatus).

Definition servers_of (t : Tpu) (p : port) : list (QuicServerParams R) :=
  match p with TpuPort => tpu_servers t | ForwardsPort => tpu_forwards_servers t end.
Definition chan_push (p : port) (b : PacketBatch) (s : ingress) : ingress :=
  match p with
  | TpuPort => s <| stage ::= fun f => f <| tpu_chan ::= fun l => l ++ [b] |> |>
  | ForwardsPort => s <| stage ::= fun f => f <| forwards_chan ::= fun l => l ++ [b] |> |>
  end.

Definition ingress_step (t : Tpu) (ev : ingress_event) (s : ingress) : result Empty_set ingress :=
  match ev with
  | ServerReceived p i peer b =>
      match servers_of t p !! i with
      | Some params =>
          let stake := get_node_stake (staked_nodes s) peer in
          if quic_admits params stake
          then Ok ((chan_push p b s) <| received ::= fun l =>
                     l ++ [{| at_port := p; from_peer := peer; from_stake := stake; batch := b |}] |>)
          else Ok s
      | None => Ok s
      end
  | FetchStep open now forwards_len sender_len =>
      f ← fetch_step open now forwards_len sender_len (stage s);
      Ok (s <| stage := f |>)
  | SigverifyTurn =>
      match tpu_chan (stage s) with
      | [] => Ok s
      | b :: l => Ok (s <| stage ::= fun f => f <| tpu_chan := l |> |> <| verified ::= fun v => v ++ [b] |>)
      end
  | StakesTurn now now_after votes =>
      let '(shared, last) := updater_turn (tpu_staked_nodes_overrides t) now now_after votes (staked_nodes s, last_stakes s) in
      Ok (s <| staked_nodes := shared |> <| last_stakes := last |>)
  end.
Fixpoint ingress_run (t : Tpu) (evs : list ingress_event) (s : ingress) : result Empty_set ingress :=
  match evs with
  | [] => Ok s
  | ev :: evs => s ← ingress_step t ev s; ingress_run t evs s
  end.

(** ** Where packets come from *)

(** The batches let in at a port, in order. *)
Definition let_in (p : port) (s : ingress) : list PacketBatch :=
  omap (fun r => match at_port r, p with
                 | TpuPort, TpuPort | ForwardsPort, ForwardsPort => Some (batch r)
                 | _, _ => None
                 end) (received s).
(** The batches of [l] are, in some order that keeps the order of each kind,
    [xs] and forwarded copies of [ys]. *)
Inductive merged : list PacketBatch -> list PacketBatch -> list PacketBatch -> Prop :=
| merged_nil : merged [] [] []
| merged_tpu l xs ys b : merged l xs ys -> merged (l ++ [b]) (xs ++ [b]) ys
| merged_forwards l xs ys b c : merged l xs ys -> forwarded_batch b c -> merged (l ++ [c]) xs (ys ++ [b]).

(** What the fetch stage holds between two channel operations. *)
Definition held (f : fetch_thread) : list PacketBatch :=
  match pc f with Receiving => [] | Draining _ l | Sending l => l end.

(** Verification gets [xs] and copies of a part [ys] of what the forwards port
    let in; copies of [hs] are held by the fetch stage, and the rest is queued. *)
Definition packets_ok (s : ingress) : Prop :=
  exists ys hs, merged (verified s ++ tpu_chan (stage s)) (let_in TpuPort s) ys /\
    Forall2 forwarded_batch hs (held (stage s)) /\
    let_in ForwardsPort s = ys ++ hs ++ forwards_chan (stage s).

Lemma fetch_step_ok `{!PacketApiLaws} open now fl sl (s : ingress) f :
  packets_ok s -> fetch_step open now fl sl (stage s) = Ok f -> packets_ok (s <| stage := f |>).
Proof.
  intros (ys & hs & Hm & Hh & Hf). unfold fetch_step, held, packets_ok in *.
  destruct (stage s) as [[|n l|[|b l]] st fwd tpu]; cbn in *.
  - apply Forall2_nil_inv_r in Hh as ->. destruct fwd as [|b fwd]; intros [= <-]; cbn; [by exists ys, []|].
    exists ys, [b]. split_and!; [done|by repeat constructor; apply mark_batch_forwarded|done].
  - destruct fwd as [|b fwd]; intros [= <-]; cbn; [by exists ys, hs|].
    exists ys, (hs ++ [b]). split_and!; [done| |etrans; [exact Hf|by rewrite <- app_assoc]].
    assert (Forall2 forwarded_batch (hs ++ [b]) (l ++ [mark_batch b]))
      by (apply Forall2_app; [done|by repeat constructor; apply mark_batch_forwarded]).
    by destruct (1024 <? _).
  - apply Forall2_nil_inv_r in Hh as ->. intros [= <-]. by exists ys, [].
  - apply Forall2_cons_inv_r in Hh as (h & hs' & Hb & Hl & ->). destruct open; [|done]. intros [= <-]. cbn.
    exists (ys ++ [h]), hs'. split_and!; [rewrite app_assoc; by constructor|done|etrans; [exact Hf|by rewrite <- app_assoc]].
Qed.

Lemma packets_received p peer stake b s :
  packets_ok s ->
  packets_ok ((chan_push p b s) <| received ::= fun l =>
    l ++ [{| at_port := p; from_peer := peer; from_stake := stake; batch := b |}] |>).
Proof.
  intros (ys & hs & Hm & Hh & Hf). exists ys, hs. unfold let_in in *.
  destruct p; cbn in *; rewrite !omap_app; cbn; rewrite app_nil_r.
  - rewrite app_assoc. split_and!; [by constructor|done|done].
  - split_and!; [done|done|]. by rewrite Hf, !app_assoc.
Qed.

Lemma packets_verified s b l :
  tpu_chan (stage s) = b :: l -> packets_ok s ->
  packets_ok (s <| stage ::= fun f => f <| tpu_chan := l |> |> <| verified ::= fun v => v ++ [b] |>).
Proof.
  intros Hc (ys & hs & Hm & Hh & Hf). exists ys, hs. rewrite Hc in Hm. cbn. rewrite <- app_assoc. by split_and!.
Qed.

(** A stake of [k] known to the configuration [ovr] or from a refresh of [evs]. *)
Definition listed (ovr : gmap Pubkey Z) (evs : list ingress_event) (k : Pubkey) (x : Z) : Prop :=
  ovr !! k = Some x \/ exists now now_after v, StakesTurn now now_after (inr v) ∈ evs /\ (k, x) ∈ stake_entries v.
Definition stakes_ok (ovr : gmap Pubkey Z) (evs : list ingress_event) (n : StakedNodes) : Prop :=
  forall k x, overrides n !! k = Some x \/ stakes n !! k = Some x -> listed ovr evs k x.

Lemma updater_turn_listed ovr evs now now_after votes n last :
  StakesTurn now now_after votes ∈ evs -> stakes_ok ovr evs n ->
  stakes_ok ovr evs (updater_turn ovr now now_after votes (n, last)).1.
Proof.
  intros Hin Hn. unfold updater_turn, try_refresh_pk_to_stake.
  destruct (_ <? _); [|done]. destruct votes as [e|v]; [done|]. intros k x [Hk|Hk]; cbn in Hk; [by left|right].
  exists now, now_after, v. split; [done|]. by apply collect_stakes_elem.
Qed.

(** The invariant of the stages, during the events [evs]. *)
Definition ingress_ok (t : Tpu) (evs : list ingress_event) (s : ingress) : Prop :=
  packets_ok s /\ stakes_ok (tpu_staked_nodes_overrides t) evs (staked_nodes s) /\
  Forall (fun r => (exists params, params ∈ servers_of t (at_port r) /\ quic_admits params (from_stake r) = true) /\
                   forall x, from_stake r = Some x -> listed (tpu_staked_nodes_overrides t) evs (from_peer r) x) (received s).

Section laws.
Context `{PAL : !PacketApiLaws} `{SL : !StreamerLaws Sk R}.

Lemma ingress_step_ok t evs ev s s' :
  ev ∈ evs -> ingress_ok t evs s -> ingress_step t ev s = Ok s' -> ingress_ok t evs s'.
Proof.
  intros Hev Hok. pose proof Hok as (Hp & Hs & Hr). destruct ev as [p i peer b|open now fl sl| |now now_after votes]; cbn [ingress_step].
  - destruct (servers_of t p !! i) as [params|] eqn:Hi; [|by intros [= <-]].
    destruct (quic_admits params _) eqn:Ha; [|by intros [= <-]]. intros [= <-].
    apply list_elem_of_lookup_2 in Hi. split; [by apply packets_received|]. split; [by destruct p|].
    assert (Hr' : Forall (fun r => (exists params, params ∈ servers_of t (at_port r) /\ quic_admits params (from_stake r) = true) /\
        forall x, from_stake r = Some x -> listed (tpu_staked_nodes_overrides t) evs (from_peer r) x)
      (received s ++ [{| at_port := p; from_peer := peer; from_stake := get_node_stake (staked_nodes s) peer; batch := b |}])).
    { apply Forall_app. split; [done|]. apply Forall_singleton. split; [by exists params|].
      intros x Hx%stake_listed. by apply Hs. }
    by destruct p.
  - intros (f & Hf & [= <-])%bind_Ok_inv. split; [by eapply fetch_step_ok|done].
  - destruct (tpu_chan (stage s)) as [|b l] eqn:Hc; intros [= <-]; [done|]. split; [by apply packets_verified|done].
  - pose proof (updater_turn_listed _ evs now now_after votes _ (last_stakes s) Hev Hs) as Hu.
    destruct (updater_turn _ _ _ _ _) as [shared last]. intros [= <-]. done.
Qed.

Lemma ingress_run_ok t all evs s s' :
  evs ⊆ all -> ingress_ok t all s -> ingress_run t evs s = Ok s' -> ingress_ok t all s'.
Proof.
  revert s. induction evs as [|ev evs IH]; intros s Hsub Hs; cbn; [by intros [= <-]|].
  intros (s1 & Hst & Hrun)%bind_Ok_inv. eapply IH; [set_solver| |exact Hrun]. eapply ingress_step_ok; [|done..]. set_solver.
Qed.

Lemma spawn_servers_params name socks p ps :
  spawn_servers name socks p = Ok ps -> ps = replicate (length socks) p.
Proof.
  revert ps. induction socks as [|sk socks IH]; intros ps; cbn; [by intros [= <-]|].
  intros (_ & _ & H)%bind_Ok_inv. apply bind_Ok_inv in H as (rest & Hr & [= <-]). by rewrite (IH _ Hr).
Qed.

(** C16: what reaches signature verification.  However the servers, the single
    channel operations of the fetch stage and the updater are interleaved, the
    batches taken and still queued for verification are those the TPU servers
    let in, unchanged, merged with copies of the first batches the forward
    servers let in, every packet with its forwarded flag set and otherwise as it
    came; the next ones are held, copied, by the fetch stage, and the others are
    still queued for it: each kind in the order received, none lost, none
    repeated.  A batch at the forwards port, and with no room for unstaked
    connections every batch, came from a peer with a stake that the configured
    overrides or a refresh of the stakes listed for its key. *)
Theorem ingress_origin socks fwd_socks max_unstaked max_staked overrides t start evs s :
  tpu_new socks fwd_socks max_unstaked max_staked overrides = Ok t ->
  ingress_run t evs (ingress_new start) = Ok s ->
  (exists ys hs, merged (verified s ++ tpu_chan (stage s)) (let_in TpuPort s) ys /\
     Forall2 forwarded_batch hs (held (stage s)) /\
     let_in ForwardsPort s = ys ++ hs ++ forwards_chan (stage s)) /\
  forall r, r ∈ received s -> at_port r = ForwardsPort \/ max_unstaked = 0 ->
    exists x, from_stake r = Some x /\ listed overrides evs (from_peer r) x.
Proof.
  intros (tasks & Ht & H)%bind_Ok_inv Hrun. apply bind_Ok_inv in H as (ftasks & Hft & [= <-]).
  apply spawn_servers_params in Ht as ->. apply spawn_servers_params in Hft as ->.
  apply (ingress_run_ok _ evs) in Hrun as (Hm & _ & Hr); [|done|].
  2: { split; [exists [], []; split_and!; [constructor|constructor|done]|]. split; [intros k x [[=]|[=]]|constructor]. }
  split; [done|]. intros r Hin Hport. rewrite Forall_forall in Hr. destruct (Hr r Hin) as [(params & Hp & Ha) Hl].
  destruct (from_stake r) as [st|]; [exists st; split; [done|by apply Hl]|]. exfalso.
  assert (H0 : max_unstaked_connections params = 0).
  { destruct (at_port r); cbn in Hp; apply elem_of_replicate in Hp as [-> _]; [by destruct Hport|done]. }
  by rewrite no_unstaked in Ha.
Qed.
End laws.

End tpu.

(** ** Witness: one server of each kind; an unstaked peer is refused at the
    forwards port *)

#[export] Instance ref_streamer : Streamer Z unit := {|
  MAX_QUIC_CONNECTIONS_PER_PEER := 8;
  default_other_params := tt;
  spawn_server _ _ _ := true;
  get_node_stake s k := match overrides s !! k with Some x => Some x | None => stakes s !! k end;
  quic_admits p st := match st with Some _ => 0 <? max_staked_connections p | None => 0 <? max_unstaked_connections p end;
|}.
#[export] Instance ref_streamer_laws : StreamerLaws Z unit.
Proof.
  split.
  - intros p Hp. cbn. by rewrite Hp.
  - intros s k x. cbn. destruct (overrides s !! k); intros [= <-]; [by left|by right].
Qed.

Definition demo_votes : VoteAccountStatus :=
  {| current := [{| node_pubkey := to_string (A := Pubkey) [7]; activated_stake := 100 |}]; delinquent := [] |}.
Definition demo_ingress_events : list ingress_event := [
  StakesTurn (6 * NANOS) (6 * NANOS) (inr demo_votes);
  ServerReceived TpuPort 0 [8] [ref_packet [1] 0];
  ServerReceived ForwardsPort 0 [8] [ref_packet [2] 0];
  ServerReceived ForwardsPort 0 [7] [ref_packet [3] 0];
  FetchStep true 0 0 0;
  ServerReceived ForwardsPort 0 [7] [ref_packet [4] 0];
  FetchStep true 0 0 0; FetchStep true 0 0 0;
  ServerReceived TpuPort 0 [8] [ref_packet [5] 0];
  FetchStep true 0 0 0; SigverifyTurn].
Definition demo_ingress : result Empty_set ingress :=
  t ← tpu_new [11228] [11229] 500 2000 ∅; ingress_run t demo_ingress_events (ingress_new 0).

Example demo_ingress_result :
  match demo_ingress with
  | Ok s => verified s = [[ref_packet [1] 0]] /\
            tpu_chan (stage s) = [[ref_packet [5] 0]; mark_batch [ref_packet [3] 0]] /\
            held (stage s) = [mark_batch [ref_packet [4] 0]] /\ length (received s) = 4%nat
  | _ => False
  end.
Proof. vm_compute. by split_and!. Qed.

Lemma ingress_origin_witness :
  exists t s, tpu_new (R := unit) [11228] [11229] 500 2000 ∅ = Ok t /\
    ingress_run t demo_ingress_events (ingress_new 0) = Ok s /\
    (exists ys, merged (verified s ++ tpu_chan (stage s)) (let_in TpuPort s) ys) /\
    Forall (fun r => at_port r = ForwardsPort -> is_Some (from_stake r)) (received s).
Proof.
  destruct (tpu_new (R := unit) [11228] [11229] 500 2000 ∅) as [t| |] eqn:Et; [|discriminate Et..].
  exists t. destruct (ingress_run t demo_ingress_events (ingress_new 0)) as [s| |] eqn:Es.
  - destruct (ingress_origin [11228] [11229] 500 2000 ∅ t 0 demo_ingress_events s Et Es) as [(ys & hs & Hm & _) H].
    exists s. split; [reflexivity|]. split; [reflexivity|]. split; [exists ys; exact Hm|].
    apply Forall_forall. intros r Hr Hp. destruct (H r Hr (or_introl Hp)) as (x & Hx & _). exists x. exact Hx.
  - exfalso. injection Et as <-. vm_compute in Es. discriminate Es.
  - exfalso. injection Et as <-. vm_compute in Es. discriminate Es.
Defined.
