(* ===== verification/Shutdown.v ===== *)
(** * The life of the process

    [main] of [src/transaction-relayer/src/main.rs] starts the threads, serves
    gRPC requests until a signal arrives, raises the exit flag and joins the
    threads; [graceful_panic] of [src/core/src/lib.rs] makes a panic of any
    thread raise the flag and, after five seconds, end the process.  Every
    thread of the repository is a loop that reads the flag at its head.

    Between two reads of the flag a thread may wait: in a [send] on a full
    channel, until its receiver makes room or is gone; in a [recv], the fetch
    stage only; in a request to a server without a timeout, the connection to
    the block engine and the threads of the load balancer.  Every other wait
    ends by itself (a receive with a timeout, a sleep, a request with a timeout)
    and is part of the turn.  [main] waits for the clients of its server before
    it joins the threads.  The model keeps of each thread where it is, of each
    bounded channel how much room it has, and of [main] how far it is; what the
    outside world does, packets, signals, clients that hang up and servers that
    answer, is a parameter ([world]). *)

From Stdlib Require Import ZArith Lia String.
From stdpp Require Import base gmap list countable relations.
From S2P Require Import Prelude Interfaces Reference FetchStage Health Forwarder Relayer.

(** ** Threads and channels *)

Inductive thread_id :=
| FetchT | StakesT | SigverifyT | QuicT (i : nat) | QuicForwardsT (i : nat)
| HealthT | LeadersT | ForwarderT | LookupT | EngineT | EventLoopT | SlotsT (i : nat)
| HandlersT.   (** the workers that run the handlers of the gRPC and web servers *)
#[global] Instance thread_id_eq_dec : EqDecision thread_id.
Proof. solve_decision. Defined.
Definition thread_code (t : thread_id) : nat * nat :=
  match t with
  | FetchT => (0, 0) | StakesT => (1, 0) | SigverifyT => (2, 0) | QuicT i => (3, i)
  | QuicForwardsT i => (4, i) | HealthT => (5, 0) | LeadersT => (6, 0) | ForwarderT => (7, 0)
  | LookupT => (8, 0) | EngineT => (9, 0) | EventLoopT => (10, 0) | SlotsT i => (11, i) | HandlersT => (12, 0)
  end%nat.
#[global] Instance thread_id_countable : Countable thread_id.
Proof.
  apply (inj_countable' thread_code (fun c => match c with
    | (0, _) => FetchT | (1, _) => StakesT | (2, _) => SigverifyT | (3, i) => QuicT i
    | (4, i) => QuicForwardsT i | (5, _) => HealthT | (6, _) => LeadersT | (7, _) => ForwarderT
    | (8, _) => LookupT | (9, _) => EngineT | (10, _) => EventLoopT | (11, i) => SlotsT i | (_, _) => HandlersT end)%nat).
  by intros [].
Defined.

(** The bounded channels with a blocking [send]: of delayed packets, of slots on
    both sides of the health manager, of packets to verify, of subscriptions. *)
Inductive chan := DelayPackets | DownstreamSlots | SlotUpdates | TpuPackets | Subscriptions.
#[global] Instance chan_eq_dec : EqDecision chan.
Proof. solve_decision. Defined.
Definition receiver (c : chan) : thread_id :=
  match c with
  | DelayPackets | DownstreamSlots | Subscriptions => EventLoopT
  | SlotUpdates => HealthT
  | TpuPackets => SigverifyT
  end.
Definition sends_on (t : thread_id) : option chan :=
  match t with
  | ForwarderT => Some DelayPackets
  | HealthT => Some DownstreamSlots
  | SlotsT _ => Some SlotUpdates
  | FetchT => Some TpuPackets
  | HandlersT => Some Subscriptions
  | _ => None
  end.
(** What becomes of a sender whose receiver is gone: the load balancer's threads
    log the error and start over, a handler answers the request with an error,
    the others [expect] or [panic!]. *)
Definition survives_closed (t : thread_id) : bool :=
  match t with SlotsT _ | HandlersT => true | _ => false end.
(** The threads that wait for remote servers without a timeout: the client of
    the block engine and the slot subscriptions. *)
Definition calls_servers (t : thread_id) : bool :=
  match t with EngineT | SlotsT _ => true | _ => false end.

(** ** The process *)

(** Where a thread is: at the head of its loop; in the body, with [n] sends to
    do before the next turn; in the first of [S n] sends; in the [recv] of the
    fetch stage; in the requests of a turn to a server; finished; in the panic
    hook. *)
Inductive tstate := Head | Body (n : nat) | Sending (n : nat) | Receiving | Calling | Finished | Panicking.
#[global] Instance tstate_eq_dec : EqDecision tstate.
Proof. solve_decision. Defined.
(** [ServeFailed]: the [expect] on the result of the server has panicked. *)
Inductive main_state := Serving | ServeFailed | Joining (l : list thread_id) | Exited (code : Z).
Record process := {
  exit_flag : bool;
  signalled : bool;                 (** [shutdown_signal] has returned *)
  open_streams : nat;               (** streams of validators, which the server waits for *)
  threads : gmap thread_id tstate;
  room : chan -> nat;
  main : main_state;
}.
#[global] Instance process_eta : Eta process := fun p => {|
  exit_flag := exit_flag p; signalled := signalled p; open_streams := open_streams p;
  threads := threads p; room := room p; main := main p |}.

(** The threads of a configuration: the numbers of sockets and of RPC servers,
    and the optional threads. *)
Record layout := {
  n_quic : nat; n_quic_forwards : nat; n_servers : nat; lookup_enabled : bool; engine_enabled : bool;
}.
Definition indexed (f : nat -> thread_id) (n : nat) : list thread_id := f <$> List.seq 0 n.
Definition quic_tasks (l : layout) : list thread_id :=
  indexed QuicT (n_quic l) ++ indexed QuicForwardsT (n_quic_forwards l).
(** [Tpu::join] *)
Definition tpu_join (l : layout) : list thread_id := [FetchT; StakesT; SigverifyT] ++ quic_tasks l.
(** The joins at the end of [main], in order. *)
Definition main_joins (l : layout) : list thread_id :=
  tpu_join l ++ [HealthT; LeadersT; ForwarderT] ++
  (if lookup_enabled l then [LookupT] else []) ++ (if engine_enabled l then [EngineT] else []).
(** What is started, component by component. *)
Definition spawned (l : layout) : list thread_id :=
  (* [Tpu::new] *)
  indexed QuicT (n_quic l) ++ indexed QuicForwardsT (n_quic_forwards l) ++ [FetchT; StakesT; SigverifyT] ++
  (* the load balancer, the health manager, the leader schedule *)
  indexed SlotsT (n_servers l) ++ [HealthT; LeadersT] ++
  (* the lookup tables, the forwarder, the block engine *)
  (if lookup_enabled l then [LookupT] else []) ++ [ForwarderT] ++ (if engine_enabled l then [EngineT] else []) ++
  (* the relayer service and the servers *)
  [EventLoopT; HandlersT].
(** The event loop, the threads of the load balancer and the workers of the
    servers: nothing waits for them. *)
Definition detached (t : thread_id) : bool :=
  match t with EventLoopT | HandlersT | SlotsT _ => true | _ => false end.
Definition process_new (l : layout) (streams : nat) (rm : chan -> nat) : process := {|
  exit_flag := false; signalled := false; open_streams := streams;
  threads := list_to_map ((fun t => (t, Head)) <$> spawned l); room := rm; main := Serving |}.

(** ** Steps *)

Definition at_ (p : process) (t : thread_id) (st : tstate) : Prop := threads p !! t = Some st.
Definition set_thread (t : thread_id) (st : tstate) (p : process) : process :=
  p <| threads ::= insert t st |>.
(** A panic: the hook installed by [graceful_panic] raises the flag. *)
Definition panic (t : thread_id) (p : process) : process :=
  (set_thread t Panicking p) <| exit_flag := true |>.
(** [shutdown_signal]: Ctrl-C or a termination signal. *)
Definition shutdown_signal (p : process) : process :=
  p <| exit_flag := true |> <| signalled := true |>.
Definition change_room (c : chan) (f : nat -> nat) (p : process) : process :=
  p <| room ::= fun rm d => if decide (d = c) then f (rm d) else rm d |>.
(** A receiver gone: its thread has returned and dropped its channels. *)
Definition gone (p : process) (t : thread_id) : Prop := at_ p t Finished.
Definition all_finished (p : process) (ts : list thread_id) : Prop :=
  forall t st, t ∈ ts -> threads p !! t = Some st -> st = Finished.

Definition main_running (p : process) : Prop := forall code, main p <> Exited code.

Record world := { packets : bool; signals : bool; hang_ups : bool; answers : bool; serve_fails : bool }.

Section steps.
Variable l : layout.

(** What the outside does: whether forwarded packets are queued or still arrive,
    whether signals arrive, whether the clients of the server end up hanging up,
    whether the servers end up answering (an error is an answer), and whether
    the server of [main] may fail. *)
Variable w : world.

Inductive step : process -> process -> Prop :=
(* the flag is read at the head of the loop; signature verification does not read it *)
| step_stop p t : main_running p -> at_ p t Head -> t <> SigverifyT -> exit_flag p = true ->
    step p (set_thread t Finished p)
| step_enter p t n : main_running p -> at_ p t Head -> t <> SigverifyT -> t <> FetchT ->
    exit_flag p = false -> (sends_on t = None -> n = 0%nat) -> step p (set_thread t (Body n) p)
| step_fetch_waits p : main_running p -> at_ p FetchT Head -> exit_flag p = false ->
    step p (set_thread FetchT Receiving p)
(* the body: one receive at most makes room in a channel of the thread *)
| step_turn p t c : main_running p -> at_ p t (Body 0) -> receiver c = t ->
    step p (change_room c S (set_thread t Head p))
| step_turn_quiet p t : main_running p -> at_ p t (Body 0) -> step p (set_thread t Head p)
| step_returns p : main_running p -> at_ p EventLoopT (Body 0) ->
    step p (set_thread EventLoopT Finished p)
| step_panics p t n : main_running p -> at_ p t (Body n) -> step p (panic t p)
(* the requests of a turn, until the last one is answered *)
| step_call p t : main_running p -> at_ p t (Body 0) -> calls_servers t = true -> step p (set_thread t Calling p)
| step_answer p t : main_running p -> answers w = true -> at_ p t Calling -> step p (set_thread t Head p)
| step_answer_panics p t : main_running p -> answers w = true -> at_ p t Calling -> step p (panic t p)
(* sending; signature verification drains its channel whatever the flag says *)
| step_send p t n : main_running p -> at_ p t (Body (S n)) -> step p (set_thread t (Sending n) p)
| step_sent p t n c : main_running p -> at_ p t (Sending n) -> sends_on t = Some c -> c <> TpuPackets ->
    ~ gone p (receiver c) -> (0 < room p c)%nat ->
    step p (change_room c Nat.pred (set_thread t (Body n) p))
| step_sent_tpu p n : main_running p -> at_ p FetchT (Sending n) -> ~ gone p SigverifyT ->
    step p (set_thread FetchT (Body n) p)
| step_closed p t n c : main_running p -> at_ p t (Sending n) -> sends_on t = Some c -> gone p (receiver c) ->
    step p (if survives_closed t then set_thread t Head p else panic t p)
(* the fetch stage: a packet is received, or every forward server is gone *)
| step_packet p n : main_running p -> packets w = true -> at_ p FetchT Receiving ->
    step p (set_thread FetchT (Body n) p)
| step_disconnected p : main_running p -> at_ p FetchT Receiving ->
    all_finished p (indexed QuicForwardsT (n_quic_forwards l)) -> step p (panic FetchT p)
(* signature verification ends when nothing can send to it any more *)
| step_verified p : main_running p -> at_ p SigverifyT Head ->
    all_finished p (FetchT :: indexed QuicT (n_quic l)) -> step p (set_thread SigverifyT Finished p)
(* the hook, the server and the joins *)
| step_hook p t : main_running p -> at_ p t Panicking -> step p (p <| main := Exited 1 |>)
| step_main_hook p : main p = ServeFailed -> step p (p <| main := Exited 1 |>)
| step_signal p : signals w = true -> main p = Serving -> signalled p = false -> step p (shutdown_signal p)
(* a validator subscribes (after a signal the server accepts no connection, and
   after a panic those of the last seconds do not matter); its stream ends when the client hangs up, or when a
   turn of the event loop drops its sender, which only the event loop does *)
| step_connect p : main p = Serving -> exit_flag p = false -> step p (p <| open_streams ::= S |>)
| step_hang_up p n : main_running p -> hang_ups w = true -> open_streams p = S n -> step p (p <| open_streams := n |>)
| step_drop p n : main_running p -> at_ p EventLoopT (Body 0) -> open_streams p = S n -> step p (p <| open_streams := n |>)
| step_serve_fails p : serve_fails w = true -> main p = Serving ->
    step p (p <| exit_flag := true |> <| main := ServeFailed |>)
| step_served p : main p = Serving -> signalled p = true -> open_streams p = 0%nat ->
    step p (p <| exit_flag := true |> <| main := Joining (main_joins l) |>)
| step_join p t ts : main p = Joining (t :: ts) -> at_ p t Finished -> step p (p <| main := Joining ts |>)
| step_return p : main p = Joining [] -> step p (p <| main := Exited 0 |>).

(** ** Well-formed processes *)

(** Waiting threads wait where their code lets them, and the flag is raised for
    a reason. *)
Definition state_fits (t : thread_id) (st : tstate) : Prop :=
  match st with
  | Body (S _) | Sending _ => is_Some (sends_on t)
  | Receiving => t = FetchT
  | Calling => calls_servers t = true
  | _ => True
  end.
Definition tstate_ok (t : thread_id) (st : tstate) : Prop :=
  state_fits t st /\ (t = SigverifyT -> st = Head \/ st = Finished).
Definition process_ok (p : process) : Prop :=
  (forall t, t ∈ spawned l -> is_Some (threads p !! t)) /\
  (forall t st, at_ p t st -> tstate_ok t st) /\
  (exit_flag p = true -> signalled p = true \/ (exists t, at_ p t Panicking) \/
    main p = ServeFailed \/ exists code, main p = Exited code) /\
  (forall ts, main p = Joining ts -> ts `suffix_of` main_joins l /\ exit_flag p = true).

Lemma lookup_set_thread p t st t' :
  threads (set_thread t st p) !! t' = if decide (t = t') then Some st else threads p !! t'.
Proof. cbn. apply lookup_insert. Qed.

Lemma set_thread_ok p t st st' :
  process_ok p -> at_ p t st -> tstate_ok t st' -> (st = Panicking -> st' = Panicking) ->
  process_ok (set_thread t st' p).
Proof.
  intros (Hdom & Hst & Hex & Hj) Ht Hok Hpan. split_and!; [| | |exact Hj].
  - intros t' Hin. rewrite lookup_set_thread. destruct (decide (t = t')); [by eexists|by apply Hdom].
  - intros t' st''. unfold at_. rewrite lookup_set_thread. destruct (decide (t = t')) as [<-|]; [by intros [= <-]|].
    apply Hst.
  - intros He. destruct (Hex He) as [Hsig|[(t' & Ht')|Hm]]; [by left| |by right; right].
    right. left. exists t'. unfold at_ in *. rewrite lookup_set_thread.
    destruct (decide (t = t')) as [<-|]; [|done]. rewrite Ht in Ht'. injection Ht' as ->. by rewrite Hpan.
Qed.

Lemma change_room_ok p c f : process_ok p -> process_ok (change_room c f p).
Proof. done. Qed.

Lemma panic_ok p t st : process_ok p -> at_ p t st -> tstate_ok t Panicking -> process_ok (panic t p).
Proof.
  intros Hp Ht Hok. destruct (set_thread_ok p t st Panicking) as (H1 & H2 & H3 & H4); [done..|].
  split; [exact H1|]. split; [exact H2|]. split.
  - intros _. right. left. exists t. unfold at_. cbn. apply lookup_insert_eq.
  - intros ts Hm. split; [|done]. by apply H4.
Qed.

Lemma tstate_ok_plain t st : t <> SigverifyT -> state_fits t st -> tstate_ok t st.
Proof. by split. Qed.

(** A thread other than signature verification at some state. *)
Lemma not_sigverify p t st : process_ok p -> at_ p t st -> st <> Head -> st <> Finished -> t <> SigverifyT.
Proof. intros (_ & Hst & _) Ht Hh Hf ->. destruct (Hst _ _ Ht) as [_ [->| ->]]; done. Qed.
#[local] Hint Resolve not_sigverify : relayer.

Lemma step_ok p p' : process_ok p -> step p p' -> process_ok p'.
Proof.
  intros Hp Hs. pose proof Hp as (Hdom & Hst & Hex & Hj).
  assert (Hset : forall t st st', at_ p t st -> t <> SigverifyT -> st <> Panicking ->
    state_fits t st' -> process_ok (set_thread t st' p)).
  { intros t st st' Ht Hn Hpan Hm. eapply set_thread_ok; [done|done|by apply tstate_ok_plain|done]. }
  assert (Hpanic : forall t st, at_ p t st -> t <> SigverifyT -> process_ok (panic t p)).
  { intros t st Ht Hn. eapply panic_ok; [done|done|by apply tstate_ok_plain]. }
  destruct Hs as [p t _ Ht Hn _|p t n _ Ht Hn Hnf He Hz|p _ Ht He|p t c _ Ht Hr|p t _ Ht|p _ Ht|p t n _ Ht
    |p t _ Ht Hc|p t _ _ Ht|p t _ _ Ht
    |p t n _ Ht|p t n c _ Ht Hc _ _ _|p n _ Ht _|p t n c _ Ht Hc _|p n _ _ Ht|p _ Ht _|p _ Ht _
    |p t _ Ht|p Hm|p Hsig Hm Hs|p Hm He|p n _ _ _|p n _ _ _|p _ Hm|p Hm Hs _|p t ts Hm Ht|p Hm];
    try done.
  - by eapply Hset.
  - eapply Hset; [done|done|done|]. destruct n; [done|]. cbn. destruct (sends_on t); [by eexists|by specialize (Hz eq_refl)].
  - by eapply Hset.
  - apply change_room_ok. eapply Hset; eauto with relayer; try done.
  - eapply Hset; eauto with relayer; try done.
  - by eapply Hset.
  - eapply Hpanic; eauto with relayer.
  - eapply Hset; eauto with relayer; try done.
  - eapply Hset; eauto with relayer; try done.
  - eapply Hpanic; eauto with relayer.
  - eapply Hset; eauto with relayer; try done; by destruct (Hst _ _ Ht).
  - apply change_room_ok. eapply Hset; eauto with relayer; try done; (destruct n; [done|]); cbn; by rewrite Hc.
  - eapply Hset; [done|done|done|]. destruct n; [done|by eexists].
  - destruct (survives_closed t); [eapply Hset|eapply Hpanic]; eauto with relayer; try done.
  - eapply Hset; [done|done|done|]. destruct n; [done|by eexists].
  - by eapply Hpanic.
  - eapply set_thread_ok; [done|done| |done]. split; [done|]. by right.
  - split; [exact Hdom|]. split; [exact Hst|]. split; [|done]. intros _. do 3 right. by exists 1.
  - split; [exact Hdom|]. split; [exact Hst|]. split; [|done]. intros _. do 3 right. by exists 1.
  - split; [exact Hdom|]. split; [exact Hst|]. split; [by left|]. intros ts Hts. split; [by apply Hj|done].
  - split; [exact Hdom|]. split; [exact Hst|]. split; [|done]. intros _. by do 2 right; left.
  - split; [exact Hdom|]. split; [exact Hst|]. split; [by left|]. intros ts [= <-]. split; [done|done].
  - split; [exact Hdom|]. split; [exact Hst|]. split.
    + intros He. destruct (Hex He) as [?|[?|[?|[code Hc]]]]; [by left|by right; left|congruence..].
    + intros ts' [= <-]. destruct (Hj _ Hm) as [Hsuf He]. split; [|done]. by eapply suffix_cons_l.
  - split; [exact Hdom|]. split; [exact Hst|]. split; [|done]. intros _. do 3 right. by exists 0.
Qed.

Lemma steps_ok p p' : process_ok p -> rtc step p p' -> process_ok p'.
Proof. intros Hp. induction 1 as [p|p p1 p2 Hs _ IH]; [done|]. eapply IH, step_ok; eassumption. Qed.

Lemma step_flag p p' : exit_flag p = true -> step p p' -> exit_flag p' = true.
Proof. intros He. destruct 1; cbn; try done. by destruct (survives_closed t). Qed.

Lemma steps_flag p p' : exit_flag p = true -> rtc step p p' -> exit_flag p' = true.
Proof. intros He. induction 1 as [p|p p1 p2 Hs _ IH]; [done|]. eapply IH, step_flag; eassumption. Qed.

(** ** The measure *)

Definition waiting (st : tstate) : nat := match st with Receiving => 1 | _ => 0 end.
Definition weight (st : tstate) : nat :=
  match st with
  | Head | Receiving => 1
  | Calling => 2
  | Body n => 2 * n + 3
  | Sending n => 2 * n + 4
  | Finished | Panicking => 0
  end.
Definition main_weight (m : main_state) : nat :=
  match m with
  | Serving => length (main_joins l) + 2
  | Joining ts => length ts + 1
  | ServeFailed => 1
  | Exited _ => 0
  end.
Definition waits (p : process) : nat := map_total waiting (threads p).
Definition work (p : process) : nat :=
  map_total weight (threads p) + main_weight (main p) + open_streams p + (if signalled p then 0 else 1).

Lemma waits_set p t st st' : at_ p t st ->
  (waits (set_thread t st' p) + waiting st = waits p + waiting st')%nat.
Proof. intros Ht. unfold waits. cbn. by apply map_total_insert. Qed.
Lemma work_set p t st st' : at_ p t st ->
  (work (set_thread t st' p) + weight st = work p + weight st')%nat.
Proof. intros Ht. unfold work. cbn. pose proof (map_total_insert weight (threads p) t st st' Ht). lia. Qed.
Lemma measure_set p t st st' : at_ p t st ->
  (waiting st' <= waiting st)%nat -> (waiting st' < waiting st \/ weight st' < weight st)%nat ->
  (waits (set_thread t st' p) < waits p \/
   waits (set_thread t st' p) = waits p /\ work (set_thread t st' p) < work p)%nat.
Proof. intros Ht. pose proof (waits_set p t st st' Ht). pose proof (work_set p t st st' Ht). lia. Qed.

(** Once the flag is raised no thread begins another turn: every step takes one
    out of a wait or leaves less to do. *)
Lemma step_decreases p p' : process_ok p -> exit_flag p = true -> step p p' ->
  (waits p' < waits p \/ waits p' = waits p /\ work p' < work p)%nat.
Proof.
  intros Hp He Hs. destruct Hs as [p t _ Ht _ _|p t n _ _ _ _ Hf _|p _ _ Hf|p t c _ Ht _|p t _ Ht|p _ Ht|p t n _ Ht
    |p t _ Ht _|p t _ _ Ht|p t _ _ Ht
    |p t n _ Ht|p t n c _ Ht _ _ _ _|p n _ Ht _|p t n c _ Ht _ _|p n _ _ Ht|p _ Ht _|p _ Ht _
    |p t Hm Ht|p Hm|p _ Hm Hs|p Hm Hf|p n _ _ Hn|p n _ _ Hn|p _ Hm|p Hm _ _|p t ts Hm _|p Hm];
    try congruence.
  all: try (apply (measure_set _ _ _ _ Ht); cbn; lia).
  - destruct (survives_closed t); apply (measure_set _ _ _ _ Ht); cbn; lia.
  - right. unfold waits, work. cbn. split; [done|]. destruct (main p) as [| | |code] eqn:E; cbn; try lia. by destruct (Hm code).
  - right. unfold waits, work. cbn. rewrite Hm. cbn. split; [done|lia].
  - right. unfold waits, work. cbn. rewrite Hs. split; [done|lia].
  - right. unfold waits, work. cbn. split; [done|lia].
  - right. unfold waits, work. cbn. split; [done|lia].
  - right. unfold waits, work. cbn. rewrite Hm. cbn. split; [done|lia].
  - right. unfold waits, work. cbn. rewrite Hm. cbn. split; [done|lia].
  - right. unfold waits, work. cbn. rewrite Hm. cbn. split; [done|lia].
  - right. unfold waits, work. cbn. rewrite Hm. cbn. split; [done|lia].
Qed.

Lemma exit_sn p : process_ok p -> exit_flag p = true -> sn step p.
Proof.
  intros Hp He. apply (sn_lex step (fun p => process_ok p /\ exit_flag p = true) waits work); [|done].
  intros a b [Ha Hea] Hab. split; [split; [by eapply step_ok|by eapply step_flag]|by apply step_decreases].
Qed.

(** ** Progress *)

Definition can_step (p : process) : Prop := red step p.

Lemma all_finished_or p ts :
  all_finished p ts \/ exists t st, t ∈ ts /\ at_ p t st /\ st <> Finished.
Proof.
  induction ts as [|t ts [IH|(t' & st & Hin & Ht & Hst)]].
  - left. intros t st Hin. by apply not_elem_of_nil in Hin.
  - destruct (threads p !! t) as [st|] eqn:E; [destruct (decide (st = Finished)) as [->|Hne]|].
    + left. intros t' st [->|Hin]%elem_of_cons Ht'; [congruence|eauto].
    + right. exists t, st. split; [left|done].
    + left. intros t' st' [->|Hin]%elem_of_cons Ht'; [congruence|eauto].
  - right. exists t', st. split; [by right|done].
Qed.

Lemma sending_or st : (exists n, st = Sending n) \/ (forall n, st <> Sending n).
Proof. destruct st; first [by right|left; by eexists]. Qed.

Section progress.
Context (p : process) (Hp : process_ok p) (Hexit : exit_flag p = true) (Hmain : main_running p).

(** A thread that does not wait for another one, nor for a server that does not
    answer. *)
Lemma own_progress t st : at_ p t st -> t <> SigverifyT -> st <> Finished -> st <> Receiving ->
  (forall n, st <> Sending n) -> (st = Calling -> answers w = true) -> can_step p.
Proof.
  intros Ht Hn Hf Hr Hs Hc. unfold can_step, red. destruct st as [|[|n]|n| | | |]; try done.
  - eexists. by apply step_stop.
  - eexists. by apply (step_turn_quiet _ t).
  - eexists. by apply (step_send _ t n).
  - by destruct (Hs n).
  - eexists. apply (step_answer _ t); auto.
  - eexists. by apply (step_hook _ t).
Qed.

(** A sender moves when its channel has room or its receiver is gone; otherwise
    its receiver has to. *)
Lemma sending_progress t n c : at_ p t (Sending n) -> sends_on t = Some c ->
  (~ gone p (receiver c) -> c <> TpuPackets -> can_step p) -> can_step p.
Proof.
  intros Ht Hc Hr. unfold can_step, red in *.
  destruct (decide (threads p !! receiver c = Some Finished)) as [Hg|Hg].
  - eexists. by eapply (step_closed _ t).
  - destruct (decide (c = TpuPackets)) as [->|Hne]; [|by apply Hr].
    assert (t = FetchT) as -> by (destruct t; naive_solver). eexists. by apply (step_sent_tpu _ n).
Qed.

Lemma event_loop_progress st : at_ p EventLoopT st -> st <> Finished -> can_step p.
Proof.
  intros Ht Hf. pose proof (proj1 (proj2 Hp) _ _ Ht) as [Hok _].
  apply (own_progress _ _ Ht); [done|done| | |by intros ->].
  - by intros ->.
  - intros n ->. destruct Hok as [c Hc]. done.
Qed.

Lemma spawned_state t : t ∈ spawned l -> exists st, at_ p t st.
Proof. intros Hin. destruct (proj1 Hp t Hin) as [st Hst]. by exists st. Qed.
Lemma event_loop_spawned : EventLoopT ∈ spawned l.
Proof. unfold spawned. set_solver. Qed.
Lemma health_spawned : HealthT ∈ spawned l.
Proof. unfold spawned. set_solver. Qed.

Lemma health_progress st : at_ p HealthT st -> st <> Finished -> can_step p.
Proof.
  intros Ht Hf. pose proof (proj1 (proj2 Hp) _ _ Ht) as [Hok _].
  destruct (sending_or st) as [[n ->]|Hs].
  - apply (sending_progress _ _ _ Ht eq_refl). intros Hg _.
    destruct (spawned_state _ event_loop_spawned) as [st' Hel].
    apply (event_loop_progress st' Hel). intros ->. by apply Hg.
  - apply (own_progress _ _ Ht); [done|done| |exact Hs|]; by intros ->.
Qed.

Lemma plain_progress t st : at_ p t st -> st <> Finished -> t <> FetchT -> t <> SigverifyT ->
  (calls_servers t = true -> answers w = true) -> can_step p.
Proof.
  intros Ht Hf Hnf Hns Hans. pose proof (proj1 (proj2 Hp) _ _ Ht) as [Hok _].
  destruct (sending_or st) as [[n ->]|Hs].
  - destruct Hok as [c Hc]. apply (sending_progress _ _ _ Ht Hc). intros Hg Hct.
    destruct c; try done.
    + destruct (spawned_state _ event_loop_spawned) as [st' Hel]. apply (event_loop_progress st' Hel). by intros ->.
    + destruct (spawned_state _ event_loop_spawned) as [st' Hel]. apply (event_loop_progress st' Hel). by intros ->.
    + destruct (spawned_state _ health_spawned) as [st' Hel]. apply (health_progress st' Hel). by intros ->.
    + destruct (spawned_state _ event_loop_spawned) as [st' Hel]. apply (event_loop_progress st' Hel). by intros ->.
  - apply (own_progress _ _ Ht); [done|done|by intros ->|exact Hs|]. intros ->. by apply Hans.
Qed.

Lemma fetch_progress st : at_ p FetchT st -> st <> Finished -> can_step p.
Proof.
  intros Ht Hf. destruct (decide (st = Receiving)) as [->|Hr].
  - destruct (all_finished_or p (indexed QuicForwardsT (n_quic_forwards l))) as [Hall|(t & st & Hin & Hst & Hne)].
    + eexists. by apply step_disconnected.
    + apply (plain_progress _ _ Hst Hne); apply list_elem_of_fmap in Hin as (i & -> & _); done.
  - destruct (sending_or st) as [[n ->]|Hs].
    + by apply (sending_progress _ _ _ Ht eq_refl).
    + apply (own_progress _ _ Ht); [done|done|done|exact Hs|].
      intros ->. by destruct (proj1 (proj2 Hp) _ _ Ht).
Qed.

Lemma panic_progress t : at_ p t Panicking -> can_step p.
Proof. intros Ht. eexists. by apply (step_hook _ t). Qed.

Lemma thread_progress t st : answers w = true -> at_ p t st -> st <> Finished -> can_step p.
Proof.
  intros Hans Ht Hf. destruct (decide (t = FetchT)) as [->|Hnf]; [by eapply fetch_progress|].
  destruct (decide (t = SigverifyT)) as [->|Hns]; [|by eapply plain_progress].
  destruct (proj2 (proj1 (proj2 Hp) _ _ Ht) eq_refl) as [->| ->]; [|done].
  destruct (all_finished_or p (FetchT :: indexed QuicT (n_quic l))) as [Hall|(t & st & Hin & Hst & Hne)].
  - eexists. by apply step_verified.
  - apply elem_of_cons in Hin as [->|Hin]; [by eapply fetch_progress|].
    apply (plain_progress _ _ Hst Hne); apply list_elem_of_fmap in Hin as (i & -> & _); done.
Qed.

(** What [main] joins was started, and of what was started it joins all but
    the detached threads. *)
Lemma main_joins_spawned t : t ∈ main_joins l <-> t ∈ spawned l /\ detached t = false.
Proof.
  assert (Hx : forall f n b, (forall i, detached (f i) = b) -> t ∈ indexed f n -> detached t = b).
  { intros f n b Hd (i & -> & _)%list_elem_of_fmap. apply Hd. }
  pose proof (Hx QuicT (n_quic l) false (fun _ => eq_refl)) as H1.
  pose proof (Hx QuicForwardsT (n_quic_forwards l) false (fun _ => eq_refl)) as H2.
  pose proof (Hx SlotsT (n_servers l) true (fun _ => eq_refl)) as H3.
  assert (H4 : forall (b : bool) t', detached t' = false -> t ∈ (if b then [t'] else []) -> detached t = false).
  { intros [] t' Hd; [by intros ->%list_elem_of_singleton|by intros ?%not_elem_of_nil]. }
  pose proof (H4 (lookup_enabled l) LookupT eq_refl) as H5. pose proof (H4 (engine_enabled l) EngineT eq_refl) as H6.
  assert (H7 : t = FetchT \/ t = StakesT \/ t = SigverifyT \/ t = HealthT \/ t = LeadersT \/ t = ForwarderT ->
    detached t = false) by (by intros [->|[->|[->|[->|[->| ->]]]]]).
  assert (H8 : t = EventLoopT \/ t = HandlersT -> detached t = true) by (by intros [->| ->]).
  unfold main_joins, tpu_join, quic_tasks, spawned.
  rewrite !elem_of_app, !elem_of_cons, !elem_of_nil. clear Hx H4.
  destruct (detached t); intuition discriminate.
Qed.

Lemma exit_progress : hang_ups w = true -> answers w = true -> can_step p.
Proof.
  intros Hang Hans. pose proof Hp as (_ & _ & Hwhy & Hj). destruct (main p) as [| |[|t ts]|code] eqn:Hm.
  - destruct (Hwhy Hexit) as [Hsig|[[t Ht]|[?|[code Hc]]]]; [|by eapply panic_progress|congruence..].
    destruct (open_streams p) as [|n] eqn:Hn; eexists; [by apply step_served|by eapply step_hang_up].
  - eexists. by apply step_main_hook.
  - eexists. by apply step_return.
  - destruct (Hj _ eq_refl) as [[k Hk] _]. destruct (spawned_state t) as [st Hst].
    { apply main_joins_spawned. rewrite Hk. set_solver. }
    destruct (decide (st = Finished)) as [->|Hne]; [eexists; by eapply step_join|by eapply thread_progress].
  - by destruct (Hmain code).
Qed.
End progress.

(** ** Finished threads stay finished *)

Lemma gone_set p t st st' t' : at_ p t st -> st <> Finished -> gone p t' -> gone (set_thread t st' p) t'.
Proof.
  unfold gone, at_. intros Ht Hst Hg. rewrite lookup_set_thread. destruct (decide (t = t')) as [->|]; [congruence|done].
Qed.

Lemma step_gone p p' t' : step p p' -> gone p t' -> gone p' t'.
Proof.
  intros Hs Hg. destruct Hs; try exact Hg.
  all: try (by eapply gone_set).
  destruct (survives_closed t); by eapply gone_set.
Qed.

(** What [main] has joined is finished. *)
Definition joined_ok (p : process) : Prop :=
  match main p with
  | Serving | ServeFailed => True
  | Joining ts => signalled p = true /\ exists k, main_joins l = k ++ ts /\ Forall (gone p) k
  | Exited code => code = 1 \/ (code = 0 /\ signalled p = true /\ Forall (gone p) (main_joins l))
  end.

Lemma step_same_main p p' : step p p' -> main p' = main p ->
  (signalled p = true -> signalled p' = true) -> joined_ok p -> joined_ok p'.
Proof.
  intros Hs Hm Hsig Hj. unfold joined_ok in *. rewrite Hm. destruct (main p).
  - done.
  - done.
  - destruct Hj as (Hsg & k & Hk & Hall). split; [by apply Hsig|]. exists k. split; [done|].
    eapply Forall_impl; [exact Hall|]. intros t. by apply step_gone.
  - destruct Hj as [Hc|(Hc & Hsg & Hall)]; [by left|right]. split_and!; [done|by apply Hsig|].
    eapply Forall_impl; [exact Hall|]. intros t. by apply step_gone.
Qed.

Lemma step_joined p p' : step p p' -> joined_ok p -> joined_ok p'.
Proof.
  intros Hs Hj. pose proof (step_same_main p p' Hs) as Hsame.
  destruct Hs as [| | | | | | | | | | | | |p t n c|p n|p|p|p t|p|p|p|p|p|p|p Hm Hsig|p t ts Hm Ht|p Hm];
    try (by apply Hsame).
  - apply Hsame; [by destruct (survives_closed t)|by destruct (survives_closed t)|done].
  - by left.
  - by left.
  - done.
  - split; [done|]. by exists [].
  - unfold joined_ok in *. rewrite Hm in Hj. cbn in *. destruct Hj as (Hsg & k & Hk & Hall).
    split; [done|]. exists (k ++ [t]). split; [by rewrite Hk, <- app_assoc|]. apply Forall_app_2; [done|]. by constructor.
  - unfold joined_ok in *. rewrite Hm in Hj. cbn in *. destruct Hj as (Hsg & k & Hk & Hall).
    right. split_and!; [done|done|]. by rewrite Hk, app_nil_r.
Qed.

(** ** A silent fetch stage *)

(** The fetch stage waits in its [recv], or has panicked there, and [main] waits
    for it. *)
Definition fetch_stuck (p : process) : Prop :=
  (at_ p FetchT Receiving \/ at_ p FetchT Panicking) /\
  (forall ts, main p = Joining ts -> ts = main_joins l) /\ (forall code, main p = Exited code -> code = 1).

Lemma fetch_stuck_same p p' : fetch_stuck p -> main p' = main p -> threads p' !! FetchT = threads p !! FetchT ->
  fetch_stuck p'.
Proof. unfold fetch_stuck, at_. by intros H -> ->. Qed.

Lemma fetch_stuck_other p t st st' p' : fetch_stuck p -> at_ p t st -> st <> Receiving -> st <> Panicking ->
  main p' = main p -> threads p' = threads (set_thread t st' p) -> fetch_stuck p'.
Proof.
  intros Hf Ht Hr Hpan Hm Hth. apply (fetch_stuck_same p); [done|done|]. rewrite Hth, lookup_set_thread.
  destruct (decide (t = FetchT)) as [->|]; [|done]. destruct Hf as [[Hf|Hf] _]; unfold at_ in *; congruence.
Qed.

Lemma step_fetch_stuck p p' : packets w = false -> fetch_stuck p -> step p p' -> fetch_stuck p'.
Proof.
  intros Hq Hf Hs. destruct Hs as [| | | | | | | | | | | | |p t n c _ Ht|p n _ Hpk|p|p|p t|p Hm|p|p|p|p|p _ Hm|p Hm Hsig|p t ts Hm Ht|p Hm];
    try congruence.
  all: try (by eapply fetch_stuck_other).
  all: try (by eapply fetch_stuck_same).
  - destruct (survives_closed t);
      [by apply (fetch_stuck_other p t (Sending n) Head)|by apply (fetch_stuck_other p t (Sending n) Panicking)].
  - destruct Hf as (_ & Hf). split; [|exact Hf]. right. unfold at_. cbn. apply lookup_insert_eq.
  - destruct Hf as (Hf & _). split; [exact Hf|]. split; [done|]. by intros code [= <-].
  - destruct Hf as (Hf & _). split; [exact Hf|]. split; [done|]. by intros code [= <-].
  - destruct Hf as (Hf & _). split; [exact Hf|]. by split.
  - destruct Hf as (Hf & _). split; [exact Hf|]. split; [|done]. by intros ts [= <-].
  - destruct Hf as (Hf & Hj & _). specialize (Hj _ Hm). unfold main_joins, tpu_join in Hj. cbn in Hj.
    injection Hj as -> _. destruct Hf as [Hf|Hf]; unfold at_ in *; congruence.
  - destruct Hf as (_ & Hj & _). by specialize (Hj _ Hm).
Qed.

(** ** Clients that stay and servers that do not answer *)

(** [main] waits for a stream that nothing ends any more. *)
Definition serving_stuck (p : process) : Prop :=
  exit_flag p = true /\ gone p EventLoopT /\ (0 < open_streams p)%nat /\
  (main p = Serving \/ main p = ServeFailed \/ main p = Exited 1).

Lemma step_serving_stuck p p' : hang_ups w = false -> serving_stuck p -> step p p' -> serving_stuck p'.
Proof.
  intros Hq (He & Hg & Ho & Hm) Hs. pose proof (step_gone p p' EventLoopT Hs Hg) as Hg'.
  pose proof (step_flag p p' He Hs) as He'. split; [done|]. split; [done|]. clear He' Hg'. unfold gone, at_ in *.
  destruct Hs; cbn; try (by split); try congruence; try (split; [lia|naive_solver]).
  1: by destruct (survives_closed t).
  all: exfalso; first [lia|naive_solver congruence].
Qed.

(** A request without an answer never ends. *)
Lemma step_calling p p' t : answers w = false -> at_ p t Calling -> step p p' -> at_ p' t Calling.
Proof.
  intros Hq Hc Hs.
  assert (Hset : forall t' st st', at_ p t' st -> st <> Calling -> threads (set_thread t' st' p) !! t = Some Calling).
  { intros t' st st' Ht' Hne. rewrite lookup_set_thread. destruct (decide (t' = t)) as [->|]; [unfold at_ in *; congruence|done]. }
  destruct Hs; try exact Hc; try congruence; try (by eapply Hset).
  destruct (survives_closed _); by eapply Hset.
Qed.
End steps.

(** ** The table of threads and the components *)

(** The fetch stage panics when its [recv] finds the channel disconnected, and
    when the channel to signature verification is closed. *)
Lemma fetch_panics_disconnected `{PacketApi} s i : fi_first i = None -> fetch_iteration s i = Panic.
Proof. intros Hi. unfold fetch_iteration. by rewrite Hi. Qed.

(** The health manager and the forwarder panic on a closed channel. *)
Lemma health_panics_closed threshold m slot now len :
  health_iteration threshold m (SlotReceived slot false now, len) = Panic.
Proof. unfold health_iteration. cbn. by destruct slot. Qed.

Lemma release_panics_closed {C} `{Mpsc C} delay rd i b buf s :
  fr_send_ok rd i = false -> packet_delay delay <= fr_now rd i - rpb_stamp b -> release (C := C) delay rd i (b :: buf) s = Panic.
Proof. intros Hs Hd. cbn. rewrite (proj2 (Z.ltb_ge _ _)) by lia. by rewrite Hs. Qed.

(** ** The process starts well-formed *)

Lemma process_new_state l streams rm t st : at_ (process_new l streams rm) t st -> st = Head.
Proof.
  unfold at_, process_new. cbn [threads]. intros Ht%elem_of_list_to_map_2. apply list_elem_of_fmap in Ht as (t' & [= _ ->] & _). done.
Qed.

Lemma process_new_spawned l streams rm t : t ∈ spawned l -> is_Some (threads (process_new l streams rm) !! t).
Proof.
  intros Hin. destruct (threads (process_new l streams rm) !! t) eqn:E; [by eexists|exfalso].
  unfold process_new in E. cbn [threads] in E. apply not_elem_of_list_to_map in E. apply E. rewrite <- list_fmap_compose.
  apply list_elem_of_fmap. by exists t.
Qed.

Lemma process_new_ok l streams rm : process_ok l (process_new l streams rm).
Proof.
  split_and!; [apply process_new_spawned| |done|done].
  intros t st Ht%process_new_state. subst st. split; [done|by left].
Qed.

Lemma signal_ok l p : process_ok l p -> main p = Serving -> process_ok l (shutdown_signal p).
Proof. intros (H1 & H2 & _ & _) Hm. split_and!; [exact H1|exact H2|by left|]. cbn. congruence. Qed.

(** ** Theorems *)

Lemma reachable_joined l w streams rm p : rtc (step l w) (process_new l streams rm) p -> joined_ok l p.
Proof.
  intros Hr. assert (joined_ok l (process_new l streams rm)) as H0 by done. revert H0.
  induction Hr as [p|p p1 p2 Hs _ IH]; [done|]. intros H0. by eapply IH, step_joined.
Qed.

(** C5: whatever state the process has come to, once the exit flag is raised (by
    a signal or by a panic) no schedule of the threads runs forever.  If moreover
    the validators that are subscribed end up hanging up and the servers the
    relayer is calling end up answering, the process does not hang: the only
    states without a next step are those in which the process has ended. *)
Theorem shutdown_terminates l w0 w streams rm p :
  rtc (step l w0) (process_new l streams rm) p -> exit_flag p = true ->
  sn (step l w) p /\
  (hang_ups w = true -> answers w = true ->
   forall p', rtc (step l w) p p' -> nf (step l w) p' -> exists code, main p' = Exited code).
Proof.
  intros Hr He. assert (process_ok l p) as Hp by (by eapply steps_ok; [apply process_new_ok|]).
  split; [by apply exit_sn|]. intros Hang Hans p' Hr' Hnf.
  assert (process_ok l p') as Hp' by (by eapply steps_ok).
  destruct (main p') as [| | |code] eqn:Hm; [| | |by exists code]; exfalso; apply Hnf;
    (apply exit_progress; [done|by eapply steps_flag| |done|done]); intros code; congruence.
Qed.

(** C20: the two hypotheses of the previous property are needed.  Once the flag
    is raised, a graceful end (code 0) is out of reach when a validator is still
    subscribed, does not hang up, and the event loop has returned (the senders of
    the streams then stay in the map that the server itself holds, so that
    [serve_with_shutdown] waits for a stream nothing will end), and when the
    thread of the block engine waits for a server that does not answer. *)
Theorem shutdown_blocked l w0 w streams rm p :
  rtc (step l w0) (process_new l streams rm) p -> exit_flag p = true ->
  (hang_ups w = false /\ main p = Serving /\ gone p EventLoopT /\ (0 < open_streams p)%nat) \/
  (answers w = false /\ engine_enabled l = true /\ at_ p EngineT Calling) ->
  forall p', rtc (step l w) p p' -> main p' <> Exited 0.
Proof.
  intros Hr He [(Hq & Hm & Hg & Ho)|(Hq & Hen & Hc)] p' Hr' Hm'.
  - assert (serving_stuck p') as (_ & _ & _ & Hx); [|rewrite Hm' in Hx; naive_solver].
    assert (serving_stuck p) as Hs by (split_and!; [done|done|done|by left]). clear Hm' Hr He.
    clear Hm Hg Ho. induction Hr' as [p'|p0 p1 p2 Hs1 _ IH]; [done|]. by eapply IH, step_serving_stuck.
  - assert (joined_ok l p) as Hj by (by eapply reachable_joined). clear Hr He.
    assert (at_ p' EngineT Calling /\ joined_ok l p') as [Hc' Hj'].
    { clear Hm'. induction Hr' as [p'|p0 p1 p2 Hs1 _ IH]; [done|].
      apply IH; [by eapply step_calling|by eapply step_joined]. }
    unfold joined_ok in Hj'. rewrite Hm' in Hj'. destruct Hj' as [|(_ & _ & Hall)]; [done|].
    rewrite Forall_forall in Hall. specialize (Hall EngineT). unfold gone, at_ in *.
    rewrite Hall in Hc'; [done|]. apply main_joins_spawned. split; [|done]. unfold spawned. rewrite Hen. set_solver.
Qed.

(** C18: the process ends with code 0 only after a signal and with every thread
    it has started finished, those of the TPU, the health manager, the leader
    schedule, the forwarder, the lookup tables and the block engine, so that
    their work is done; only the event loop, the threads of the load balancer
    and the workers of the servers may still be running.  In every other case
    the code is 1. *)
Theorem exit_zero_joined l w streams rm p code :
  rtc (step l w) (process_new l streams rm) p -> main p = Exited code ->
  code = 1 \/
  (code = 0 /\ signalled p = true /\
   forall t, t ∈ spawned l -> t <> EventLoopT -> t <> HandlersT -> (forall i, t <> SlotsT i) -> gone p t).
Proof.
  intros Hr Hm. pose proof (reachable_joined _ _ _ _ _ Hr) as Hj. unfold joined_ok in Hj. rewrite Hm in Hj.
  destruct Hj as [|(-> & Hs & Hall)]; [by left|right]. split_and!; [done|done|]. intros t Hin H1 H2 H3.
  rewrite Forall_forall in Hall. apply Hall, main_joins_spawned. split; [done|].
  destruct t as [| | | | | | | | | | |i|]; try done. by destruct (H3 i).
Qed.

(** C17: a graceful shutdown fails when no forwarded packet arrives any more: if
    the signal comes while the fetch stage waits in its [recv], the process ends
    with code 1 on every schedule, because the fetch stage is woken only by the
    disconnection of its channel and panics on it.  Nothing is assumed of the
    clients and of the servers the relayer calls. *)
Theorem quiet_shutdown_fails l w0 w streams rm p :
  rtc (step l w0) (process_new l streams rm) p -> main p = Serving -> at_ p FetchT Receiving ->
  packets w = false ->
  sn (step l w) (shutdown_signal p) /\
  (forall p', rtc (step l w) (shutdown_signal p) p' -> nf (step l w) p' -> main p' = Exited 1).
Proof.
  intros Hr Hm Hf Hpk.
  assert (process_ok l (shutdown_signal p)) as Hp.
  { apply signal_ok; [|done]. by eapply steps_ok; [apply process_new_ok|]. }
  split; [by apply exit_sn|]. intros p' Hr' Hnf.
  assert (process_ok l p') as Hp' by (by eapply steps_ok).
  assert (exit_flag p' = true) as He' by (by eapply (steps_flag l w (shutdown_signal p))).
  assert (fetch_stuck l p') as (Hfetch & _ & Hcode).
  { assert (fetch_stuck l (shutdown_signal p)) as Hs.
    { split; [by left|]. cbn. rewrite Hm. done. }
    clear Hp' He' Hnf Hm Hf Hp. induction Hr' as [p'|p0 p1 p2 Hs1 _ IH]; [done|]. by eapply IH, step_fetch_stuck. }
  destruct (main p') as [| | |code] eqn:Hm'; [| | |by rewrite (Hcode code)]; exfalso; apply Hnf;
    assert (main_running p') as Hrun by (intros code; congruence);
    (destruct Hfetch as [Hx|Hx]; [by eapply fetch_progress|by eapply panic_progress]).
Qed.

(** ** Runs *)

(** Two sockets, one RPC server; a signal before the first packet. *)
Definition small_layout : layout := {|
  n_quic := 1; n_quic_forwards := 1; n_servers := 1; lookup_enabled := false; engine_enabled := true |}.
Definition small_start : process := process_new small_layout 0 (fun _ => 1%nat).
(** A world in which everything moves on. *)
Definition kind_world : world :=
  {| packets := true; signals := true; hang_ups := true; answers := true; serve_fails := false |}.
Definition stop_order : list thread_id :=
  [EventLoopT; HandlersT; SlotsT 0; FetchT; StakesT; QuicT 0; QuicForwardsT 0; HealthT; LeadersT; ForwarderT; EngineT].
Definition stopped_order (ts : list thread_id) (p : process) : process :=
  foldl (fun p t => set_thread t Finished p) p ts.

Lemma stop_all l w ts p :
  exit_flag p = true -> main p = Serving -> NoDup ts -> Forall (fun t => at_ p t Head /\ t <> SigverifyT) ts ->
  rtc (step l w) p (stopped_order ts p).
Proof.
  revert p. induction ts as [|t ts IH]; intros p He Hm Hnd Hts; [apply rtc_refl|].
  apply NoDup_cons in Hnd as [Hnin Hnd]. apply Forall_cons in Hts as [[Ht Hns] Hts].
  eapply rtc_l; [apply step_stop; [|exact Ht|done|done]|].
  { intros code. congruence. }
  apply IH; [done|done|done|]. apply Forall_forall. intros t' Hin.
  rewrite Forall_forall in Hts. destruct (Hts t' Hin) as [Ht' Hns']. split; [|done].
  unfold at_. rewrite lookup_set_thread. rewrite decide_False; [done|]. by intros ->.
Qed.

(** [main] joins threads that are finished and returns. *)
Lemma join_all l w ts p :
  main p = Joining ts -> Forall (gone p) ts ->
  rtc (step l w) p (p <| main := Exited 0 |>).
Proof.
  revert p. induction ts as [|t ts IH]; intros p Hm Hall.
  - eapply rtc_l; [by apply step_return|apply rtc_refl].
  - apply Forall_cons in Hall as [Ht Hall]. eapply rtc_l; [by eapply step_join|].
    exact (IH (p <| main := Joining ts |>) eq_refl Hall).
Qed.

(** From the start with some streams, a signal comes and every thread reads the
    flag before it waits for anything; [main] is still serving. *)
Abbreviation small_stopped streams :=
  (set_thread SigverifyT Finished (stopped_order stop_order (shutdown_signal (process_new small_layout streams (fun _ => 1%nat))))).
Lemma small_stops w streams : signals w = true ->
  rtc (step small_layout w) (process_new small_layout streams (fun _ => 1%nat)) (small_stopped streams).
Proof.
  intros Hw. eapply rtc_l; [apply step_signal; [done|done|done]|].
  etrans; [apply (stop_all _ _ stop_order); [done|done| |]|].
  - apply (bool_decide_unpack _). vm_compute. exact I.
  - repeat (constructor; [by split|]). constructor.
  - apply rtc_once, step_verified; [done|done|].
    intros t st Hin. change (t ∈ [FetchT; QuicT 0]) in Hin. rewrite !elem_of_cons in Hin.
    destruct Hin as [->|[->|Hin]]; [| |by apply not_elem_of_nil in Hin].
    all: intros Hst; vm_compute in Hst; congruence.
Qed.

(** A graceful shutdown can succeed: when the fetch stage reads the flag before
    it waits, and no validator is subscribed. *)
Example clean_shutdown : exists p, rtc (step small_layout kind_world) small_start p /\ main p = Exited 0.
Proof.
  exists ((small_stopped 0) <| exit_flag := true |> <| main := Joining (main_joins small_layout) |> <| main := Exited 0 |>).
  split; [|done]. etrans; [by apply small_stops|]. eapply rtc_l; [by apply step_served|].
  eapply join_all; [done|]. repeat (constructor; [done|]). constructor.
Qed.

(** The same run with a validator that stays subscribed: every thread is done
    and nothing can move any more. *)
Definition stubborn_world : world :=
  {| packets := true; signals := true; hang_ups := false; answers := true; serve_fails := false |}.

Lemma all_gone_stuck l w p :
  (forall t st, at_ p t st -> st = Finished) -> main p = Serving -> signalled p = true -> (0 < open_streams p)%nat ->
  exit_flag p = true -> hang_ups w = false -> serve_fails w = false -> nf (step l w) p.
Proof.
  intros Hall Hm Hsg Ho He Hh Hf [p' Hs].
  destruct Hs; try congruence; try lia;
    match goal with H : at_ _ _ _ |- _ => by apply Hall in H end.
Qed.

Example stuck_shutdown :
  rtc (step small_layout stubborn_world) (process_new small_layout 1 (fun _ => 1%nat)) (small_stopped 1) /\
  nf (step small_layout stubborn_world) (small_stopped 1).
Proof.
  split; [by apply small_stops|]. apply all_gone_stuck; try done; [|cbn; lia].
  assert (map_Forall (fun _ st => st = Finished) (threads (small_stopped 1))) as Hall; [|exact Hall].
  apply (bool_decide_unpack _). vm_compute. exact I.
Qed.

(** The signal while the fetch stage waits for a packet. *)
Definition small_waiting : process := set_thread FetchT Receiving small_start.
Lemma small_waiting_reachable : rtc (step small_layout kind_world) small_start small_waiting.
Proof. eapply rtc_l; [by apply step_fetch_waits|apply rtc_refl]. Qed.

Lemma shutdown_terminates_witness :
  exit_flag (shutdown_signal small_waiting) = true /\
  sn (step small_layout kind_world) (shutdown_signal small_waiting) /\
  (forall p', rtc (step small_layout kind_world) (shutdown_signal small_waiting) p' ->
     nf (step small_layout kind_world) p' -> exists code, main p' = Exited code).
Proof.
  split; [reflexivity|].
  destruct (shutdown_terminates small_layout kind_world kind_world 0 (fun _ => 1%nat) (shutdown_signal small_waiting))
    as [Hsn Hend]; [|reflexivity|].
  - eapply rtc_r; [apply small_waiting_reachable|by apply step_signal].
  - split; [exact Hsn|exact (Hend eq_refl eq_refl)].
Defined.

Lemma shutdown_blocked_witness :
  nf (step small_layout stubborn_world) (small_stopped 1) /\
  forall p', rtc (step small_layout stubborn_world) (small_stopped 1) p' -> main p' <> Exited 0.
Proof.
  destruct stuck_shutdown as [Hr Hnf]. split; [exact Hnf|].
  apply (shutdown_blocked small_layout stubborn_world stubborn_world 1 (fun _ => 1%nat) (small_stopped 1) Hr eq_refl).
  left. split; [reflexivity|]. split; [reflexivity|]. split; [reflexivity|]. apply Nat.lt_0_1.
Defined.

Lemma exit_zero_joined_witness :
  exists p, main p = Exited 0 /\
    (0 = 1 \/ (0 = 0 /\ signalled p = true /\ forall t, t ∈ spawned small_layout ->
       t <> EventLoopT -> t <> HandlersT -> (forall i, t <> SlotsT i) -> gone p t)).
Proof.
  destruct clean_shutdown as (p & Hr & Hm). exists p. split; [exact Hm|].
  exact (exit_zero_joined small_layout kind_world 0 (fun _ => 1%nat) p 0 Hr Hm).
Defined.

(** No more packets, clients that stay and servers that do not answer. *)
Definition silent_world : world :=
  {| packets := false; signals := true; hang_ups := false; answers := false; serve_fails := false |}.

Lemma quiet_shutdown_fails_witness :
  main small_waiting = Serving /\ at_ small_waiting FetchT Receiving /\
  sn (step small_layout silent_world) (shutdown_signal small_waiting) /\
  (forall p', rtc (step small_layout silent_world) (shutdown_signal small_waiting) p' ->
     nf (step small_layout silent_world) p' -> main p' = Exited 1).
Proof.
  split; [reflexivity|]. split; [reflexivity|].
  apply (quiet_shutdown_fails small_layout kind_world silent_world 0 (fun _ => 1%nat));
    [|reflexivity|reflexivity|reflexivity].
  apply small_waiting_reachable.
Defined.
