(* ===== verification/Main.v ===== *)
(** * The whole start-up ([src/transaction-relayer/src/main.rs])

    [main] checks its arguments, binds the sockets, reads keys and files, and
    starts every component with its part of the configuration.  The function
    [relayer_main] follows it statement by statement and returns what is running
    when the gRPC server starts; a failed [assert!], [expect] or [unwrap] is a
    panic. *)

From Stdlib Require Import ZArith Lia String.
From stdpp Require Import base gmap strings list.
From S2P Require Import Prelude Interfaces Reference InterestFilter Schedule Health Relayer RelayerLoop.
From S2P Require Import AuthInterceptor AuthService BlockEngine LoadBalancer Forwarder Startup StakedNodes Tpu.
From S2P Require Import Shutdown.

(** What [main] reads besides its arguments: the network, files, keys, the name
    of the host and the version it was compiled with. *)
Record world (KP SK VK : Type) := {
  w_public_ip : string -> option IpAddr;          (** [parse_host_port], then [get_public_ip_addr] *)
  w_keypair : string -> option KP;
  w_hostname : option string;
  w_version : string * string * string;
  w_overrides : string -> option (gmap Pubkey Z);
  w_read : string -> option (list Z);
  w_private_key_from_pem : list Z -> option SK;
  w_public_key_from_pem : list Z -> option VK;
}.
Arguments w_public_ip {KP SK VK}. Arguments w_keypair {KP SK VK}. Arguments w_hostname {KP SK VK}.
Arguments w_version {KP SK VK}. Arguments w_overrides {KP SK VK}. Arguments w_read {KP SK VK}.
Arguments w_private_key_from_pem {KP SK VK}. Arguments w_public_key_from_pem {KP SK VK}.

Definition MAX_BUFFERED_REQUESTS : nat := 10.
Definition REQUESTS_PER_SECOND : Z := 5.
Definition SLOT_QUEUE_CAPACITY : nat := 100.

(** [RelayerImpl::new]: the service, the configuration of its event loop and the
    period of the heartbeats in milliseconds. *)
Definition relayer_impl_new (slot_capacity delay_packet_capacity : nat) (ip : IpAddr)
    (quic_ports fwd_quic_ports : list Z) (ofac : gset Pubkey) (batch_size : nat) (all : bool)
    (lookahead heartbeat_tick_time : Z) : RelayerImpl * loop_config * Z :=
  ({| tpu_quic_ports := quic_ports; tpu_fwd_quic_ports := fwd_quic_ports; public_ip := ip; seq := 0 |},
   {| slot_lookahead := lookahead; ofac_addresses := ofac; validator_packet_batch_size := batch_size;
      cfg_forward_all := all; slot_capacity := Z.of_nat slot_capacity;
      subscription_capacity := Z.of_nat SLOT_QUEUE_CAPACITY;
      delay_packet_capacity := Z.of_nat delay_packet_capacity |},
   heartbeat_tick_time).

(** [BlockEngineRelayerHandler::new]: what its thread runs with, if it is started. *)
Record engine_thread (KP : Type) := {
  en_config : BlockEngineConfig;
  en_keypair : KP;
  en_aoi_cache_ttl_s : Z;
  en_ofac_addresses : gset Pubkey;
}.
Arguments en_config {KP}. Arguments en_keypair {KP}.
Arguments en_aoi_cache_ttl_s {KP}. Arguments en_ofac_addresses {KP}.
Definition engine_handler_new {KP} (config : option BlockEngineConfig) (keypair : KP) (ttl : Z)
    (ofac : gset Pubkey) : option (engine_thread KP) :=
  (fun c => {| en_config := c; en_keypair := keypair; en_aoi_cache_ttl_s := ttl; en_ofac_addresses := ofac |})
    <$> config.

Section main.
Context {Sk R KP SK VK : Type}.
Context `{NA : NetApi Sk} `{ST : !Streamer Sk R} `{SG : Signer KP}.
Context `{Ch : Chrono} `{TP : !Text Pubkey} `{TI : !Text IpAddr}.

Record system := {
  sys_warnings : list string;
  sys_listening : list (string * string * Z);
  sys_host_id : string;
  sys_info : Datapoint;
  sys_servers : list (string * string);
  sys_balancer : lb_state;
  sys_refresh_secs : option Z;
  sys_tpu : Tpu (R := R);
  sys_delay_capacity : nat;
  sys_engine_capacity : nat;
  sys_packet_delay_ms : Z;
  sys_disable_mempool : bool;
  sys_engine : option (engine_thread KP);
  sys_health : Z;
  sys_grpc_addr : IpAddr * Z;
  sys_relayer : RelayerImpl;
  sys_loop : loop_config;
  sys_heartbeat_ms : Z;
  sys_store : ValidatorStore;
  sys_auth : AuthServiceImpl SK VK;
  sys_sweep_interval : Z;
  sys_interceptor_algorithm : AlgorithmType;
  sys_web : (IpAddr * Z) * nat * Z;
  sys_layout : layout;
}.

Definition deprecation_warnings (args : Args) : list string :=
  (if cluster args is Some _ then ["--cluster arg is deprecated and may be removed in the next release."%string] else []) ++
  (if region args is Some _ then ["--region arg is deprecated and may be removed in the next release."%string] else []).

Definition listening (kind : string) (ip : IpAddr) (ports : list Z) : list (string * string * Z) :=
  (fun port => (kind, to_string ip, port)) <$> ports.

Definition relayer_info (args : Args) (version : string * string * string) : Datapoint :=
  let '(major, minor, patch) := version in
  {| dp_name := "relayer-info"; dp_tags := [];
     dp_fields := [("mempool_enabled"%string, Boolean (negb (arg_disable_mempool args)));
                   ("version"%string, Str (major ++ "." ++ minor ++ "." ++ patch))] |}.

Definition read_overrides (w : world KP SK VK) (args : Args) : result Empty_set (gmap Pubkey Z) :=
  match staked_nodes_overrides args with
  | None => Ok ∅
  | Some p => unwrap (w_overrides w p)
  end.

(** [fs::read(path)] and the parse of the key. *)
Definition read_key {K} (w : world KP SK VK) (parse : list Z -> option K) (path : string) : result Empty_set K :=
  pem ← unwrap (w_read w path);
  unwrap (parse pem).

Definition threads_of (servers : list (string * string)) (tpu : Tpu (R := R)) (refresh_secs : option Z)
    (engine : option (engine_thread KP)) : layout := {|
  n_quic := length (tpu_servers tpu); n_quic_forwards := length (tpu_forwards_servers tpu);
  n_servers := length servers; lookup_enabled := bool_decide (is_Some refresh_secs);
  engine_enabled := bool_decide (is_Some engine) |}.

(** The checks and readings before any thread is started: the public address, the
    sockets, the keypair, the name of the host and the servers. *)
Record prepared := {
  pr_ip : IpAddr;
  pr_sockets : TpuSockets Sk;
  pr_keypair : KP;
  pr_hostname : string;
  pr_servers : list (string * string);
}.
Definition prepare (args : Args) (w : world KP SK VK) : result Empty_set prepared :=
  ip ← check_addresses args (w_public_ip w (entrypoint_address args));
  sockets ← get_sockets args;
  keypair ← unwrap (w_keypair w (keypair_path args));
  hostname ← unwrap (w_hostname w);
  servers ← pair_servers args;
  Ok {| pr_ip := ip; pr_sockets := sockets; pr_keypair := keypair; pr_hostname := hostname; pr_servers := servers |}.
Definition quic_ports (p : prepared) : list Z := local_port <$> transactions_quic_sockets (pr_sockets p).
Definition quic_fwd_ports (p : prepared) : list Z := local_port <$> transactions_forwards_quic_sockets (pr_sockets p).

(** The components with threads, from the refresher of the lookup tables to the
    relayer service. *)
Record components := {
  co_refresh_secs : option Z;
  co_tpu : Tpu (R := R);
  co_engine : option (engine_thread KP);
  co_relayer : RelayerImpl * loop_config * Z;
}.
Definition start_components (args : Args) (w : world KP SK VK) (p : prepared) : result Empty_set components :=
  let refresh_secs := if enable_lookup_table_refresh args then Some (lookup_table_refresh_secs args) else None in
  overrides ← read_overrides w args;
  tpu ← tpu_new (transactions_quic_sockets (pr_sockets p)) (transactions_forwards_quic_sockets (pr_sockets p))
          (max_unstaked_quic_connections args) (max_staked_quic_connections args) overrides;
  Ok {| co_refresh_secs := refresh_secs; co_tpu := tpu;
        co_engine := engine_handler_new (block_engine_config args) (pr_keypair p) (aoi_cache_ttl_secs args) (ofac_set args);
        co_relayer := relayer_impl_new SLOT_QUEUE_CAPACITY TPU_QUEUE_CAPACITY (pr_ip p) (quic_ports p) (quic_fwd_ports p)
          (ofac_set args) (Z.to_nat (arg_validator_packet_batch_size args)) (arg_forward_all args)
          (arg_slot_lookahead args) (heartbeat_tick_time args) |}.

(** The keys of the tokens and the authentication service. *)
Definition start_auth (args : Args) (w : world KP SK VK) : result Empty_set (AuthServiceImpl SK VK) :=
  signing_key ← read_key w (w_private_key_from_pem w) (signing_key_pem_path args);
  verifying_key ← read_key w (w_public_key_from_pem w) (verifying_key_pem_path args);
  unwrap (match auth_service_new signing_key verifying_key (access_token_ttl_secs args * NANOS)
                  (refresh_token_ttl_secs args * NANOS) (challenge_ttl_secs args * NANOS) with
          | Ok a => Some a | _ => None end).

Definition relayer_main (args : Args) (w : world KP SK VK) : result Empty_set system :=
  p ← prepare args w;
  c ← start_components args w p;
  auth ← start_auth args w;
  Ok {| sys_warnings := deprecation_warnings args;
        sys_listening := listening "TPU quic" (pr_ip p) (quic_ports p) ++
                         listening "TPU forward quic" (pr_ip p) (quic_fwd_ports p);
        sys_host_id := pr_hostname p ++ "_" ++ to_string (signer_pubkey (pr_keypair p));
        sys_info := relayer_info args (w_version w);
        sys_servers := pr_servers p; sys_balancer := lb_new (pr_servers p);
        sys_refresh_secs := co_refresh_secs c; sys_tpu := co_tpu c; sys_delay_capacity := TPU_QUEUE_CAPACITY;
        sys_engine_capacity := BLOCK_ENGINE_FORWARDER_QUEUE_CAPACITY;
        sys_packet_delay_ms := arg_packet_delay_ms args; sys_disable_mempool := arg_disable_mempool args;
        sys_engine := co_engine c; sys_health := missing_slot_unhealthy_secs args * NANOS;
        sys_grpc_addr := (grpc_bind_ip args, grpc_bind_port args);
        sys_relayer := (co_relayer c).1.1; sys_loop := (co_relayer c).1.2; sys_heartbeat_ms := (co_relayer c).2;
        sys_store := validator_store args; sys_auth := auth;
        sys_sweep_interval := challenge_expiration_sleep_interval_secs args * NANOS;
        sys_interceptor_algorithm := Rs256;
        sys_web := (webserver_bind_addr args, MAX_BUFFERED_REQUESTS, REQUESTS_PER_SECOND);
        sys_layout := threads_of (pr_servers p) (co_tpu c) (co_refresh_secs c) (co_engine c) |}.
End main.

(** ** Lemmas *)

Section lemmas.
Context {Sk R KP SK VK : Type}.
Context `{NA : NetApi Sk} `{ST : !Streamer Sk R} `{SG : Signer KP}.
Context `{Ch : Chrono} `{TP : !Text Pubkey} `{TI : !Text IpAddr}.

Lemma tpu_new_lengths s f unstaked staked ov (t : Tpu (R := R)) :
  tpu_new s f unstaked staked ov = Ok t ->
  length (tpu_servers t) = length s /\ length (tpu_forwards_servers t) = length f.
Proof.
  intros (ps & Hp & H)%bind_Ok_inv. apply bind_Ok_inv in H as (qs & Hq & [= <-]). cbn.
  apply spawn_servers_params in Hp as ->. apply spawn_servers_params in Hq as ->. by rewrite !length_replicate.
Qed.

Lemma check_addresses_Ok args found ip :
  check_addresses args found = Ok ip ->
  is_ipv4 ip = true /\ is_loopback ip = false /\ (arg_public_ip args = Some ip \/ (arg_public_ip args = None /\ found = Some ip)).
Proof.
  unfold check_addresses. intros (x & Hx & H)%bind_Ok_inv.
  apply bind_Ok_inv in H as ([] & H1%assert_that_Ok & H). apply bind_Ok_inv in H as ([] & H2%assert_that_Ok & H).
  apply bind_Ok_inv in H as ([] & _ & [= <-]). apply negb_true_iff in H2. split_and!; try done.
  destruct (arg_public_ip args) as [y|]; [injection Hx as <-; by left|]. right.
  destruct found; [|done]. by injection Hx as <-.
Qed.

(** What a successful start went through. *)
Lemma relayer_main_Ok args (w : world KP SK VK) (sys : system) :
  relayer_main args w = Ok sys ->
  exists ip sockets (keypair : KP) tpu overrides,
    check_addresses args (w_public_ip w (entrypoint_address args)) = Ok ip /\
    get_sockets args = Ok sockets /\
    pair_servers args = Ok (sys_servers sys) /\
    tpu_new (transactions_quic_sockets sockets) (transactions_forwards_quic_sockets sockets)
      (max_unstaked_quic_connections args) (max_staked_quic_connections args) overrides = Ok tpu /\
    sys_relayer sys = {| tpu_quic_ports := local_port <$> transactions_quic_sockets sockets;
                         tpu_fwd_quic_ports := local_port <$> transactions_forwards_quic_sockets sockets;
                         public_ip := ip; seq := 0 |} /\
    sys_engine sys = engine_handler_new (block_engine_config args) keypair (aoi_cache_ttl_secs args) (ofac_set args) /\
    ofac_addresses (sys_loop sys) = ofac_set args /\
    sys_layout sys = threads_of (sys_servers sys) tpu (sys_refresh_secs sys) (sys_engine sys) /\
    sys_refresh_secs sys = (if enable_lookup_table_refresh args then Some (lookup_table_refresh_secs args) else None).
Proof.
  intros (p & Hp & H)%bind_Ok_inv. apply bind_Ok_inv in H as (c & Hc & H).
  apply bind_Ok_inv in H as (auth & _ & [= <-]).
  apply bind_Ok_inv in Hp as (ip & Hip & H). apply bind_Ok_inv in H as (sockets & Hso & H).
  apply bind_Ok_inv in H as (kp & _ & H). apply bind_Ok_inv in H as (hn & _ & H).
  apply bind_Ok_inv in H as (servers & Hse & [= <-]).
  apply bind_Ok_inv in Hc as (ov & _ & H). apply bind_Ok_inv in H as (tpu & Htpu & [= <-]).
  by exists ip, sockets, kp, tpu, ov.
Qed.
End lemmas.

(** ** Theorems *)

Section theorems.
Context {Sk R KP SK VK : Type}.
Context `{NA : NetApi Sk} `{NL : !NetLaws Sk} `{ST : !Streamer Sk R} `{SG : Signer KP}.
Context `{Ch : Chrono} `{TP : !Text Pubkey} `{TI : !Text IpAddr}.

(** C15: what a started relayer tells validators to use is what it listens on:
    after any number of requests, [get_tpu_configs] answers the checked public
    address (IPv4, not the loopback) with, six below it, a port that a socket of
    the right kind is bound to; with no server of either kind the request
    panics. *)
Theorem startup_advertises args (w : world KP SK VK) (sys : system (R := R)) n :
  args_ok args -> relayer_main args w = Ok sys -> 6 <= tpu_quic_port args -> 6 <= tpu_quic_fwd_port args -> 0 <= n ->
  let r := (sys_relayer sys) <| seq := n |> in
  if decide (num_tpu_quic_servers args = 0 \/ num_tpu_fwd_quic_servers args = 0) then get_tpu_configs r = Panic
  else exists ip p q,
    get_tpu_configs r =
      Ok ({| tpu := Some {| sock_ip := to_string ip; sock_port := p - 6 |};
             tpu_forward := Some {| sock_ip := to_string ip; sock_port := q - 6 |} |},
          r <| seq := u64_add n 1 |>) /\
    p ∈ tpu_ports args /\ q ∈ fwd_ports args /\ p <> q /\ is_ipv4 ip = true /\ is_loopback ip = false.
Proof.
  intros Hargs Hmain H6 H6f Hn r.
  apply relayer_main_Ok in Hmain as (ip & sockets & kp & t & ov & Hip & Hso & _ & _ & Hr & _).
  destruct (get_sockets_Ok _ _ Hargs Hso) as (Hp & Hf & Hd & Hu).
  apply check_addresses_Ok in Hip as (Hv4 & Hlb & _).
  assert (Hports : tpu_quic_ports r = tpu_ports args /\ tpu_fwd_quic_ports r = fwd_ports args /\ public_ip r = ip /\ seq r = n).
  { unfold r. cbn. by rewrite Hr. }
  clearbody r. destruct Hports as (Hpr & Hfr & Hipr & Hsr). unfold get_tpu_configs. cbn -[advertised_port u64_add].
  rewrite Hpr, Hfr, Hipr, Hsr.
  destruct (decide _) as [Hz|Hnz].
  { destruct Hargs as (_ & Hn1 & _ & Hn2). unfold tpu_ports, fwd_ports.
    destruct Hz as [Hz|Hz]; rewrite Hz; [reflexivity|].
    destruct (advertised_port (seqZ (tpu_quic_port args) _) n) eqn:E; [reflexivity| |reflexivity]. exfalso.
    unfold advertised_port in E. destruct (negb _); [|done]. cbn in E. by destruct (seqZ _ _ !! _). }
  assert (Hne : tpu_ports args <> [] /\ fwd_ports args <> []).
  { destruct Hargs as (_ & Hn1 & _ & Hn2). unfold is_u16 in *. unfold tpu_ports, fwd_ports.
    split; intros He%(f_equal length); rewrite length_seqZ in He; cbn in He; lia. }
  destruct (advertised_port_lookup (tpu_ports args) n) as (p & Hlp & ->); [apply Hne|done|].
  destruct (advertised_port_lookup (fwd_ports args) n) as (q & Hlq & ->); [apply Hne|done|].
  apply list_elem_of_lookup_2 in Hlp, Hlq. cbn -[u64_add].
  rewrite Forall_forall in Hu. unfold is_u16, u16_max in Hu.
  pose proof (Hu p (proj2 (elem_of_app _ _ _) (or_introl Hlp))) as Hpu.
  pose proof (Hu q (proj2 (elem_of_app _ _ _) (or_intror Hlq))) as Hqu.
  assert (6 <= p) by (apply elem_of_seqZ in Hlp; lia). assert (6 <= q) by (apply elem_of_seqZ in Hlq; lia).
  rewrite !wrap_small by lia. exists ip, p, q. split_and!; try done. intros <-. by apply (Hd p).
Qed.

(** The arguments reach the components: the threads that run are one per
    configured server, and the optional ones exactly when they are asked for;
    validators and block engine are shielded by the same OFAC list; and the
    tables of the load balancer have the servers of the two lists, paired by
    position. *)
Theorem startup_layout args (w : world KP SK VK) (sys : system (R := R)) :
  args_ok args -> relayer_main args w = Ok sys ->
  n_quic (sys_layout sys) = Z.to_nat (num_tpu_quic_servers args) /\
  n_quic_forwards (sys_layout sys) = Z.to_nat (num_tpu_fwd_quic_servers args) /\
  n_servers (sys_layout sys) = length (rpc_servers args) /\
  sys_servers sys = zip (rpc_servers args) (websocket_servers args) /\
  lookup_enabled (sys_layout sys) = enable_lookup_table_refresh args /\
  (engine_enabled (sys_layout sys) = true <->
     arg_disable_mempool args = false /\ is_Some (arg_block_engine_url args)) /\
  ofac_addresses (sys_loop sys) = ofac_set args /\
  (forall e, sys_engine sys = Some e -> en_ofac_addresses e = ofac_set args).
Proof.
  intros Hargs Hmain.
  apply relayer_main_Ok in Hmain as
    (ip & sockets & kp & t & ov & _ & Hso & Hse & Ht & _ & Hen & Hof & Hl & Hrf).
  destruct (get_sockets_Ok _ _ Hargs Hso) as (Hp & Hf & _ & _).
  apply tpu_new_lengths in Ht as [Ht1 Ht2].
  apply (f_equal length) in Hp, Hf. rewrite length_fmap in Hp, Hf. unfold tpu_ports, fwd_ports in *.
  rewrite length_seqZ in Hp, Hf.
  apply bind_Ok_inv in Hse as ([] & Hlen%assert_that_Ok & [= Hse]). apply Nat.eqb_eq in Hlen.
  rewrite Hl. cbn. split_and!; try congruence.
  - rewrite <- Hse, length_zip. lia.
  - rewrite Hrf. by destruct (enable_lookup_table_refresh args).
  - rewrite bool_decide_eq_true, Hen. unfold engine_handler_new. rewrite fmap_is_Some. unfold block_engine_config.
    destruct (arg_disable_mempool args); cbn.
    + split; [intros H; by apply is_Some_None in H|by intros [? _]].
    + destruct (arg_block_engine_url args); cbn.
      * split; [intros _; split; [done|by eexists]|intros _; by eexists].
      * split; [intros H; by apply is_Some_None in H|intros [_ H]; by apply is_Some_None in H].
  - intros e He. rewrite Hen in He. unfold engine_handler_new in He.
    destruct (block_engine_config args); [|done]. by injection He as <-.
Qed.
End theorems.

(** ** Witnesses *)

(** A host with every file in place; a PEM file holds one number, its key. *)
Definition demo_world : world (list Z) Z Z := {|
  w_public_ip := fun _ => Some (V4 203 0 113 7);
  w_keypair := fun path => if decide (path = "id.json"%string) then Some [1; 2; 3] else None;
  w_hostname := Some "relayer-1"%string; w_version := ("0"%string, "4"%string, "2"%string);
  w_overrides := fun _ => None;
  w_read := fun path => if decide (path = "priv.pem"%string \/ path = "pub.pem"%string) then Some [5] else None;
  w_private_key_from_pem := head; w_public_key_from_pem := head |}.
Definition demo_start : result Empty_set (system (R := unit) (KP := list Z) (SK := Z) (VK := Z)) :=
  relayer_main (Sk := Z) demo_args demo_world.

Lemma startup_advertises_witness :
  exists sys, demo_start = Ok sys /\
    exists ip p q x,
      get_tpu_configs ((sys_relayer sys) <| seq := 5 |>) = Ok x /\ sock_port <$> tpu x.1 = Some (p - 6) /\
      p ∈ tpu_ports demo_args /\ q ∈ fwd_ports demo_args /\ is_ipv4 ip = true.
Proof.
  destruct demo_start as [sys| |] eqn:E; [|vm_compute in E; discriminate..].
  exists sys. split; [reflexivity|].
  pose proof (startup_advertises demo_args demo_world sys 5) as H. cbn zeta in H.
  destruct H as (ip & p & q & Hx & Hp & Hq & _ & Hv & _).
  - vm_compute. repeat split; discriminate.
  - exact E.
  - vm_compute. discriminate.
  - vm_compute. discriminate.
  - lia.
  - exists ip, p, q. eexists. split; [exact Hx|]. split; [reflexivity|]. split_and!; assumption.
Defined.

Lemma startup_layout_witness :
  exists sys, demo_start = Ok sys /\ n_quic (sys_layout sys) = 2%nat /\ n_quic_forwards (sys_layout sys) = 3%nat /\
    engine_enabled (sys_layout sys) = false.
Proof.
  destruct demo_start as [sys| |] eqn:E; [|vm_compute in E; discriminate..].
  exists sys. split; [reflexivity|].
  destruct (startup_layout demo_args demo_world sys) as (H1 & H2 & _ & _ & _ & H3 & _).
  - vm_compute. repeat split; discriminate.
  - exact E.
  - split; [exact H1|]. split; [exact H2|]. destruct (engine_enabled _); [|reflexivity].
    destruct (proj1 H3 eq_refl) as [_ [u Hu]]. discriminate.
Defined.
